(** * Intra-node all-reduce (torch/csrc/distributed/c10d/intra_node_comm.cu)

    A shallow embedding of the host-side dispatcher, the launch geometry,
    the algorithm selector, the hybrid-cube-mesh topology analyser and the
    three reduction kernels, together with the properties the specification
    states about them.

    Conventions.
    - [size_t] values are integers in [Z] reduced modulo [2^64] wherever the
      source computes them; [uint32_t] / [unsigned int] values are reduced
      modulo [2^32].  The reductions are written out ([wrap64], [wrap32]).
    - Division and remainder by zero are undefined in C++ (the program
      traps); [Z.div] and [Z.modulo] give zero there, so the model speaks
      for the code only where the divisors are not zero.
    - [TORCH_CHECK] failures and [C10_THROW_ERROR] are values of [result]. *)

From Stdlib Require Import ZArith List Lia Bool String Permutation.
Import ListNotations.
Local Open Scope Z_scope.

(** ** Machine integers *)

Definition wrap32 (v : Z) : Z := v mod 2 ^ 32.
Definition wrap64 (v : Z) : Z := v mod 2 ^ 64.

(** ** Exceptions *)

Inductive exception : Type :=
| Error (what : string)        (* c10::Error, raised by TORCH_CHECK *)
| ValueError (what : string).  (* c10::ValueError *)

Inductive result (A : Type) : Type :=
| Ok (a : A)
| Throw (e : exception).
Arguments Ok {A} a.
Arguments Throw {A} e.

Definition bind {A B} (m : result A) (f : A -> result B) : result B :=
  match m with
  | Ok a => f a
  | Throw e => Throw e
  end.

Notation "x <- m ;; k" := (bind m (fun x => k))
  (at level 61, m at next level, right associativity).

Definition TORCH_CHECK (cond : bool) (what : string) : result unit :=
  if cond then Ok tt else Throw (Error what).

(** ** Compile-time constants (lines 10-17) *)

Definition kBytesPerThread : Z := 16.
Definition kMaxAllReduceBlocks : Z := 24.
Definition kThreadsPerBlock : Z := 1024.
Definition kWarpSize : Z := 32.

Definition kHcmThreshBytes : Z := 256 * 1024.
Definition kOneShotThreshBytes : Z := 256 * 1024.
Definition kTwoShotThreshBytes : Z := 10 * 1024 * 1024.

(** Modelled from the spec: [kMaxDevices] is declared in intra_node_comm.hpp,
    which is not among the sources; the specification fixes it to 8. *)
Definition kMaxDevices : Z := 8.

(** ** divUp, alignUp (lines 413-419)

    Both take [uint32_t] arguments, so a 64-bit argument is truncated at the
    call, and the sum [a + b - 1] is computed modulo [2^32].  Both return
    [size_t]; the product in [alignUp] is a 64-bit product. *)

Definition divUp (a b : Z) : Z :=
  let a := wrap32 a in
  let b := wrap32 b in
  wrap32 (a + b - 1) / b.

Definition alignUp (a b : Z) : Z :=
  wrap64 (divUp a b * wrap32 b).

(** The mathematical ceiling of a quotient, for the statements. *)
Definition ceil_div (a b : Z) : Z :=
  if a mod b =? 0 then a / b else a / b + 1.

(** ** getLaunchConfig (lines 430-453) *)

Record dim3 : Type := mkDim3 { dim_x : Z; dim_y : Z; dim_z : Z }.

Definition getLaunchConfig (N_aligned elemSize : Z) : result (dim3 * dim3) :=
  let numelPerThread := kBytesPerThread / elemSize in
  let numelPerWarp := wrap64 (numelPerThread * kWarpSize) in
  _ <- TORCH_CHECK (N_aligned mod numelPerThread =? 0)
         "N_aligned % numelPerThread == 0" ;;
  _ <- TORCH_CHECK (N_aligned mod numelPerWarp =? 0)
         "N_aligned % numelPerWarp == 0" ;;
  if N_aligned <? wrap64 (numelPerThread * kThreadsPerBlock) then
    let threads_x := wrap32 (wrap64 (N_aligned / numelPerWarp * kWarpSize)) in
    let blocks_x := 1 in
    Ok (mkDim3 blocks_x 1 1, mkDim3 threads_x 1 1)
  else
    let warpsRequired := N_aligned / numelPerWarp in
    let threadsRequired := N_aligned / numelPerThread in
    let blocks_x :=
      wrap32 (Z.min (divUp threadsRequired kThreadsPerBlock)
                    kMaxAllReduceBlocks) in
    let warpsPerBlock := divUp warpsRequired blocks_x in
    let threads_x :=
      wrap32 (Z.min kThreadsPerBlock (wrap64 (warpsPerBlock * kWarpSize))) in
    Ok (mkDim3 blocks_x 1 1, mkDim3 threads_x 1 1).

(** ** Tensors, topologies, algorithms

    [Topology] and [AllReduceAlgo] are declared in intra_node_comm.hpp; the
    enumerators below are the ones this file uses, together with the third
    topology the specification lists.  A value of the enumeration's
    underlying type that names no enumerator is [ALGO_OTHER]. *)

Inductive Topology : Type :=
| UNSUPPORTED
| FULLY_CONNECTED
| HYBRID_CUBE_MESH.

Inductive AllReduceAlgo : Type :=
| NONE
| ONE_SHOT
| TWO_SHOT
| HCM
| ALGO_OTHER (underlying : Z).

Inductive ScalarType : Type :=
| kByte | kChar | kShort | kInt | kLong
| kHalf | kFloat | kDouble | kBool | kBFloat16.

Definition itemsize (t : ScalarType) : Z :=
  match t with
  | kByte | kChar | kBool => 1
  | kShort | kHalf | kBFloat16 => 2
  | kInt | kFloat => 4
  | kLong | kDouble => 8
  end.

Definition ScalarType_eqb (a b : ScalarType) : bool :=
  match a, b with
  | kByte, kByte | kChar, kChar | kShort, kShort | kInt, kInt
  | kLong, kLong | kHalf, kHalf | kFloat, kFloat | kDouble, kDouble
  | kBool, kBool | kBFloat16, kBFloat16 => true
  | _, _ => false
  end.

(** Device memory is a family of allocations: the caller's tensor storage on
    each device, the peer buffer [buffers[r]] of each device, and the
    temporary that [new_empty] allocates in [twoShotAllReduce]. *)
Inductive region : Type :=
| Input (rank : Z)
| Scratch (rank : Z)
| Buffer (rank : Z).

Definition region_eqb (a b : region) : bool :=
  match a, b with
  | Input r, Input r' | Scratch r, Scratch r' | Buffer r, Buffer r' => r =? r'
  | _, _ => false
  end.

(** A device pointer: an allocation and an element offset into it. *)
Definition pointer : Type := region * Z.

Definition ptr_add (p : pointer) (n : Z) : pointer := (fst p, snd p + n).

Definition pointer_eqb (p q : pointer) : bool :=
  region_eqb (fst p) (fst q) && (snd p =? snd q).

(** The peer-buffer table that the rendezvous hands to every rank: entry [r]
    is the buffer owned by rank [r]. *)
Definition buffers (rank : Z) : pointer := (Buffer rank, 0).

Record Tensor : Type := mkTensor {
  dtype : ScalarType;
  numel : Z;                              (* int64_t *)
  is_non_overlapping_and_dense : bool;
  is_cuda : bool;
  get_device : Z;
  data_ptr : pointer
}.

Definition element_size (t : Tensor) : Z := itemsize (dtype t).

(** ** selectAllReduceAlgo (lines 654-681)

    [kMaxIntraNodeSize] is declared in intra_node_comm.hpp and is a parameter
    of the model. *)

Definition selectAllReduceAlgo (kMaxIntraNodeSize : Z)
    (input : Tensor) (topology : Topology) (worldSize : Z)
  : result AllReduceAlgo :=
  if negb (ScalarType_eqb (dtype input) kBFloat16)
     || (wrap64 (numel input * element_size input) >? kMaxIntraNodeSize)
  then Ok NONE
  else
    let numel := numel input in
    let numelPerWarp :=
      wrap64 (kBytesPerThread / element_size input * kWarpSize) in
    hcm <-
      match topology with
      | HYBRID_CUBE_MESH =>
          _ <- TORCH_CHECK (worldSize =? 8)
                 "hyperCubeAllReduce only supports exactly 8 GPUs" ;;
          Ok (alignUp numel numelPerWarp <=? kHcmThreshBytes)
      | _ => Ok false
      end ;;
    if hcm : bool then Ok HCM
    else
      match topology with
      | FULLY_CONNECTED =>
          if alignUp numel numelPerWarp <=? kOneShotThreshBytes then
            Ok ONE_SHOT
          else if alignUp numel (wrap64 (numelPerWarp * worldSize))
                  <=? kTwoShotThreshBytes then
            Ok TWO_SHOT
          else Ok NONE
      | _ => Ok NONE
      end.

Definition bf16Tensor (n : Z) (rank : Z) : Tensor :=
  mkTensor kBFloat16 n true true rank (Input rank, 0).

(** [input.new_empty(n)]: a fresh allocation on the tensor's device. *)
Definition new_empty (input : Tensor) (n : Z) : Tensor :=
  mkTensor (dtype input) n true (is_cuda input) (get_device input)
           (Scratch (get_device input), 0).

(** ** Loops

    [seqZ n] is the index range [0, n) of a counted [for] loop.  [foldM]
    threads a state through a loop body that may fail. *)

Definition seqZ (n : Z) : list Z := map Z.of_nat (seq 0 (Z.to_nat n)).

Fixpoint foldM {A S : Type} (f : A -> S -> option S) (l : list A) (s : S)
  : option S :=
  match l with
  | [] => Some s
  | a :: l' =>
      match f a s with
      | Some s' => foldM f l' s'
      | None => None
      end
  end.

(** The grid-stride loop [for (size_t i = offset; i < bound; i += stride)].
    The recursion is on [fuel]; running out of it is [None]. *)
Fixpoint forStride {S : Type} (fuel : nat) (i bound stride : Z)
    (body : Z -> S -> S) (s : S) : option S :=
  if i <? bound then
    match fuel with
    | O => None
    | Datatypes.S fuel' =>
        forStride fuel' (wrap64 (i + stride)) bound stride body (body i s)
    end
  else Some s.

(** Every thread of a launch, block by block: the threads of one launch
    write disjoint locations between two barriers, so the model runs them one
    after the other. *)
Definition forThreads {S : Type} (gridDim blockDim : Z)
    (thread : Z -> Z -> S -> option S) (s : S) : option S :=
  foldM (fun blockIdx =>
           foldM (fun threadIdx => thread blockIdx threadIdx) (seqZ blockDim))
        (seqZ gridDim) s.

(** ** getHybridCubeMesh (lines 282-335)

    [NvlMesh] and [HybridCubeMesh] are fixed-size arrays of arrays
    ([kMaxDevices] rows of [kMaxDevices] link counts, and of four [int]s);
    they are total maps on indices, read on the index ranges of the loops.
    An unset table entry is [-1]. *)

Definition NvlMesh : Type := Z -> Z -> Z.
Definition HybridCubeMesh : Type := Z -> Z -> Z.

Definition setRow {A : Type} (arr : Z -> A) (i : Z) (v : A) : Z -> A :=
  fun i' => if i' =? i then v else arr i'.

Definition setEntry (t : HybridCubeMesh) (i k v : Z) : HybridCubeMesh :=
  fun i' k' => if (i' =? i) && (k' =? k) then v else t i' k'.

Definition meshOfRows (rows : list (list Z)) : NvlMesh :=
  fun i j => nth (Z.to_nat j) (nth (Z.to_nat i) rows []) 0.

Definition rowsOfTable (t : HybridCubeMesh) : list (list Z) :=
  map (fun i => map (t i) (seqZ 4)) (seqZ kMaxDevices).

Fixpoint foldR {A S : Type} (f : A -> S -> result S) (l : list A) (s : S)
  : result S :=
  match l with
  | [] => Ok s
  | a :: l' => s' <- f a s ;; foldR f l' s'
  end.

(** [neighbors[i].erase(x)] *)
Definition erase (x : Z) (s : list Z) : list Z := remove Z.eq_dec x s.

Section Topology.

(** A [std::unordered_set<size_t>] is the list of its elements in insertion
    order.  The order in which a range-[for] visits them is not determined by
    the language; [enumerate] is that order, a parameter of the model. *)
Variable enumerate : list Z -> list Z.

(** Lines 283-292: the neighbor sets and the neighbor bit masks. *)
Definition buildNeighbors (nvlMesh : NvlMesh)
  : (Z -> list Z) * (Z -> Z) :=
  fold_left
    (fun st i =>
       fold_left
         (fun st j =>
            let '(neighbors, neighborMasks) := st in
            if nvlMesh i j >? 0 then
              (setRow neighbors i (neighbors i ++ [j]),
               setRow neighborMasks i
                      (Z.lor (neighborMasks i) (wrap64 (Z.shiftl 1 j))))
            else st)
         (seqZ kMaxDevices) st)
    (seqZ kMaxDevices)
    (fun _ => [], fun _ => 0).

(** Lines 301-318, one iteration: [None] is [return std::nullopt]. *)
Definition recognizeRow (neighborMasks : Z -> Z) (i : Z)
    (st : (Z -> list Z) * HybridCubeMesh)
  : option ((Z -> list Z) * HybridCubeMesh) :=
  let '(neighbors, hcm) := st in
  if negb (Z.of_nat (List.length (neighbors i)) =? 4) then None
  else
    let relayNeighbors :=
      filter (fun j => Z.land (neighborMasks i) (neighborMasks j) =? 0)
             (seqZ kMaxDevices) in
    if negb (Z.of_nat (List.length relayNeighbors) =? 1) then None
    else
      let relay := nth 0 relayNeighbors 0 in
      Some (setRow neighbors i (erase relay (neighbors i)),
            setEntry hcm i 3 relay).

(** Lines 321-332, one iteration of the loop over [k]: the range-[for] with
    its [break], the assertion, and the erase. *)
Definition assignColumn (i k : Z) (st : (Z -> list Z) * HybridCubeMesh)
  : result ((Z -> list Z) * HybridCubeMesh) :=
  let '(neighbors, hcm) := st in
  let hcm :=
    match find (fun j => hcm j k =? -1) (enumerate (neighbors i)) with
    | Some j => setEntry (setEntry hcm i k j) j k i
    | None => hcm
    end in
  _ <- TORCH_CHECK (negb (hcm i k =? -1)) "hcm[i][k] != -1" ;;
  Ok (setRow neighbors i (erase (wrap64 (hcm i k)) (neighbors i)), hcm).

Definition assignColumns (st : (Z -> list Z) * HybridCubeMesh)
  : result ((Z -> list Z) * HybridCubeMesh) :=
  foldR (fun i => foldR (fun k => assignColumn i k) (seqZ 3))
        (seqZ kMaxDevices) st.

Definition getHybridCubeMesh (nvlMesh : NvlMesh)
  : result (option HybridCubeMesh) :=
  let '(neighbors, neighborMasks) := buildNeighbors nvlMesh in
  let hcm : HybridCubeMesh := fun _ _ => -1 in
  match foldM (recognizeRow neighborMasks) (seqZ kMaxDevices)
              (neighbors, hcm) with
  | None => Ok None
  | Some st =>
      st <- assignColumns st ;;
      Ok (Some (snd st))
  end.

End Topology.

(** Two enumeration orders: the insertion order, and its reverse (what a
    node-chained hash table that links each new node at the head of its list
    yields when every key has a bucket of its own). *)
Definition insertionOrder (s : list Z) : list Z := s.
Definition reverseInsertionOrder (s : list Z) : list Z := rev s.

(** *** Signal cells of the hybrid-cube-mesh kernel (lines 352-357, 389-392)

    [&p2pStates[owner]->signals0[block][column]] *)
Record signalCell : Type := mkSignalCell {
  cell_owner : Z;
  cell_phase : Z;
  cell_block : Z;
  cell_column : Z
}.

Definition hcmBarrierReleases (hcmInfo : Z -> Z) (rank blockIdx : Z)
  : list signalCell :=
  map (fun threadIdx => mkSignalCell (hcmInfo threadIdx) 0 blockIdx rank)
      (seqZ 3).

Definition hcmBarrierAcquires (hcmInfo : Z -> Z) (rank blockIdx : Z)
  : list signalCell :=
  map (fun threadIdx => mkSignalCell rank 0 blockIdx (hcmInfo threadIdx))
      (seqZ 3).

Definition hcmRelayRelease (hcmInfo : Z -> Z) (rank blockIdx : Z)
  : signalCell :=
  mkSignalCell (hcmInfo 3) 0 blockIdx rank.

Definition hcmRelayAcquire (hcmInfo : Z -> Z) (rank blockIdx : Z)
  : signalCell :=
  mkSignalCell rank 0 blockIdx (hcmInfo 3).


(** Whether the recognition loop (lines 301-318) runs to its end on a mesh,
    without [return std::nullopt]. *)
Definition passesRecognition (nvlMesh : NvlMesh) : bool :=
  let '(neighbors, neighborMasks) := buildNeighbors nvlMesh in
  let hcm : HybridCubeMesh := fun _ _ => -1 in
  match foldM (recognizeRow neighborMasks) (seqZ kMaxDevices)
              (neighbors, hcm) with
  | Some _ => true
  | None => false
  end.

(** The outcome of [getHybridCubeMesh] with the table read out row by row. *)
Definition tableRows (r : result (option HybridCubeMesh))
  : result (option (list (list Z))) :=
  match r with
  | Ok (Some t) => Ok (Some (rowsOfTable t))
  | Ok None => Ok None
  | Throw e => Throw e
  end.

(** *** Link matrices

    The NVLink matrix of an eight-GPU hybrid cube mesh: two fully connected
    quads [0..3] and [4..7], and a link between GPU [i] and GPU [i + 4]. *)
Definition dgx1Mesh : NvlMesh :=
  meshOfRows
    [[0; 1; 1; 1; 1; 0; 0; 0];
     [1; 0; 1; 1; 0; 1; 0; 0];
     [1; 1; 0; 1; 0; 0; 1; 0];
     [1; 1; 1; 0; 0; 0; 0; 1];
     [1; 0; 0; 0; 0; 1; 1; 1];
     [0; 1; 0; 0; 1; 0; 1; 1];
     [0; 0; 1; 0; 1; 1; 0; 1];
     [0; 0; 0; 1; 1; 1; 1; 0]].

(** A link matrix with an empty diagonal in which every rank has four
    links and one rank with a disjoint link mask; its links are not all
    reported in both directions. *)
Definition oneWayMesh : NvlMesh :=
  meshOfRows
    [[0; 1; 0; 0; 1; 1; 0; 1];
     [1; 0; 0; 0; 1; 1; 1; 0];
     [0; 0; 0; 1; 1; 0; 1; 1];
     [1; 0; 1; 0; 0; 1; 1; 0];
     [1; 1; 1; 0; 0; 1; 0; 0];
     [0; 1; 0; 1; 1; 0; 0; 1];
     [0; 1; 1; 1; 0; 0; 0; 1];
     [1; 0; 1; 1; 0; 0; 1; 0]].

(** A link matrix that passes recognition and in which ranks 0 and 7 report
    a link to themselves. *)
Definition selfLinkMesh : NvlMesh :=
  meshOfRows
    [[1; 0; 1; 0; 0; 1; 1; 0];
     [0; 0; 1; 0; 1; 0; 1; 1];
     [0; 1; 0; 1; 1; 0; 0; 1];
     [0; 1; 0; 0; 1; 1; 1; 0];
     [0; 1; 1; 0; 0; 1; 0; 1];
     [1; 0; 0; 1; 1; 0; 1; 0];
     [1; 1; 0; 1; 0; 1; 0; 0];
     [1; 0; 1; 1; 0; 0; 0; 1]].

(** A link matrix with an empty diagonal that passes recognition; its links
    are not all reported in both directions. *)
Definition skewMesh : NvlMesh :=
  meshOfRows
    [[0; 1; 1; 1; 1; 0; 0; 0];
     [1; 0; 0; 0; 1; 0; 1; 1];
     [1; 0; 0; 0; 0; 1; 1; 1];
     [1; 0; 0; 0; 1; 1; 1; 0];
     [1; 1; 0; 1; 0; 1; 0; 0];
     [0; 0; 1; 0; 1; 0; 1; 1];
     [0; 1; 1; 1; 0; 0; 0; 1];
     [0; 1; 1; 1; 0; 1; 0; 0]].

(** ** Signals (lines 101-128, 472-477)

    [P2pState] holds two tables of [uint32_t] signals per rank, indexed by
    block and by peer; [signalCell] names one of them.  The state of all
    tables of all ranks is a map from cells to their values. *)

Definition signalState : Type := signalCell -> Z.

(** initP2pState: [cudaMemset(state, 0, sizeof(P2pState))], on every rank. *)
Definition initP2pState : signalState := fun _ => 0.

Definition signalCell_eqb (a b : signalCell) : bool :=
  (cell_owner a =? cell_owner b) && (cell_phase a =? cell_phase b) &&
  (cell_block a =? cell_block b) && (cell_column a =? cell_column b).

Definition setSignal (s : signalState) (c : signalCell) (v : Z)
  : signalState :=
  fun c' => if signalCell_eqb c' c then v else s c'.

(** releaseSignal: [atomicAdd_system(addr, 1)] on a [uint32_t]. *)
Definition releaseSignal (c : signalCell) (s : signalState) : signalState :=
  setSignal s c (wrap32 (s c + 1)).

(** acquireSignal: the loop is left by the iteration that reads a non-zero
    [val] and whose [atomicCAS_system(addr, val, val - 1)] returns [val];
    that compare-and-swap is one atomic step, possible when the cell is not
    zero.  An iteration that reads zero, or loses the compare-and-swap,
    changes nothing, and the thread spins: [None]. *)
Definition acquireSignal (c : signalCell) (s : signalState)
  : option signalState :=
  if s c =? 0 then None else Some (setSignal s c (s c - 1)).

Inductive signalOp : Type :=
| Release (c : signalCell)
| Acquire (c : signalCell).

(** An interleaving of the atomic steps of the threads of all ranks; [None]
    when it places the end of an [acquireSignal] where the thread would
    still be spinning. *)
Definition runSignals (ops : list signalOp) (s : signalState)
  : option signalState :=
  foldM (fun op s =>
           match op with
           | Release c => Some (releaseSignal c s)
           | Acquire c => acquireSignal c s
           end)
        ops s.

(** The barrier of the fully connected kernels (lines 143-148, 201-206,
    237-242): thread [targetRank < kWorldSize] of a block releases the
    signal of [rank] on the target and acquires the signal of the target on
    [rank]; [phase] is 0 for [signals0] and 1 for [signals1]. *)
Definition barrierReleases (kWorldSize rank blockIdx phase : Z)
  : list signalCell :=
  map (fun targetRank => mkSignalCell targetRank phase blockIdx rank)
      (seqZ kWorldSize).

Definition barrierAcquires (kWorldSize rank blockIdx phase : Z)
  : list signalCell :=
  map (fun targetRank => mkSignalCell rank phase blockIdx targetRank)
      (seqZ kWorldSize).

(** The steps of one barrier, of the blocks [blockIdx] of all ranks. *)
Definition barrierOps (kWorldSize blockIdx phase : Z) : list signalOp :=
  flat_map (fun rank =>
              map Release (barrierReleases kWorldSize rank blockIdx phase))
           (seqZ kWorldSize) ++
  flat_map (fun rank =>
              map Acquire (barrierAcquires kWorldSize rank blockIdx phase))
           (seqZ kWorldSize).


Definition hcmRelayOps (hcm : HybridCubeMesh) (blockIdx : Z)
  : list signalOp :=
  map (fun rank => Release (hcmRelayRelease (hcm rank) rank blockIdx))
      (seqZ kMaxDevices) ++
  map (fun rank => Acquire (hcmRelayAcquire (hcm rank) rank blockIdx))
      (seqZ kMaxDevices).

(** The number of releases, and of completed acquires, of a cell in an
    interleaving. *)
Definition releasesOf (c : signalCell) (ops : list signalOp) : Z :=
  Z.of_nat (List.length
    (filter (fun op => match op with
                       | Release c' => signalCell_eqb c' c
                       | Acquire _ => false
                       end) ops)).

Definition acquiresOf (c : signalCell) (ops : list signalOp) : Z :=
  Z.of_nat (List.length
    (filter (fun op => match op with
                       | Acquire c' => signalCell_eqb c' c
                       | Release _ => false
                       end) ops)).

(** The cells a barrier releases, and those it acquires, over all ranks. *)
Definition releasedCells (W blockIdx phase : Z) : list signalCell :=
  flat_map (fun rank => barrierReleases W rank blockIdx phase) (seqZ W).

Definition acquiredCells (W blockIdx phase : Z) : list signalCell :=
  flat_map (fun rank => barrierAcquires W rank blockIdx phase) (seqZ W).

(** A release of a signal followed by its acquire. *)
Definition handOff : list signalOp :=
  [Release (mkSignalCell 1 0 0 0); Acquire (mkSignalCell 1 0 0 0)].

Definition afterHandOff : signalState :=
  match runSignals handOff initP2pState with
  | Some s => s
  | None => initP2pState
  end.

(** *** The recognition conditions on the link matrix

    The conditions of the comment at lines 296-299, written on the matrix
    itself: every device has exactly four links, and exactly one device
    shares no link target with it. *)

Definition linked (nvlMesh : NvlMesh) (i j : Z) : bool := nvlMesh i j >? 0.

Definition sharesNoPeer (nvlMesh : NvlMesh) (i j : Z) : bool :=
  forallb (fun t => negb (linked nvlMesh i t && linked nvlMesh j t))
          (seqZ kMaxDevices).

Definition isHybridCubeMesh (nvlMesh : NvlMesh) : bool :=
  forallb
    (fun i =>
       (Z.of_nat (List.length (filter (linked nvlMesh i) (seqZ kMaxDevices)))
        =? 4) &&
       (Z.of_nat (List.length
                    (filter (sharesNoPeer nvlMesh i) (seqZ kMaxDevices)))
        =? 1))
    (seqZ kMaxDevices).

(** *** Invariants of the two loops of [getHybridCubeMesh]

    [neighborMasks] and [neighbors0] are the masks and the neighbour sets
    that [buildNeighbors] returns. *)

Section TopologyInvariants.

Variable neighborMasks : Z -> Z.
Variable neighbors0 : Z -> list Z.

(** [relayNeighbors] of row [i], and its first element. *)
Definition relayNeighborsOf (i : Z) : list Z :=
  filter (fun j => Z.land (neighborMasks i) (neighborMasks j) =? 0)
         (seqZ kMaxDevices).

Definition relayOf (i : Z) : Z := nth 0 (relayNeighborsOf i) 0.

Definition recognized (i : Z) : Prop := relayNeighborsOf i = [relayOf i].

(** After the recognition loop (lines 301-318). *)
Definition recognitionDone (done : list Z)
    (st : (Z -> list Z) * HybridCubeMesh) : Prop :=
  (forall i, In i done ->
     recognized i /\ snd st i 3 = relayOf i /\ ~ In (relayOf i) (fst st i)) /\
  (forall i k, k <> 3 -> snd st i k = -1) /\
  (forall i x, In x (fst st i) -> In x (neighbors0 i)).

(** The invariant of the assignment loop (lines 320-333): the relay column
    is final, the relay of a row is not among its remaining candidates, and
    a filled neighbor entry is a device other than the row's relay. *)
Definition assignInv (st : (Z -> list Z) * HybridCubeMesh) : Prop :=
  (forall i, 0 <= i < kMaxDevices ->
     recognized i /\ snd st i 3 = relayOf i /\ ~ In (relayOf i) (fst st i)) /\
  (forall i x, In x (fst st i) -> 0 <= x < kMaxDevices) /\
  (forall i k, 0 <= i < kMaxDevices -> 0 <= k < 3 ->
     snd st i k = -1 \/
     (0 <= snd st i k < kMaxDevices /\ snd st i k <> relayOf i)).

(** Every entry of a row is set once the row has been processed, and stays
    set. *)
Definition rowsAssigned (done : list Z)
    (st : (Z -> list Z) * HybridCubeMesh) : Prop :=
  assignInv st /\
  forall i k, In i done -> 0 <= k < 3 -> snd st i k <> -1.

End TopologyInvariants.

(** *** Role tables of the link matrices above *)

(** The role table of [dgx1Mesh] in reverse insertion order. *)
Definition dgx1Table : HybridCubeMesh :=
  match getHybridCubeMesh reverseInsertionOrder dgx1Mesh with
  | Ok (Some hcm) => hcm
  | _ => fun _ _ => -1
  end.


(** The candidates of a row are links of the row, and a filled neighbour
    entry is joined to its row by a link, in one direction or the other. *)
Definition linkInv (neighbors0 : Z -> list Z)
    (st : (Z -> list Z) * HybridCubeMesh) : Prop :=
  (forall i x, In x (fst st i) -> In x (neighbors0 i)) /\
  (forall i k, 0 <= k < 3 ->
     snd st i k = -1 \/ In (snd st i k) (neighbors0 i) \/
     In i (neighbors0 (snd st i k))).

(** *** NOTE [hybrid cube mesh] (lines 260-281) as a test on a role table

    The properties the comment gives the table, for [W] devices: the four
    entries of a row are devices; if [hcm[X][k] = Y] then [hcm[Y][k] = X],
    in the neighbour columns and, [X] being the relay of its relay, in the
    relay column; and [X] with its three neighbours and its relay with the
    relay's three neighbours are eight different devices, so that the two
    reductions of the algorithm take every device in once. *)

Fixpoint distinct (l : list Z) : bool :=
  match l with
  | [] => true
  | a :: l' => negb (existsb (Z.eqb a) l') && distinct l'
  end.

(** A device and its three neighbours: the sources of its partial sum. *)
Definition hcmGroup (hcm : HybridCubeMesh) (x : Z) : list Z :=
  [x; hcm x 0; hcm x 1; hcm x 2].

Definition isRoleTable (W : Z) (hcm : HybridCubeMesh) : bool :=
  forallb
    (fun x =>
       forallb (fun k => (0 <=? hcm x k) && (hcm x k <? W) &&
                         (hcm (hcm x k) k =? x))
               (seqZ 4) &&
       distinct (hcmGroup hcm x ++ hcmGroup hcm (hcm x 3)))
    (seqZ W).

Section Device.

(** The bf16 scalar and one lane of [__hadd2] are hardware; the model is
    parametric in them.  [bf16_zero] is the all-zero bit pattern that
    [memset] writes. *)
Variable bf16 : Type.
Variable bf16_zero : bf16.
Variable hadd : bf16 -> bf16 -> bf16.

Definition heap : Type := region -> Z -> bf16.

Definition loadElem (h : heap) (p : pointer) (i : Z) : bf16 :=
  h (fst p) (snd p + i).

Definition storeElem (h : heap) (p : pointer) (i : Z) (v : bf16) : heap :=
  fun r j =>
    if region_eqb r (fst p) && (j =? snd p + i) then v else h r j.

(** *** Packed values (lines 23-45, 66-99) *)

Definition bf16x2 : Type := (bf16 * bf16)%type.

Record bf16x8 : Type := mkBf16x8 {
  vals0 : bf16x2; vals1 : bf16x2; vals2 : bf16x2; vals3 : bf16x2
}.

Definition bf16hadd2 (x y : bf16x2) : bf16x2 :=
  (hadd (fst x) (fst y), hadd (snd x) (snd y)).

Definition add_bf16x8 (a b : bf16x8) : bf16x8 :=
  mkBf16x8 (bf16hadd2 (vals0 a) (vals0 b))
           (bf16hadd2 (vals1 a) (vals1 b))
           (bf16hadd2 (vals2 a) (vals2 b))
           (bf16hadd2 (vals3 a) (vals3 b)).

(** [reinterpret_cast<at::BFloat16*>(&v)[ii]]: the low half of each pair
    comes first. *)
Definition lane (v : bf16x8) (ii : Z) : bf16 :=
  match ii with
  | 0 => fst (vals0 v) | 1 => snd (vals0 v)
  | 2 => fst (vals1 v) | 3 => snd (vals1 v)
  | 4 => fst (vals2 v) | 5 => snd (vals2 v)
  | 6 => fst (vals3 v) | _ => snd (vals3 v)
  end.

(** [memset(&sums, 0, sizeof(sums))] *)
Definition bf16x8_zero : bf16x8 :=
  let z := (bf16_zero, bf16_zero) in mkBf16x8 z z z z.

(** A 128-bit load of the eight elements at [&p[i]]. *)
Definition load128 (h : heap) (p : pointer) (i : Z) : bf16x8 :=
  let e k := loadElem h p (i + k) in
  mkBf16x8 (e 0, e 1) (e 2, e 3) (e 4, e 5) (e 6, e 7).

(** A 128-bit store to the eight elements at [&p[i]]. *)
Definition store128 (h : heap) (p : pointer) (i : Z) (v : bf16x8) : heap :=
  fun r j =>
    if region_eqb r (fst p) && (snd p + i <=? j) && (j <? snd p + i + 8)
    then lane v (j - (snd p + i))
    else h r j.

(** The cache-bypassing variants move the same data. *)
Definition streamLoad128 := load128.
Definition streamStore128 := store128.

Definition numelPerThread : Z := kBytesPerThread / itemsize kBFloat16.

(** The tail of a kernel iteration when the length is not aligned: the
    element-wise store guarded by [i + ii < N] (lines 176-180, 404-408). *)
Definition storeGuarded (h : heap) (p : pointer) (i N : Z) (v : bf16x8)
  : heap :=
  fold_left
    (fun h ii => if i + ii <? N then storeElem h p (i + ii) (lane v ii) else h)
    (seqZ numelPerThread) h.

(** [sums = 0; for ii: sums = add_bf16x8(sums, vals[ii])] *)
Definition sumVals (n : Z) (vals : Z -> bf16x8) : bf16x8 :=
  fold_left (fun sums ii => add_bf16x8 sums (vals ii)) (seqZ n) bf16x8_zero.

(** [offset] and [stride] of a thread (lines 138-141): the thread index is
    an [unsigned int] expression, scaled in [size_t]. *)
Definition threadOffset (blockDim blockIdx threadIdx : Z) : Z :=
  wrap64 (wrap32 (wrap32 (blockDim * blockIdx) + threadIdx) * numelPerThread).

Definition threadStride (blockDim gridDim : Z) : Z :=
  wrap64 (wrap32 (blockDim * gridDim) * numelPerThread).

(** [srcRank = (rank + ii) % kWorldSize] *)
Definition srcRank (kWorldSize rank ii : Z) : Z := (rank + ii) mod kWorldSize.

Definition srcs (kWorldSize rank ii : Z) : pointer :=
  buffers (srcRank kWorldSize rank ii).

(** *** oneShotAllReduceKernel (lines 130-183)

    The kernel body after the entry barrier. *)

Definition oneShotBody (kWorldSize : Z) (kAligned : bool)
    (input : pointer) (N : Z) (rank : Z) (i : Z) (h : heap) : heap :=
  let vals ii := streamLoad128 h (srcs kWorldSize rank ii) i in
  let sums := sumVals kWorldSize vals in
  if kAligned then streamStore128 h input i sums
  else storeGuarded h input i N sums.

Definition oneShotAllReduceKernel (kWorldSize : Z) (kAligned : bool)
    (input : pointer) (N N_aligned : Z) (rank : Z)
    (gridDim blockDim : Z) (h : heap) : option heap :=
  forThreads gridDim blockDim
    (fun blockIdx threadIdx =>
       forStride (Z.to_nat N_aligned)
         (threadOffset blockDim blockIdx threadIdx) N_aligned
         (threadStride blockDim gridDim)
         (oneShotBody kWorldSize kAligned input N rank))
    h.

(** *** twoShotAllReduceKernel (lines 185-254)

    Two grid-wide loops separated by the second cross-device barrier. *)

Definition twoShotReduceScatterBody (kWorldSize : Z)
    (input : pointer) (N_start : Z) (rank : Z) (i : Z) (h : heap) : heap :=
  let vals ii :=
    streamLoad128 h (srcs kWorldSize rank ii) (wrap64 (N_start + i)) in
  let sums := sumVals kWorldSize vals in
  let h := streamStore128 h (srcs kWorldSize rank 0) (wrap64 (N_start + i))
                          sums in
  streamStore128 h input (wrap64 (N_start + i)) sums.

(** [k = N_start + i + (srcRanks[ii] - rank) * N_per_rank] in [size_t]. *)
Definition gatherIndex (kWorldSize rank N_per_rank N_start i ii : Z) : Z :=
  wrap64 (wrap64 (N_start + i)
          + wrap64 (wrap64 (srcRank kWorldSize rank ii - rank) * N_per_rank)).

Definition twoShotAllGatherBody (kWorldSize : Z)
    (input : pointer) (N_per_rank N_start : Z) (rank : Z) (i : Z) (h : heap)
  : heap :=
  fold_left
    (fun h ii =>
       let k := gatherIndex kWorldSize rank N_per_rank N_start i ii in
       let val := streamLoad128 h (srcs kWorldSize rank ii) k in
       streamStore128 h input k val)
    (map (Z.add 1) (seqZ (kWorldSize - 1))) h.

Definition twoShotReduceScatter (kWorldSize : Z)
    (input : pointer) (N_aligned : Z) (rank : Z)
    (gridDim blockDim : Z) (h : heap) : option heap :=
  let N_per_rank := N_aligned / kWorldSize in
  let N_start := wrap64 (N_per_rank * rank) in
  forThreads gridDim blockDim
    (fun blockIdx threadIdx =>
       forStride (Z.to_nat N_per_rank)
         (threadOffset blockDim blockIdx threadIdx) N_per_rank
         (threadStride blockDim gridDim)
         (twoShotReduceScatterBody kWorldSize input N_start rank))
    h.

Definition twoShotAllGather (kWorldSize : Z)
    (input : pointer) (N_aligned : Z) (rank : Z)
    (gridDim blockDim : Z) (h : heap) : option heap :=
  let N_per_rank := N_aligned / kWorldSize in
  let N_start := wrap64 (N_per_rank * rank) in
  forThreads gridDim blockDim
    (fun blockIdx threadIdx =>
       forStride (Z.to_nat N_per_rank)
         (threadOffset blockDim blockIdx threadIdx) N_per_rank
         (threadStride blockDim gridDim)
         (twoShotAllGatherBody kWorldSize input N_per_rank N_start rank))
    h.

(** *** hybridCubeMeshAllReduceKernel (lines 337-411)

    [relayOffset] is [kMaxIntraNodeSize / 2], the element offset of the relay
    area inside a peer buffer. *)

Definition hcmSrcs (hcmInfo : Z -> Z) (rank ii : Z) : pointer :=
  match ii with
  | 0 => buffers rank
  | 1 => buffers (hcmInfo 0)
  | 2 => buffers (hcmInfo 1)
  | _ => buffers (hcmInfo 2)
  end.

Definition hcmPartialBody (relayOffset : Z) (hcmInfo : Z -> Z) (rank : Z)
    (i : Z) (h : heap) : heap :=
  let localRelay := ptr_add (buffers rank) relayOffset in
  let vals ii := streamLoad128 h (hcmSrcs hcmInfo rank ii) i in
  let sums := sumVals 4 vals in
  store128 h localRelay i sums.

Definition hcmCombineBody (relayOffset : Z) (kAligned : bool)
    (input : pointer) (N : Z) (hcmInfo : Z -> Z) (rank : Z)
    (i : Z) (h : heap) : heap :=
  let relayRank := hcmInfo 3 in
  let localRelay := ptr_add (buffers rank) relayOffset in
  let remoteRelay := ptr_add (buffers relayRank) relayOffset in
  let localSum := load128 h localRelay i in
  let remoteSum := streamLoad128 h remoteRelay i in
  let localSum := add_bf16x8 localSum remoteSum in
  if kAligned then streamStore128 h input i localSum
  else storeGuarded h input i N localSum.

Definition hcmPartial (relayOffset : Z) (N_aligned : Z) (hcmInfo : Z -> Z)
    (rank : Z) (gridDim blockDim : Z) (h : heap) : option heap :=
  forThreads gridDim blockDim
    (fun blockIdx threadIdx =>
       forStride (Z.to_nat N_aligned)
         (threadOffset blockDim blockIdx threadIdx) N_aligned
         (threadStride blockDim gridDim)
         (hcmPartialBody relayOffset hcmInfo rank))
    h.

Definition hcmCombine (relayOffset : Z) (kAligned : bool)
    (input : pointer) (N N_aligned : Z) (hcmInfo : Z -> Z)
    (rank : Z) (gridDim blockDim : Z) (h : heap) : option heap :=
  forThreads gridDim blockDim
    (fun blockIdx threadIdx =>
       forStride (Z.to_nat N_aligned)
         (threadOffset blockDim blockIdx threadIdx) N_aligned
         (threadStride blockDim gridDim)
         (hcmCombineBody relayOffset kAligned input N hcmInfo rank))
    h.


(** ** Streams and the host side

    A host function enqueues work on the caller's stream and returns; the
    state of the host monad is the list of operations enqueued so far.

    [AT_CUDA_CHECK] and [C10_CUDA_KERNEL_LAUNCH_CHECK] turn an error code of
    the CUDA runtime into an exception.  The runtime is not part of the
    model: every copy and every launch is taken as accepted, so the model
    says nothing of a call in which the runtime refuses one (as it does the
    launch with zero threads that an empty tensor leads to). *)

Inductive kernel : Type :=
| OneShotKernel (kWorldSize : Z) (kAligned : bool)
    (input : pointer) (N N_aligned : Z) (rank : Z)
| TwoShotKernel (kWorldSize : Z)
    (input : pointer) (N_aligned : Z) (rank : Z)
| HybridCubeMeshKernel (kAligned : bool)
    (input : pointer) (N N_aligned : Z) (hcmInfo : Z -> Z) (rank : Z).

Inductive streamOp : Type :=
| MemcpyAsync (dst src : pointer) (count : Z)      (* count in bytes *)
| Launch (k : kernel) (blocks threads : dim3).

Definition stream : Type := list streamOp.

Definition host (A : Type) : Type := stream -> result A * stream.

Definition ret {A} (a : A) : host A := fun s => (Ok a, s).

Definition hbind {A B} (m : host A) (f : A -> host B) : host B :=
  fun s =>
    match m s with
    | (Ok a, s') => f a s'
    | (Throw e, s') => (Throw e, s')
    end.

Definition lift {A} (r : result A) : host A := fun s => (r, s).

Definition enqueue (op : streamOp) : host unit := fun s => (Ok tt, s ++ [op]).

Notation "x <~ m ;; k" := (hbind m (fun x => k))
  (at level 61, m at next level, right associativity).

(** checkInput (lines 421-428) *)
Definition checkInput (input : Tensor) (rank : Z) : result unit :=
  _ <- TORCH_CHECK (ScalarType_eqb (dtype input) kBFloat16)
         "oneShotAllReduce only supports bf16 for now" ;;
  _ <- TORCH_CHECK (is_non_overlapping_and_dense input)
         "input.is_non_overlapping_and_dense()" ;;
  _ <- TORCH_CHECK (is_cuda input) "input.device().is_cuda()" ;;
  TORCH_CHECK (wrap64 (get_device input) =? rank)
    "static_cast<size_t>(input.get_device()) == rank".

(** The chain [X(2); X(3); ... X(8)] of [if (worldSize == kWorldSize)]. *)
Definition DISPATCH_ALL_WORLD_SIZES (worldSize : Z) (X : Z -> streamOp)
  : host unit :=
  fold_left
    (fun acc kWorldSize =>
       _ <~ acc ;;
       if worldSize =? kWorldSize then enqueue (X kWorldSize) else ret tt)
    [2; 3; 4; 5; 6; 7; 8] (ret tt).

(** oneShotAllReduce (lines 493-548) *)
Definition oneShotAllReduce (kMaxIntraNodeSize : Z)
    (input : Tensor) (rank worldSize : Z) : host Tensor :=
  _ <~ lift (checkInput input rank) ;;
  let numelPerWarp :=
    wrap64 (kBytesPerThread / element_size input * kWarpSize) in
  let N_aligned := alignUp (numel input) numelPerWarp in
  _ <~ lift (TORCH_CHECK (N_aligned <=? kMaxIntraNodeSize / element_size input)
               "N_aligned <= kMaxIntraNodeSize / input.element_size()") ;;
  cfg <~ lift (getLaunchConfig N_aligned (element_size input)) ;;
  let '(blocks, threads) := cfg in
  _ <~ enqueue (MemcpyAsync (buffers rank) (data_ptr input)
                  (wrap64 (numel input * element_size input))) ;;
  _ <~ (if N_aligned =? wrap64 (numel input) then
          DISPATCH_ALL_WORLD_SIZES worldSize
            (fun kWorldSize =>
               Launch (OneShotKernel kWorldSize true (data_ptr input)
                         (wrap64 (numel input)) N_aligned rank)
                      blocks threads)
        else
          DISPATCH_ALL_WORLD_SIZES worldSize
            (fun kWorldSize =>
               Launch (OneShotKernel kWorldSize false (data_ptr input)
                         (wrap64 (numel input)) N_aligned rank)
                      blocks threads)) ;;
  ret input.

(** twoShotAllReduce (lines 550-607) *)
Definition twoShotAllReduce (kMaxIntraNodeSize : Z)
    (input : Tensor) (rank worldSize : Z) : host Tensor :=
  _ <~ lift (checkInput input rank) ;;
  let numelPerWarp :=
    wrap64 (kBytesPerThread / element_size input * kWarpSize) in
  let N_aligned :=
    alignUp (numel input) (wrap64 (worldSize * numelPerWarp)) in
  let N_per_rank := N_aligned / worldSize in
  _ <~ lift (TORCH_CHECK (N_aligned <=? kMaxIntraNodeSize / element_size input)
               "N_aligned <= kMaxIntraNodeSize / input.element_size()") ;;
  cfg <~ lift (getLaunchConfig N_per_rank (element_size input)) ;;
  let '(blocks, threads) := cfg in
  let output :=
    if N_aligned =? wrap64 (numel input) then input
    else new_empty input N_aligned in
  _ <~ enqueue (MemcpyAsync (buffers rank) (data_ptr input)
                  (wrap64 (numel input * element_size input))) ;;
  _ <~ DISPATCH_ALL_WORLD_SIZES worldSize
         (fun kWorldSize =>
            Launch (TwoShotKernel kWorldSize (data_ptr output) N_aligned rank)
                   blocks threads) ;;
  _ <~ (if negb (pointer_eqb (data_ptr output) (data_ptr input)) then
          enqueue (MemcpyAsync (data_ptr input) (data_ptr output)
                     (wrap64 (numel input * element_size input)))
        else ret tt) ;;
  ret input.

(** hybridCubeMeshAllReduce (lines 609-652) *)
Definition hybridCubeMeshAllReduce (kMaxIntraNodeSize : Z)
    (input : Tensor) (hcmInfo : Z -> Z) (rank worldSize : Z) : host Tensor :=
  _ <~ lift (checkInput input rank) ;;
  let numelPerWarp :=
    wrap64 (kBytesPerThread / element_size input * kWarpSize) in
  let N_aligned := alignUp (numel input) numelPerWarp in
  _ <~ lift (TORCH_CHECK (N_aligned <=? kMaxIntraNodeSize / element_size input)
               "N_aligned <= kMaxIntraNodeSize / input.element_size()") ;;
  cfg <~ lift (getLaunchConfig N_aligned (element_size input)) ;;
  let '(blocks, threads) := cfg in
  _ <~ enqueue (MemcpyAsync (buffers rank) (data_ptr input)
                  (wrap64 (numel input * element_size input))) ;;
  _ <~ (if N_aligned =? wrap64 (numel input) then
          enqueue (Launch (HybridCubeMeshKernel true (data_ptr input)
                             (wrap64 (numel input)) N_aligned hcmInfo rank)
                          blocks threads)
        else
          enqueue (Launch (HybridCubeMeshKernel false (data_ptr input)
                             (wrap64 (numel input)) N_aligned hcmInfo rank)
                          blocks threads)) ;;
  ret input.

(** allReduce (lines 683-705).  [topoInfo] is the device copy of this rank's
    row of the role table. *)
Definition allReduce (kMaxIntraNodeSize : Z)
    (input : Tensor) (topoInfo : Z -> Z) (rank worldSize : Z)
    (algo : AllReduceAlgo) : host Tensor :=
  match algo with
  | ONE_SHOT => oneShotAllReduce kMaxIntraNodeSize input rank worldSize
  | TWO_SHOT => twoShotAllReduce kMaxIntraNodeSize input rank worldSize
  | HCM =>
      hybridCubeMeshAllReduce kMaxIntraNodeSize input topoInfo rank worldSize
  | _ => lift (Throw (ValueError "IntraNodeComm: invalid algo"))
  end.

(** ** Execution of the streams of a collective

    Every rank enqueues the same sequence of operations on its stream, and
    the streams advance in lock step: operation by operation and, inside a
    kernel, loop by loop.  Each loop of a kernel is preceded by a barrier on
    the signals ([kernelBarriers]), at which some threads of every block
    release one signal and then wait for another.  A release never waits,
    so at a barrier the model runs the releases of all ranks first and their
    acquires after them; an acquire that then finds its signal at zero has
    no release left to wait for: the thread spins for ever, the kernel does
    not end, and the collective has no result ([None]). *)

(** [cudaMemcpyAsync(dst, src, count, cudaMemcpyDeviceToDevice)] on bf16
    storage. *)
Definition execMemcpy (dst src : pointer) (count : Z) (h : heap) : heap :=
  let n := count / itemsize kBFloat16 in
  fun r j =>
    if region_eqb r (fst dst) && (snd dst <=? j) && (j <? snd dst + n)
    then h (fst src) (snd src + (j - snd dst))
    else h r j.

(** The loops of a kernel, in program order. *)
Definition kernelPhases (kMaxIntraNodeSize : Z) (k : kernel)
    (blocks threads : dim3) : list (heap -> option heap) :=
  match k with
  | OneShotKernel kWorldSize kAligned input N N_aligned rank =>
      [ oneShotAllReduceKernel kWorldSize kAligned input N N_aligned rank
          (dim_x blocks) (dim_x threads) ]
  | TwoShotKernel kWorldSize input N_aligned rank =>
      [ twoShotReduceScatter kWorldSize input N_aligned rank
          (dim_x blocks) (dim_x threads);
        twoShotAllGather kWorldSize input N_aligned rank
          (dim_x blocks) (dim_x threads) ]
  | HybridCubeMeshKernel kAligned input N N_aligned hcmInfo rank =>
      [ hcmPartial (kMaxIntraNodeSize / 2) N_aligned hcmInfo rank
          (dim_x blocks) (dim_x threads);
        hcmCombine (kMaxIntraNodeSize / 2) kAligned input N N_aligned
          hcmInfo rank (dim_x blocks) (dim_x threads) ]
  end.

(** The signals the threads of a grid release, and those they acquire, at
    one barrier.  [rel blockIdx] and [acq blockIdx] list the signals of a
    block by [threadIdx.x]; a block has the threads below [blockDim.x]. *)
Definition barrier : Type := (list signalCell * list signalCell)%type.

Definition gridBarrier (blocks threads : dim3)
    (rel acq : Z -> list signalCell) : barrier :=
  (flat_map (fun blockIdx => firstn (Z.to_nat (dim_x threads)) (rel blockIdx))
            (seqZ (dim_x blocks)),
   flat_map (fun blockIdx => firstn (Z.to_nat (dim_x threads)) (acq blockIdx))
            (seqZ (dim_x blocks))).

(** The barrier in front of each loop of a kernel: the entry barrier of the
    one-shot kernel (lines 143-148); the barriers on [signals0] and
    [signals1] of the two-shot kernel (lines 201-206, 237-242); the entry
    barrier among the three neighbours and the handshake with the relay of
    the hybrid-cube-mesh kernel (lines 353-357, 389-392). *)
Definition kernelBarriers (k : kernel) (blocks threads : dim3)
  : list barrier :=
  match k with
  | OneShotKernel kWorldSize _ _ _ _ rank =>
      [ gridBarrier blocks threads
          (fun blockIdx => barrierReleases kWorldSize rank blockIdx 0)
          (fun blockIdx => barrierAcquires kWorldSize rank blockIdx 0) ]
  | TwoShotKernel kWorldSize _ _ rank =>
      [ gridBarrier blocks threads
          (fun blockIdx => barrierReleases kWorldSize rank blockIdx 0)
          (fun blockIdx => barrierAcquires kWorldSize rank blockIdx 0);
        gridBarrier blocks threads
          (fun blockIdx => barrierReleases kWorldSize rank blockIdx 1)
          (fun blockIdx => barrierAcquires kWorldSize rank blockIdx 1) ]
  | HybridCubeMeshKernel _ _ _ _ hcmInfo rank =>
      [ gridBarrier blocks threads
          (hcmBarrierReleases hcmInfo rank)
          (hcmBarrierAcquires hcmInfo rank);
        gridBarrier blocks threads
          (fun blockIdx => [hcmRelayRelease hcmInfo rank blockIdx])
          (fun blockIdx => [hcmRelayAcquire hcmInfo rank blockIdx]) ]
  end.

Definition opPhases (kMaxIntraNodeSize : Z) (op : streamOp)
  : list (heap -> option heap) :=
  match op with
  | MemcpyAsync dst src count => [ fun h => Some (execMemcpy dst src count h) ]
  | Launch k blocks threads => kernelPhases kMaxIntraNodeSize k blocks threads
  end.

Definition opBarriers (op : streamOp) : list barrier :=
  match op with
  | MemcpyAsync _ _ _ => []
  | Launch k blocks threads => kernelBarriers k blocks threads
  end.

(** The steps of the barrier in front of phase [p], over the operations of
    all ranks: the releases, then the acquires. *)
Definition phaseSignals (ops : list streamOp) (p : nat) : list signalOp :=
  map Release
      (flat_map (fun op => fst (nth p (opBarriers op) ([], []))) ops) ++
  map Acquire
      (flat_map (fun op => snd (nth p (opBarriers op) ([], []))) ops).

(** Loop [p] of the operations of all ranks. *)
Definition phaseLoops (kMaxIntraNodeSize : Z) (ops : list streamOp) (p : nat)
    (h : heap) : option heap :=
  foldM (fun op h =>
           match nth_error (opPhases kMaxIntraNodeSize op) p with
           | Some phase => phase h
           | None => Some h
           end)
        ops h.

Definition runPhase (kMaxIntraNodeSize : Z) (ops : list streamOp) (p : nat)
    (st : heap * signalState) : option (heap * signalState) :=
  match runSignals (phaseSignals ops p) (snd st) with
  | Some signals =>
      match phaseLoops kMaxIntraNodeSize ops p (fst st) with
      | Some h => Some (h, signals)
      | None => None
      end
  | None => None
  end.

Definition runRound (kMaxIntraNodeSize : Z) (ops : list streamOp)
    (st : heap * signalState) : option (heap * signalState) :=
  foldM (runPhase kMaxIntraNodeSize ops)
        (seq 0 (list_max
                  (map (fun op => List.length (opPhases kMaxIntraNodeSize op))
                       ops)))
        st.

Definition roundOps (streams : list stream) (j : nat) : list streamOp :=
  flat_map (fun s => match nth_error s j with
                     | Some op => [op]
                     | None => []
                     end)
           streams.

(** The memory a collective leaves, from the signal tables as
    [initP2pState] zeroed them. *)
Definition runCollective (kMaxIntraNodeSize : Z) (streams : list stream)
    (h : heap) : option heap :=
  match foldM (fun j => runRound kMaxIntraNodeSize (roundOps streams j))
              (seq 0 (list_max (map (@List.length streamOp) streams)))
              (h, initP2pState) with
  | Some st => Some (fst st)
  | None => None
  end.

(** The streams of the ranks [0 .. worldSize) after each has called
    [allReduce] on its tensor, on an empty stream. *)
Definition collectiveStreams (kMaxIntraNodeSize : Z)
    (inputs : Z -> Tensor) (topoInfo : Z -> Z -> Z) (worldSize : Z)
    (algo : AllReduceAlgo) : list stream :=
  map (fun rank =>
         snd (allReduce kMaxIntraNodeSize (inputs rank) (topoInfo rank)
                        rank worldSize algo []))
      (seqZ worldSize).

(** The reference sums, in the kernels' order of addition. *)
Definition rotatedSum (worldSize rank : Z) (x : Z -> bf16) : bf16 :=
  fold_left hadd
    (map (fun k => x ((rank + k) mod worldSize)) (seqZ worldSize)) bf16_zero.

Definition hcmPartialSum (hcmInfo : Z -> Z) (rank : Z) (x : Z -> bf16)
  : bf16 :=
  fold_left hadd
    [x rank; x (hcmInfo 0); x (hcmInfo 1); x (hcmInfo 2)] bf16_zero.

Definition hcmSum (table : Z -> Z -> Z) (rank : Z) (x : Z -> bf16) : bf16 :=
  hadd (hcmPartialSum (table rank) rank x)
       (hcmPartialSum (table (table rank 3)) (table rank 3) x).


(** ** Auxiliary definitions for the statements and proofs *)

(** The positions one thread visits in its grid-stride loop, with the fuel
    of [forStride]. *)
Fixpoint stridePositions (fuel : nat) (i bound stride : Z) : list Z :=
  if i <? bound then
    match fuel with
    | O => []
    | Datatypes.S fuel' =>
        i :: stridePositions fuel' (wrap64 (i + stride)) bound stride
    end
  else [].

(** The positions every thread of a launch visits, thread by thread. *)
Definition gridPositions (gridDim blockDim bound : Z) : list Z :=
  flat_map
    (fun blockIdx =>
       flat_map
         (fun threadIdx =>
            stridePositions (Z.to_nat bound)
              (threadOffset blockDim blockIdx threadIdx) bound
              (threadStride blockDim gridDim))
         (seqZ blockDim))
    (seqZ gridDim).

(** A launch geometry under which the thread index arithmetic does not
    wrap; an empty range needs no thread. *)
Definition validGrid (gridDim blockDim bound : Z) : Prop :=
  0 <= bound < 2 ^ 32 /\ 0 <= gridDim /\ 0 <= blockDim /\
  gridDim * blockDim * 8 < 2 ^ 32 /\
  (0 < bound -> 1 <= gridDim /\ 1 <= blockDim).

(** The final store of a one-shot or hybrid-cube-mesh iteration, aligned or
    guarded. *)
Definition tailStore (kAligned : bool) (h : heap) (p : pointer) (i N : Z)
    (v : bf16x8) : heap :=
  if kAligned then streamStore128 h p i v else storeGuarded h p i N v.

(** The locations that store writes. *)
Definition tailWrites (kAligned : bool) (p : pointer) (i N : Z)
    (r : region) (j : Z) : Prop :=
  r = fst p /\ snd p + i <= j < snd p + i + 8 /\
  (kAligned = true \/ i + (j - (snd p + i)) < N).

(** The iterations of one phase of a collective: a rank and a position. *)
Definition phaseIndex (ranks : list Z) (gridDim blockDim bound : Z)
  : list (Z * Z) :=
  flat_map (fun r => map (pair r) (gridPositions gridDim blockDim bound))
           ranks.

(** The copies and launches a host function enqueues on a bf16 tensor of
    [N] elements at the start of region [Input r]: the copy of [N] elements
    between two regions, the staging copy into the peer buffer, and the
    three kernels. *)
Definition copyOp (dst src : Z -> region) (N : Z) (r : Z) : streamOp :=
  MemcpyAsync (dst r, 0) (src r, 0) (N * 2).

Definition stagingOp (N : Z) (r : Z) : streamOp :=
  MemcpyAsync (buffers r) (Input r, 0) (N * 2).

Definition oneShotLaunch (W N Na : Z) (blocks threads : dim3) (r : Z)
  : streamOp :=
  Launch (OneShotKernel W (Na =? N) (Input r, 0) N Na r) blocks threads.

Definition twoShotLaunch (W Na : Z) (blocks threads : dim3) (O : Z -> region)
    (r : Z) : streamOp :=
  Launch (TwoShotKernel W (O r, 0) Na r) blocks threads.

Definition hcmLaunch (N Na : Z) (table : Z -> Z -> Z)
    (blocks threads : dim3) (r : Z) : streamOp :=
  Launch (HybridCubeMeshKernel (Na =? N) (Input r, 0) N Na (table r) r)
         blocks threads.

(** The locations an iteration of the reduce-scatter loop writes: eight
    elements of the rank's peer buffer and eight of the output. *)
Definition reduceScatterWrites (out : pointer) (rank k : Z)
    (a : region) (j : Z) : Prop :=
  (a = Buffer rank /\ k <= j < k + 8) \/
  (a = fst out /\ snd out + k <= j < snd out + k + 8).

(** The values of [ii] in the all-gather loop. *)
Definition gatherSlots (W : Z) : list Z := map (Z.add 1) (seqZ (W - 1)).

(** One copy of the all-gather loop: iteration [(rank, i)], slot [ii]. *)
Definition gatherCopy (W Npr : Z) (O : Z -> region) (x : Z * Z * Z)
    (h : heap) : heap :=
  let r := fst (fst x) in
  let k := gatherIndex W r Npr (wrap64 (Npr * r)) (snd (fst x)) (snd x) in
  streamStore128 h (O r, 0) k (streamLoad128 h (srcs W r (snd x)) k).

(** [N_aligned] of the host function of an algorithm, on a bf16 tensor of
    [N] elements. *)
Definition alignedNumel (W N : Z) (algo : AllReduceAlgo) : Z :=
  match algo with
  | TWO_SHOT => alignUp N (W * 256)
  | _ => alignUp N 256
  end.

(** The sum an algorithm leaves at element [p] of the tensor of [rank], in
    the order in which its kernel adds. *)
Definition kernelSum (W N : Z) (table : Z -> Z -> Z) (algo : AllReduceAlgo)
    (rank p : Z) (x : Z -> bf16) : bf16 :=
  match algo with
  | TWO_SHOT => rotatedSum W (p / (alignUp N (W * 256) / W)) x
  | HCM => hcmSum table rank x
  | _ => rotatedSum W rank x
  end.

(** The [rank] and [input] arguments of a kernel. *)
Definition kernelRank (k : kernel) : Z :=
  match k with
  | OneShotKernel _ _ _ _ _ rank => rank
  | TwoShotKernel _ _ _ rank => rank
  | HybridCubeMeshKernel _ _ _ _ _ rank => rank
  end.

Definition kernelOutput (k : kernel) : pointer :=
  match k with
  | OneShotKernel _ _ input _ _ _ => input
  | TwoShotKernel _ input _ _ => input
  | HybridCubeMeshKernel _ input _ _ _ _ => input
  end.

(** The rank of a two-shot kernel is below its world size. *)
Definition kernelRankInWorld (k : kernel) : Prop :=
  match k with
  | TwoShotKernel kWorldSize _ _ rank => 0 <= rank < kWorldSize
  | _ => True
  end.

(** *** The memory part of an execution

    The loops of a round, and of a collective, without their barriers: what
    the execution does to the memory when every barrier completes. *)
Definition roundLoops (kMaxIntraNodeSize : Z) (ops : list streamOp)
    (h : heap) : option heap :=
  foldM (phaseLoops kMaxIntraNodeSize ops)
        (seq 0 (list_max
                  (map (fun op => List.length (opPhases kMaxIntraNodeSize op))
                       ops)))
        h.

Definition collectiveLoops (kMaxIntraNodeSize : Z) (streams : list stream)
    (h : heap) : option heap :=
  foldM (fun j => roundLoops kMaxIntraNodeSize (roundOps streams j))
        (seq 0 (list_max (map (@List.length streamOp) streams))) h.

(** Signal tables with every signal at zero. *)
Definition quiet (s : signalState) : Prop := forall c, s c = 0.

(** The barriers of a round complete on quiet tables and leave them
    quiet. *)
Definition barriersComplete (ops : list streamOp) : Prop :=
  forall p s, quiet s ->
    exists s', runSignals (phaseSignals ops p) s = Some s' /\ quiet s'.

(** How often a cell occurs in a list. *)
Definition cellCount (c : signalCell) (l : list signalCell) : Z :=
  Z.of_nat (List.length (filter (fun c' => signalCell_eqb c' c) l)).

(** The index of the threads that take part in a barrier: rank, block and
    thread. *)
Definition barrierIndex (ranks blocks threads : list Z) : list (Z * Z * Z) :=
  list_prod (list_prod ranks blocks) threads.

(** The two kinds of stream operation. *)
Definition isMemcpy (op : streamOp) : bool :=
  match op with MemcpyAsync _ _ _ => true | Launch _ _ _ => false end.

Definition isLaunch (op : streamOp) : bool := negb (isMemcpy op).

(** *** Inputs for instances of the theorems

    A memory in which rank [r] starts with the image of [100 * r + p] at
    element [p] of its tensor and everything else is zero; and the
    reduce-scatter phase of the two-shot kernel of rank 3 of 4, on 1024
    elements with one block of 32 threads, with the memory it leaves. *)
Definition rampHeapOf (inj : Z -> bf16) : heap :=
  fun a p => match a with Input r => inj (100 * r + p) | _ => bf16_zero end.

Definition scatterOfRank3 : heap -> option heap :=
  twoShotReduceScatter 4 (Input 3, 0) 1024 3 1 32.

Definition afterScatterOfRank3 (inj : Z -> bf16) : heap :=
  match scatterOfRank3 (rampHeapOf inj) with
  | Some h => h
  | None => rampHeapOf inj
  end.
(** * Properties *)

(** ** Machine integers *)

Lemma wrap32_small v : 0 <= v < 2 ^ 32 -> wrap32 v = v.
Proof. intros H. unfold wrap32. now apply Z.mod_small. Qed.

Lemma wrap64_small v : 0 <= v < 2 ^ 64 -> wrap64 v = v.
Proof. intros H. unfold wrap64. now apply Z.mod_small. Qed.

Lemma wrap32_range v : 0 <= wrap32 v < 2 ^ 32.
Proof. unfold wrap32. apply Z.mod_pos_bound. lia. Qed.

Lemma wrap64_range v : 0 <= wrap64 v < 2 ^ 64.
Proof. unfold wrap64. apply Z.mod_pos_bound. lia. Qed.

Lemma ceil_div_formula a b : 0 < b -> ceil_div a b = (a + b - 1) / b.
Proof.
  intros Hb. unfold ceil_div.
  pose proof (Z.div_mod a b ltac:(lia)) as E.
  pose proof (Z.mod_pos_bound a b Hb) as R.
  destruct (a mod b =? 0) eqn:M.
  - apply Z.eqb_eq in M.
    apply Z.div_unique with (r := b - 1); lia.
  - apply Z.eqb_neq in M.
    apply Z.div_unique with (r := a mod b - 1); lia.
Qed.

Lemma divUp_ceil a b :
  0 <= a -> 0 < b < 2 ^ 32 -> a + b - 1 < 2 ^ 32 -> divUp a b = ceil_div a b.
Proof.
  intros Ha Hb Hs. unfold divUp. cbv zeta.
  rewrite (wrap32_small a), (wrap32_small b), wrap32_small by lia.
  symmetry. now apply ceil_div_formula.
Qed.

Lemma alignUp_exact a b :
  0 <= a -> 0 < b < 2 ^ 32 -> a + b - 1 < 2 ^ 32 ->
  alignUp a b = ceil_div a b * b.
Proof.
  intros Ha Hb Hs. unfold alignUp.
  rewrite divUp_ceil, (wrap32_small b) by lia.
  apply wrap64_small.
  rewrite ceil_div_formula by lia.
  pose proof (Z.mul_div_le (a + b - 1) b ltac:(lia)).
  split; [ apply Z.mul_nonneg_nonneg; [ apply Z.div_pos |]; lia | lia ].
Qed.

Lemma alignUp_bounds a b :
  0 <= a -> 0 < b < 2 ^ 32 -> a + b - 1 < 2 ^ 32 ->
  a <= alignUp a b < a + b /\ alignUp a b mod b = 0.
Proof.
  intros Ha Hb Hs. rewrite alignUp_exact by lia.
  rewrite ceil_div_formula by lia.
  pose proof (Z.mul_div_le (a + b - 1) b ltac:(lia)).
  pose proof (Z.mul_succ_div_gt (a + b - 1) b ltac:(lia)).
  split; [ lia | apply Z.mod_mul; lia ].
Qed.

(** *** Launch geometry *)

Lemma numelPerThread_range elemSize :
  1 <= elemSize <= 16 -> 1 <= kBytesPerThread / elemSize <= 16.
Proof.
  intros H. unfold kBytesPerThread. split.
  - apply Z.div_le_lower_bound; lia.
  - apply Z.div_le_upper_bound; lia.
Qed.

Lemma ceil_div_range a b : 0 <= a -> 0 < b -> a <= ceil_div a b * b < a + b.
Proof.
  intros Ha Hb. rewrite ceil_div_formula by lia.
  pose proof (Z.mul_div_le (a + b - 1) b ltac:(lia)).
  pose proof (Z.mul_succ_div_gt (a + b - 1) b ltac:(lia)).
  lia.
Qed.

Lemma ceil_div_pos a b : 0 < a -> 0 < b -> 1 <= ceil_div a b <= a.
Proof.
  intros Ha Hb. pose proof (ceil_div_range a b ltac:(lia) Hb). nia.
Qed.

(** What [getLaunchConfig] returns on a multiple [q] of the warp granularity,
    with [n = numelPerThread]. *)
Lemma getLaunchConfig_multiple (elemSize q : Z) :
  1 <= elemSize <= 16 ->
  0 < q ->
  kBytesPerThread / elemSize * kWarpSize * q <= 2 ^ 31 ->
  let n := kBytesPerThread / elemSize in
  getLaunchConfig (n * kWarpSize * q) elemSize =
  if q <? 32 then Ok (mkDim3 1 1 1, mkDim3 (q * kWarpSize) 1 1)
  else
    let blocks_x := Z.min (ceil_div (q * kWarpSize) kThreadsPerBlock)
                          kMaxAllReduceBlocks in
    Ok (mkDim3 blocks_x 1 1,
        mkDim3 (Z.min kThreadsPerBlock (ceil_div q blocks_x * kWarpSize)) 1 1).
Proof.
  intros He Hq Hlt n.
  pose proof (numelPerThread_range elemSize He) as Hn. fold n in Hn, Hlt.
  unfold getLaunchConfig. fold n. unfold kWarpSize, kThreadsPerBlock,
    kMaxAllReduceBlocks in *. cbv zeta.
  rewrite (wrap64_small (n * 32)) by lia.
  rewrite (wrap64_small (n * 1024)) by lia.
  assert (M1 : (n * 32 * q) mod n = 0).
  { replace (n * 32 * q) with (32 * q * n) by lia. apply Z.mod_mul. lia. }
  assert (M2 : (n * 32 * q) mod (n * 32) = 0).
  { replace (n * 32 * q) with (q * (n * 32)) by lia. apply Z.mod_mul. lia. }
  assert (D1 : n * 32 * q / (n * 32) = q).
  { replace (n * 32 * q) with (q * (n * 32)) by lia. apply Z.div_mul. lia. }
  assert (D2 : n * 32 * q / n = q * 32).
  { replace (n * 32 * q) with (q * 32 * n) by lia. apply Z.div_mul. lia. }
  rewrite M1, M2, D1, D2. cbn [Z.eqb TORCH_CHECK bind].
  assert (B : (n * 32 * q <? n * 1024) = (q <? 32)).
  { destruct (q <? 32) eqn:E; [ apply Z.ltb_lt in E; apply Z.ltb_lt; nia
                             | apply Z.ltb_ge in E; apply Z.ltb_ge; nia ]. }
  rewrite B. destruct (q <? 32) eqn:E.
  - apply Z.ltb_lt in E.
    rewrite (wrap64_small (q * 32)), (wrap32_small (q * 32)) by lia.
    reflexivity.
  - apply Z.ltb_ge in E.
    assert (Hq32 : q * 32 <= 2 ^ 31) by nia.
    rewrite (divUp_ceil (q * 32) 1024) by lia.
    pose proof (ceil_div_pos (q * 32) 1024 ltac:(lia) ltac:(lia)) as C1.
    set (b := Z.min (ceil_div (q * 32) 1024) 24) in *.
    assert (Hb : 1 <= b <= 24) by (unfold b; lia).
    rewrite (wrap32_small b) by lia.
    rewrite (divUp_ceil q b) by lia.
    pose proof (ceil_div_pos q b ltac:(lia) ltac:(lia)) as C2.
    rewrite (wrap64_small (ceil_div q b * 32)) by lia.
    rewrite wrap32_small by lia.
    reflexivity.
Qed.

(** C7.  On a positive multiple of the warp granularity that a caller can
    pass (the callers pass an [alignUp] result, or its quotient by the world
    size, that they have checked against [kMaxIntraNodeSize / element_size];
    below [2^31] no 32-bit sum in [divUp] wraps), [getLaunchConfig] returns
    [blocks.x = min (ceil (threadsRequired / 1024)) 24] and
    [threads.x = min 1024 (ceil (warpsRequired / blocks.x) * warpSize)] when
    the payload fills a 1024-thread block, and otherwise one block of exactly
    [warpsRequired * warpSize] threads. *)
Theorem getLaunchConfig_geometry (N_aligned elemSize : Z) :
  1 <= elemSize <= 16 ->
  0 < N_aligned < 2 ^ 31 ->
  N_aligned mod (kBytesPerThread / elemSize * kWarpSize) = 0 ->
  let numelPerThread := kBytesPerThread / elemSize in
  let numelPerWarp := numelPerThread * kWarpSize in
  let threadsRequired := N_aligned / numelPerThread in
  let warpsRequired := N_aligned / numelPerWarp in
  exists blocks threads,
    getLaunchConfig N_aligned elemSize = Ok (blocks, threads) /\
    dim_y blocks = 1 /\ dim_z blocks = 1 /\
    dim_y threads = 1 /\ dim_z threads = 1 /\
    (numelPerThread * kThreadsPerBlock <= N_aligned ->
       dim_x blocks =
         Z.min (ceil_div threadsRequired kThreadsPerBlock)
               kMaxAllReduceBlocks /\
       dim_x threads =
         Z.min kThreadsPerBlock
               (ceil_div warpsRequired (dim_x blocks) * kWarpSize)) /\
    (N_aligned < numelPerThread * kThreadsPerBlock ->
       dim_x blocks = 1 /\ dim_x threads = warpsRequired * kWarpSize).
Proof.
  intros He HN Hmod n w tr wr.
  pose proof (numelPerThread_range elemSize He) as Hn. fold n in Hn, Hmod.
  assert (Hw : 0 < w) by (unfold w, kWarpSize; lia).
  assert (EN : N_aligned = w * wr).
  { unfold wr. apply Z.div_exact; [ lia | exact Hmod ]. }
  assert (Hq : 0 < wr) by nia.
  assert (Etr : tr = wr * kWarpSize).
  { unfold tr. rewrite EN. unfold w.
    replace (n * kWarpSize * wr) with (wr * kWarpSize * n) by lia.
    apply Z.div_mul. lia. }
  pose proof (getLaunchConfig_multiple elemSize wr He Hq) as G.
  fold n in G. cbv zeta in G. fold w in G. rewrite <- EN in G.
  specialize (G ltac:(lia)).
  unfold kWarpSize, kThreadsPerBlock, kMaxAllReduceBlocks in *.
  destruct (wr <? 32) eqn:E.
  - apply Z.ltb_lt in E.
    eexists _, _. split; [ exact G |]. cbn.
    repeat split; try reflexivity; intros; unfold w in *; nia.
  - apply Z.ltb_ge in E.
    eexists _, _. split; [ exact G |]. cbn.
    repeat split; try reflexivity; intros; unfold w in *;
      try rewrite Etr; try reflexivity; nia.
Qed.

(** The hypotheses of [getLaunchConfig_geometry] hold, and its conclusion is
    evaluated, on 65536 bf16 elements (128 KiB): 8 blocks of 1024 threads. *)
Lemma getLaunchConfig_geometry_witness :
  (1 <= 2 <= 16) /\ (0 < 65536 < 2 ^ 31) /\
  65536 mod (kBytesPerThread / 2 * kWarpSize) = 0 /\
  exists blocks threads,
    getLaunchConfig 65536 2 = Ok (blocks, threads) /\
    dim_y blocks = 1 /\ dim_z blocks = 1 /\
    dim_y threads = 1 /\ dim_z threads = 1 /\
    (kBytesPerThread / 2 * kThreadsPerBlock <= 65536 ->
       dim_x blocks =
         Z.min (ceil_div (65536 / (kBytesPerThread / 2)) kThreadsPerBlock)
               kMaxAllReduceBlocks /\
       dim_x threads =
         Z.min kThreadsPerBlock
               (ceil_div (65536 / (kBytesPerThread / 2 * kWarpSize))
                         (dim_x blocks) * kWarpSize)) /\
    (65536 < kBytesPerThread / 2 * kThreadsPerBlock ->
       dim_x blocks = 1 /\
       dim_x threads = 65536 / (kBytesPerThread / 2 * kWarpSize) * kWarpSize).
Proof.
  split; [ lia |]. split; [ lia |]. split; [ reflexivity |].
  apply (getLaunchConfig_geometry 65536 2); [ lia | lia | reflexivity ].
Defined.

(** What the selector computes on a bf16 tensor that fits the cap: the
    thresholds named [...ThreshBytes] are compared with the aligned ELEMENT
    count, never with a byte size. *)
Lemma selectAllReduceAlgo_counts_elements
    (cap n rank : Z) (topology : Topology) (worldSize : Z) :
  0 <= n -> 2 * n <= cap -> cap < 2 ^ 32 -> 1 <= worldSize <= 8 ->
  selectAllReduceAlgo cap (bf16Tensor n rank) topology worldSize =
  match topology with
  | HYBRID_CUBE_MESH =>
      if worldSize =? 8 then
        if ceil_div n 256 * 256 <=? 262144 then Ok HCM else Ok NONE
      else Throw (Error "hyperCubeAllReduce only supports exactly 8 GPUs")
  | FULLY_CONNECTED =>
      if ceil_div n 256 * 256 <=? 262144 then Ok ONE_SHOT
      else if ceil_div n (256 * worldSize) * (256 * worldSize) <=? 10485760
      then Ok TWO_SHOT else Ok NONE
  | UNSUPPORTED => Ok NONE
  end.
Proof.
  intros Hn Hcap Hc HW.
  unfold selectAllReduceAlgo, bf16Tensor, element_size.
  cbn [dtype numel itemsize].
  cbn [ScalarType_eqb negb orb].
  rewrite (wrap64_small (n * 2)) by lia.
  assert (G : (n * 2 >? cap) = false).
  { rewrite Z.gtb_ltb. apply Z.ltb_ge. lia. }
  rewrite G. unfold kBytesPerThread, kWarpSize, kHcmThreshBytes,
    kOneShotThreshBytes, kTwoShotThreshBytes.
  change (wrap64 (16 / 2 * 32)) with 256.
  change (256 * 1024) with 262144. change (10 * 1024 * 1024) with 10485760.
  rewrite (wrap64_small (256 * worldSize)) by lia.
  rewrite (alignUp_exact n 256) by lia.
  destruct topology; cbn [bind].
  - reflexivity.
  - rewrite (alignUp_exact n (256 * worldSize)) by lia. reflexivity.
  - destruct (worldSize =? 8); cbn [TORCH_CHECK bind]; [| reflexivity ].
    destruct (ceil_div n 256 * 256 <=? 262144); reflexivity.
Qed.

(** C2 (evaluation at the failing input).  A bf16 tensor of 200000 elements
    occupies 400000 bytes, 400384 after warp alignment, which exceeds the
    256 KiB of [kOneShotThreshBytes] and [kHcmThreshBytes]; the selector still
    answers ONE_SHOT on a fully connected fabric and HCM on a hybrid cube
    mesh, because it compares the aligned element count 200192 with the
    thresholds. *)
Theorem selectAllReduceAlgo_compares_element_count :
  let t := bf16Tensor 200000 0 in
  numel t * element_size t = 400000 /\
  alignUp (numel t) 256 = 200192 /\
  alignUp (numel t) 256 * element_size t = 400384 /\
  kOneShotThreshBytes = 262144 /\ kHcmThreshBytes = 262144 /\
  (forall cap,
     selectAllReduceAlgo cap t FULLY_CONNECTED 8 =
       Ok (if 400000 <=? cap then ONE_SHOT else NONE)) /\
  (forall cap,
     selectAllReduceAlgo cap t HYBRID_CUBE_MESH 8 =
       Ok (if 400000 <=? cap then HCM else NONE)).
Proof.
  cbv zeta. repeat split; try reflexivity.
  - intros cap. unfold selectAllReduceAlgo, bf16Tensor, element_size.
    cbn [dtype numel itemsize ScalarType_eqb negb orb].
    change (wrap64 (200000 * 2)) with 400000.
    rewrite Z.gtb_ltb.
    destruct (400000 <=? cap) eqn:E;
      [ apply Z.leb_le in E; rewrite (proj2 (Z.ltb_ge cap 400000) E)
      | apply Z.leb_gt in E; rewrite (proj2 (Z.ltb_lt cap 400000) E) ];
      reflexivity.
  - intros cap. unfold selectAllReduceAlgo, bf16Tensor, element_size.
    cbn [dtype numel itemsize ScalarType_eqb negb orb].
    change (wrap64 (200000 * 2)) with 400000.
    rewrite Z.gtb_ltb.
    destruct (400000 <=? cap) eqn:E;
      [ apply Z.leb_le in E; rewrite (proj2 (Z.ltb_ge cap 400000) E)
      | apply Z.leb_gt in E; rewrite (proj2 (Z.ltb_lt cap 400000) E) ];
      reflexivity.
Qed.

Lemma region_eqb_spec a b : reflect (a = b) (region_eqb a b).
Proof.
  destruct a as [r|r|r], b as [r'|r'|r']; cbn;
    try (constructor; congruence);
    destruct (Z.eqb_spec r r'); constructor; congruence.
Qed.

Lemma region_eqb_refl a : region_eqb a a = true.
Proof. destruct (region_eqb_spec a a); congruence. Qed.

(** A device pointer: an allocation and an element offset into it. *)

(** ** Loop invariants *)

Lemma seqZ_In n x : In x (seqZ n) <-> 0 <= x < n.
Proof.
  unfold seqZ. rewrite in_map_iff. split.
  - intros [k [<- Hk]]. apply in_seq in Hk. lia.
  - intros H. exists (Z.to_nat x). split; [ lia | apply in_seq; lia ].
Qed.

Lemma seqZ_NoDup n : NoDup (seqZ n).
Proof.
  unfold seqZ. apply Finite.Injective_map_NoDup.
  - intros a b H. lia.
  - apply seq_NoDup.
Qed.

Lemma foldR_prefix {A S} (f : A -> S -> result S) (I : list A -> S -> Prop)
    (l : list A) :
  (forall done a s s',
      In a l -> I done s -> f a s = Ok s' -> I (done ++ [a]) s') ->
  forall pre s s', I pre s -> foldR f l s = Ok s' -> I (pre ++ l) s'.
Proof.
  induction l as [|a l IH]; intros Hstep pre s s' HI Hrun; cbn in Hrun.
  - inversion Hrun; subst. now rewrite app_nil_r.
  - destruct (f a s) as [s1|e] eqn:E; cbn in Hrun; [| discriminate ].
    replace (pre ++ a :: l) with ((pre ++ [a]) ++ l)
      by (rewrite <- app_assoc; reflexivity).
    apply IH with (s := s1); auto.
    + intros done b t t' Hb. apply Hstep. now right.
    + apply Hstep with (s := s); auto. now left.
Qed.

Lemma foldR_invariant {A S} (f : A -> S -> result S) (I : list A -> S -> Prop)
    (l : list A) s s' :
  I [] s ->
  (forall done a s s',
      In a l -> I done s -> f a s = Ok s' -> I (done ++ [a]) s') ->
  foldR f l s = Ok s' -> I l s'.
Proof.
  intros H0 Hstep Hrun.
  apply (foldR_prefix f I l Hstep [] s s' H0 Hrun).
Qed.

Lemma foldM_prefix {A S} (f : A -> S -> option S) (I : list A -> S -> Prop)
    (l : list A) :
  (forall done a s s',
      In a l -> I done s -> f a s = Some s' -> I (done ++ [a]) s') ->
  forall pre s s', I pre s -> foldM f l s = Some s' -> I (pre ++ l) s'.
Proof.
  induction l as [|a l IH]; intros Hstep pre s s' HI Hrun; cbn in Hrun.
  - inversion Hrun; subst. now rewrite app_nil_r.
  - destruct (f a s) as [s1|] eqn:E; [| discriminate ].
    replace (pre ++ a :: l) with ((pre ++ [a]) ++ l)
      by (rewrite <- app_assoc; reflexivity).
    apply IH with (s := s1); auto.
    + intros done b t t' Hb. apply Hstep. now right.
    + apply Hstep with (s := s); auto. now left.
Qed.

Lemma foldM_invariant {A S} (f : A -> S -> option S) (I : list A -> S -> Prop)
    (l : list A) s s' :
  I [] s ->
  (forall done a s s',
      In a l -> I done s -> f a s = Some s' -> I (done ++ [a]) s') ->
  foldM f l s = Some s' -> I l s'.
Proof.
  intros H0 Hstep Hrun.
  apply (foldM_prefix f I l Hstep [] s s' H0 Hrun).
Qed.

Lemma fold_left_invariant {A S} (f : S -> A -> S) (I : S -> Prop)
    (l : list A) s :
  I s -> (forall a s, In a l -> I s -> I (f s a)) -> I (fold_left f l s).
Proof.
  revert s. induction l as [|a l IH]; intros s H0 Hstep; cbn; auto.
  apply IH.
  - apply Hstep; [ now left | exact H0 ].
  - intros b t Hb. apply Hstep. now right.
Qed.

(** ** The role table *)

Lemma setRow_same {A} (arr : Z -> A) i v : setRow arr i v i = v.
Proof. unfold setRow. now rewrite Z.eqb_refl. Qed.

Lemma setRow_other {A} (arr : Z -> A) i v i' :
  i' <> i -> setRow arr i v i' = arr i'.
Proof. intros H. unfold setRow. now rewrite (proj2 (Z.eqb_neq i' i) H). Qed.

Lemma setEntry_same t i k v : setEntry t i k v i k = v.
Proof. unfold setEntry. now rewrite !Z.eqb_refl. Qed.

Lemma setEntry_other t i k v i' k' :
  i' <> i \/ k' <> k -> setEntry t i k v i' k' = t i' k'.
Proof.
  intros H. unfold setEntry.
  destruct (Z.eqb_spec i' i), (Z.eqb_spec k' k); cbn; try reflexivity; lia.
Qed.

Lemma erase_In x y s : In y (erase x s) <-> In y s /\ y <> x.
Proof.
  unfold erase. split.
  - intros H. apply in_remove in H. exact H.
  - intros [H1 H2]. now apply in_in_remove.
Qed.

(** The neighbor sets only hold device indices. *)
Lemma buildNeighbors_range (nvlMesh : NvlMesh) i x :
  In x (fst (buildNeighbors nvlMesh) i) -> 0 <= x < kMaxDevices.
Proof.
  unfold buildNeighbors.
  set (I := fun st : (Z -> list Z) * (Z -> Z) =>
              forall i x, In x (fst st i) -> 0 <= x < kMaxDevices).
  enough (H : I (fold_left
    (fun st i =>
       fold_left
         (fun st j =>
            let '(neighbors, neighborMasks) := st in
            if nvlMesh i j >? 0 then
              (setRow neighbors i (neighbors i ++ [j]),
               setRow neighborMasks i
                      (Z.lor (neighborMasks i) (wrap64 (Z.shiftl 1 j))))
            else st)
         (seqZ kMaxDevices) st)
    (seqZ kMaxDevices)
    (fun _ => [], fun _ => 0))) by (apply H).
  apply fold_left_invariant.
  - intros i0 x0 []. 
  - intros a st _ Hst. apply fold_left_invariant; [ exact Hst |].
    intros j [nb mk] Hj Hs. destruct (nvlMesh a j >? 0); [| exact Hs ].
    intros i0 x0. cbn [fst]. unfold setRow.
    destruct (i0 =? a) eqn:E.
    + rewrite in_app_iff. intros [H | [<- | []]].
      * apply (Hs a x0 H).
      * now apply seqZ_In.
    + apply (Hs i0 x0).
Qed.

Section TopologyProofs.

Variable enumerate : list Z -> list Z.
Hypothesis enumerate_incl : forall s x, In x (enumerate s) -> In x s.

Variable neighborMasks : Z -> Z.
Variable neighbors0 : Z -> list Z.
Hypothesis neighbors0_range :
  forall i x, In x (neighbors0 i) -> 0 <= x < kMaxDevices.




Lemma recognized_of_length i :
  Z.of_nat (List.length (relayNeighborsOf neighborMasks i)) = 1 ->
  recognized neighborMasks i.
Proof.
  unfold recognized, relayOf.
  destruct (relayNeighborsOf neighborMasks i) as [|a [|b l]];
    cbn; intros H; try reflexivity; lia.
Qed.

Lemma relayOf_range i :
  recognized neighborMasks i -> 0 <= relayOf neighborMasks i < kMaxDevices.
Proof.
  intros H. apply seqZ_In.
  assert (In (relayOf neighborMasks i) (relayNeighborsOf neighborMasks i))
    as Hin
      by (rewrite H; now left).
  unfold relayNeighborsOf in Hin. apply filter_In in Hin.
  exact (proj1 Hin).
Qed.

(** The relay relation is symmetric: the test [mask[i] & mask[j] == 0] is. *)
Lemma relayOf_involutive i :
  0 <= i < kMaxDevices -> recognized neighborMasks i ->
  recognized neighborMasks (relayOf neighborMasks i) ->
  relayOf neighborMasks (relayOf neighborMasks i) = i.
Proof.
  intros Hi Ri Rr.
  assert (In (relayOf neighborMasks i) (relayNeighborsOf neighborMasks i))
    as Hin
      by (rewrite Ri; now left).
  unfold relayNeighborsOf in Hin. apply filter_In in Hin.
  destruct Hin as [_ Hland].
  assert (In i (relayNeighborsOf neighborMasks (relayOf neighborMasks i)))
    as Hback.
  { unfold relayNeighborsOf. apply filter_In. split.
    - now apply seqZ_In.
    - now rewrite Z.land_comm. }
  rewrite Rr in Hback. destruct Hback as [E | []]. exact E.
Qed.


Lemma recognizeRow_step done i st st' :
  recognitionDone neighborMasks neighbors0 done st ->
  recognizeRow neighborMasks i st = Some st' ->
  recognitionDone neighborMasks neighbors0 (done ++ [i]) st'.
Proof.
  intros [D1 [D2 D3]] Hrow. destruct st as [nb hcm].
  unfold recognizeRow in Hrow. fold (relayNeighborsOf neighborMasks i) in Hrow.
  destruct (Z.of_nat (List.length (nb i)) =? 4); cbn [negb] in Hrow;
    [| discriminate ].
  destruct (Z.eqb_spec
              (Z.of_nat (List.length (relayNeighborsOf neighborMasks i))) 1)
    as [E1|]; cbn [negb] in Hrow; [| discriminate ].
  fold (relayOf neighborMasks i) in Hrow. inversion Hrow; subst st'; clear Hrow.
  cbn [fst snd] in *. unfold recognitionDone. cbn [fst snd]. repeat split.
  - destruct (Z.eq_dec i0 i) as [->|Hne].
    + now apply recognized_of_length.
    + apply in_app_iff in H. destruct H as [H | [H | []]]; [| congruence ].
      apply (D1 i0 H).
  - destruct (Z.eq_dec i0 i) as [->|Hne].
    + apply setEntry_same.
    + apply in_app_iff in H. destruct H as [H | [H | []]]; [| congruence ].
      rewrite setEntry_other by auto. apply (D1 i0 H).
  - destruct (Z.eq_dec i0 i) as [->|Hne].
    + rewrite setRow_same, erase_In. intros [_ C]. now apply C.
    + apply in_app_iff in H. destruct H as [H | [H | []]]; [| congruence ].
      rewrite setRow_other by auto. apply (D1 i0 H).
  - intros i0 k Hk. rewrite setEntry_other by auto. now apply D2.
  - intros i0 x. unfold setRow. destruct (i0 =? i) eqn:E.
    + apply Z.eqb_eq in E. subst i0. rewrite erase_In. intros [H _].
      now apply D3.
    + apply D3.
Qed.

Lemma recognition_facts st :
  foldM (recognizeRow neighborMasks) (seqZ kMaxDevices)
        (neighbors0, fun _ _ => -1) = Some st ->
  recognitionDone neighborMasks neighbors0 (seqZ kMaxDevices) st.
Proof.
  intros H.
  apply (foldM_invariant (recognizeRow neighborMasks)
           (recognitionDone neighborMasks neighbors0)
           (seqZ kMaxDevices) (neighbors0, fun _ _ => -1) st);
    [ | | exact H ].
  - unfold recognitionDone. cbn [fst snd].
    split; [ intros i [] | split; [ intros; reflexivity | auto ] ].
  - intros done a s s' _ HI Hs. now apply recognizeRow_step with (st := s).
Qed.


Lemma assignInv_of_recognition st :
  recognitionDone neighborMasks neighbors0 (seqZ kMaxDevices) st ->
  assignInv neighborMasks st.
Proof.
  intros [D1 [D2 D3]]. repeat split.
  - apply D1. now apply seqZ_In.
  - apply D1. now apply seqZ_In.
  - apply D1. now apply seqZ_In.
  - apply (neighbors0_range i). now apply D3.
  - apply (neighbors0_range i). now apply D3.
  - intros i k _ Hk. left. apply D2. lia.
Qed.

Lemma assignColumn_step i k st st' :
  0 <= i < kMaxDevices -> 0 <= k < 3 ->
  assignInv neighborMasks st -> assignColumn enumerate i k st = Ok st' ->
  assignInv neighborMasks st' /\ snd st' i k <> -1 /\
  (forall i' k', snd st i' k' <> -1 -> snd st' i' k' <> -1).
Proof.
  intros Hi Hk [A1 [A2 A3]] Hstep. destruct st as [nb hcm].
  unfold assignColumn in Hstep. cbn [fst snd] in *.
  set (hcm1 := match find (fun j => hcm j k =? -1) (enumerate (nb i)) with
               | Some j => setEntry (setEntry hcm i k j) j k i
               | None => hcm
               end) in *.
  destruct (Z.eqb_spec (hcm1 i k) (-1)) as [|Hset]; cbn in Hstep;
    [ discriminate |].
  inversion Hstep; subst st'; clear Hstep. cbn [fst snd].
  assert (B : (forall i' k', hcm i' k' <> -1 -> hcm1 i' k' <> -1) /\
              (forall i', hcm1 i' 3 = hcm i' 3) /\
              (forall i' k', 0 <= i' < kMaxDevices -> 0 <= k' < 3 ->
                 hcm1 i' k' = -1 \/
                 (0 <= hcm1 i' k' < kMaxDevices /\
                  hcm1 i' k' <> relayOf neighborMasks i'))).
  { unfold hcm1.
    destruct (find (fun j => hcm j k =? -1) (enumerate (nb i))) as [j|] eqn:F.
    - apply find_some in F. destruct F as [Hj Hfree].
      apply enumerate_incl in Hj. apply Z.eqb_eq in Hfree.
      pose proof (A2 i j Hj) as Rj.
      assert (Hjr : j <> relayOf neighborMasks i).
      { intros ->. now apply (A1 i Hi). }
      assert (Hir : i <> relayOf neighborMasks j).
      { intros E. apply Hjr. rewrite E.
        symmetry. apply relayOf_involutive; auto.
        - apply (A1 j Rj).
        - rewrite <- E. apply (A1 i Hi). }
      repeat split.
      + intros i' k' H. unfold setEntry.
        destruct ((i' =? j) && (k' =? k)); [ lia |].
        destruct ((i' =? i) && (k' =? k)); [ lia | exact H ].
      + intros i'. rewrite !setEntry_other by lia. reflexivity.
      + intros i' k' Hi' Hk'. unfold setEntry.
        destruct (Z.eqb_spec i' j), (Z.eqb_spec k' k); cbn [andb];
          try (subst; right; split; [ lia | congruence ]);
          destruct (Z.eqb_spec i' i); cbn [andb];
          try (subst; right; split; [ lia | congruence ]);
          now apply A3.
    - repeat split; auto. }
  destruct B as [B1 [B2 B3]]. unfold assignInv. cbn [fst snd].
  repeat split.
  - apply (A1 i0 H).
  - rewrite B2. apply (A1 i0 H).
  - unfold setRow. destruct (i0 =? i) eqn:E.
    + apply Z.eqb_eq in E. subst i0. rewrite erase_In.
      intros [H1 _]. now apply (A1 i Hi).
    + apply (A1 i0 H).
  - revert H. unfold setRow. destruct (i0 =? i).
    + rewrite erase_In. intros [H _]. apply (A2 i x H).
    + intros H. apply (A2 i0 x H).
  - revert H. unfold setRow. destruct (i0 =? i).
    + rewrite erase_In. intros [H _]. apply (A2 i x H).
    + intros H. apply (A2 i0 x H).
  - exact B3.
  - exact Hset.
  - exact B1.
Qed.


Lemma assignRow_step i st st' :
  0 <= i < kMaxDevices -> assignInv neighborMasks st ->
  foldR (fun k => assignColumn enumerate i k) (seqZ 3) st = Ok st' ->
  assignInv neighborMasks st' /\
  (forall k, 0 <= k < 3 -> snd st' i k <> -1) /\
  (forall i' k', snd st i' k' <> -1 -> snd st' i' k' <> -1).
Proof.
  intros Hi HI Hrun.
  pose (J := fun (done : list Z) (s : (Z -> list Z) * HybridCubeMesh) =>
               assignInv neighborMasks s /\
               (forall k, In k done -> snd s i k <> -1) /\
               (forall i' k', snd st i' k' <> -1 -> snd s i' k' <> -1)).
  assert (HJ : J (seqZ 3) st').
  { apply (foldR_invariant (fun k => assignColumn enumerate i k) J
             (seqZ 3) st st'); [ | | exact Hrun ].
    - unfold J. split; [ exact HI | split; [ intros k [] | auto ] ].
    - intros done k s s' Hk [J1 [J2 J3]] Hs.
      apply seqZ_In in Hk.
      destruct (assignColumn_step i k s s' Hi Hk J1 Hs) as [S1 [S2 S3]].
      unfold J. split; [ exact S1 | split ].
      + intros k0 Hk0. apply in_app_iff in Hk0.
        destruct Hk0 as [Hk0 | [<- | []]]; auto.
      + intros i' k' H. apply S3, J3, H. }
  destruct HJ as [J1 [J2 J3]].
  split; [ exact J1 | split; [| exact J3 ] ].
  intros k Hk. apply J2. now apply seqZ_In.
Qed.

Lemma assignColumns_facts st st' :
  assignInv neighborMasks st -> assignColumns enumerate st = Ok st' ->
  rowsAssigned neighborMasks (seqZ kMaxDevices) st'.
Proof.
  intros HI Hrun. unfold assignColumns in Hrun.
  apply (foldR_invariant
           (fun i => foldR (fun k => assignColumn enumerate i k) (seqZ 3))
           (rowsAssigned neighborMasks) (seqZ kMaxDevices) st st');
    [ | | exact Hrun ].
  - split; [ exact HI | intros i k [] ].
  - intros done i s s' Hi [R1 R2] Hs. apply seqZ_In in Hi.
    destruct (assignRow_step i s s' Hi R1 Hs) as [S1 [S2 S3]].
    split; [ exact S1 |].
    intros i0 k Hi0 Hk. apply in_app_iff in Hi0.
    destruct Hi0 as [Hi0 | [<- | []]]; auto.
Qed.

End TopologyProofs.

(** The two loops behind a returned table. *)
Lemma getHybridCubeMesh_inv (enumerate : list Z -> list Z)
    (nvlMesh : NvlMesh) (hcm : HybridCubeMesh) :
  getHybridCubeMesh enumerate nvlMesh = Ok (Some hcm) ->
  exists st st',
    foldM (recognizeRow (snd (buildNeighbors nvlMesh))) (seqZ kMaxDevices)
          (fst (buildNeighbors nvlMesh), (fun _ _ => -1) : HybridCubeMesh)
      = Some st /\
    assignColumns enumerate st = Ok st' /\ hcm = snd st'.
Proof.
  unfold getHybridCubeMesh.
  destruct (buildNeighbors nvlMesh) as [nb0 masks]. cbn [fst snd].
  destruct (foldM (recognizeRow masks) (seqZ kMaxDevices) (nb0, _))
    as [st|] eqn:Hrec; [| discriminate ].
  destruct (assignColumns enumerate st) as [st'|e] eqn:Hassign; cbn [bind];
    [| discriminate ].
  intros H. injection H as <-. exists st, st'.
  split; [ reflexivity | split; [ exact Hassign | reflexivity ] ].
Qed.

(** What a returned role table satisfies, for every enumeration order of the
    neighbor sets. *)
Lemma getHybridCubeMesh_facts (enumerate : list Z -> list Z)
    (nvlMesh : NvlMesh) (hcm : HybridCubeMesh) :
  (forall s x, In x (enumerate s) -> In x s) ->
  getHybridCubeMesh enumerate nvlMesh = Ok (Some hcm) ->
  exists relay : Z -> Z,
    (forall i, 0 <= i < kMaxDevices ->
       0 <= relay i < kMaxDevices /\ relay (relay i) = i /\ hcm i 3 = relay i)
    /\
    (forall i k, 0 <= i < kMaxDevices -> 0 <= k < 3 ->
       0 <= hcm i k < kMaxDevices /\ hcm i k <> relay i).
Proof.
  intros Hincl Hrun.
  destruct (getHybridCubeMesh_inv enumerate nvlMesh hcm Hrun)
    as [st [st' [Hrec [Hassign ->]]]].
  pose proof (buildNeighbors_range nvlMesh) as Hrange.
  set (nb0 := fst (buildNeighbors nvlMesh)) in *.
  set (masks := snd (buildNeighbors nvlMesh)) in *.
  pose proof (recognition_facts masks nb0 st Hrec) as HR.
  pose proof (assignInv_of_recognition masks nb0 Hrange st HR) as HI.
  destruct (assignColumns_facts enumerate Hincl masks st st' HI Hassign)
    as [[A1 [A2 A3]] Hset].
  exists (relayOf masks). split.
  - intros i Hi. destruct (A1 i Hi) as [Ri [E _]].
    pose proof (relayOf_range masks i Ri) as Rr.
    split; [ exact Rr | split; [| exact E ] ].
    apply relayOf_involutive; [ exact Hi | exact Ri | apply (A1 _ Rr) ].
  - intros i k Hi Hk.
    destruct (A3 i k Hi Hk) as [E | H]; [| exact H ].
    exfalso. apply (Hset i k); [ now apply seqZ_In | exact Hk | exact E ].
Qed.

(** C8.  In every role table that [getHybridCubeMesh] returns, whatever the
    order in which the neighbor sets are enumerated, the relay entry
    [hcm[x][3]] differs from the three neighbor entries [hcm[x][0..2]];
    hence, in the kernel, the signal cell of the relay handshake is none of
    the cells of the entry barrier with the three neighbors, on the acquire
    side (own table, column of the peer) and on the release side (table of
    the peer, own column). *)
Theorem relay_signal_column_is_free (enumerate : list Z -> list Z)
    (nvlMesh : NvlMesh) (hcm : HybridCubeMesh) :
  (forall s x, In x (enumerate s) -> In x s) ->
  getHybridCubeMesh enumerate nvlMesh = Ok (Some hcm) ->
  forall x, 0 <= x < kMaxDevices ->
    (hcm x 3 <> hcm x 0 /\ hcm x 3 <> hcm x 1 /\ hcm x 3 <> hcm x 2) /\
    forall blockIdx,
      ~ In (hcmRelayAcquire (hcm x) x blockIdx)
           (hcmBarrierAcquires (hcm x) x blockIdx) /\
      ~ In (hcmRelayRelease (hcm x) x blockIdx)
           (hcmBarrierReleases (hcm x) x blockIdx).
Proof.
  intros Hincl Hrun x Hx.
  destruct (getHybridCubeMesh_facts enumerate nvlMesh hcm Hincl Hrun)
    as [relay [R1 R2]].
  destruct (R1 x Hx) as [_ [_ E3]].
  assert (D : forall k, 0 <= k < 3 -> hcm x 3 <> hcm x k).
  { intros k Hk E. destruct (R2 x k Hx Hk) as [_ Hne]. congruence. }
  split.
  - repeat split; apply D; lia.
  - intros blockIdx.
    unfold hcmRelayAcquire, hcmBarrierAcquires, hcmRelayRelease,
      hcmBarrierReleases.
    split; intros Hin; apply in_map_iff in Hin;
      destruct Hin as [t [Ht Hin]]; apply seqZ_In in Hin;
      apply (D t Hin); inversion Ht; congruence.
Qed.

(** X16.  In every role table [getHybridCubeMesh] returns, for every matrix
    and every enumeration order of the neighbour sets, the four entries of
    every row are assigned ranks, and the relay column is an involution. *)
Theorem role_table_assigned_and_relay_involutive (enumerate : list Z -> list Z)
    (nvlMesh : NvlMesh) (hcm : HybridCubeMesh) :
  (forall s x, In x (enumerate s) -> In x s) ->
  getHybridCubeMesh enumerate nvlMesh = Ok (Some hcm) ->
  forall x, 0 <= x < kMaxDevices ->
    (forall k, 0 <= k < 4 -> hcm x k <> -1 /\ 0 <= hcm x k < kMaxDevices) /\
    hcm (hcm x 3) 3 = x.
Proof.
  intros Hincl Hrun x Hx.
  destruct (getHybridCubeMesh_facts enumerate nvlMesh hcm Hincl Hrun)
    as [relay [R1 R2]].
  destruct (R1 x Hx) as [Rr [Rinv E3]]. split.
  - intros k Hk. destruct (Z.eq_dec k 3) as [->|Hne].
    + rewrite E3. lia.
    + destruct (R2 x k Hx ltac:(lia)). lia.
  - rewrite E3. destruct (R1 (relay x) Rr) as [_ [_ E]]. congruence.
Qed.

(** ** The all-gather index of the two-shot kernel *)

Lemma srcRank_range W rank ii : 0 < W -> 0 <= srcRank W rank ii < W.
Proof. intros H. unfold srcRank. apply Z.mod_pos_bound. lia. Qed.

Lemma gatherIndex_eq (W rank Npr i ii : Z) :
  0 < W -> 0 <= rank < W -> 0 <= i < Npr -> W * Npr < 2 ^ 64 ->
  gatherIndex W rank Npr (wrap64 (Npr * rank)) i ii
    = srcRank W rank ii * Npr + i.
Proof.
  intros HW Hr Hi Hbig.
  pose proof (srcRank_range W rank ii HW) as Hs.
  set (s := srcRank W rank ii) in *.
  unfold gatherIndex. fold s.
  rewrite (wrap64_small (Npr * rank)) by nia.
  rewrite (wrap64_small (Npr * rank + i)) by nia.
  unfold wrap64.
  rewrite Z.mul_mod_idemp_l by lia.
  rewrite Z.add_mod_idemp_r by lia.
  replace (Npr * rank + i + (s - rank) * Npr) with (s * Npr + i) by lia.
  apply Z.mod_small. nia.
Qed.

(** C9.  In the all-gather loop (lines 245-253), for a rank below the world
    size, a peer slot [ii] in [1, W) and a position [i] of the shard, the
    index [k = N_start + i + (srcRanks[ii] - rank) * N_per_rank], computed
    modulo [2^64], is exactly [srcRanks[ii] * N_per_rank + i] and lies in
    [0, N_aligned); when [srcRanks[ii] < rank] the difference wraps around
    to [2^64 - (rank - srcRanks[ii])]. *)
Theorem gatherIndex_wraparound_cancels (W rank N_aligned i ii : Z) :
  2 <= W <= 8 ->
  0 <= rank < W ->
  1 <= ii < W ->
  0 <= N_aligned < 2 ^ 64 ->
  0 <= i < N_aligned / W ->
  let N_per_rank := N_aligned / W in
  let N_start := wrap64 (N_per_rank * rank) in
  let k := gatherIndex W rank N_per_rank N_start i ii in
  k = srcRank W rank ii * N_per_rank + i /\
  0 <= k < N_aligned /\
  (srcRank W rank ii < rank ->
   wrap64 (srcRank W rank ii - rank) = 2 ^ 64 - (rank - srcRank W rank ii) /\
   2 ^ 63 <= wrap64 (srcRank W rank ii - rank)).
Proof.
  intros HW Hr Hii HN Hi N_per_rank N_start k.
  pose proof (srcRank_range W rank ii ltac:(lia)) as Hs.
  set (s := srcRank W rank ii) in *.
  assert (Hle : W * N_per_rank <= N_aligned)
    by (unfold N_per_rank; apply Z.mul_div_le; lia).
  assert (Hp : 0 <= N_per_rank) by (unfold N_per_rank; apply Z.div_pos; lia).
  assert (Hk : 0 <= s * N_per_rank + i < N_aligned) by nia.
  assert (E : k = s * N_per_rank + i).
  { unfold k, gatherIndex. fold s. unfold N_start.
    rewrite (wrap64_small (N_per_rank * rank)) by nia.
    rewrite (wrap64_small (N_per_rank * rank + i)) by nia.
    unfold wrap64.
    rewrite Z.mul_mod_idemp_l by lia.
    rewrite Z.add_mod_idemp_r by lia.
    replace (N_per_rank * rank + i + (s - rank) * N_per_rank)
      with (s * N_per_rank + i) by lia.
    apply Z.mod_small. lia. }
  split; [ exact E | split; [ lia |] ].
  intros Hlt. unfold wrap64.
  assert (W1 : (s - rank) mod 2 ^ 64 = 2 ^ 64 - (rank - s)).
  { symmetry. apply Z.mod_unique with (q := -1); lia. }
  rewrite W1. lia.
Qed.

(** The hypotheses of [gatherIndex_wraparound_cancels] at world size 4, rank
    3, peer slot 2 (source rank 1, below the rank), position 5 of a shard of
    256 elements. *)
Lemma gatherIndex_wraparound_cancels_witness :
  (2 <= 4 <= 8) /\ (0 <= 3 < 4) /\ (1 <= 2 < 4) /\ (0 <= 1024 < 2 ^ 64) /\
  (0 <= 5 < 1024 / 4) /\
  gatherIndex 4 3 (1024 / 4) (wrap64 (1024 / 4 * 3)) 5 2
    = srcRank 4 3 2 * (1024 / 4) + 5 /\
  0 <= gatherIndex 4 3 (1024 / 4) (wrap64 (1024 / 4 * 3)) 5 2 < 1024 /\
  (srcRank 4 3 2 < 3 ->
   wrap64 (srcRank 4 3 2 - 3) = 2 ^ 64 - (3 - srcRank 4 3 2) /\
   2 ^ 63 <= wrap64 (srcRank 4 3 2 - 3)).
Proof.
  split; [ lia |]. split; [ lia |]. split; [ lia |]. split; [ lia |].
  split; [ split; [ lia | reflexivity ] |].
  apply (gatherIndex_wraparound_cancels 4 3 1024 5 2);
    try lia; split; [ lia | reflexivity ].
Defined.

(** ** Loops as folds over the visited positions *)

Lemma foldM_pure {A S} (f : A -> S -> option S) (g : A -> S -> S)
    (l : list A) s :
  (forall a s, In a l -> f a s = Some (g a s)) ->
  foldM f l s = Some (fold_left (fun s a => g a s) l s).
Proof.
  revert s. induction l as [|a l IH]; intros s H; cbn; [ reflexivity |].
  rewrite H by now left. apply IH. intros b t Hb. apply H. now right.
Qed.

Lemma foldM_flat {A B S} (f : A -> S -> option S) (idx : A -> list B)
    (body : B -> S -> S) (l : list A) s :
  (forall a s, In a l ->
     f a s = Some (fold_left (fun s b => body b s) (idx a) s)) ->
  foldM f l s = Some (fold_left (fun s b => body b s) (flat_map idx l) s).
Proof.
  revert s. induction l as [|a l IH]; intros s H; cbn; [ reflexivity |].
  rewrite H by now left. rewrite fold_left_app.
  apply IH. intros b t Hb. apply H. now right.
Qed.

Lemma fold_left_map_index {A B S} (g : A -> B) (body : B -> S -> S)
    (l : list A) s :
  fold_left (fun s b => body b s) (map g l) s =
  fold_left (fun s a => body (g a) s) l s.
Proof.
  revert s. induction l as [|a l IH]; intros s; cbn; [ reflexivity |].
  apply IH.
Qed.

Lemma fold_left_flat_map {A B S} (idx : A -> list B) (body : B -> S -> S)
    (l : list A) s :
  fold_left (fun s b => body b s) (flat_map idx l) s =
  fold_left (fun s a => fold_left (fun s b => body b s) (idx a) s) l s.
Proof.
  revert s. induction l as [|a l IH]; intros s; cbn; [ reflexivity |].
  rewrite fold_left_app. apply IH.
Qed.

Lemma NoDup_flat_map_keyed {A B} (idx : A -> list B) (key : B -> A)
    (l : list A) :
  NoDup l ->
  (forall a, In a l -> NoDup (idx a)) ->
  (forall a b, In a l -> In b (idx a) -> key b = a) ->
  NoDup (flat_map idx l).
Proof.
  induction l as [|a l IH]; intros Hl Hin Hkey; cbn; [ constructor |].
  inversion Hl as [|? ? Hna Hl']; subst.
  apply NoDup_app.
  - apply Hin. now left.
  - apply IH; auto.
    + intros b Hb. apply Hin. now right.
    + intros b c Hb Hc. apply Hkey; auto. now right.
  - intros b Hb Hb'. apply in_flat_map in Hb'.
    destruct Hb' as [a' [Ha' Hb']].
    assert (key b = a) by (apply Hkey; auto; now left).
    assert (key b = a') by (apply Hkey; auto; now right).
    congruence.
Qed.

(** *** The grid-stride loop *)


Lemma forStride_positions {S} (fuel : nat) (i bound stride : Z)
    (body : Z -> S -> S) (s : S) :
  0 < stride -> 0 <= i -> bound + stride < 2 ^ 64 ->
  bound - i <= Z.of_nat fuel ->
  forStride fuel i bound stride body s =
  Some (fold_left (fun s p => body p s)
                  (stridePositions fuel i bound stride) s).
Proof.
  intros Hs. revert i s.
  induction fuel as [|fuel IH]; intros i s Hi Hb Hf; cbn.
  - destruct (Z.ltb_spec i bound); [ lia | reflexivity ].
  - destruct (Z.ltb_spec i bound); [| reflexivity ].
    rewrite (wrap64_small (i + stride)) by lia. cbn.
    apply IH; lia.
Qed.

Lemma stridePositions_In (fuel : nat) (i bound stride p : Z) :
  0 < stride -> 0 <= i -> bound + stride < 2 ^ 64 ->
  bound - i <= Z.of_nat fuel ->
  In p (stridePositions fuel i bound stride) <->
  i <= p < bound /\ (p - i) mod stride = 0.
Proof.
  intros Hs. revert i.
  induction fuel as [|fuel IH]; intros i Hi Hb Hf; cbn.
  - destruct (Z.ltb_spec i bound); [ lia |]. cbn. split; [ intros [] | lia ].
  - destruct (Z.ltb_spec i bound); [| cbn; split; [ intros [] | lia ] ].
    rewrite (wrap64_small (i + stride)) by lia. cbn.
    rewrite IH by lia. split.
    + intros [<- | [H1 H2]].
      * rewrite Z.sub_diag, Z.mod_0_l by lia. lia.
      * split; [ lia |].
        replace (p - i) with (p - (i + stride) + 1 * stride) by lia.
        rewrite Z.mod_add by lia. exact H2.
    + intros [H1 H2].
      destruct (Z.eq_dec i p) as [E|E]; [ now left | right ].
      apply Z.mod_divide in H2; [| lia ]. destruct H2 as [c Hc].
      assert (1 <= c) by nia.
      split; [ nia |].
      replace (p - (i + stride)) with ((c - 1) * stride) by lia.
      apply Z.mod_mul. lia.
Qed.

Lemma stridePositions_NoDup (fuel : nat) (i bound stride : Z) :
  0 < stride -> 0 <= i -> bound + stride < 2 ^ 64 ->
  bound - i <= Z.of_nat fuel ->
  NoDup (stridePositions fuel i bound stride).
Proof.
  intros Hs. revert i.
  induction fuel as [|fuel IH]; intros i Hi Hb Hf; cbn.
  - destruct (i <? bound); constructor.
  - destruct (Z.ltb_spec i bound); [| constructor ].
    rewrite (wrap64_small (i + stride)) by lia.
    constructor; [| apply IH; lia ].
    rewrite stridePositions_In by lia. lia.
Qed.



Lemma threadOffset_eq gridDim blockDim blockIdx threadIdx :
  0 <= blockIdx < gridDim -> 0 <= threadIdx < blockDim ->
  gridDim * blockDim * 8 < 2 ^ 32 ->
  threadOffset blockDim blockIdx threadIdx =
  (blockDim * blockIdx + threadIdx) * 8 /\
  0 <= blockDim * blockIdx + threadIdx < gridDim * blockDim.
Proof.
  intros Hb Ht Hg. unfold threadOffset, numelPerThread.
  change (kBytesPerThread / itemsize kBFloat16) with 8.
  assert (0 <= blockDim * blockIdx + threadIdx < gridDim * blockDim) by nia.
  rewrite (wrap32_small (blockDim * blockIdx)) by nia.
  rewrite wrap32_small by lia.
  rewrite wrap64_small by lia. split; [ reflexivity | lia ].
Qed.

Lemma threadStride_eq gridDim blockDim :
  0 <= gridDim -> 0 <= blockDim -> gridDim * blockDim * 8 < 2 ^ 32 ->
  threadStride blockDim gridDim = gridDim * blockDim * 8.
Proof.
  intros Hg Hb Hlt. unfold threadStride, numelPerThread.
  change (kBytesPerThread / itemsize kBFloat16) with 8.
  rewrite wrap32_small by nia. rewrite wrap64_small by nia. lia.
Qed.

Lemma forThreads_positions {S} (gridDim blockDim bound : Z)
    (body : Z -> S -> S) (s : S) :
  validGrid gridDim blockDim bound ->
  forThreads gridDim blockDim
    (fun blockIdx threadIdx =>
       forStride (Z.to_nat bound)
         (threadOffset blockDim blockIdx threadIdx) bound
         (threadStride blockDim gridDim) body) s =
  Some (fold_left (fun s p => body p s)
                  (gridPositions gridDim blockDim bound) s).
Proof.
  intros [Hb [Hg [Hd [Hlt Hpos]]]]. unfold forThreads, gridPositions.
  apply foldM_flat. intros blockIdx s1 HbI.
  apply foldM_flat. intros threadIdx s2 HtI.
  apply seqZ_In in HbI, HtI.
  destruct (threadOffset_eq gridDim blockDim blockIdx threadIdx HbI HtI Hlt)
    as [Eo Ho].
  rewrite (threadStride_eq gridDim blockDim Hg Hd Hlt).
  apply forStride_positions; nia.
Qed.

Lemma gridPositions_In gridDim blockDim bound p :
  validGrid gridDim blockDim bound ->
  In p (gridPositions gridDim blockDim bound) <->
  0 <= p < bound /\ p mod 8 = 0.
Proof.
  intros [Hb [Hg [Hd [Hlt Hpos]]]]. unfold gridPositions.
  rewrite in_flat_map. split.
  - intros [blockIdx [HbI H]]. apply in_flat_map in H.
    destruct H as [threadIdx [HtI H]]. apply seqZ_In in HbI, HtI.
    destruct (threadOffset_eq gridDim blockDim blockIdx threadIdx HbI HtI Hlt)
      as [Eo Ho].
    rewrite (threadStride_eq gridDim blockDim Hg Hd Hlt) in H.
    apply stridePositions_In in H; try nia.
    destruct H as [H1 H2]. split; [ nia |].
    apply Z.mod_divide in H2; [| nia ]. destruct H2 as [c Hc].
    apply Z.mod_divide; [ lia |].
    exists (c * (gridDim * blockDim) + (blockDim * blockIdx + threadIdx)).
    nia.
  - intros [Hp H8].
    destruct (Hpos ltac:(lia)) as [Hg1 Hd1].
    set (T := gridDim * blockDim).
    assert (HT : 0 < T) by (unfold T; nia).
    set (c := p / 8).
    assert (Ep : p = 8 * c).
    { unfold c. apply Z.div_exact; lia. }
    set (tid := c mod T).
    pose proof (Z.mod_pos_bound c T HT) as Htid. fold tid in Htid.
    pose proof (Z.div_mod c T ltac:(lia)) as Ec. fold tid in Ec.
    pose proof (Z.div_mod tid blockDim ltac:(lia)) as Et.
    pose proof (Z.mod_pos_bound tid blockDim ltac:(lia)) as Hti.
    assert (Hc0 : 0 <= c) by lia.
    assert (Hq0 : 0 <= c / T) by (apply Z.div_pos; lia).
    assert (Hbi : 0 <= tid / blockDim < gridDim).
    { split; [ apply Z.div_pos; lia |].
      apply Z.div_lt_upper_bound; [ lia |]. unfold T in Htid. nia. }
    exists (tid / blockDim). split; [ now apply seqZ_In |].
    apply in_flat_map. exists (tid mod blockDim).
    split; [ now apply seqZ_In |].
    destruct (threadOffset_eq gridDim blockDim (tid / blockDim)
                (tid mod blockDim) Hbi Hti Hlt) as [Eo Ho].
    rewrite (threadStride_eq gridDim blockDim Hg Hd Hlt).
    rewrite Eo. rewrite <- Et.
    apply stridePositions_In; try nia.
    split; [ nia |].
    replace (p - tid * 8) with ((c / T) * (gridDim * blockDim * 8))
      by (fold T; nia).
    apply Z.mod_mul. nia.
Qed.

Lemma gridPositions_NoDup gridDim blockDim bound :
  validGrid gridDim blockDim bound ->
  NoDup (gridPositions gridDim blockDim bound).
Proof.
  intros [Hb [Hg [Hd [Hlt Hpos]]]]. unfold gridPositions.
  set (T := gridDim * blockDim).
  assert (Hkey : forall blockIdx threadIdx p,
             0 <= blockIdx < gridDim -> 0 <= threadIdx < blockDim ->
             In p (stridePositions (Z.to_nat bound)
                     (threadOffset blockDim blockIdx threadIdx) bound
                     (threadStride blockDim gridDim)) ->
             (p / 8) mod T = blockDim * blockIdx + threadIdx).
  { intros blockIdx threadIdx p HbI HtI H.
    destruct (threadOffset_eq gridDim blockDim blockIdx threadIdx HbI HtI Hlt)
      as [Eo Ho].
    rewrite (threadStride_eq gridDim blockDim Hg Hd Hlt) in H.
    apply stridePositions_In in H; try nia.
    destruct H as [H1 H2].
    apply Z.mod_divide in H2; [| nia ]. destruct H2 as [c Hc].
    assert (Ep : p = (c * T + (blockDim * blockIdx + threadIdx)) * 8)
      by (unfold T; nia).
    rewrite Ep, Z.div_mul by lia.
    rewrite Z.add_comm, Z.mod_add by (unfold T; nia).
    apply Z.mod_small. fold T in Ho. exact Ho. }
  apply NoDup_flat_map_keyed
    with (key := fun p => ((p / 8) mod T) / blockDim).
  - apply seqZ_NoDup.
  - intros blockIdx HbI. apply seqZ_In in HbI.
    apply NoDup_flat_map_keyed
      with (key := fun p => ((p / 8) mod T) mod blockDim).
    + apply seqZ_NoDup.
    + intros threadIdx HtI. apply seqZ_In in HtI.
      destruct (threadOffset_eq gridDim blockDim blockIdx threadIdx
                  HbI HtI Hlt) as [Eo Ho].
      rewrite (threadStride_eq gridDim blockDim Hg Hd Hlt).
      apply stridePositions_NoDup; nia.
    + intros threadIdx p HtI Hp. apply seqZ_In in HtI.
      rewrite (Hkey blockIdx threadIdx p HbI HtI Hp).
      rewrite Z.mul_comm, Z.add_comm, Z.mod_add by lia.
      apply Z.mod_small. lia.
  - intros blockIdx p HbI Hp. apply seqZ_In in HbI.
    apply in_flat_map in Hp. destruct Hp as [threadIdx [HtI Hp]].
    apply seqZ_In in HtI.
    rewrite (Hkey blockIdx threadIdx p HbI HtI Hp).
    rewrite Z.mul_comm, Z.add_comm, Z.div_add by lia.
    rewrite Z.div_small by lia. lia.
Qed.

(** ** Independent iterations

    A loop whose iterations write pairwise disjoint locations, none of which
    another iteration reads, leaves at each written location what its
    iteration computes from the initial memory. *)

Section Independent.

Variable I : Type.
Variable body : I -> heap -> heap.
Variables Wr Rd : I -> region -> Z -> Prop.
Variable l : list I.

Hypothesis frame :
  forall i h r p, In i l -> ~ Wr i r p -> body i h r p = h r p.
Hypothesis determined :
  forall i h h' r p, In i l ->
    (forall r' p', Rd i r' p' -> h r' p' = h' r' p') ->
    Wr i r p -> body i h r p = body i h' r p.
Hypothesis independent :
  forall i j r p, In i l -> In j l -> i <> j ->
    Wr j r p -> ~ Rd i r p /\ ~ Wr i r p.

Lemma fold_independent_aux (pre post : list I) (h : heap) :
  NoDup (pre ++ post) -> (forall i, In i (pre ++ post) -> In i l) ->
  forall hcur,
    (forall r p, (forall i, In i pre -> ~ Wr i r p) -> hcur r p = h r p) ->
    (forall i r p, In i pre -> Wr i r p -> hcur r p = body i h r p) ->
    let hfin := fold_left (fun h i => body i h) post hcur in
    (forall r p, (forall i, In i (pre ++ post) -> ~ Wr i r p) ->
       hfin r p = h r p) /\
    (forall i r p, In i (pre ++ post) -> Wr i r p ->
       hfin r p = body i h r p).
Proof.
  revert pre. induction post as [|a post IH]; intros pre Hnd Hsub hcur H1 H2.
  - cbn. rewrite app_nil_r in *. split; auto.
  - cbn [fold_left].
    replace (pre ++ a :: post) with ((pre ++ [a]) ++ post) in *
      by (rewrite <- app_assoc; reflexivity).
    assert (Ha : In a l) by (apply Hsub; rewrite !in_app_iff; cbn; auto).
    assert (Hna : ~ In a pre).
    { rewrite <- app_assoc in Hnd. cbn in Hnd.
      apply NoDup_remove_2 in Hnd. rewrite in_app_iff in Hnd. tauto. }
    assert (Hpre : forall i, In i pre -> In i l /\ i <> a).
    { intros i Hi. split; [ apply Hsub; rewrite !in_app_iff; auto |].
      intros ->. contradiction. }
    assert (Hagree : forall r p, Rd a r p -> hcur r p = h r p).
    { intros r p Hrd. apply H1. intros i Hi Hw.
      destruct (Hpre i Hi) as [Hil Hne].
      destruct (independent a i r p Ha Hil ltac:(congruence) Hw). tauto. }
    apply IH; auto.
    + intros r p Hno. rewrite frame; auto.
      * apply H1. intros i Hi. apply Hno. rewrite in_app_iff. auto.
      * apply Hno. rewrite in_app_iff. cbn. auto.
    + intros i r p Hi Hw. rewrite in_app_iff in Hi.
      destruct Hi as [Hi | [<- | []]].
      * destruct (Hpre i Hi) as [Hil Hne].
        destruct (independent a i r p Ha Hil ltac:(congruence) Hw)
          as [_ Hnw].
        rewrite frame; auto.
      * apply determined; auto.
Qed.

Lemma fold_independent (h : heap) :
  NoDup l ->
  let hfin := fold_left (fun h i => body i h) l h in
  (forall r p, (forall i, In i l -> ~ Wr i r p) -> hfin r p = h r p) /\
  (forall i r p, In i l -> Wr i r p -> hfin r p = body i h r p).
Proof.
  intros Hnd.
  apply (fold_independent_aux [] l h); cbn; auto.
  intros i r p [].
Qed.

End Independent.

(** ** Packed values and stores *)

Ltac lane_cases d H :=
  let C := fresh "C" in
  assert (C : d = 0 \/ d = 1 \/ d = 2 \/ d = 3 \/
              d = 4 \/ d = 5 \/ d = 6 \/ d = 7) by lia;
  clear H;
  destruct C as [C|[C|[C|[C|[C|[C|[C|C]]]]]]]; rewrite C.

Lemma lane_load128 (h : heap) (p : pointer) (i d : Z) :
  0 <= d < 8 -> lane (load128 h p i) d = h (fst p) (snd p + i + d).
Proof.
  intros H. unfold load128, loadElem.
  lane_cases d H; cbn [lane vals0 vals1 vals2 vals3 fst snd];
    f_equal; lia.
Qed.

Lemma lane_add_bf16x8 (a b : bf16x8) (d : Z) :
  0 <= d < 8 -> lane (add_bf16x8 a b) d = hadd (lane a d) (lane b d).
Proof.
  intros H. lane_cases d H; reflexivity.
Qed.

Lemma lane_bf16x8_zero (d : Z) : 0 <= d < 8 -> lane bf16x8_zero d = bf16_zero.
Proof.
  intros H. lane_cases d H; reflexivity.
Qed.

Lemma lane_sumVals (n : Z) (vals : Z -> bf16x8) (d : Z) :
  0 <= d < 8 ->
  lane (sumVals n vals) d =
  fold_left hadd (map (fun ii => lane (vals ii) d) (seqZ n)) bf16_zero.
Proof.
  intros H. unfold sumVals.
  rewrite <- (lane_bf16x8_zero d H).
  generalize bf16x8_zero. induction (seqZ n) as [|a l IH]; intros acc; cbn.
  - reflexivity.
  - rewrite IH. now rewrite lane_add_bf16x8.
Qed.

Lemma store128_hit (h : heap) (p : pointer) (i : Z) (v : bf16x8) r j :
  r = fst p -> snd p + i <= j < snd p + i + 8 ->
  store128 h p i v r j = lane v (j - (snd p + i)).
Proof.
  intros -> H. unfold store128. rewrite region_eqb_refl.
  rewrite (proj2 (Z.leb_le _ _)), (proj2 (Z.ltb_lt _ _)) by lia.
  reflexivity.
Qed.

Lemma store128_miss (h : heap) (p : pointer) (i : Z) (v : bf16x8) r j :
  ~ (r = fst p /\ snd p + i <= j < snd p + i + 8) ->
  store128 h p i v r j = h r j.
Proof.
  intros H. unfold store128.
  destruct (region_eqb_spec r (fst p)); [| reflexivity ].
  destruct (Z.leb_spec (snd p + i) j); [| reflexivity ].
  destruct (Z.ltb_spec j (snd p + i + 8)); [| reflexivity ].
  exfalso. apply H. auto.
Qed.

Lemma storeGuarded_fold (p : pointer) (i N : Z) (v : bf16x8)
    (lanes : list Z) (h : heap) r j :
  fold_left
    (fun h ii => if i + ii <? N then storeElem h p (i + ii) (lane v ii) else h)
    lanes h r j =
  if existsb (fun ii => region_eqb r (fst p) && (j =? snd p + (i + ii))
                        && (i + ii <? N)) lanes
  then lane v (j - (snd p + i)) else h r j.
Proof.
  revert h. induction lanes as [|a lanes IH]; intros h; cbn [fold_left existsb].
  - reflexivity.
  - rewrite IH.
    destruct (existsb _ lanes); [ now rewrite orb_true_r |].
    rewrite orb_false_r.
    destruct (i + a <? N); [| now rewrite andb_false_r ].
    rewrite andb_true_r. unfold storeElem.
    destruct (region_eqb r (fst p)); [| reflexivity ].
    destruct (Z.eqb_spec j (snd p + (i + a))); [| reflexivity ].
    cbn. f_equal. lia.
Qed.

Lemma storeGuarded_hit (h : heap) (p : pointer) (i N : Z) (v : bf16x8) r j :
  r = fst p -> snd p + i <= j < snd p + i + 8 ->
  i + (j - (snd p + i)) < N ->
  storeGuarded h p i N v r j = lane v (j - (snd p + i)).
Proof.
  intros -> Hr Hg. unfold storeGuarded. rewrite storeGuarded_fold.
  replace (existsb _ _) with true; [ reflexivity |].
  symmetry. apply existsb_exists. exists (j - (snd p + i)). split.
  - apply seqZ_In. unfold numelPerThread.
    change (kBytesPerThread / itemsize kBFloat16) with 8. lia.
  - rewrite region_eqb_refl.
    rewrite (proj2 (Z.eqb_eq _ _)), (proj2 (Z.ltb_lt _ _)) by lia.
    reflexivity.
Qed.

Lemma storeGuarded_miss (h : heap) (p : pointer) (i N : Z) (v : bf16x8) r j :
  ~ (r = fst p /\ snd p + i <= j < snd p + i + 8 /\
     i + (j - (snd p + i)) < N) ->
  storeGuarded h p i N v r j = h r j.
Proof.
  intros H. unfold storeGuarded. rewrite storeGuarded_fold.
  replace (existsb _ _) with false; [ reflexivity |].
  symmetry. apply not_true_is_false. intros E.
  apply existsb_exists in E. destruct E as [ii [Hii E]].
  apply seqZ_In in Hii. unfold numelPerThread in Hii.
  change (kBytesPerThread / itemsize kBFloat16) with 8 in Hii.
  apply andb_prop in E. destruct E as [E E3].
  apply andb_prop in E. destruct E as [E1 E2].
  apply Z.eqb_eq in E2. apply Z.ltb_lt in E3.
  destruct (region_eqb_spec r (fst p)); [| discriminate ].
  apply H. repeat split; try lia; auto.
Qed.



Lemma tailStore_hit kAligned h p i N v r j :
  tailWrites kAligned p i N r j ->
  tailStore kAligned h p i N v r j = lane v (j - (snd p + i)).
Proof.
  intros [Hr [Hj Hg]]. unfold tailStore. destruct kAligned.
  - now apply store128_hit.
  - destruct Hg as [Hg|Hg]; [ discriminate |]. now apply storeGuarded_hit.
Qed.

Lemma tailStore_miss kAligned h p i N v r j :
  ~ tailWrites kAligned p i N r j ->
  tailStore kAligned h p i N v r j = h r j.
Proof.
  intros H. unfold tailStore, tailWrites in *. destruct kAligned.
  - apply store128_miss. tauto.
  - apply storeGuarded_miss. intros [H1 [H2 H3]]. apply H. auto.
Qed.

(** ** Phases over all ranks *)

Lemma foldM_map {A B S} (f : B -> S -> option S) (g : A -> B) (l : list A) s :
  foldM f (map g l) s = foldM (fun a => f (g a)) l s.
Proof.
  revert s. induction l as [|a l IH]; intros s; cbn; [ reflexivity |].
  destruct (f (g a) s); [ apply IH | reflexivity ].
Qed.

Lemma foldM_ext {A S} (f g : A -> S -> option S) (l : list A) s :
  (forall a s, In a l -> f a s = g a s) -> foldM f l s = foldM g l s.
Proof.
  revert s. induction l as [|a l IH]; intros s H; cbn; [ reflexivity |].
  rewrite H by now left. destruct (g a s); [| reflexivity ].
  apply IH. intros b t Hb. apply H. now right.
Qed.


Lemma phaseIndex_In ranks gridDim blockDim bound r i :
  validGrid gridDim blockDim bound ->
  In (r, i) (phaseIndex ranks gridDim blockDim bound) <->
  In r ranks /\ 0 <= i < bound /\ i mod 8 = 0.
Proof.
  intros Hv. unfold phaseIndex. rewrite in_flat_map. split.
  - intros [r' [Hr H]]. apply in_map_iff in H. destruct H as [i' [E H]].
    inversion E; subst. split; [ exact Hr |].
    now apply (gridPositions_In gridDim blockDim bound i Hv).
  - intros [Hr H]. exists r. split; [ exact Hr |].
    apply in_map. now apply (gridPositions_In gridDim blockDim bound i Hv).
Qed.

Lemma phaseIndex_NoDup ranks gridDim blockDim bound :
  validGrid gridDim blockDim bound -> NoDup ranks ->
  NoDup (phaseIndex ranks gridDim blockDim bound).
Proof.
  intros Hv Hnd. unfold phaseIndex.
  apply NoDup_flat_map_keyed with (key := @fst Z Z); auto.
  - intros r _. apply Finite.Injective_map_NoDup.
    + intros a b E. now inversion E.
    + now apply gridPositions_NoDup.
  - intros r ri _ H. apply in_map_iff in H. destruct H as [i [<- _]].
    reflexivity.
Qed.

Lemma ranks_phase (ranks : list Z) (bodyOf : Z -> Z -> heap -> heap)
    (gridDim blockDim bound : Z) (h : heap) :
  validGrid gridDim blockDim bound ->
  foldM (fun r h =>
           forThreads gridDim blockDim
             (fun blockIdx threadIdx =>
                forStride (Z.to_nat bound)
                  (threadOffset blockDim blockIdx threadIdx) bound
                  (threadStride blockDim gridDim) (bodyOf r)) h)
        ranks h =
  Some (fold_left (fun h ri => bodyOf (fst ri) (snd ri) h)
                  (phaseIndex ranks gridDim blockDim bound) h).
Proof.
  intros Hv. unfold phaseIndex.
  apply (foldM_flat _
           (fun r => map (pair r) (gridPositions gridDim blockDim bound))
           (fun ri h => bodyOf (fst ri) (snd ri) h)).
  intros r s _. rewrite forThreads_positions by exact Hv.
  now rewrite fold_left_map_index.
Qed.

(** ** Rounds of a collective *)

Lemma list_max_const (l : list nat) (n : nat) :
  l <> [] -> (forall x, In x l -> x = n) -> list_max l = n.
Proof.
  induction l as [|a l IH]; intros Hne H; [ congruence |].
  change (list_max (a :: l)) with (Nat.max a (list_max l)).
  rewrite (H a) by now left.
  destruct l as [|b l]; [ cbn; lia |].
  rewrite IH; [ lia | discriminate | intros x Hx; apply H; now right ].
Qed.

Lemma roundLoops_one (cap : Z) (ops : list streamOp)
    (ph : streamOp -> heap -> option heap) (h : heap) :
  ops <> [] ->
  (forall op, In op ops -> opPhases cap op = [ph op]) ->
  roundLoops cap ops h = foldM ph ops h.
Proof.
  intros Hne H. unfold roundLoops.
  rewrite (list_max_const _ 1%nat).
  - cbn. unfold phaseLoops.
    rewrite (foldM_ext _ ph); [ destruct (foldM ph ops h); reflexivity |].
    intros op s Hop. now rewrite (H op Hop).
  - destruct ops; [ congruence | discriminate ].
  - intros x Hx. apply in_map_iff in Hx. destruct Hx as [op [<- Hop]].
    now rewrite (H op Hop).
Qed.

Lemma roundLoops_two (cap : Z) (ops : list streamOp)
    (ph1 ph2 : streamOp -> heap -> option heap) (h : heap) :
  ops <> [] ->
  (forall op, In op ops -> opPhases cap op = [ph1 op; ph2 op]) ->
  roundLoops cap ops h =
  match foldM ph1 ops h with
  | Some h1 => foldM ph2 ops h1
  | None => None
  end.
Proof.
  intros Hne H. unfold roundLoops.
  rewrite (list_max_const _ 2%nat).
  - cbn. unfold phaseLoops.
    rewrite (foldM_ext _ ph1)
      by (intros op s Hop; now rewrite (H op Hop)).
    destruct (foldM ph1 ops h) as [h1|]; [| reflexivity ].
    rewrite (foldM_ext _ ph2)
      by (intros op s Hop; now rewrite (H op Hop)).
    destruct (foldM ph2 ops h1); reflexivity.
  - destruct ops; [ congruence | discriminate ].
  - intros x Hx. apply in_map_iff in Hx. destruct Hx as [op [<- Hop]].
    now rewrite (H op Hop).
Qed.

Lemma roundOps_map {A} (f : A -> stream) (g : A -> streamOp) (l : list A)
    (j : nat) :
  (forall a, In a l -> nth_error (f a) j = Some (g a)) ->
  roundOps (map f l) j = map g l.
Proof.
  unfold roundOps. induction l as [|a l IH]; intros H; cbn; [ reflexivity |].
  rewrite (H a) by now left. cbn. f_equal. apply IH.
  intros b Hb. apply H. now right.
Qed.

Lemma collectiveLoops_two (cap : Z) {A} (l : list A) (a b : A -> streamOp)
    (h : heap) :
  l <> [] ->
  collectiveLoops cap (map (fun x => [a x; b x]) l) h =
  match roundLoops cap (map a l) h with
  | Some h1 => roundLoops cap (map b l) h1
  | None => None
  end.
Proof.
  intros Hne. unfold collectiveLoops.
  rewrite (list_max_const _ 2%nat).
  - cbn [seq foldM].
    rewrite (roundOps_map _ a) by reflexivity.
    destruct (roundLoops cap (map a l) h) as [h1|]; [| reflexivity ].
    rewrite (roundOps_map _ b) by reflexivity.
    destruct (roundLoops cap (map b l) h1); reflexivity.
  - destruct l; [ congruence | discriminate ].
  - intros x Hx. rewrite map_map in Hx. apply in_map_iff in Hx.
    destruct Hx as [y [<- _]]. reflexivity.
Qed.

Lemma collectiveLoops_three (cap : Z) {A} (l : list A) (a b c : A -> streamOp)
    (h : heap) :
  l <> [] ->
  collectiveLoops cap (map (fun x => [a x; b x; c x]) l) h =
  match roundLoops cap (map a l) h with
  | Some h1 =>
      match roundLoops cap (map b l) h1 with
      | Some h2 => roundLoops cap (map c l) h2
      | None => None
      end
  | None => None
  end.
Proof.
  intros Hne. unfold collectiveLoops.
  rewrite (list_max_const _ 3%nat).
  - cbn [seq foldM].
    rewrite (roundOps_map _ a) by reflexivity.
    destruct (roundLoops cap (map a l) h) as [h1|]; [| reflexivity ].
    rewrite (roundOps_map _ b) by reflexivity.
    destruct (roundLoops cap (map b l) h1) as [h2|]; [| reflexivity ].
    rewrite (roundOps_map _ c) by reflexivity.
    destruct (roundLoops cap (map c l) h2); reflexivity.
  - destruct l; [ congruence | discriminate ].
  - intros x Hx. rewrite map_map in Hx. apply in_map_iff in Hx.
    destruct Hx as [y [<- _]]. reflexivity.
Qed.

Lemma seqZ_nonempty n : 0 < n -> seqZ n <> [].
Proof.
  intros H E. assert (In 0 (seqZ n)) by (apply seqZ_In; lia).
  rewrite E in H0. destruct H0.
Qed.

(** *** Rounds of copies *)



Lemma copy_round (cap N W : Z) (dst src : Z -> region) (h : heap) :
  0 < W -> 0 <= N ->
  (forall r r', dst r = dst r' -> r = r') ->
  (forall r r', src r <> dst r') ->
  exists hS,
    roundLoops cap (map (copyOp dst src N) (seqZ W)) h = Some hS /\
    (forall q j, 0 <= q < W -> 0 <= j < N -> hS (dst q) j = h (src q) j) /\
    (forall a j, ~ (exists q, a = dst q /\ 0 <= q < W /\ 0 <= j < N) ->
                 hS a j = h a j).
Proof.
  intros HW HN Hinj Hsep.
  rewrite (roundLoops_one cap _
             (fun op h => match op with
                          | MemcpyAsync d s c => Some (execMemcpy d s c h)
                          | _ => Some h
                          end)).
  2: { intros E. apply map_eq_nil in E. now apply (seqZ_nonempty W). }
  2: { intros op Hop. apply in_map_iff in Hop. destruct Hop as [r [<- _]].
       reflexivity. }
  rewrite foldM_map.
  rewrite (foldM_pure _ (fun r h => execMemcpy (dst r, 0) (src r, 0)
                                      (N * 2) h))
    by reflexivity.
  eexists. split; [ reflexivity |].
  assert (Hn : N * 2 / itemsize kBFloat16 = N)
    by (cbn [itemsize]; apply Z.div_mul; lia).
  destruct (fold_independent Z
              (fun r h => execMemcpy (dst r, 0) (src r, 0) (N * 2) h)
              (fun r a j => a = dst r /\ 0 <= j < N)
              (fun r a j => a = src r)
              (seqZ W)) with (h := h) as [F1 F2].
  - intros r h0 a j _ Hw. unfold execMemcpy. rewrite Hn. cbn [fst snd].
    destruct (region_eqb_spec a (dst r)); [| reflexivity ].
    destruct (Z.leb_spec 0 j); [| reflexivity ].
    destruct (Z.ltb_spec j (0 + N)); [| reflexivity ].
    exfalso. apply Hw. split; [ assumption | lia ].
  - intros r h1 h2 a j _ Hag [-> Hj]. unfold execMemcpy. rewrite Hn.
    cbn [fst snd]. rewrite region_eqb_refl.
    rewrite (proj2 (Z.leb_le 0 j)), (proj2 (Z.ltb_lt j (0 + N))) by lia.
    cbn [andb]. now apply Hag.
  - intros r r' a j _ _ Hne [-> Hj]. split; intros H.
    + symmetry in H. now apply Hsep in H.
    + destruct H as [E _]. symmetry in E. apply Hinj in E. congruence.
  - apply seqZ_NoDup.
  - split.
    + intros q j Hq Hj.
      rewrite (F2 q (dst q) j); [| now apply seqZ_In | now split ].
      unfold execMemcpy. rewrite Hn. cbn [fst snd].
      rewrite region_eqb_refl.
      rewrite (proj2 (Z.leb_le 0 j)), (proj2 (Z.ltb_lt j (0 + N))) by lia.
      cbn [andb]. f_equal. lia.
    + intros a j Hno. apply F1. intros r Hr [-> Hj]. apply Hno.
      exists r. apply seqZ_In in Hr. auto.
Qed.

Lemma staging_round (cap N W : Z) (h : heap) :
  0 < W -> 0 <= N ->
  exists hS,
    roundLoops cap (map (stagingOp N) (seqZ W)) h = Some hS /\
    (forall q j, 0 <= q < W -> 0 <= j < N -> hS (Buffer q) j = h (Input q) j) /\
    (forall a j, ~ (exists q, a = Buffer q /\ 0 <= q < W /\ 0 <= j < N) ->
                 hS a j = h a j).
Proof.
  intros HW HN.
  apply (copy_round cap N W Buffer Input h HW HN).
  - intros r r' E. now injection E.
  - intros r r' E. discriminate E.
Qed.
(** ** Signals: counting *)

Lemma signalCell_eqb_eq (a b : signalCell) :
  signalCell_eqb a b = true <-> a = b.
Proof.
  unfold signalCell_eqb. rewrite !andb_true_iff, !Z.eqb_eq.
  destruct a as [a1 a2 a3 a4], b as [b1 b2 b3 b4]. cbn. split.
  - intros [[[-> ->] ->] ->]. reflexivity.
  - intros E. injection E as -> -> -> ->. auto.
Qed.

Lemma signalCell_eqb_refl (a : signalCell) : signalCell_eqb a a = true.
Proof. now apply signalCell_eqb_eq. Qed.

Lemma signalCell_eqb_neq (a b : signalCell) :
  a <> b -> signalCell_eqb a b = false.
Proof.
  intros H. destruct (signalCell_eqb a b) eqn:E; [| reflexivity ].
  apply signalCell_eqb_eq in E. contradiction.
Qed.

Lemma releasesOf_cons (c : signalCell) (op : signalOp) (ops : list signalOp) :
  releasesOf c (op :: ops) =
  (match op with
   | Release c' => if signalCell_eqb c' c then 1 else 0
   | Acquire _ => 0
   end) + releasesOf c ops.
Proof.
  unfold releasesOf. cbn [filter].
  destruct op as [c'|c']; [ destruct (signalCell_eqb c' c) |];
    cbn [List.length]; lia.
Qed.

Lemma acquiresOf_cons (c : signalCell) (op : signalOp) (ops : list signalOp) :
  acquiresOf c (op :: ops) =
  (match op with
   | Acquire c' => if signalCell_eqb c' c then 1 else 0
   | Release _ => 0
   end) + acquiresOf c ops.
Proof.
  unfold acquiresOf. cbn [filter].
  destruct op as [c'|c']; [| destruct (signalCell_eqb c' c) ];
    cbn [List.length]; lia.
Qed.

Lemma releasesOf_nonneg c ops : 0 <= releasesOf c ops.
Proof. unfold releasesOf. lia. Qed.

Lemma releasesOf_app c l1 l2 :
  releasesOf c (l1 ++ l2) = releasesOf c l1 + releasesOf c l2.
Proof.
  unfold releasesOf. rewrite filter_app, length_app. lia.
Qed.

Lemma releasesOf_length c ops : releasesOf c ops <= Z.of_nat (List.length ops).
Proof.
  unfold releasesOf. pose proof (filter_length_le
    (fun op => match op with
               | Release c' => signalCell_eqb c' c
               | Acquire _ => false
               end) ops). lia.
Qed.

Lemma foldM_app {A S : Type} (f : A -> S -> option S) (l1 l2 : list A) s :
  foldM f (l1 ++ l2) s =
  match foldM f l1 s with
  | Some s1 => foldM f l2 s1
  | None => None
  end.
Proof.
  revert s. induction l1 as [|a l1 IH]; intros s; cbn; [ reflexivity |].
  destruct (f a s); [ apply IH | reflexivity ].
Qed.

Lemma runSignals_counts (ops : list signalOp) :
  forall s0 s,
    runSignals ops s0 = Some s ->
    (forall c, 0 <= s0 c) ->
    (forall c, s0 c + releasesOf c ops < 2 ^ 32) ->
    forall c, s c = s0 c + releasesOf c ops - acquiresOf c ops /\ 0 <= s c.
Proof.
  induction ops as [|op ops IH]; intros s0 s Hrun H0 Hb c.
  - injection Hrun as <-. unfold releasesOf, acquiresOf. cbn.
    split; [ lia | apply H0 ].
  - unfold runSignals in Hrun. cbn [foldM] in Hrun.
    rewrite releasesOf_cons, acquiresOf_cons.
    destruct op as [c1|c1].
    + set (s1 := releaseSignal c1 s0) in *.
      assert (E1 : forall c', s1 c' =
                     s0 c' + if signalCell_eqb c1 c' then 1 else 0).
      { intros c'. unfold s1, releaseSignal, setSignal.
        destruct (signalCell_eqb c' c1) eqn:E.
        - apply signalCell_eqb_eq in E. subst c'.
          rewrite signalCell_eqb_refl.
          pose proof (Hb c1) as B. rewrite releasesOf_cons in B.
          rewrite signalCell_eqb_refl in B.
          pose proof (releasesOf_nonneg c1 ops). pose proof (H0 c1).
          apply wrap32_small. lia.
        - rewrite signalCell_eqb_neq; [ lia |].
          intros ->. now rewrite signalCell_eqb_refl in E. }
      destruct (IH s1 s Hrun) with (c := c) as [V P].
      * intros c'. rewrite E1. pose proof (H0 c').
        destruct (signalCell_eqb c1 c'); lia.
      * intros c'. rewrite E1. pose proof (Hb c') as B.
        rewrite releasesOf_cons in B. lia.
      * split; [| exact P ]. rewrite V, E1. lia.
    + unfold acquireSignal in Hrun.
      destruct (Z.eqb_spec (s0 c1) 0) as [Z0|Z0]; [ discriminate Hrun |].
      set (s1 := setSignal s0 c1 (s0 c1 - 1)) in *.
      assert (E1 : forall c', s1 c' =
                     s0 c' - if signalCell_eqb c1 c' then 1 else 0).
      { intros c'. unfold s1, setSignal.
        destruct (signalCell_eqb c' c1) eqn:E.
        - apply signalCell_eqb_eq in E. subst c'.
          now rewrite signalCell_eqb_refl.
        - rewrite signalCell_eqb_neq; [ lia |].
          intros ->. now rewrite signalCell_eqb_refl in E. }
      destruct (IH s1 s Hrun) with (c := c) as [V P].
      * intros c'. rewrite E1. pose proof (H0 c').
        destruct (signalCell_eqb c1 c') eqn:E; [| lia ].
        apply signalCell_eqb_eq in E. subst c'. lia.
      * intros c'. rewrite E1. pose proof (Hb c') as B.
        rewrite releasesOf_cons in B.
        destruct (signalCell_eqb c1 c'); lia.
      * split; [| exact P ]. rewrite V, E1. lia.
Qed.

Lemma acquiresOf_app c l1 l2 :
  acquiresOf c (l1 ++ l2) = acquiresOf c l1 + acquiresOf c l2.
Proof.
  unfold acquiresOf. rewrite filter_app, length_app. lia.
Qed.

Lemma releasesOf_map_Release c l :
  releasesOf c (map Release l) =
  Z.of_nat (List.length (filter (fun c' => signalCell_eqb c' c) l)).
Proof.
  unfold releasesOf. f_equal. induction l as [|a l IH]; cbn; [ reflexivity |].
  destruct (signalCell_eqb a c); cbn; now rewrite IH.
Qed.

Lemma acquiresOf_map_Acquire c l :
  acquiresOf c (map Acquire l) =
  Z.of_nat (List.length (filter (fun c' => signalCell_eqb c' c) l)).
Proof.
  unfold acquiresOf. f_equal. induction l as [|a l IH]; cbn; [ reflexivity |].
  destruct (signalCell_eqb a c); cbn; now rewrite IH.
Qed.

Lemma releasesOf_map_Acquire c l : releasesOf c (map Acquire l) = 0.
Proof.
  unfold releasesOf. induction l as [|a l IH]; cbn; [ reflexivity | exact IH ].
Qed.

Lemma acquiresOf_map_Release c l : acquiresOf c (map Release l) = 0.
Proof.
  unfold acquiresOf. induction l as [|a l IH]; cbn; [ reflexivity | exact IH ].
Qed.

Lemma filter_length_permutation {A} (f : A -> bool) (l l' : list A) :
  Permutation l l' ->
  List.length (filter f l) = List.length (filter f l').
Proof.
  intros P. induction P; cbn.
  - reflexivity.
  - destruct (f x); cbn; now rewrite IHP.
  - destruct (f x), (f y); reflexivity.
  - now rewrite IHP1.
Qed.

Lemma runSignals_releases (l : list signalCell) (s : signalState) :
  exists s', runSignals (map Release l) s = Some s'.
Proof.
  revert s. induction l as [|c l IH]; intros s; cbn.
  - now exists s.
  - apply IH.
Qed.

(** ** Barriers, releases first *)

Lemma quiet_init : quiet initP2pState.
Proof. intros c. reflexivity. Qed.

Lemma cellCount_cons (c a : signalCell) (l : list signalCell) :
  cellCount c (a :: l) =
  (if signalCell_eqb a c then 1 else 0) + cellCount c l.
Proof.
  unfold cellCount. cbn [filter].
  destruct (signalCell_eqb a c); cbn [List.length]; lia.
Qed.

Lemma cellCount_nonneg (c : signalCell) (l : list signalCell) :
  0 <= cellCount c l.
Proof. unfold cellCount. lia. Qed.

Lemma cellCount_length (c : signalCell) (l : list signalCell) :
  cellCount c l <= Z.of_nat (List.length l).
Proof.
  unfold cellCount.
  pose proof (filter_length_le (fun c' => signalCell_eqb c' c) l). lia.
Qed.

Lemma cellCount_permutation (c : signalCell) (l l' : list signalCell) :
  Permutation l l' -> cellCount c l = cellCount c l'.
Proof.
  intros P. unfold cellCount.
  now rewrite (filter_length_permutation _ _ _ P).
Qed.



Lemma runSignals_release_all (rel : list signalCell) (s : signalState) :
  (forall c, 0 <= s c) ->
  (forall c, s c + cellCount c rel < 2 ^ 32) ->
  exists s', runSignals (map Release rel) s = Some s' /\
             forall c, s' c = s c + cellCount c rel.
Proof.
  intros H0 Hb. destruct (runSignals_releases rel s) as [s' E].
  exists s'. split; [ exact E |]. intros c.
  destruct (runSignals_counts _ s s' E H0) with (c := c) as [V _].
  - intros c'. rewrite releasesOf_map_Release. apply Hb.
  - rewrite V, releasesOf_map_Release, acquiresOf_map_Release.
    unfold cellCount. lia.
Qed.

Lemma runSignals_acquire_all (acq : list signalCell) :
  forall s : signalState,
    (forall c, cellCount c acq <= s c) ->
    exists s', runSignals (map Acquire acq) s = Some s' /\
               forall c, s' c = s c - cellCount c acq.
Proof.
  induction acq as [|a l IH]; intros s H.
  - exists s. split; [ reflexivity |]. intros c. unfold cellCount. cbn. lia.
  - unfold runSignals. cbn [map foldM]. unfold acquireSignal.
    pose proof (H a) as Ha. rewrite cellCount_cons, signalCell_eqb_refl in Ha.
    pose proof (cellCount_nonneg a l) as Hn.
    destruct (Z.eqb_spec (s a) 0) as [E|E]; [ lia |].
    assert (Hset : forall c, setSignal s a (s a - 1) c =
                     s c - if signalCell_eqb a c then 1 else 0).
    { intros c. unfold setSignal.
      destruct (signalCell_eqb c a) eqn:Eq.
      - apply signalCell_eqb_eq in Eq. subst c.
        rewrite signalCell_eqb_refl. reflexivity.
      - rewrite signalCell_eqb_neq; [ lia |].
        intros ->. now rewrite signalCell_eqb_refl in Eq. }
    destruct (IH (setSignal s a (s a - 1))) as [s' [E' V]].
    + intros c. rewrite Hset. pose proof (H c) as Hc.
      rewrite cellCount_cons in Hc. lia.
    + exists s'. split; [ exact E' |].
      intros c. rewrite V, Hset, cellCount_cons. lia.
Qed.

(** A barrier whose acquires are its releases in another order completes,
    and leaves quiet tables quiet. *)
Lemma balanced_barrier (rel acq : list signalCell) (s : signalState) :
  quiet s -> Permutation rel acq ->
  Z.of_nat (List.length rel) < 2 ^ 32 ->
  exists s', runSignals (map Release rel ++ map Acquire acq) s = Some s' /\
             quiet s'.
Proof.
  intros Q P L.
  destruct (runSignals_release_all rel s) as [s1 [E1 V1]].
  { intros c. rewrite Q. lia. }
  { intros c. rewrite Q. pose proof (cellCount_length c rel). lia. }
  destruct (runSignals_acquire_all acq s1) as [s2 [E2 V2]].
  { intros c. rewrite V1, Q, (cellCount_permutation c _ _ P). lia. }
  exists s2. split.
  - unfold runSignals in *. now rewrite foldM_app, E1.
  - intros c. rewrite V2, V1, Q, (cellCount_permutation c _ _ P). lia.
Qed.


(** Two lists of cells over one index, matched by an involution of the
    index. *)
Lemma involution_permutation {I : Type} (idx : list I) (sigma : I -> I)
    (f g : I -> signalCell) :
  NoDup idx ->
  (forall x, In x idx -> In (sigma x) idx /\ sigma (sigma x) = x) ->
  (forall x, In x idx -> f x = g (sigma x)) ->
  Permutation (map f idx) (map g idx).
Proof.
  intros Hnd Hs Hf.
  rewrite (map_ext_in f (fun x => g (sigma x)) idx Hf), <- (map_map sigma g).
  apply Permutation_map. apply NoDup_Permutation.
  - apply Finite.Injective_map_NoDup_in; [| exact Hnd ].
    intros x y Hx Hy E.
    rewrite <- (proj2 (Hs x Hx)), <- (proj2 (Hs y Hy)). now rewrite E.
  - exact Hnd.
  - intros y. rewrite in_map_iff. split.
    + intros [x [<- Hx]]. apply (Hs x Hx).
    + intros Hy. exists (sigma y). split; apply (Hs y Hy).
Qed.

(** *** The index of a barrier *)

Lemma list_prod_NoDup {A B : Type} (l : list A) (l' : list B) :
  NoDup l -> NoDup l' -> NoDup (list_prod l l').
Proof.
  intros H H'. rewrite list_prod_as_flat_map.
  apply NoDup_flat_map_keyed with (key := @fst A B).
  - exact H.
  - intros a _. apply Finite.Injective_map_NoDup; [| exact H' ].
    intros x y E. now injection E.
  - intros a b _ Hb. apply in_map_iff in Hb. destruct Hb as [y [<- _]].
    reflexivity.
Qed.

Lemma barrierIndex_In (rs bs ts : list Z) (x : Z * Z * Z) :
  In x (barrierIndex rs bs ts) <->
  In (fst (fst x)) rs /\ In (snd (fst x)) bs /\ In (snd x) ts.
Proof.
  destruct x as [[r b] t]. unfold barrierIndex. cbn [fst snd].
  rewrite !in_prod_iff. split.
  - intros [[H1 H2] H3]. auto.
  - intros [H1 [H2 H3]]. auto.
Qed.

Lemma barrierIndex_NoDup (rs bs ts : list Z) :
  NoDup rs -> NoDup bs -> NoDup ts -> NoDup (barrierIndex rs bs ts).
Proof.
  intros H1 H2 H3. unfold barrierIndex.
  apply list_prod_NoDup; [ apply list_prod_NoDup |]; assumption.
Qed.

Lemma flat_map_map {A B C : Type} (f : B -> list C) (g : A -> B)
    (l : list A) :
  flat_map f (map g l) = flat_map (fun a => f (g a)) l.
Proof.
  induction l as [|a l IH]; cbn; [ reflexivity | now rewrite IH ].
Qed.

Lemma flat_map_flat_map {A B C : Type} (f : B -> list C) (g : A -> list B)
    (l : list A) :
  flat_map f (flat_map g l) = flat_map (fun a => flat_map f (g a)) l.
Proof.
  induction l as [|a l IH]; cbn; [ reflexivity |].
  now rewrite flat_map_app, IH.
Qed.

Lemma map_flat_map {A B C : Type} (f : B -> C) (g : A -> list B)
    (l : list A) :
  map f (flat_map g l) = flat_map (fun a => map f (g a)) l.
Proof.
  induction l as [|a l IH]; cbn; [ reflexivity |].
  now rewrite map_app, IH.
Qed.

Lemma flat_map_ext_in {A B : Type} (f g : A -> list B) (l : list A) :
  (forall a, In a l -> f a = g a) -> flat_map f l = flat_map g l.
Proof.
  induction l as [|a l IH]; intros H; cbn; [ reflexivity |].
  rewrite (H a) by now left. f_equal. apply IH.
  intros b Hb. apply H. now right.
Qed.

(** The cells of the threads of the blocks of the ranks, as a map over the
    index. *)
Lemma cells_by_index (F : Z -> Z -> Z -> signalCell) (rs bs ts : list Z) :
  flat_map (fun r => flat_map (fun b => map (F r b) ts) bs) rs =
  map (fun x => F (fst (fst x)) (snd (fst x)) (snd x))
      (barrierIndex rs bs ts).
Proof.
  unfold barrierIndex. rewrite !list_prod_as_flat_map.
  rewrite map_flat_map, flat_map_flat_map.
  apply flat_map_ext_in. intros r _.
  rewrite flat_map_map. apply flat_map_ext_in. intros b _.
  rewrite map_map. reflexivity.
Qed.

Lemma firstn_seq_min (k s m : nat) :
  firstn k (seq s m) = seq s (Nat.min k m).
Proof.
  revert s m. induction k as [|k IH]; intros s m; [ reflexivity |].
  destruct m as [|m]; [ reflexivity |].
  cbn [firstn seq Nat.min]. now rewrite IH.
Qed.

Lemma firstn_seqZ (blockDim n : Z) :
  firstn (Z.to_nat blockDim) (seqZ n) = seqZ (Z.min blockDim n).
Proof.
  unfold seqZ. rewrite firstn_map, firstn_seq_min, Z2Nat.inj_min.
  reflexivity.
Qed.
(** ** Rounds with their barriers *)

Lemma runPhase_eq (cap : Z) (ops : list streamOp) (p : nat) (h : heap)
    (s : signalState) :
  runPhase cap ops p (h, s) =
  match runSignals (phaseSignals ops p) s with
  | Some s' =>
      match phaseLoops cap ops p h with
      | Some h' => Some (h', s')
      | None => None
      end
  | None => None
  end.
Proof. reflexivity. Qed.

Lemma runPhases_loops (cap : Z) (ops : list streamOp) (l : list nat) :
  barriersComplete ops ->
  forall h s, quiet s ->
    match foldM (phaseLoops cap ops) l h with
    | Some h' =>
        exists s', foldM (runPhase cap ops) l (h, s) = Some (h', s') /\
                   quiet s'
    | None => foldM (runPhase cap ops) l (h, s) = None
    end.
Proof.
  intros B. induction l as [|p l IH]; intros h s Q; cbn [foldM].
  - exists s. split; [ reflexivity | exact Q ].
  - rewrite runPhase_eq. destruct (B p s Q) as [s1 [E1 Q1]]. rewrite E1.
    destruct (phaseLoops cap ops p h) as [h1|]; [| reflexivity ].
    apply IH. exact Q1.
Qed.

(** A round whose barriers complete does to the memory what its loops
    do. *)
Lemma runRound_loops (cap : Z) (ops : list streamOp) (h : heap)
    (s : signalState) :
  barriersComplete ops -> quiet s ->
  match roundLoops cap ops h with
  | Some h' => exists s', runRound cap ops (h, s) = Some (h', s') /\ quiet s'
  | None => runRound cap ops (h, s) = None
  end.
Proof.
  intros B Q. unfold roundLoops, runRound. now apply runPhases_loops.
Qed.

Lemma runCollective_loops (cap : Z) (streams : list stream) (h : heap) :
  (forall j, barriersComplete (roundOps streams j)) ->
  runCollective cap streams h = collectiveLoops cap streams h.
Proof.
  intros B. unfold runCollective, collectiveLoops.
  set (l := seq 0 _). clearbody l.
  assert (G : forall h s, quiet s ->
            match foldM (fun j => roundLoops cap (roundOps streams j)) l h
            with
            | Some h' =>
                exists s',
                  foldM (fun j => runRound cap (roundOps streams j)) l (h, s)
                  = Some (h', s') /\ quiet s'
            | None =>
                foldM (fun j => runRound cap (roundOps streams j)) l (h, s)
                = None
            end).
  { induction l as [|j l IH]; intros h1 s Q; cbn [foldM].
    - exists s. split; [ reflexivity | exact Q ].
    - pose proof (runRound_loops cap (roundOps streams j) h1 s (B j) Q) as R.
      destruct (roundLoops cap (roundOps streams j) h1) as [h2|].
      + destruct R as [s2 [E2 Q2]]. rewrite E2. apply IH. exact Q2.
      + now rewrite R. }
  specialize (G h initP2pState quiet_init).
  destruct (foldM (fun j => roundLoops cap (roundOps streams j)) l h)
    as [h'|].
  - destruct G as [s' [E _]]. now rewrite E.
  - now rewrite G.
Qed.

Lemma roundOps_none {A} (f : A -> stream) (l : list A) (j : nat) :
  (forall a, In a l -> nth_error (f a) j = None) ->
  roundOps (map f l) j = [].
Proof.
  unfold roundOps. induction l as [|a l IH]; intros H; cbn; [ reflexivity |].
  rewrite (H a) by now left. cbn. apply IH.
  intros b Hb. apply H. now right.
Qed.

Lemma barriersComplete_none (ops : list streamOp) :
  (forall op, In op ops -> opBarriers op = []) -> barriersComplete ops.
Proof.
  intros H p s Q. exists s. split; [| exact Q ].
  unfold phaseSignals.
  assert (E : forall pr : barrier -> list signalCell,
            pr ([], []) = [] ->
            flat_map (fun op => pr (nth p (opBarriers op) ([], []))) ops
            = []).
  { intros pr Hpr. induction ops as [|op ops IH]; [ reflexivity |].
    cbn [flat_map]. rewrite (H op) by now left.
    rewrite IH by (intros op' Hop'; apply H; now right).
    destruct p; cbn [nth]; now rewrite Hpr. }
  rewrite (E fst eq_refl), (E snd eq_refl). reflexivity.
Qed.

Lemma barriersComplete_copies {A} (dst src : A -> pointer) (count : A -> Z)
    (l : list A) :
  barriersComplete (map (fun a => MemcpyAsync (dst a) (src a) (count a)) l).
Proof.
  apply barriersComplete_none. intros op Hop.
  apply in_map_iff in Hop. destruct Hop as [a [<- _]]. reflexivity.
Qed.

Lemma barriersComplete_two {A} (l : list A) (a b : A -> streamOp) :
  barriersComplete (map a l) -> barriersComplete (map b l) ->
  forall j, barriersComplete (roundOps (map (fun x => [a x; b x]) l) j).
Proof.
  intros Ha Hb j. destruct j as [|[|j]].
  - now rewrite (roundOps_map _ a) by reflexivity.
  - now rewrite (roundOps_map _ b) by reflexivity.
  - rewrite roundOps_none by (intros; destruct j; reflexivity).
    apply barriersComplete_none. intros op [].
Qed.

Lemma barriersComplete_three {A} (l : list A) (a b c : A -> streamOp) :
  barriersComplete (map a l) -> barriersComplete (map b l) ->
  barriersComplete (map c l) ->
  forall j, barriersComplete (roundOps (map (fun x => [a x; b x; c x]) l) j).
Proof.
  intros Ha Hb Hc j. destruct j as [|[|[|j]]].
  - now rewrite (roundOps_map _ a) by reflexivity.
  - now rewrite (roundOps_map _ b) by reflexivity.
  - now rewrite (roundOps_map _ c) by reflexivity.
  - rewrite roundOps_none by (intros; destruct j; reflexivity).
    apply barriersComplete_none. intros op [].
Qed.

Lemma seqZ_length (n : Z) : List.length (seqZ n) = Z.to_nat n.
Proof. unfold seqZ. now rewrite length_map, length_seq. Qed.

(** The cells of one barrier of a grid, over the ranks [rs]: thread [t] of
    block [b] of rank [r] releases [F r b t] and acquires [G r b t], for the
    threads below [n]. *)
Lemma gridBarrier_cells (rs : list Z) (blocks threads : dim3) (n : Z)
    (F G : Z -> Z -> Z -> signalCell) :
  flat_map
    (fun r => fst (gridBarrier blocks threads
                     (fun b => map (F r b) (seqZ n))
                     (fun b => map (G r b) (seqZ n))))
    rs =
  map (fun x => F (fst (fst x)) (snd (fst x)) (snd x))
      (barrierIndex rs (seqZ (dim_x blocks))
         (seqZ (Z.min (dim_x threads) n))) /\
  flat_map
    (fun r => snd (gridBarrier blocks threads
                     (fun b => map (F r b) (seqZ n))
                     (fun b => map (G r b) (seqZ n))))
    rs =
  map (fun x => G (fst (fst x)) (snd (fst x)) (snd x))
      (barrierIndex rs (seqZ (dim_x blocks))
         (seqZ (Z.min (dim_x threads) n))).
Proof.
  assert (E : forall H : Z -> Z -> Z -> signalCell,
            flat_map
              (fun r => flat_map
                          (fun b => firstn (Z.to_nat (dim_x threads))
                                      (map (H r b) (seqZ n)))
                          (seqZ (dim_x blocks)))
              rs =
            map (fun x => H (fst (fst x)) (snd (fst x)) (snd x))
                (barrierIndex rs (seqZ (dim_x blocks))
                   (seqZ (Z.min (dim_x threads) n)))).
  { intros H. rewrite <- cells_by_index.
    apply flat_map_ext_in. intros r _. apply flat_map_ext_in. intros b _.
    now rewrite firstn_map, firstn_seqZ. }
  cbn [gridBarrier fst snd]. split; apply E.
Qed.

Lemma barrierIndex_length (rs : list Z) (gridDim m : Z) :
  (List.length rs <= 8)%nat -> gridDim <= 24 -> m <= 8 ->
  Z.of_nat (List.length (barrierIndex rs (seqZ gridDim) (seqZ m))) < 2 ^ 32.
Proof.
  intros Hlen Hgd Hm. unfold barrierIndex.
  rewrite !length_prod, !seqZ_length.
  assert (B1 : (Z.to_nat gridDim <= 24)%nat) by lia.
  assert (B2 : (Z.to_nat m <= 8)%nat) by lia.
  assert (B3 : (List.length rs * Z.to_nat gridDim * Z.to_nat m
                <= 8 * 24 * 8)%nat).
  { apply Nat.mul_le_mono; [ apply Nat.mul_le_mono |]; assumption. }
  lia.
Qed.

(** If an involution of the index pairs every release with the acquire of
    the same cell, the barrier completes. *)
Lemma grid_barrier (rs : list Z) (blocks threads : dim3) (n : Z)
    (F G : Z -> Z -> Z -> signalCell) (sigma : Z * Z * Z -> Z * Z * Z)
    (s : signalState) :
  NoDup rs -> (List.length rs <= 8)%nat ->
  dim_x blocks <= 24 -> n <= 8 ->
  (forall x,
     In x (barrierIndex rs (seqZ (dim_x blocks))
             (seqZ (Z.min (dim_x threads) n))) ->
     (In (sigma x) (barrierIndex rs (seqZ (dim_x blocks))
                      (seqZ (Z.min (dim_x threads) n))) /\
      sigma (sigma x) = x) /\
     F (fst (fst x)) (snd (fst x)) (snd x) =
     G (fst (fst (sigma x))) (snd (fst (sigma x))) (snd (sigma x))) ->
  quiet s ->
  exists s',
    runSignals
      (map Release
         (flat_map
            (fun r => fst (gridBarrier blocks threads
                             (fun b => map (F r b) (seqZ n))
                             (fun b => map (G r b) (seqZ n))))
            rs) ++
       map Acquire
         (flat_map
            (fun r => snd (gridBarrier blocks threads
                             (fun b => map (F r b) (seqZ n))
                             (fun b => map (G r b) (seqZ n))))
            rs))
      s = Some s' /\ quiet s'.
Proof.
  intros Hnd Hlen Hgd Hn Hs Q.
  destruct (gridBarrier_cells rs blocks threads n F G) as [E1 E2].
  rewrite E1, E2.
  apply balanced_barrier.
  - exact Q.
  - apply (involution_permutation _ sigma).
    + apply barrierIndex_NoDup; [ exact Hnd | apply seqZ_NoDup
                                | apply seqZ_NoDup ].
    + intros x Hx. apply (Hs x Hx).
    + intros x Hx. apply (Hs x Hx).
  - rewrite length_map. apply barrierIndex_length; [ exact Hlen | lia | lia ].
Qed.

(** The barriers of the fully connected kernels complete when every block
    has a thread for every rank (or no thread at all). *)
Lemma fullMesh_barrier (W phase : Z) (blocks threads : dim3)
    (s : signalState) :
  0 <= W <= 8 -> dim_x blocks <= 24 ->
  dim_x threads <= 0 \/ W <= dim_x threads ->
  quiet s ->
  exists s',
    runSignals
      (map Release
         (flat_map
            (fun r => fst (gridBarrier blocks threads
                             (fun b => barrierReleases W r b phase)
                             (fun b => barrierAcquires W r b phase)))
            (seqZ W)) ++
       map Acquire
         (flat_map
            (fun r => snd (gridBarrier blocks threads
                             (fun b => barrierReleases W r b phase)
                             (fun b => barrierAcquires W r b phase)))
            (seqZ W)))
      s = Some s' /\ quiet s'.
Proof.
  intros HW Hgd Hbd Q.
  apply (grid_barrier (seqZ W) blocks threads W
           (fun r b t => mkSignalCell t phase b r)
           (fun r b t => mkSignalCell r phase b t)
           (fun x => (snd x, snd (fst x), fst (fst x))) s).
  - apply seqZ_NoDup.
  - rewrite seqZ_length. lia.
  - exact Hgd.
  - lia.
  - intros [[r b] t] Hx. apply barrierIndex_In in Hx. cbn [fst snd] in *.
    rewrite !seqZ_In in Hx. split; [ split |]; [| reflexivity | reflexivity ].
    apply barrierIndex_In. cbn [fst snd]. rewrite !seqZ_In. lia.
  - exact Q.
Qed.

(** The two barriers of the hybrid-cube-mesh kernel complete on a table
    whose entries are ranks and in which [hcm[hcm[r][k]][k] = r]. *)
Lemma hcm_entry_barrier (W : Z) (table : Z -> Z -> Z)
    (blocks threads : dim3) (s : signalState) :
  0 <= W <= 8 -> dim_x blocks <= 24 ->
  (forall r k, 0 <= r < W -> 0 <= k < 3 ->
     0 <= table r k < W /\ table (table r k) k = r) ->
  quiet s ->
  exists s',
    runSignals
      (map Release
         (flat_map
            (fun r => fst (gridBarrier blocks threads
                             (hcmBarrierReleases (table r) r)
                             (hcmBarrierAcquires (table r) r)))
            (seqZ W)) ++
       map Acquire
         (flat_map
            (fun r => snd (gridBarrier blocks threads
                             (hcmBarrierReleases (table r) r)
                             (hcmBarrierAcquires (table r) r)))
            (seqZ W)))
      s = Some s' /\ quiet s'.
Proof.
  intros HW Hgd Htab Q.
  apply (grid_barrier (seqZ W) blocks threads 3
           (fun r b t => mkSignalCell (table r t) 0 b r)
           (fun r b t => mkSignalCell r 0 b (table r t))
           (fun x => (table (fst (fst x)) (snd x), snd (fst x), snd x)) s).
  - apply seqZ_NoDup.
  - rewrite seqZ_length. lia.
  - exact Hgd.
  - lia.
  - intros [[r b] t] Hx. apply barrierIndex_In in Hx. cbn [fst snd] in *.
    rewrite !seqZ_In in Hx.
    destruct (Htab r t ltac:(lia) ltac:(lia)) as [T1 T2].
    split; [ split |].
    + apply barrierIndex_In. cbn [fst snd]. rewrite !seqZ_In. lia.
    + now rewrite T2.
    + now rewrite T2.
  - exact Q.
Qed.

Lemma hcm_relay_barrier (W : Z) (table : Z -> Z -> Z)
    (blocks threads : dim3) (s : signalState) :
  0 <= W <= 8 -> dim_x blocks <= 24 ->
  (forall r, 0 <= r < W ->
     0 <= table r 3 < W /\ table (table r 3) 3 = r) ->
  quiet s ->
  exists s',
    runSignals
      (map Release
         (flat_map
            (fun r => fst (gridBarrier blocks threads
                             (fun b => [hcmRelayRelease (table r) r b])
                             (fun b => [hcmRelayAcquire (table r) r b])))
            (seqZ W)) ++
       map Acquire
         (flat_map
            (fun r => snd (gridBarrier blocks threads
                             (fun b => [hcmRelayRelease (table r) r b])
                             (fun b => [hcmRelayAcquire (table r) r b])))
            (seqZ W)))
      s = Some s' /\ quiet s'.
Proof.
  intros HW Hgd Htab Q.
  apply (grid_barrier (seqZ W) blocks threads 1
           (fun r b _ => mkSignalCell (table r 3) 0 b r)
           (fun r b _ => mkSignalCell r 0 b (table r 3))
           (fun x => (table (fst (fst x)) 3, snd (fst x), snd x)) s).
  - apply seqZ_NoDup.
  - rewrite seqZ_length. lia.
  - exact Hgd.
  - lia.
  - intros [[r b] t] Hx. apply barrierIndex_In in Hx. cbn [fst snd] in *.
    rewrite !seqZ_In in Hx.
    destruct (Htab r ltac:(lia)) as [T1 T2].
    split; [ split |].
    + apply barrierIndex_In. cbn [fst snd]. rewrite !seqZ_In. lia.
    + now rewrite T2.
    + now rewrite T2.
  - exact Q.
Qed.

(** The launch geometry of a bf16 length: no thread for an empty range, and
    otherwise at least one warp per block. *)
Lemma getLaunchConfig_bf16_dims (Na : Z) (blocks threads : dim3) :
  0 <= Na <= 2 ^ 31 -> Na mod 256 = 0 ->
  getLaunchConfig Na (itemsize kBFloat16) = Ok (blocks, threads) ->
  1 <= dim_x blocks <= 24 /\
  (Na = 0 -> dim_x threads = 0) /\ (0 < Na -> 32 <= dim_x threads).
Proof.
  intros HN Hmod. cbn [itemsize].
  assert (E : Na = 256 * (Na / 256)) by (apply Z.div_exact; lia).
  set (q := Na / 256) in *.
  destruct (Z.eq_dec q 0) as [Hq|Hq].
  - rewrite E, Hq. intros G.
    assert (G0 : getLaunchConfig (256 * 0) 2 =
                 Ok (mkDim3 1 1 1, mkDim3 0 1 1)) by reflexivity.
    rewrite G0 in G. injection G as <- <-. cbn [dim_x]. lia.
  - assert (Hq1 : 0 < q) by lia.
    pose proof (getLaunchConfig_multiple 2 q ltac:(lia) Hq1) as G.
    change (kBytesPerThread / 2) with 8 in G. unfold kWarpSize in G.
    cbv zeta in G. replace (8 * 32 * q) with Na in G by lia.
    specialize (G ltac:(lia)).
    unfold kThreadsPerBlock, kMaxAllReduceBlocks in G.
    intros G'. rewrite G in G'.
    destruct (q <? 32) eqn:Eq.
    + apply Z.ltb_lt in Eq. injection G' as <- <-. cbn [dim_x]. lia.
    + apply Z.ltb_ge in Eq. injection G' as <- <-.
      pose proof (ceil_div_pos (q * 32) 1024 ltac:(lia) ltac:(lia)) as C1.
      set (b := Z.min (ceil_div (q * 32) 1024) 24) in *.
      assert (Hb : 1 <= b <= 24) by (unfold b; lia).
      pose proof (ceil_div_pos q b ltac:(lia) ltac:(lia)) as C2.
      cbn [dim_x]. lia.
Qed.

Lemma no_barrier {A} (l : list A) (bars : A -> list barrier) (p : nat)
    (s : signalState) :
  (forall a, In a l -> nth p (bars a) ([], []) = ([], [])) ->
  quiet s ->
  exists s',
    runSignals
      (map Release (flat_map (fun a => fst (nth p (bars a) ([], []))) l) ++
       map Acquire (flat_map (fun a => snd (nth p (bars a) ([], []))) l))
      s = Some s' /\ quiet s'.
Proof.
  intros H Q. exists s. split; [| exact Q ].
  assert (E : forall pr : barrier -> list signalCell,
            pr ([], []) = [] ->
            flat_map (fun a => pr (nth p (bars a) ([], []))) l = []).
  { intros pr Hpr. induction l as [|a l IH]; [ reflexivity |].
    cbn [flat_map]. rewrite (H a) by now left.
    rewrite IH by (intros a' Ha'; apply H; now right).
    now rewrite Hpr. }
  rewrite (E fst eq_refl), (E snd eq_refl). reflexivity.
Qed.

Lemma barriersComplete_oneShot (W N Na : Z) (blocks threads : dim3) :
  0 <= W <= 8 -> dim_x blocks <= 24 ->
  dim_x threads <= 0 \/ W <= dim_x threads ->
  barriersComplete (map (oneShotLaunch W N Na blocks threads) (seqZ W)).
Proof.
  intros HW Hgd Hbd p s Q. unfold phaseSignals. rewrite !flat_map_map.
  destruct p as [|p].
  - exact (fullMesh_barrier W 0 blocks threads s HW Hgd Hbd Q).
  - apply (no_barrier (seqZ W)
             (fun r => opBarriers (oneShotLaunch W N Na blocks threads r)));
      [| exact Q ].
    intros r _. destruct p; reflexivity.
Qed.

Lemma barriersComplete_twoShot (W Na : Z) (blocks threads : dim3)
    (O : Z -> region) :
  0 <= W <= 8 -> dim_x blocks <= 24 ->
  dim_x threads <= 0 \/ W <= dim_x threads ->
  barriersComplete (map (twoShotLaunch W Na blocks threads O) (seqZ W)).
Proof.
  intros HW Hgd Hbd p s Q. unfold phaseSignals. rewrite !flat_map_map.
  destruct p as [|[|p]].
  - exact (fullMesh_barrier W 0 blocks threads s HW Hgd Hbd Q).
  - exact (fullMesh_barrier W 1 blocks threads s HW Hgd Hbd Q).
  - apply (no_barrier (seqZ W)
             (fun r => opBarriers (twoShotLaunch W Na blocks threads O r)));
      [| exact Q ].
    intros r _. destruct p; reflexivity.
Qed.

Lemma barriersComplete_hcm (W N Na : Z) (table : Z -> Z -> Z)
    (blocks threads : dim3) :
  0 <= W <= 8 -> dim_x blocks <= 24 ->
  (forall r k, 0 <= r < W -> 0 <= k < 4 ->
     0 <= table r k < W /\ table (table r k) k = r) ->
  barriersComplete (map (hcmLaunch N Na table blocks threads) (seqZ W)).
Proof.
  intros HW Hgd Htab p s Q. unfold phaseSignals. rewrite !flat_map_map.
  destruct p as [|[|p]].
  - apply (hcm_entry_barrier W table blocks threads s HW Hgd); [| exact Q ].
    intros r k Hr Hk. apply Htab; lia.
  - apply (hcm_relay_barrier W table blocks threads s HW Hgd); [| exact Q ].
    intros r Hr. apply Htab; lia.
  - apply (no_barrier (seqZ W)
             (fun r => opBarriers (hcmLaunch N Na table blocks threads r)));
      [| exact Q ].
    intros r _. destruct p; reflexivity.
Qed.

Lemma barriersComplete_staging (N W : Z) :
  barriersComplete (map (stagingOp N) (seqZ W)).
Proof.
  exact (barriersComplete_copies buffers (fun r => (Input r, 0))
           (fun _ => N * 2) (seqZ W)).
Qed.

Lemma barriersComplete_copyOp (dst src : Z -> region) (N W : Z) :
  barriersComplete (map (copyOp dst src N) (seqZ W)).
Proof.
  exact (barriersComplete_copies (fun r => (dst r, 0)) (fun r => (src r, 0))
           (fun _ => N * 2) (seqZ W)).
Qed.

(** ** The host side on a bf16 tensor *)

Lemma getLaunchConfig_bf16 (Na : Z) :
  0 <= Na <= 2 ^ 31 -> Na mod 256 = 0 ->
  exists blocks threads,
    getLaunchConfig Na (itemsize kBFloat16) = Ok (blocks, threads) /\
    validGrid (dim_x blocks) (dim_x threads) Na.
Proof.
  intros HN Hmod. cbn [itemsize].
  assert (E : Na = 256 * (Na / 256)) by (apply Z.div_exact; lia).
  set (q := Na / 256) in *.
  destruct (Z.eq_dec q 0) as [Hq|Hq].
  - rewrite E, Hq. eexists _, _. split; [ reflexivity |].
    unfold validGrid. cbn. lia.
  - assert (Hq1 : 0 < q) by lia.
    pose proof (getLaunchConfig_multiple 2 q ltac:(lia) Hq1) as G.
    change (kBytesPerThread / 2) with 8 in G. unfold kWarpSize in G.
    cbv zeta in G. replace (8 * 32 * q) with Na in G by lia.
    specialize (G ltac:(lia)).
    unfold kThreadsPerBlock, kMaxAllReduceBlocks in G.
    destruct (q <? 32) eqn:Eq.
    + apply Z.ltb_lt in Eq. eexists _, _. split; [ exact G |].
      unfold validGrid. cbn [dim_x]. lia.
    + apply Z.ltb_ge in Eq. eexists _, _. split; [ exact G |].
      pose proof (ceil_div_pos (q * 32) 1024 ltac:(lia) ltac:(lia)) as C1.
      set (b := Z.min (ceil_div (q * 32) 1024) 24) in *.
      assert (Hb : 1 <= b <= 24) by (unfold b; lia).
      pose proof (ceil_div_pos q b ltac:(lia) ltac:(lia)) as C2.
      unfold validGrid. cbn [dim_x]. nia.
Qed.

Lemma checkInput_bf16 (N r : Z) :
  0 <= r < 2 ^ 64 -> checkInput (bf16Tensor N r) r = Ok tt.
Proof.
  intros Hr. unfold checkInput, bf16Tensor. cbn.
  rewrite (wrap64_small r Hr), Z.eqb_refl. reflexivity.
Qed.

Lemma DISPATCH_in_range (W : Z) (X : Z -> streamOp) (s : stream) :
  2 <= W <= 8 -> DISPATCH_ALL_WORLD_SIZES W X s = (Ok tt, s ++ [X W]).
Proof.
  intros H.
  assert (C : W = 2 \/ W = 3 \/ W = 4 \/ W = 5 \/ W = 6 \/ W = 7 \/ W = 8)
    by lia.
  destruct C as [C|[C|[C|[C|[C|[C|C]]]]]]; subst W; reflexivity.
Qed.


Lemma oneShotAllReduce_stream (cap N W r : Z) (blocks threads : dim3) :
  2 <= W <= 8 -> 0 <= r < W -> 0 <= N < 2 ^ 31 ->
  alignUp N 256 <= cap / 2 ->
  getLaunchConfig (alignUp N 256) (itemsize kBFloat16) = Ok (blocks, threads) ->
  oneShotAllReduce cap (bf16Tensor N r) r W [] =
  (Ok (bf16Tensor N r),
   [stagingOp N r; oneShotLaunch W N (alignUp N 256) blocks threads r]).
Proof.
  intros HW Hr HN Hfit G.
  unfold oneShotAllReduce, hbind, lift.
  rewrite checkInput_bf16 by lia.
  unfold element_size. cbn [dtype numel data_ptr bf16Tensor].
  change (wrap64 (kBytesPerThread / itemsize kBFloat16 * kWarpSize)) with 256.
  rewrite G. cbn [itemsize].
  rewrite (proj2 (Z.leb_le _ _) Hfit). cbn [TORCH_CHECK].
  rewrite (wrap64_small N), (wrap64_small (N * 2)) by lia.
  unfold enqueue, ret. cbn [app].
  unfold oneShotLaunch, stagingOp.
  destruct (alignUp N 256 =? N); rewrite DISPATCH_in_range by lia;
    reflexivity.
Qed.

(** ** The one-shot collective *)

Lemma rotatedSum_ext (W r : Z) (x y : Z -> bf16) :
  0 < W -> (forall q, 0 <= q < W -> x q = y q) ->
  rotatedSum W r x = rotatedSum W r y.
Proof.
  intros HW H. unfold rotatedSum. f_equal. apply map_ext.
  intros k. apply H. apply Z.mod_pos_bound. lia.
Qed.

Lemma oneShotBody_hit (W : Z) (kAligned : bool) (input : pointer) (N rank i : Z)
    (h : heap) r j :
  tailWrites kAligned input i N r j ->
  oneShotBody W kAligned input N rank i h r j =
  rotatedSum W rank (fun q => h (Buffer q) (i + (j - (snd input + i)))).
Proof.
  intros Hw.
  change (oneShotBody W kAligned input N rank i h)
    with (tailStore kAligned h input i N
            (sumVals W (fun ii => streamLoad128 h (srcs W rank ii) i))).
  rewrite tailStore_hit by exact Hw.
  destruct Hw as [_ [Hj _]].
  rewrite lane_sumVals by lia.
  unfold rotatedSum. f_equal. apply map_ext. intros k.
  unfold streamLoad128. rewrite lane_load128 by lia.
  unfold srcs, srcRank, buffers. cbn [fst snd]. f_equal; lia.
Qed.

Lemma oneShotBody_miss (W : Z) (kAligned : bool) (input : pointer)
    (N rank i : Z)
    (h : heap) r j :
  ~ tailWrites kAligned input i N r j ->
  oneShotBody W kAligned input N rank i h r j = h r j.
Proof.
  intros Hw.
  change (oneShotBody W kAligned input N rank i h)
    with (tailStore kAligned h input i N
            (sumVals W (fun ii => streamLoad128 h (srcs W rank ii) i))).
  now apply tailStore_miss.
Qed.

Lemma chunk_of (p : Z) :
  0 <= p -> let i := 8 * (p / 8) in 0 <= i <= p /\ p < i + 8 /\ i mod 8 = 0.
Proof.
  intros Hp i. unfold i.
  pose proof (Z.mul_div_le p 8 ltac:(lia)).
  pose proof (Z.mul_succ_div_gt p 8 ltac:(lia)).
  pose proof (Z.div_pos p 8 Hp ltac:(lia)).
  repeat split; try lia.
  rewrite Z.mul_comm. apply Z.mod_mul. lia.
Qed.

Lemma chunks_disjoint (i i' p : Z) :
  i mod 8 = 0 -> i' mod 8 = 0 -> i <= p < i + 8 -> i' <= p < i' + 8 ->
  i = i'.
Proof.
  intros Hi Hi' H H'.
  apply Z.mod_divide in Hi; [| lia ]. apply Z.mod_divide in Hi'; [| lia ].
  destruct Hi as [c ->], Hi' as [c' ->]. lia.
Qed.

Lemma chunk_inside (i bound : Z) :
  i mod 8 = 0 -> bound mod 8 = 0 -> i < bound -> i + 8 <= bound.
Proof.
  intros Hi Hb H.
  apply Z.mod_divide in Hi; [| lia ]. apply Z.mod_divide in Hb; [| lia ].
  destruct Hi as [c ->], Hb as [c' ->]. lia.
Qed.

Lemma mod_256_mod_8 (n : Z) : n mod 256 = 0 -> n mod 8 = 0.
Proof.
  intros H. apply Z.mod_divide in H; [| lia ]. destruct H as [c ->].
  replace (c * 256) with (c * 32 * 8) by lia. apply Z.mod_mul. lia.
Qed.

(** The tail round of a one-shot or hybrid-cube-mesh kernel over all ranks:
    every rank writes [value r h] at the positions below [N] of its own
    tensor and nothing else, provided [value] only depends on the peer
    buffers. *)
Lemma tail_phase (W N Na : Z) (gridDim blockDim : Z)
    (bodyOf : Z -> Z -> heap -> heap) (value : Z -> heap -> Z -> bf16)
    (h : heap) :
  0 < W -> 0 <= N <= Na -> Na mod 8 = 0 ->
  validGrid gridDim blockDim Na ->
  (forall r i h0 a j, tailWrites (Na =? N) (Input r, 0) i N a j ->
     bodyOf r i h0 a j = value r h0 j) ->
  (forall r i h0 a j, ~ tailWrites (Na =? N) (Input r, 0) i N a j ->
     bodyOf r i h0 a j = h0 a j) ->
  (forall r h1 h2 j, (forall q p, h1 (Buffer q) p = h2 (Buffer q) p) ->
     value r h1 j = value r h2 j) ->
  let hfin := fold_left (fun h ri => bodyOf (fst ri) (snd ri) h)
                        (phaseIndex (seqZ W) gridDim blockDim Na) h in
  (forall r p, 0 <= r < W -> 0 <= p < N -> hfin (Input r) p = value r h p) /\
  (forall a p, ~ (exists r, a = Input r /\ 0 <= r < W /\ 0 <= p < N) ->
     hfin a p = h a p).
Proof.
  intros HW HN Hmod Hv Hhit Hmiss Hval hfin.
  set (l := phaseIndex (seqZ W) gridDim blockDim Na) in *.
  assert (Hin : forall ri, In ri l ->
            0 <= fst ri < W /\ 0 <= snd ri < Na /\ snd ri mod 8 = 0).
  { intros [r i] H. apply (phaseIndex_In _ _ _ _ r i Hv) in H.
    rewrite seqZ_In in H. exact H. }
  destruct (fold_independent (Z * Z)
              (fun ri h => bodyOf (fst ri) (snd ri) h)
              (fun ri a j => tailWrites (Na =? N) (Input (fst ri), 0)
                               (snd ri) N a j)
              (fun ri a j => exists q, a = Buffer q)
              l) with (h := h) as [F1 F2].
  - intros ri h0 a j _ Hw. now apply Hmiss.
  - intros ri h1 h2 a j _ Hag Hw.
    rewrite !(Hhit _ _ _ _ _ Hw). apply Hval.
    intros q p. apply Hag. now exists q.
  - intros ri rj a j Hi Hj Hne [Ha [Hr _]]. cbn [fst snd] in Ha, Hr.
    split.
    + intros [q Hq]. congruence.
    + intros [Ha' [Hr' _]]. cbn [fst snd] in Ha', Hr'.
      apply Hne. destruct ri as [r i], rj as [r' i']. cbn [fst snd] in *.
      assert (r = r') by congruence. subst r'.
      f_equal. apply (chunks_disjoint i i' j);
        try apply (Hin (r, i) Hi); try apply (Hin (r, i') Hj); lia.
  - apply phaseIndex_NoDup; [ exact Hv | apply seqZ_NoDup ].
  - split.
    + intros r p Hr Hp.
      destruct (chunk_of p ltac:(lia)) as [C1 [C2 C3]].
      set (i := 8 * (p / 8)) in *.
      assert (Hri : In (r, i) l).
      { apply (phaseIndex_In _ _ _ _ r i Hv). rewrite seqZ_In.
        repeat split; lia. }
      assert (Hw : tailWrites (Na =? N) (Input r, 0) i N (Input r) p).
      { unfold tailWrites. cbn [fst snd].
        split; [ reflexivity | split; [ lia | right; lia ] ]. }
      unfold hfin.
      rewrite (F2 (r, i) (Input r) p Hri Hw). cbn [fst snd].
      now apply Hhit with (i := i) (a := Input r).
    + intros a p Hno. apply F1.
      intros [r i] Hri [Ha [Hr Hg]]. cbn [fst snd] in Ha, Hr, Hg.
      destruct (Hin (r, i) Hri) as [I1 [I2 I3]]. cbn [fst snd] in *.
      apply Hno. exists r. repeat split; try lia; auto.
      destruct Hg as [Hg | Hg]; [| lia ].
      apply Z.eqb_eq in Hg.
      pose proof (chunk_inside i Na I3 Hmod ltac:(lia)). lia.
Qed.

Lemma roundLoops_oneShot (cap W N Na : Z) (blocks threads : dim3) (h : heap) :
  0 < W -> validGrid (dim_x blocks) (dim_x threads) Na ->
  roundLoops cap (map (oneShotLaunch W N Na blocks threads) (seqZ W)) h =
  Some (fold_left
          (fun h ri => oneShotBody W (Na =? N) (Input (fst ri), 0) N
                         (fst ri) (snd ri) h)
          (phaseIndex (seqZ W) (dim_x blocks) (dim_x threads) Na) h).
Proof.
  intros HW Hv.
  rewrite (roundLoops_one cap _
             (fun op =>
                match op with
                | Launch (OneShotKernel W' al inp N' Na' r) bl th =>
                    oneShotAllReduceKernel W' al inp N' Na' r
                      (dim_x bl) (dim_x th)
                | _ => fun h => Some h
                end)).
  2: { intros E. apply map_eq_nil in E. now apply (seqZ_nonempty W). }
  2: { intros op Hop. apply in_map_iff in Hop. destruct Hop as [r [<- _]].
       reflexivity. }
  rewrite foldM_map. cbn beta iota. unfold oneShotLaunch.
  unfold oneShotAllReduceKernel.
  apply (ranks_phase (seqZ W)
           (fun r => oneShotBody W (Na =? N) (Input r, 0) N r)).
  exact Hv.
Qed.

Lemma collectiveStreams_oneShot (cap W N : Z) (topoInfo : Z -> Z -> Z)
    (blocks threads : dim3) :
  2 <= W <= 8 -> 0 <= N < 2 ^ 31 -> alignUp N 256 <= cap / 2 ->
  getLaunchConfig (alignUp N 256) (itemsize kBFloat16) = Ok (blocks, threads) ->
  collectiveStreams cap (bf16Tensor N) topoInfo W ONE_SHOT =
  map (fun r => [stagingOp N r;
                 oneShotLaunch W N (alignUp N 256) blocks threads r])
      (seqZ W).
Proof.
  intros HW HN Hfit G. unfold collectiveStreams. apply map_ext_in.
  intros r Hr. apply seqZ_In in Hr. unfold allReduce.
  now rewrite (oneShotAllReduce_stream cap N W r blocks threads).
Qed.

Lemma alignUp_256 (N : Z) :
  0 <= N < 2 ^ 31 ->
  N <= alignUp N 256 <= 2 ^ 31 /\ alignUp N 256 mod 256 = 0.
Proof.
  intros H. destruct (alignUp_bounds N 256) as [B M]; try lia.
  split; [| exact M ].
  apply Z.mod_divide in M; [| lia ]. destruct M as [c Hc]. lia.
Qed.

(** The one-shot collective on bf16 tensors of [N] elements: the memory it
    leaves. *)
Lemma oneShot_collective (cap W N : Z) (topoInfo : Z -> Z -> Z) (h0 : heap) :
  2 <= W <= 8 -> 0 <= N < 2 ^ 31 -> alignUp N 256 <= cap / 2 ->
  exists h',
    runCollective cap (collectiveStreams cap (bf16Tensor N) topoInfo W ONE_SHOT)
                  h0 = Some h' /\
    (forall r p, 0 <= r < W -> 0 <= p < N ->
       h' (Input r) p = rotatedSum W r (fun q => h0 (Input q) p)) /\
    (forall r p, ~ (0 <= r < W /\ 0 <= p < N) ->
       h' (Input r) p = h0 (Input r) p).
Proof.
  intros HW HN Hfit.
  destruct (alignUp_256 N HN) as [HNa Hmod].
  set (Na := alignUp N 256) in *.
  destruct (getLaunchConfig_bf16 Na ltac:(lia) Hmod)
    as [blocks [threads [G Hv]]].
  rewrite (collectiveStreams_oneShot cap W N topoInfo blocks threads HW HN
             Hfit G).
  fold Na.
  destruct (getLaunchConfig_bf16_dims Na blocks threads ltac:(lia) Hmod G)
    as [D1 [D2 D3]].
  rewrite runCollective_loops.
  2: { apply barriersComplete_two; [ apply barriersComplete_staging |].
       apply barriersComplete_oneShot; lia. }
  rewrite (collectiveLoops_two cap (seqZ W) (stagingOp N)
             (oneShotLaunch W N Na blocks threads))
    by (apply seqZ_nonempty; lia).
  destruct (staging_round cap N W h0 ltac:(lia) ltac:(lia))
    as [hS [ES [S1 S2]]].
  rewrite ES. rewrite roundLoops_oneShot by (try lia; exact Hv).
  eexists. split; [ reflexivity |].
  destruct (tail_phase W N Na (dim_x blocks) (dim_x threads)
              (fun r i => oneShotBody W (Na =? N) (Input r, 0) N r i)
              (fun r h j => rotatedSum W r (fun q => h (Buffer q) j))
              hS ltac:(lia) ltac:(lia) (mod_256_mod_8 Na Hmod) Hv)
    as [T1 T2].
  - intros r i h a j Hw. rewrite oneShotBody_hit by exact Hw.
    destruct Hw as [_ [Hj _]]. cbn [snd] in *.
    apply rotatedSum_ext; [ lia |]. intros q _. f_equal. lia.
  - intros r i h a j Hw. now apply oneShotBody_miss.
  - intros r h1 h2 j Hag. apply rotatedSum_ext; [ lia |].
    intros q _. apply Hag.
  - split.
    + intros r p Hr Hp. rewrite (T1 r p Hr Hp).
      apply rotatedSum_ext; [ lia |]. intros q Hq. now apply S1.
    + intros r p Hno. rewrite T2.
      * apply S2. intros [q [E _]]. discriminate E.
      * intros [r' [E H]]. apply Hno. injection E as ->. exact H.
Qed.

(** C1.  For a world size in [2, 8] and bf16 tensors of the same length [N]
    on every rank (a length the 32-bit alignment arithmetic represents and
    whose aligned size passes the dispatcher's check against
    [kMaxIntraNodeSize]), every rank's call of [allReduce] with ONE_SHOT
    returns its tensor, and once the enqueued staging copies and kernels
    have run, every element [p] of every rank's tensor is the sum of the
    ranks' inputs at [p], starting from zero and adding the peers in the
    rotated order [(rank + k) mod W], [k = 0 .. W-1]. *)
Theorem oneShot_allReduce_rotated_sum (kMaxIntraNodeSize W N : Z)
    (topoInfo : Z -> Z -> Z) (h0 : heap) :
  2 <= W <= 8 ->
  0 <= N < 2 ^ 31 ->
  alignUp N 256 <= kMaxIntraNodeSize / 2 ->
  (forall r, 0 <= r < W ->
     fst (allReduce kMaxIntraNodeSize (bf16Tensor N r) (topoInfo r) r W
                    ONE_SHOT []) = Ok (bf16Tensor N r)) /\
  exists h',
    runCollective kMaxIntraNodeSize
      (collectiveStreams kMaxIntraNodeSize (bf16Tensor N) topoInfo W ONE_SHOT)
      h0 = Some h' /\
    forall r p, 0 <= r < W -> 0 <= p < N ->
      h' (Input r) p = rotatedSum W r (fun q => h0 (Input q) p).
Proof.
  intros HW HN Hfit. split.
  - intros r Hr.
    destruct (alignUp_256 N HN) as [HNa Hmod].
    destruct (getLaunchConfig_bf16 (alignUp N 256) ltac:(lia) Hmod)
      as [blocks [threads [G _]]].
    unfold allReduce.
    now rewrite (oneShotAllReduce_stream kMaxIntraNodeSize N W r blocks
                   threads).
  - destruct (oneShot_collective kMaxIntraNodeSize W N topoInfo h0 HW HN Hfit)
      as [h' [E [V _]]].
    exists h'. split; [ exact E | exact V ].
Qed.

(** ** The two-shot kernel *)

Lemma srcRank_0 (W rank : Z) : 0 <= rank < W -> srcRank W rank 0 = rank.
Proof.
  intros H. unfold srcRank. rewrite Z.add_0_r. apply Z.mod_small. lia.
Qed.

Lemma srcRank_inj (W rank ii ii' : Z) :
  0 <= rank < W -> 0 <= ii < W -> 0 <= ii' < W ->
  srcRank W rank ii = srcRank W rank ii' -> ii = ii'.
Proof.
  unfold srcRank. intros Hr Hi Hi' E.
  assert (C : forall x, 0 <= x < W ->
            (rank + x) mod W = rank + x \/ (rank + x) mod W = rank + x - W).
  { intros x Hx. destruct (Z_lt_le_dec (rank + x) W).
    - left. apply Z.mod_small. lia.
    - right. symmetry. apply Z.mod_unique with (q := 1); lia. }
  destruct (C ii Hi), (C ii' Hi'); lia.
Qed.

Lemma srcRank_neq_self (W rank ii : Z) :
  0 <= rank < W -> 1 <= ii < W -> srcRank W rank ii <> rank.
Proof.
  intros Hr Hi E. rewrite <- (srcRank_0 W rank Hr) in E at 2.
  apply srcRank_inj in E; lia.
Qed.

(** Every other rank is the source of exactly one slot [ii] in [1, W). *)
Lemma srcRank_surj (W rank s : Z) :
  0 <= rank < W -> 0 <= s < W -> s <> rank ->
  exists ii, 1 <= ii < W /\ srcRank W rank ii = s.
Proof.
  intros Hr Hs Hne. unfold srcRank.
  destruct (Z_lt_le_dec rank s).
  - exists (s - rank). split; [ lia |].
    replace (rank + (s - rank)) with s by lia. apply Z.mod_small. lia.
  - exists (s - rank + W). split; [ lia |].
    replace (rank + (s - rank + W)) with (s + 1 * W) by lia.
    rewrite Z.mod_add by lia. apply Z.mod_small. lia.
Qed.

Lemma srcs_0 (W rank : Z) : 0 <= rank < W -> srcs W rank 0 = buffers rank.
Proof. intros H. unfold srcs. now rewrite srcRank_0. Qed.


Lemma reduceScatterBody_hit_buffer (W : Z) (out : pointer) (Ns rank i : Z)
    (h : heap) j :
  0 <= rank < W -> (forall q, fst out <> Buffer q) ->
  Ns + i <= j < Ns + i + 8 -> 0 <= Ns + i < 2 ^ 64 ->
  twoShotReduceScatterBody W out Ns rank i h (Buffer rank) j =
  rotatedSum W rank (fun q => h (Buffer q) j).
Proof.
  intros Hr Hout Hj Hk. unfold twoShotReduceScatterBody, streamStore128.
  cbv zeta. rewrite (wrap64_small (Ns + i)) by lia.
  rewrite store128_miss by (intros [E _]; symmetry in E; now apply Hout in E).
  rewrite (srcs_0 W rank Hr).
  rewrite store128_hit by (cbn [fst snd buffers]; auto; lia).
  cbn [fst snd buffers].
  rewrite lane_sumVals by lia.
  unfold rotatedSum. f_equal. apply map_ext. intros k.
  unfold streamLoad128. rewrite lane_load128 by lia.
  unfold srcs, srcRank, buffers. cbn [fst snd]. f_equal; lia.
Qed.

Lemma reduceScatterBody_hit_out (W : Z) (out : pointer) (Ns rank i : Z)
    (h : heap) j :
  snd out + (Ns + i) <= j < snd out + (Ns + i) + 8 -> 0 <= Ns + i < 2 ^ 64 ->
  twoShotReduceScatterBody W out Ns rank i h (fst out) j =
  rotatedSum W rank (fun q => h (Buffer q) (j - snd out)).
Proof.
  intros Hj Hk. unfold twoShotReduceScatterBody, streamStore128.
  cbv zeta. rewrite (wrap64_small (Ns + i)) by lia.
  rewrite store128_hit by (auto; lia).
  rewrite lane_sumVals by lia.
  unfold rotatedSum. f_equal. apply map_ext. intros k.
  unfold streamLoad128. rewrite lane_load128 by lia.
  unfold srcs, srcRank, buffers. cbn [fst snd]. f_equal; lia.
Qed.

Lemma reduceScatterBody_miss (W : Z) (out : pointer) (Ns rank i : Z)
    (h : heap) a j :
  0 <= rank < W -> 0 <= Ns + i < 2 ^ 64 ->
  ~ reduceScatterWrites out rank (Ns + i) a j ->
  twoShotReduceScatterBody W out Ns rank i h a j = h a j.
Proof.
  intros Hr Hk Hw. unfold twoShotReduceScatterBody, streamStore128.
  cbv zeta. rewrite (wrap64_small (Ns + i)) by lia.
  unfold reduceScatterWrites in Hw.
  rewrite store128_miss by tauto.
  rewrite (srcs_0 W rank Hr).
  rewrite store128_miss by (cbn [fst snd buffers]; intros [E H]; apply Hw;
                            left; split; [ exact E | lia ]).
  reflexivity.
Qed.

(** The reduce-scatter loops of a set of ranks, each writing to its own
    output pointer. *)
Lemma reduceScatter_phase (W Npr : Z) (ranks : list Z) (out : Z -> pointer)
    (gridDim blockDim : Z) (h : heap) :
  0 < W -> NoDup ranks -> (forall r, In r ranks -> 0 <= r < W) ->
  0 <= Npr -> Npr mod 8 = 0 -> W * Npr < 2 ^ 63 ->
  validGrid gridDim blockDim Npr ->
  (forall r q, fst (out r) <> Buffer q) ->
  (forall r r', In r ranks -> In r' ranks -> fst (out r) = fst (out r') ->
     r = r') ->
  let h1 := fold_left
              (fun h ri => twoShotReduceScatterBody W (out (fst ri))
                             (wrap64 (Npr * fst ri)) (fst ri) (snd ri) h)
              (phaseIndex ranks gridDim blockDim Npr) h in
  (forall r j, In r ranks -> r * Npr <= j < (r + 1) * Npr ->
     h1 (Buffer r) j = rotatedSum W r (fun q => h (Buffer q) j) /\
     h1 (fst (out r)) (snd (out r) + j)
       = rotatedSum W r (fun q => h (Buffer q) j)) /\
  (forall q j, ~ (In q ranks /\ q * Npr <= j < (q + 1) * Npr) ->
     h1 (Buffer q) j = h (Buffer q) j) /\
  (forall a j, (forall q, a <> Buffer q) ->
     (forall r, In r ranks -> a <> fst (out r)) -> h1 a j = h a j) /\
  (forall r j, In r ranks ->
     ~ (r * Npr <= j - snd (out r) < (r + 1) * Npr) ->
     h1 (fst (out r)) j = h (fst (out r)) j).
Proof.
  intros HW Hnd Hranks HNpr Hmod Hbig Hv Hout Hinj h1.
  set (l := phaseIndex ranks gridDim blockDim Npr) in *.
  assert (Hin : forall ri, In ri l ->
            In (fst ri) ranks /\ 0 <= fst ri < W /\
            0 <= snd ri /\ snd ri + 8 <= Npr /\ snd ri mod 8 = 0).
  { intros [r i] H. apply (phaseIndex_In _ _ _ _ r i Hv) in H.
    destruct H as [H1 [H2 H3]]. cbn [fst snd].
    pose proof (chunk_inside i Npr H3 Hmod ltac:(lia)).
    repeat split; auto; try lia; now apply Hranks. }
  assert (Hns : forall r, 0 <= r < W ->
            wrap64 (Npr * r) = r * Npr /\
            0 <= r * Npr /\ (r + 1) * Npr <= W * Npr).
  { intros r Hr. assert (0 <= r * Npr /\ (r + 1) * Npr <= W * Npr) by nia.
    split; [| assumption ]. rewrite wrap64_small by nia. lia. }
  destruct (fold_independent (Z * Z)
              (fun ri h => twoShotReduceScatterBody W (out (fst ri))
                             (wrap64 (Npr * fst ri)) (fst ri) (snd ri) h)
              (fun ri a j => reduceScatterWrites (out (fst ri)) (fst ri)
                               (fst ri * Npr + snd ri) a j)
              (fun ri a j => exists q, a = Buffer q /\
                               fst ri * Npr + snd ri <= j
                                 < fst ri * Npr + snd ri + 8)
              l) with (h := h) as [F1 F2].
  - intros [r i] h0 a j Hri Hw. cbn [fst snd] in *.
    destruct (Hin (r, i) Hri) as [I1 [I2 [I3 [I4 I5]]]]. cbn [fst snd] in *.
    destruct (Hns r I2) as [E [N1 N2]]. rewrite E.
    apply reduceScatterBody_miss; auto; lia.
  - intros [r i] h2 h3 a j Hri Hag Hw. cbn [fst snd] in *.
    destruct (Hin (r, i) Hri) as [I1 [I2 [I3 [I4 I5]]]]. cbn [fst snd] in *.
    destruct (Hns r I2) as [E [N1 N2]]. rewrite !E.
    destruct Hw as [[-> Hj] | [-> Hj]].
    + rewrite !reduceScatterBody_hit_buffer by (auto; lia).
      apply rotatedSum_ext; [ lia |]. intros q _. apply Hag.
      exists q. split; [ reflexivity | lia ].
    + rewrite !reduceScatterBody_hit_out by lia.
      apply rotatedSum_ext; [ lia |]. intros q _. apply Hag.
      exists q. split; [ reflexivity | lia ].
  - intros [r i] [r' i'] a j Hri Hri' Hne Hw. cbn [fst snd] in *.
    destruct (Hin (r, i) Hri) as [I1 [I2 [I3 [I4 I5]]]].
    destruct (Hin (r', i') Hri') as [J1 [J2 [J3 [J4 J5]]]].
    cbn [fst snd] in *.
    assert (Hcell : forall o, r * Npr + i <= o < r * Npr + i + 8 ->
                      r' * Npr + i' <= o < r' * Npr + i' + 8 -> False).
    { intros o H1 H2. destruct (Z.eq_dec r r') as [->|Hrr].
      - apply Hne. f_equal.
        apply (chunks_disjoint i i' (o - r' * Npr)); auto; lia.
      - destruct (Z_lt_le_dec r r'); [ assert (r + 1 <= r') by lia
                                     | assert (r' + 1 <= r) by lia ]; nia. }
    split.
    + intros [q [-> Hj]].
      destruct Hw as [[E Hj'] | [E Hj']].
      * apply (Hcell j); lia.
      * symmetry in E. now apply Hout in E.
    + intros Hw'.
      destruct Hw as [[-> Hj'] | [-> Hj']], Hw' as [[E Hj] | [E Hj]].
      * apply (Hcell j); lia.
      * symmetry in E. now apply Hout in E.
      * now apply Hout in E.
      * apply Hinj in E; auto. subst r'.
        apply (Hcell (j - snd (out r))); lia.
  - apply phaseIndex_NoDup; assumption.
  - split; [| split; [| split ] ].
    + intros r j Hr Hj.
      pose proof (Hranks r Hr) as Hr'.
      destruct (Hns r Hr') as [E [N1 N2]].
      destruct (chunk_of (j - r * Npr) ltac:(lia)) as [C1 [C2 C3]].
      set (i := 8 * ((j - r * Npr) / 8)) in *.
      assert (Hri : In (r, i) l).
      { apply (phaseIndex_In _ _ _ _ r i Hv). repeat split; auto; lia. }
      unfold h1. split.
      * rewrite (F2 (r, i) (Buffer r) j Hri)
          by (left; cbn [fst snd]; split; [ reflexivity | lia ]).
        cbn [fst snd]. rewrite E.
        apply reduceScatterBody_hit_buffer; auto; nia.
      * rewrite (F2 (r, i) (fst (out r)) (snd (out r) + j) Hri)
          by (right; cbn [fst snd]; split; [ reflexivity | lia ]).
        cbn [fst snd]. rewrite E.
        rewrite reduceScatterBody_hit_out by nia.
        apply rotatedSum_ext; [ lia |]. intros q _. f_equal. lia.
    + intros q j Hno. apply F1.
      intros [r i] Hri [[E Hj] | [E Hj]]; cbn [fst snd] in *.
      * injection E as ->.
        destruct (Hin (r, i) Hri) as [I1 [I2 [I3 [I4 I5]]]].
        cbn [fst snd] in *. apply Hno. split; [ exact I1 | nia ].
      * symmetry in E. now apply Hout in E.
    + intros a j Ha1 Ha2. apply F1.
      intros [r i] Hri [[E Hj] | [E Hj]]; cbn [fst snd] in *.
      * now apply Ha1 in E.
      * destruct (Hin (r, i) Hri) as [I1 _]. cbn [fst] in I1.
        now apply (Ha2 r I1).
    + intros r j Hr Hno. apply F1.
      intros [r' i] Hri [[E Hj] | [E Hj]]; cbn [fst snd] in *.
      * now apply Hout in E.
      * destruct (Hin (r', i) Hri) as [I1 [I2 [I3 [I4 I5]]]].
        cbn [fst snd] in *. apply Hinj in E; auto. subst r'.
        apply Hno. nia.
Qed.


Lemma gatherSlots_In W ii : In ii (gatherSlots W) <-> 1 <= ii < W.
Proof.
  unfold gatherSlots. rewrite in_map_iff. split.
  - intros [x [<- Hx]]. apply seqZ_In in Hx. lia.
  - intros H. exists (ii - 1). split; [ lia | apply seqZ_In; lia ].
Qed.

Lemma gatherSlots_NoDup W : NoDup (gatherSlots W).
Proof.
  unfold gatherSlots. apply Finite.Injective_map_NoDup.
  - intros a b E. lia.
  - apply seqZ_NoDup.
Qed.


Lemma allGather_as_copies (W Npr : Z) (O : Z -> region) (l : list (Z * Z))
    (h : heap) :
  fold_left (fun h ri => twoShotAllGatherBody W (O (fst ri), 0) Npr
                           (wrap64 (Npr * fst ri)) (fst ri) (snd ri) h) l h =
  fold_left (fun h x => gatherCopy W Npr O x h)
            (flat_map (fun ri => map (pair ri) (gatherSlots W)) l) h.
Proof.
  rewrite (fold_left_flat_map (fun ri => map (pair ri) (gatherSlots W))
             (fun x h => gatherCopy W Npr O x h)).
  revert h. induction l as [|ri l IH]; intros h; cbn [fold_left];
    [ reflexivity |].
  rewrite <- IH. f_equal.
  rewrite (fold_left_map_index (pair ri) (fun x h => gatherCopy W Npr O x h)).
  reflexivity.
Qed.

(** The all-gather loops of all ranks: every rank copies every other rank's
    shard from that rank's peer buffer into its own output. *)
Lemma allGather_phase (W Npr : Z) (O : Z -> region)
    (gridDim blockDim : Z) (h : heap) :
  0 < W -> 0 <= Npr -> Npr mod 8 = 0 -> W * Npr < 2 ^ 63 ->
  validGrid gridDim blockDim Npr ->
  (forall r q, O r <> Buffer q) ->
  (forall r r', O r = O r' -> r = r') ->
  let h2 := fold_left
              (fun h ri => twoShotAllGatherBody W (O (fst ri), 0) Npr
                             (wrap64 (Npr * fst ri)) (fst ri) (snd ri) h)
              (phaseIndex (seqZ W) gridDim blockDim Npr) h in
  (forall r s j, 0 <= r < W -> 0 <= s < W -> s <> r ->
     s * Npr <= j < (s + 1) * Npr -> h2 (O r) j = h (Buffer s) j) /\
  (forall a j,
     ~ (exists r s, a = O r /\ 0 <= r < W /\ 0 <= s < W /\ s <> r /\
                    s * Npr <= j < (s + 1) * Npr) ->
     h2 a j = h a j).
Proof.
  intros HW HNpr Hmod Hbig Hv Hout Hinj h2.
  unfold h2. rewrite allGather_as_copies.
  set (l := phaseIndex (seqZ W) gridDim blockDim Npr).
  set (l3 := flat_map (fun ri => map (pair ri) (gatherSlots W)) l).
  assert (Hl : forall r i, In (r, i) l <->
            0 <= r < W /\ 0 <= i < Npr /\ i mod 8 = 0).
  { intros r i. unfold l.
    rewrite (phaseIndex_In _ _ _ _ r i Hv), seqZ_In. reflexivity. }
  assert (Hl3 : forall r i ii, In (r, i, ii) l3 <->
            (0 <= r < W /\ 0 <= i < Npr /\ i mod 8 = 0) /\ 1 <= ii < W).
  { intros r i ii. unfold l3. rewrite in_flat_map. split.
    - intros [[r' i'] [H1 H2]]. apply in_map_iff in H2.
      destruct H2 as [ii' [E H2]]. injection E as -> -> ->.
      apply Hl in H1. apply gatherSlots_In in H2. tauto.
    - intros [H1 H2]. exists (r, i). split; [ now apply Hl |].
      apply in_map. now apply gatherSlots_In. }
  assert (Hk : forall r i ii, In (r, i, ii) l3 ->
            gatherIndex W r Npr (wrap64 (Npr * r)) i ii
              = srcRank W r ii * Npr + i /\
            0 <= srcRank W r ii < W /\ srcRank W r ii <> r /\
            i + 8 <= Npr /\ 0 <= srcRank W r ii * Npr).
  { intros r i ii H. apply Hl3 in H. destruct H as [[H1 [H2 H3]] H4].
    pose proof (srcRank_range W r ii HW).
    split; [ apply gatherIndex_eq; lia |].
    split; [ assumption |].
    split; [ apply srcRank_neq_self; lia |].
    split; [ apply chunk_inside; auto; lia | nia ]. }
  destruct (fold_independent (Z * Z * Z)
              (fun x h => gatherCopy W Npr O x h)
              (fun x a j =>
                 a = O (fst (fst x)) /\
                 srcRank W (fst (fst x)) (snd x) * Npr + snd (fst x) <= j
                   < srcRank W (fst (fst x)) (snd x) * Npr + snd (fst x) + 8)
              (fun x a j => exists q, a = Buffer q)
              l3) with (h := h) as [F1 F2].
  - intros [[r i] ii] h0 a j Hx Hw. cbn [fst snd] in *.
    destruct (Hk r i ii Hx) as [E _].
    unfold gatherCopy, streamStore128. cbn [fst snd]. rewrite E.
    apply store128_miss. cbn [fst snd]. intros [Ha Hj]. apply Hw.
    split; [ exact Ha | lia ].
  - intros [[r i] ii] h1 h3 a j Hx Hag [-> Hj]. cbn [fst snd] in *.
    destruct (Hk r i ii Hx) as [E _].
    unfold gatherCopy, streamStore128, streamLoad128. cbn [fst snd].
    rewrite E. rewrite !store128_hit by (cbn [fst snd]; auto; lia).
    cbn [fst snd]. rewrite !lane_load128 by lia.
    apply Hag. unfold srcs, buffers. cbn [fst]. eexists. reflexivity.
  - intros [[r i] ii] [[r' i'] ii'] a j Hx Hx' Hne [-> Hj].
    cbn [fst snd] in *.
    split; [ intros [q E]; now apply Hout in E |].
    intros [E Hj']. apply Hinj in E. subst r'.
    destruct (Hk r i ii Hx) as [_ [S1 [_ [C1 _]]]].
    destruct (Hk r i' ii' Hx') as [_ [S2 [_ [C2 _]]]].
    apply Hl3 in Hx, Hx'.
    destruct Hx as [[R1 [I1 M1]] L1], Hx' as [[_ [I2 M2]] L2].
    set (s := srcRank W r ii) in *. set (s' := srcRank W r ii') in *.
    assert (Es : s = s').
    { destruct (Z.eq_dec s s') as [|Hss]; [ assumption | exfalso ].
      destruct (Z_lt_le_dec s s'); [ assert (s + 1 <= s') by lia
                                   | assert (s' + 1 <= s) by lia ]; nia. }
    apply Hne.
    assert (ii = ii') by (apply (srcRank_inj W r); auto; lia).
    assert (i = i').
    { apply (chunks_disjoint i i' (j - s * Npr)); auto; lia. }
    congruence.
  - unfold l3. apply NoDup_flat_map_keyed with (key := @fst (Z * Z) Z).
    + apply phaseIndex_NoDup; [ exact Hv | apply seqZ_NoDup ].
    + intros ri _. apply Finite.Injective_map_NoDup.
      * intros x y E. now injection E.
      * apply gatherSlots_NoDup.
    + intros ri x _ H. apply in_map_iff in H. destruct H as [ii [<- _]].
      reflexivity.
  - split.
    + intros r s j Hr Hs Hne Hj.
      destruct (srcRank_surj W r s Hr Hs Hne) as [ii [Hii Es]].
      assert (0 <= s * Npr) by nia.
      destruct (chunk_of (j - s * Npr) ltac:(lia)) as [C1 [C2 C3]].
      set (i := 8 * ((j - s * Npr) / 8)) in *.
      assert (Hx : In (r, i, ii) l3).
      { apply Hl3. repeat split; auto; lia. }
      rewrite (F2 (r, i, ii) (O r) j Hx)
        by (cbn [fst snd]; rewrite Es; split; [ reflexivity | lia ]).
      destruct (Hk r i ii Hx) as [E _].
      unfold gatherCopy, streamStore128, streamLoad128. cbn [fst snd].
      rewrite E, Es. rewrite store128_hit by (cbn [fst snd]; auto; lia).
      cbn [fst snd]. rewrite lane_load128 by lia.
      unfold srcs, buffers. rewrite Es. cbn [fst snd]. f_equal. lia.
    + intros a j Hno. apply F1.
      intros [[r i] ii] Hx [Ha Hj]. cbn [fst snd] in *.
      destruct (Hk r i ii Hx) as [_ [S1 [S2 [C1 C2]]]].
      apply Hl3 in Hx. destruct Hx as [[R1 [I1 M1]] L1].
      apply Hno. exists r, (srcRank W r ii).
      repeat split; auto; try lia; nia.
Qed.

(** ** The two-shot collective *)


Lemma alignUp_world (W N : Z) :
  2 <= W <= 8 -> 0 <= N < 2 ^ 31 ->
  let Na := alignUp N (W * 256) in
  let Npr := Na / W in
  N <= Na /\ Na = W * Npr /\ Npr mod 256 = 0 /\ 0 <= Npr <= 2 ^ 31 /\
  (0 < N -> 0 < Npr).
Proof.
  intros HW HN Na Npr.
  destruct (alignUp_bounds N (W * 256)) as [B M]; try lia.
  fold Na in B, M.
  apply Z.mod_divide in M; [| lia ]. destruct M as [c Hc].
  assert (E : Npr = c * 256).
  { unfold Npr. rewrite Hc.
    replace (c * (W * 256)) with (c * 256 * W) by lia.
    apply Z.div_mul. lia. }
  split; [ lia |]. split; [ lia |].
  split; [ rewrite E; apply Z.mod_mul; lia |].
  split; nia.
Qed.

Lemma twoShotAllReduce_stream (cap N W r : Z) (blocks threads : dim3) :
  2 <= W <= 8 -> 0 <= r < W -> 0 <= N < 2 ^ 31 ->
  let Na := alignUp N (W * 256) in
  Na <= cap / 2 ->
  getLaunchConfig (Na / W) (itemsize kBFloat16) = Ok (blocks, threads) ->
  twoShotAllReduce cap (bf16Tensor N r) r W [] =
  (Ok (bf16Tensor N r),
   if Na =? N then
     [stagingOp N r; twoShotLaunch W Na blocks threads Input r]
   else
     [stagingOp N r; twoShotLaunch W Na blocks threads Scratch r;
      copyOp Input Scratch N r]).
Proof.
  intros HW Hr HN Na Hfit G.
  unfold twoShotAllReduce, hbind, lift.
  rewrite checkInput_bf16 by lia.
  unfold element_size. cbn [dtype numel data_ptr bf16Tensor].
  change (wrap64 (kBytesPerThread / itemsize kBFloat16 * kWarpSize)) with 256.
  rewrite (wrap64_small (W * 256)) by lia. fold Na.
  rewrite G. cbn [itemsize].
  rewrite (proj2 (Z.leb_le _ _) Hfit). cbn [TORCH_CHECK].
  rewrite (wrap64_small N), (wrap64_small (N * 2)) by lia.
  unfold enqueue, ret. cbn [app].
  rewrite DISPATCH_in_range by lia.
  unfold twoShotLaunch, stagingOp, copyOp.
  destruct (Na =? N).
  - unfold pointer_eqb. cbn [data_ptr bf16Tensor fst snd region_eqb].
    rewrite !Z.eqb_refl. reflexivity.
  - unfold new_empty, pointer_eqb.
    cbn [data_ptr get_device bf16Tensor fst snd region_eqb negb andb app].
    reflexivity.
Qed.

Lemma roundLoops_twoShot (cap W Na : Z) (blocks threads : dim3)
    (O : Z -> region) (h : heap) :
  0 < W -> validGrid (dim_x blocks) (dim_x threads) (Na / W) ->
  roundLoops cap (map (twoShotLaunch W Na blocks threads O) (seqZ W)) h =
  Some
    (fold_left
       (fun h ri => twoShotAllGatherBody W (O (fst ri), 0) (Na / W)
                      (wrap64 (Na / W * fst ri)) (fst ri) (snd ri) h)
       (phaseIndex (seqZ W) (dim_x blocks) (dim_x threads) (Na / W))
       (fold_left
          (fun h ri => twoShotReduceScatterBody W (O (fst ri), 0)
                         (wrap64 (Na / W * fst ri)) (fst ri) (snd ri) h)
          (phaseIndex (seqZ W) (dim_x blocks) (dim_x threads) (Na / W))
          h)).
Proof.
  intros HW Hv.
  rewrite (roundLoops_two cap _
             (fun op =>
                match op with
                | Launch (TwoShotKernel W' inp Na' r) bl th =>
                    twoShotReduceScatter W' inp Na' r (dim_x bl) (dim_x th)
                | _ => fun h => Some h
                end)
             (fun op =>
                match op with
                | Launch (TwoShotKernel W' inp Na' r) bl th =>
                    twoShotAllGather W' inp Na' r (dim_x bl) (dim_x th)
                | _ => fun h => Some h
                end)).
  2: { intros E. apply map_eq_nil in E. now apply (seqZ_nonempty W). }
  2: { intros op Hop. apply in_map_iff in Hop. destruct Hop as [r [<- _]].
       reflexivity. }
  rewrite foldM_map. cbn beta iota. unfold twoShotLaunch.
  unfold twoShotReduceScatter, twoShotAllGather. cbv zeta.
  rewrite (ranks_phase (seqZ W)
             (fun r => twoShotReduceScatterBody W (O r, 0)
                         (wrap64 (Na / W * r)) r)) by exact Hv.
  rewrite foldM_map. cbn beta iota.
  apply (ranks_phase (seqZ W)
           (fun r => twoShotAllGatherBody W (O r, 0) (Na / W)
                       (wrap64 (Na / W * r)) r)).
  exact Hv.
Qed.

(** The two kernel phases of all ranks: every position of the aligned range
    of every output holds the sum in the order rotated by the owner of the
    position's shard. *)
Lemma twoShot_phases (W Npr : Z) (O : Z -> region) (gridDim blockDim : Z)
    (h : heap) :
  2 <= W <= 8 -> 0 <= Npr <= 2 ^ 31 -> Npr mod 8 = 0 ->
  validGrid gridDim blockDim Npr ->
  (forall r q, O r <> Buffer q) ->
  (forall r r', O r = O r' -> r = r') ->
  let h2 :=
    fold_left
      (fun h ri => twoShotAllGatherBody W (O (fst ri), 0) Npr
                     (wrap64 (Npr * fst ri)) (fst ri) (snd ri) h)
      (phaseIndex (seqZ W) gridDim blockDim Npr)
      (fold_left
         (fun h ri => twoShotReduceScatterBody W (O (fst ri), 0)
                        (wrap64 (Npr * fst ri)) (fst ri) (snd ri) h)
         (phaseIndex (seqZ W) gridDim blockDim Npr) h) in
  (forall r j, 0 <= r < W -> 0 <= j < W * Npr ->
     h2 (O r) j = rotatedSum W (j / Npr) (fun q => h (Buffer q) j)) /\
  (forall r j, ~ (0 <= r < W /\ 0 <= j < W * Npr) -> h2 (O r) j = h (O r) j) /\
  (forall a j, (forall q, a <> Buffer q) -> (forall r, a <> O r) ->
     h2 a j = h a j).
Proof.
  intros HW HNpr Hmod Hv Hout Hinj h2.
  destruct (reduceScatter_phase W Npr (seqZ W) (fun r => (O r, 0))
              gridDim blockDim h) as [P1 [P2 [P3 P4]]];
    try lia; auto.
  { apply seqZ_NoDup. }
  { intros r Hr. now apply seqZ_In. }
  { nia. }
  cbn [fst snd] in *.
  match goal with
  | h2 := fold_left _ _ ?H1 |- _ => set (h1 := H1) in *
  end.
  destruct (allGather_phase W Npr O gridDim blockDim h1) as [Q1 Q2];
    try lia; auto.
  { nia. }
  fold h2 in Q1, Q2.
  assert (Hshard : forall j, 0 <= j < W * Npr ->
            0 <= j / Npr < W /\
            j / Npr * Npr <= j < (j / Npr + 1) * Npr).
  { intros j Hj. assert (0 < Npr) by nia.
    pose proof (Z.mul_div_le j Npr ltac:(lia)).
    pose proof (Z.mul_succ_div_gt j Npr ltac:(lia)).
    split; [ split; [ apply Z.div_pos; lia
                    | apply Z.div_lt_upper_bound; lia ] | lia ]. }
  split; [| split ].
  - intros r j Hr Hj. destruct (Hshard j Hj) as [S1 S2].
    set (s := j / Npr) in *.
    destruct (Z.eq_dec s r) as [E|E].
    + rewrite Q2.
      * subst s. rewrite E in *.
        destruct (P1 r j ltac:(apply seqZ_In; lia) S2) as [_ V].
        rewrite Z.add_0_l in V. exact V.
      * intros [r' [s' [Eo [Hr' [Hs' [Hne Hj']]]]]].
        apply Hinj in Eo. subst r'.
        destruct (Z_lt_le_dec s s'); [ assert (s + 1 <= s') by lia
                                     | assert (s' + 1 <= s) by lia ]; nia.
    + rewrite (Q1 r s j Hr S1 E S2).
      now destruct (P1 s j ltac:(apply seqZ_In; lia) S2) as [V _].
  - intros r j Hno. rewrite Q2.
    + destruct (Z_lt_le_dec r 0) as [|Hr0];
        [| destruct (Z_lt_le_dec r W) as [HrW|] ].
      * apply P3; [ apply Hout |]. intros r' Hr' E. apply seqZ_In in Hr'.
        apply Hinj in E. lia.
      * apply (P4 r j); [ apply seqZ_In; lia |]. rewrite Z.sub_0_r.
        intros Hj. apply Hno. split; [ lia | nia ].
      * apply P3; [ apply Hout |]. intros r' Hr' E. apply seqZ_In in Hr'.
        apply Hinj in E. lia.
    + intros [r' [s' [Eo [Hr' [Hs' [Hne Hj']]]]]].
      apply Hinj in Eo. subst r'. apply Hno. split; [ lia | nia ].
  - intros a j Ha1 Ha2. rewrite Q2.
    + apply P3; auto.
    + intros [r' [s' [Eo _]]]. now apply Ha2 in Eo.
Qed.

Lemma collectiveStreams_twoShot (cap W N : Z) (topoInfo : Z -> Z -> Z)
    (blocks threads : dim3) :
  2 <= W <= 8 -> 0 <= N < 2 ^ 31 ->
  let Na := alignUp N (W * 256) in
  Na <= cap / 2 ->
  getLaunchConfig (Na / W) (itemsize kBFloat16) = Ok (blocks, threads) ->
  collectiveStreams cap (bf16Tensor N) topoInfo W TWO_SHOT =
  if Na =? N then
    map (fun r => [stagingOp N r; twoShotLaunch W Na blocks threads Input r])
        (seqZ W)
  else
    map (fun r => [stagingOp N r; twoShotLaunch W Na blocks threads Scratch r;
                   copyOp Input Scratch N r])
        (seqZ W).
Proof.
  intros HW HN Na Hfit G. unfold collectiveStreams.
  destruct (Na =? N) eqn:E; apply map_ext_in; intros r Hr;
    apply seqZ_In in Hr; unfold allReduce;
    rewrite (twoShotAllReduce_stream cap N W r blocks threads) by auto;
    fold Na; rewrite E; reflexivity.
Qed.

(** The two-shot collective on bf16 tensors of [N] elements: the memory it
    leaves, whether the kernel writes in place or into the temporary. *)
Lemma twoShot_collective (cap W N : Z) (topoInfo : Z -> Z -> Z) (h0 : heap) :
  2 <= W <= 8 -> 0 <= N < 2 ^ 31 -> alignUp N (W * 256) <= cap / 2 ->
  exists h',
    runCollective cap (collectiveStreams cap (bf16Tensor N) topoInfo W TWO_SHOT)
                  h0 = Some h' /\
    (forall r p, 0 <= r < W -> 0 <= p < N ->
       h' (Input r) p =
       rotatedSum W (p / (alignUp N (W * 256) / W))
                  (fun q => h0 (Input q) p)) /\
    (forall r p, ~ (0 <= r < W /\ 0 <= p < N) ->
       h' (Input r) p = h0 (Input r) p).
Proof.
  intros HW HN Hfit.
  destruct (alignUp_world W N HW HN) as [A1 [A2 [A3 [A4 A5]]]].
  set (Na := alignUp N (W * 256)) in *. set (Npr := Na / W) in *.
  destruct (getLaunchConfig_bf16 Npr A4 A3) as [blocks [threads [G Hv]]].
  rewrite (collectiveStreams_twoShot cap W N topoInfo blocks threads HW HN
             Hfit G).
  fold Na.
  destruct (staging_round cap N W h0 ltac:(lia) ltac:(lia))
    as [hS [ES [S1 S2]]].
  pose proof (mod_256_mod_8 Npr A3) as Hmod8.
  destruct (getLaunchConfig_bf16_dims Npr blocks threads A4 A3 G)
    as [D1 [D2 D3]].
  assert (HB : forall O,
            barriersComplete
              (map (twoShotLaunch W Na blocks threads O) (seqZ W))).
  { intros O. apply barriersComplete_twoShot; lia. }
  destruct (Z.eqb_spec Na N) as [E|E].
  - (* the kernel writes the caller's tensor in place *)
    rewrite runCollective_loops
      by (apply barriersComplete_two;
          [ apply barriersComplete_staging | apply HB ]).
    rewrite (collectiveLoops_two cap (seqZ W) (stagingOp N)
               (twoShotLaunch W Na blocks threads Input))
      by (apply seqZ_nonempty; lia).
    rewrite ES, roundLoops_twoShot by (try lia; exact Hv).
    eexists. split; [ reflexivity |]. fold Npr.
    destruct (twoShot_phases W Npr Input (dim_x blocks) (dim_x threads) hS)
      as [T1 [T2 T3]]; auto.
    { intros r q H. discriminate H. }
    { intros r r' H. now injection H. }
    split.
    + intros r p Hr Hp. rewrite T1 by lia.
      apply rotatedSum_ext; [ lia |]. intros q Hq. now apply S1.
    + intros r p Hno. rewrite T2 by lia.
      apply S2. intros [q [H _]]. discriminate H.
  - (* the kernel writes the temporary, and the prefix is copied back *)
    rewrite runCollective_loops
      by (apply barriersComplete_three;
          [ apply barriersComplete_staging | apply HB
          | apply barriersComplete_copyOp ]).
    rewrite (collectiveLoops_three cap (seqZ W) (stagingOp N)
               (twoShotLaunch W Na blocks threads Scratch)
               (copyOp Input Scratch N))
      by (apply seqZ_nonempty; lia).
    rewrite ES, roundLoops_twoShot by (try lia; exact Hv).
    fold Npr.
    destruct (twoShot_phases W Npr Scratch (dim_x blocks) (dim_x threads) hS)
      as [T1 [T2 T3]]; auto.
    { intros r q H. discriminate H. }
    { intros r r' H. now injection H. }
    match goal with
    | |- context [roundLoops _ _ ?H2] => set (h2 := H2) in *
    end.
    destruct (copy_round cap N W Input Scratch h2 ltac:(lia) ltac:(lia))
      as [h3 [E3 [C1 C2]]].
    { intros r r' H. now injection H. }
    { intros r r' H. discriminate H. }
    rewrite E3. eexists. split; [ reflexivity |].
    split.
    + intros r p Hr Hp. rewrite (C1 r p Hr Hp). rewrite T1 by lia.
      apply rotatedSum_ext; [ lia |]. intros q Hq. now apply S1.
    + intros r p Hno. rewrite C2.
      * rewrite T3.
        -- apply S2. intros [q [H _]]. discriminate H.
        -- intros q H. discriminate H.
        -- intros q H. discriminate H.
      * intros [q [H H']]. injection H as ->. now apply Hno.
Qed.

(** C6.  In the reduce-scatter loop of the two-shot kernel (lines 217-235),
    run by a rank below the world size on a range that is a multiple of
    [W x warpSize x elementsPerThread], with an output pointer outside the
    peer buffers: [srcs[0]] is the rank's own peer buffer; the loop changes
    the peer buffers only inside [buffers[rank]] at the rank's shard
    [[rank * N_per_rank, (rank+1) * N_per_rank)], where it leaves the shard
    sums; and the shards of two different ranks are disjoint. *)
Theorem twoShot_reduceScatter_publishes_own_shard
    (W rank N_aligned gridDim blockDim : Z) (input : pointer) (h : heap) :
  2 <= W <= 8 ->
  0 <= rank < W ->
  0 <= N_aligned < 2 ^ 32 ->
  N_aligned mod (W * (kWarpSize * numelPerThread)) = 0 ->
  validGrid gridDim blockDim (N_aligned / W) ->
  (forall q, fst input <> Buffer q) ->
  let N_per_rank := N_aligned / W in
  srcs W rank 0 = buffers rank /\
  (exists h',
     twoShotReduceScatter W input N_aligned rank gridDim blockDim h = Some h' /\
     (forall q j,
        ~ (q = rank /\ rank * N_per_rank <= j < (rank + 1) * N_per_rank) ->
        h' (Buffer q) j = h (Buffer q) j) /\
     (forall j, rank * N_per_rank <= j < (rank + 1) * N_per_rank ->
        h' (Buffer rank) j = rotatedSum W rank (fun q => h (Buffer q) j))) /\
  (forall r r' j, 0 <= r < W -> 0 <= r' < W -> r <> r' ->
     ~ (r * N_per_rank <= j < (r + 1) * N_per_rank /\
        r' * N_per_rank <= j < (r' + 1) * N_per_rank)).
Proof.
  intros HW Hr HN Hmod Hv Hout Npr.
  change (kWarpSize * numelPerThread) with 256 in Hmod.
  apply Z.mod_divide in Hmod; [| lia ]. destruct Hmod as [c Hc].
  assert (ENpr : Npr = c * 256).
  { unfold Npr. rewrite Hc.
    replace (c * (W * 256)) with (c * 256 * W) by lia.
    apply Z.div_mul. lia. }
  assert (HNpr : 0 <= Npr) by nia.
  assert (Hm8 : Npr mod 8 = 0).
  { rewrite ENpr. replace (c * 256) with (c * 32 * 8) by lia.
    apply Z.mod_mul. lia. }
  split; [ apply srcs_0; lia | split ].
  - unfold twoShotReduceScatter. cbv zeta. fold Npr.
    rewrite forThreads_positions by exact Hv.
    eexists. split; [ reflexivity |].
    assert (Hbig : W * Npr < 2 ^ 63).
    { replace (W * Npr) with N_aligned by (rewrite ENpr, Hc; ring). lia. }
    assert (Hnd : NoDup [rank]).
    { constructor; [ intros [] | constructor ]. }
    assert (Hin : forall r, In r [rank] -> 0 <= r < W).
    { intros r [<- | []]. lia. }
    assert (Hinj : forall r r', In r [rank] -> In r' [rank] ->
              fst ((fun _ : Z => input) r) = fst ((fun _ : Z => input) r') ->
              r = r').
    { intros r r' [<- | []] [<- | []] _. reflexivity. }
    destruct (reduceScatter_phase W Npr [rank] (fun _ => input)
                gridDim blockDim h ltac:(lia) Hnd Hin HNpr Hm8 Hbig Hv
                (fun _ q => Hout q) Hinj) as [P1 [P2 _]].
    unfold phaseIndex in P1, P2. cbn [flat_map] in P1, P2.
    rewrite app_nil_r in P1, P2.
    rewrite fold_left_map_index in P1, P2. cbn [fst snd] in P1, P2.
    split.
    + intros q j Hno. apply P2. intros [[<- | []] Hj]. apply Hno. auto.
    + intros j Hj. now destruct (P1 rank j ltac:(now left) Hj) as [V _].
  - intros r r' j H1 H2 Hne [J1 J2].
    destruct (Z_lt_le_dec r r'); [ assert (r + 1 <= r') by lia
                                 | assert (r' + 1 <= r) by lia ]; nia.
Qed.

(** ** The hybrid-cube-mesh collective *)


Lemma hybridCubeMeshAllReduce_stream (cap N W r : Z) (table : Z -> Z -> Z)
    (blocks threads : dim3) :
  0 <= r < 2 ^ 64 -> 0 <= N < 2 ^ 31 ->
  alignUp N 256 <= cap / 2 ->
  getLaunchConfig (alignUp N 256) (itemsize kBFloat16) = Ok (blocks, threads) ->
  hybridCubeMeshAllReduce cap (bf16Tensor N r) (table r) r W [] =
  (Ok (bf16Tensor N r),
   [stagingOp N r; hcmLaunch N (alignUp N 256) table blocks threads r]).
Proof.
  intros Hr HN Hfit G.
  unfold hybridCubeMeshAllReduce, hbind, lift.
  rewrite checkInput_bf16 by lia.
  unfold element_size. cbn [dtype numel data_ptr bf16Tensor].
  change (wrap64 (kBytesPerThread / itemsize kBFloat16 * kWarpSize)) with 256.
  rewrite G. cbn [itemsize].
  rewrite (proj2 (Z.leb_le _ _) Hfit). cbn [TORCH_CHECK].
  rewrite (wrap64_small N), (wrap64_small (N * 2)) by lia.
  unfold enqueue, ret. cbn [app].
  unfold hcmLaunch, stagingOp.
  destruct (alignUp N 256 =? N); reflexivity.
Qed.

Lemma collectiveStreams_hcm (cap W N : Z) (table : Z -> Z -> Z)
    (blocks threads : dim3) :
  0 < W < 2 ^ 64 -> 0 <= N < 2 ^ 31 -> alignUp N 256 <= cap / 2 ->
  getLaunchConfig (alignUp N 256) (itemsize kBFloat16) = Ok (blocks, threads) ->
  collectiveStreams cap (bf16Tensor N) table W HCM =
  map (fun r => [stagingOp N r;
                 hcmLaunch N (alignUp N 256) table blocks threads r])
      (seqZ W).
Proof.
  intros HW HN Hfit G. unfold collectiveStreams. apply map_ext_in.
  intros r Hr. apply seqZ_In in Hr. unfold allReduce.
  now rewrite (hybridCubeMeshAllReduce_stream cap N W r table blocks threads)
    by (auto; lia).
Qed.

Lemma roundLoops_hcm (cap W N Na : Z) (table : Z -> Z -> Z)
    (blocks threads : dim3) (h : heap) :
  0 < W -> validGrid (dim_x blocks) (dim_x threads) Na ->
  roundLoops cap (map (hcmLaunch N Na table blocks threads) (seqZ W)) h =
  Some
    (fold_left
       (fun h ri => hcmCombineBody (cap / 2) (Na =? N) (Input (fst ri), 0) N
                      (table (fst ri)) (fst ri) (snd ri) h)
       (phaseIndex (seqZ W) (dim_x blocks) (dim_x threads) Na)
       (fold_left
          (fun h ri => hcmPartialBody (cap / 2) (table (fst ri)) (fst ri)
                         (snd ri) h)
          (phaseIndex (seqZ W) (dim_x blocks) (dim_x threads) Na)
          h)).
Proof.
  intros HW Hv.
  rewrite (roundLoops_two cap _
             (fun op =>
                match op with
                | Launch (HybridCubeMeshKernel al inp N' Na' info r) bl th =>
                    hcmPartial (cap / 2) Na' info r (dim_x bl) (dim_x th)
                | _ => fun h => Some h
                end)
             (fun op =>
                match op with
                | Launch (HybridCubeMeshKernel al inp N' Na' info r) bl th =>
                    hcmCombine (cap / 2) al inp N' Na' info r
                      (dim_x bl) (dim_x th)
                | _ => fun h => Some h
                end)).
  2: { intros E. apply map_eq_nil in E. now apply (seqZ_nonempty W). }
  2: { intros op Hop. apply in_map_iff in Hop. destruct Hop as [r [<- _]].
       reflexivity. }
  rewrite foldM_map. cbn beta iota. unfold hcmLaunch.
  unfold hcmPartial, hcmCombine.
  rewrite (ranks_phase (seqZ W)
             (fun r => hcmPartialBody (cap / 2) (table r) r)) by exact Hv.
  rewrite foldM_map. cbn beta iota.
  apply (ranks_phase (seqZ W)
           (fun r => hcmCombineBody (cap / 2) (Na =? N) (Input r, 0) N
                       (table r) r)).
  exact Hv.
Qed.

Lemma hcmPartialSum_ext (hcmInfo : Z -> Z) (rank : Z) (x y : Z -> bf16) :
  x rank = y rank ->
  (forall k, 0 <= k < 3 -> x (hcmInfo k) = y (hcmInfo k)) ->
  hcmPartialSum hcmInfo rank x = hcmPartialSum hcmInfo rank y.
Proof.
  intros H0 H. unfold hcmPartialSum.
  now rewrite H0, (H 0), (H 1), (H 2) by lia.
Qed.

Lemma hcmPartialBody_hit (R : Z) (hcmInfo : Z -> Z) (rank i : Z) (h : heap)
    a j :
  a = Buffer rank -> R + i <= j < R + i + 8 ->
  hcmPartialBody R hcmInfo rank i h a j =
  hcmPartialSum hcmInfo rank (fun q => h (Buffer q) (j - R)).
Proof.
  intros Ha Hj. unfold hcmPartialBody. cbv zeta.
  rewrite store128_hit
    by (unfold ptr_add, buffers; cbn [fst snd]; first [ exact Ha | lia ]).
  unfold ptr_add, buffers. cbn [fst snd].
  rewrite lane_sumVals by lia.
  change (seqZ 4) with [0; 1; 2; 3]. cbn [map hcmSrcs].
  unfold streamLoad128. rewrite !lane_load128 by lia.
  unfold hcmPartialSum, buffers. cbn [fst snd].
  replace (0 + i + (j - (0 + R + i))) with (j - R) by lia.
  reflexivity.
Qed.

Lemma hcmPartialBody_miss (R : Z) (hcmInfo : Z -> Z) (rank i : Z) (h : heap)
    a j :
  ~ (a = Buffer rank /\ R + i <= j < R + i + 8) ->
  hcmPartialBody R hcmInfo rank i h a j = h a j.
Proof.
  intros H. unfold hcmPartialBody. cbv zeta.
  apply store128_miss. unfold ptr_add, buffers. cbn [fst snd].
  intros [Ha Hj]. apply H. split; [ exact Ha | lia ].
Qed.

(** The first loop of the hybrid-cube-mesh kernel over all ranks: every rank
    leaves, in the relay area of its own peer buffer, the sum of its own
    staged input and those of its three direct neighbours. *)
Lemma hcmPartial_phase (W Na R : Z) (table : Z -> Z -> Z)
    (gridDim blockDim : Z) (h : heap) :
  0 < W -> 0 <= Na <= R -> Na mod 8 = 0 ->
  validGrid gridDim blockDim Na ->
  let h1 := fold_left
              (fun h ri => hcmPartialBody R (table (fst ri)) (fst ri)
                             (snd ri) h)
              (phaseIndex (seqZ W) gridDim blockDim Na) h in
  (forall r j, 0 <= r < W -> 0 <= j < Na ->
     h1 (Buffer r) (R + j) =
     hcmPartialSum (table r) r (fun q => h (Buffer q) j)) /\
  (forall a j, ~ (exists r, a = Buffer r /\ 0 <= r < W /\ R <= j < R + Na) ->
     h1 a j = h a j).
Proof.
  intros HW HNa Hmod Hv h1.
  set (l := phaseIndex (seqZ W) gridDim blockDim Na) in *.
  assert (Hin : forall ri, In ri l ->
            0 <= fst ri < W /\ 0 <= snd ri < Na /\ snd ri mod 8 = 0).
  { intros [r i] H. apply (phaseIndex_In _ _ _ _ r i Hv) in H.
    rewrite seqZ_In in H. exact H. }
  destruct (fold_independent (Z * Z)
              (fun ri h => hcmPartialBody R (table (fst ri)) (fst ri)
                             (snd ri) h)
              (fun ri a j => a = Buffer (fst ri) /\
                             R + snd ri <= j < R + snd ri + 8)
              (fun ri a j => j < R)
              l) with (h := h) as [F1 F2].
  - intros ri h0 a j _ Hw. now apply hcmPartialBody_miss.
  - intros ri h1' h2' a j Hri Hag [Ha Hj].
    rewrite !hcmPartialBody_hit by auto.
    destruct (Hin ri Hri) as [_ [I2 I3]].
    pose proof (chunk_inside (snd ri) Na I3 Hmod ltac:(lia)).
    unfold hcmPartialSum. rewrite !Hag by lia. reflexivity.
  - intros ri rj a j Hi Hj Hne [Ha Hr].
    destruct (Hin ri Hi) as [_ [I2 I3]], (Hin rj Hj) as [_ [J2 J3]].
    split; [ lia |].
    intros [Ha' Hr']. apply Hne.
    destruct ri as [r i], rj as [r' i']. cbn [fst snd] in *.
    assert (r = r') by congruence. subst r'.
    f_equal. apply (chunks_disjoint i i' (j - R)); auto; lia.
  - apply phaseIndex_NoDup; [ exact Hv | apply seqZ_NoDup ].
  - split.
    + intros r j Hr Hj.
      destruct (chunk_of j ltac:(lia)) as [C1 [C2 C3]].
      set (i := 8 * (j / 8)) in *.
      assert (Hri : In (r, i) l).
      { apply (phaseIndex_In _ _ _ _ r i Hv). rewrite seqZ_In.
        repeat split; lia. }
      unfold h1.
      rewrite (F2 (r, i) (Buffer r) (R + j) Hri)
        by (cbn [fst snd]; split; [ reflexivity | lia ]).
      cbn [fst snd].
      rewrite hcmPartialBody_hit by (auto; lia).
      replace (R + j - R) with j by lia. reflexivity.
    + intros a j Hno. apply F1.
      intros [r i] Hri [Ha Hj]. cbn [fst snd] in Ha, Hj.
      destruct (Hin (r, i) Hri) as [I1 [I2 I3]]. cbn [fst snd] in *.
      apply Hno. exists r. split; [ exact Ha | split; [ exact I1 |] ].
      pose proof (chunk_inside i Na I3 Hmod ltac:(lia)). lia.
Qed.

Lemma hcmCombineBody_hit (R : Z) (kAligned : bool) (input : pointer)
    (N : Z) (hcmInfo : Z -> Z) (rank i : Z) (h : heap) a j :
  tailWrites kAligned input i N a j ->
  hcmCombineBody R kAligned input N hcmInfo rank i h a j =
  hadd (h (Buffer rank) (R + i + (j - (snd input + i))))
       (h (Buffer (hcmInfo 3)) (R + i + (j - (snd input + i)))).
Proof.
  intros Hw.
  change (hcmCombineBody R kAligned input N hcmInfo rank i h)
    with (tailStore kAligned h input i N
            (add_bf16x8 (load128 h (ptr_add (buffers rank) R) i)
               (streamLoad128 h (ptr_add (buffers (hcmInfo 3)) R) i))).
  rewrite tailStore_hit by exact Hw.
  destruct Hw as [_ [Hj _]].
  rewrite lane_add_bf16x8 by lia.
  unfold streamLoad128. rewrite !lane_load128 by lia.
  unfold ptr_add, buffers. cbn [fst snd]. f_equal; f_equal; lia.
Qed.

Lemma hcmCombineBody_miss (R : Z) (kAligned : bool) (input : pointer)
    (N : Z) (hcmInfo : Z -> Z) (rank i : Z) (h : heap) a j :
  ~ tailWrites kAligned input i N a j ->
  hcmCombineBody R kAligned input N hcmInfo rank i h a j = h a j.
Proof.
  intros Hw.
  change (hcmCombineBody R kAligned input N hcmInfo rank i h)
    with (tailStore kAligned h input i N
            (add_bf16x8 (load128 h (ptr_add (buffers rank) R) i)
               (streamLoad128 h (ptr_add (buffers (hcmInfo 3)) R) i))).
  now apply tailStore_miss.
Qed.

(** The hybrid-cube-mesh collective on bf16 tensors of [N] elements, for a
    role table whose entries are ranks of the collective: the memory it
    leaves. *)
Lemma hcm_collective (cap W N : Z) (table : Z -> Z -> Z) (h0 : heap) :
  0 < W <= 8 -> 0 <= N < 2 ^ 31 -> alignUp N 256 <= cap / 2 ->
  (forall r k, 0 <= r < W -> 0 <= k < 4 -> 0 <= table r k < W) ->
  (forall r k, 0 <= r < W -> 0 <= k < 4 -> table (table r k) k = r) ->
  exists h',
    runCollective cap (collectiveStreams cap (bf16Tensor N) table W HCM)
                  h0 = Some h' /\
    (forall r p, 0 <= r < W -> 0 <= p < N ->
       h' (Input r) p = hcmSum table r (fun q => h0 (Input q) p)) /\
    (forall r p, ~ (0 <= r < W /\ 0 <= p < N) ->
       h' (Input r) p = h0 (Input r) p).
Proof.
  intros HW HN Hfit Htab Hsym.
  destruct (alignUp_256 N HN) as [HNa Hmod].
  set (Na := alignUp N 256) in *.
  destruct (getLaunchConfig_bf16 Na ltac:(lia) Hmod)
    as [blocks [threads [G Hv]]].
  rewrite (collectiveStreams_hcm cap W N table blocks threads
             ltac:(lia) HN Hfit G).
  fold Na.
  destruct (getLaunchConfig_bf16_dims Na blocks threads ltac:(lia) Hmod G)
    as [D1 _].
  rewrite runCollective_loops.
  2: { apply barriersComplete_two; [ apply barriersComplete_staging |].
       apply barriersComplete_hcm; [ lia | lia |].
       intros r k Hr Hk. split; [ now apply Htab | now apply Hsym ]. }
  rewrite (collectiveLoops_two cap (seqZ W) (stagingOp N)
             (hcmLaunch N Na table blocks threads))
    by (apply seqZ_nonempty; lia).
  destruct (staging_round cap N W h0 ltac:(lia) ltac:(lia))
    as [hS [ES [S1 S2]]].
  rewrite ES. rewrite roundLoops_hcm by (try lia; exact Hv).
  eexists. split; [ reflexivity |].
  pose proof (mod_256_mod_8 Na Hmod) as Hm8.
  destruct (hcmPartial_phase W Na (cap / 2) table (dim_x blocks)
              (dim_x threads) hS ltac:(lia) ltac:(lia) Hm8 Hv) as [P1 P2].
  match goal with
  | |- context [fold_left _ _ (fold_left ?f ?l hS)] =>
      set (h1 := fold_left f l hS) in *
  end.
  destruct (tail_phase W N Na (dim_x blocks) (dim_x threads)
              (fun r i => hcmCombineBody (cap / 2) (Na =? N) (Input r, 0) N
                            (table r) r i)
              (fun r h j => hadd (h (Buffer r) (cap / 2 + j))
                                 (h (Buffer (table r 3)) (cap / 2 + j)))
              h1 ltac:(lia) ltac:(lia) Hm8 Hv)
    as [T1 T2].
  - intros r i h a j Hw. rewrite hcmCombineBody_hit by exact Hw.
    destruct Hw as [_ [Hj _]]. cbn [snd] in *.
    f_equal; f_equal; lia.
  - intros r i h a j Hw. now apply hcmCombineBody_miss.
  - intros r h2 h3 j Hag. now rewrite !Hag.
  - split.
    + intros r p Hr Hp. rewrite (T1 r p Hr Hp).
      pose proof (Htab r 3 Hr ltac:(lia)) as Hrelay.
      rewrite !P1 by lia. unfold hcmSum. f_equal.
      * apply hcmPartialSum_ext.
        -- apply S1; lia.
        -- intros k Hk. apply S1; [ apply Htab |]; lia.
      * apply hcmPartialSum_ext.
        -- apply S1; lia.
        -- intros k Hk. apply S1; [ apply Htab |]; lia.
    + intros r p Hno. rewrite T2.
      * rewrite P2 by (intros [q [E _]]; discriminate E).
        apply S2. intros [q [E _]]. discriminate E.
      * intros [r' [E H]]. apply Hno. injection E as ->. exact H.
Qed.



Lemma fold_left_hadd_permutation (l l' : list bf16) :
  (forall a b, hadd a b = hadd b a) ->
  (forall a b c, hadd (hadd a b) c = hadd a (hadd b c)) ->
  Permutation l l' ->
  forall a, fold_left hadd l a = fold_left hadd l' a.
Proof.
  intros Hc Ha P. induction P; intros a; cbn [fold_left].
  - reflexivity.
  - apply IHP.
  - f_equal. rewrite !Ha. f_equal. apply Hc.
  - now rewrite IHP1.
Qed.

Lemma fold_left_hadd_shift (l : list bf16) (a b : bf16) :
  (forall a b, hadd a b = hadd b a) ->
  (forall a b c, hadd (hadd a b) c = hadd a (hadd b c)) ->
  fold_left hadd l (hadd a b) = hadd (fold_left hadd l a) b.
Proof.
  intros Hc Ha. revert a. induction l as [|x l IH]; intros a; cbn [fold_left].
  - reflexivity.
  - rewrite <- IH. f_equal. rewrite !Ha. f_equal. apply Hc.
Qed.

Lemma fold_left_hadd_app (l1 l2 : list bf16) (a b : bf16) :
  (forall a b, hadd a b = hadd b a) ->
  (forall a b c, hadd (hadd a b) c = hadd a (hadd b c)) ->
  hadd (fold_left hadd l1 a) (fold_left hadd l2 b) =
  fold_left hadd (l1 ++ l2) (hadd a b).
Proof.
  intros Hc Ha.
  rewrite fold_left_app, (fold_left_hadd_shift l1 a b Hc Ha).
  rewrite (Hc (fold_left hadd l1 a) b).
  rewrite (fold_left_hadd_shift l2 b (fold_left hadd l1 a) Hc Ha).
  apply Hc.
Qed.

Lemma srcRank_permutation (W rank : Z) :
  0 <= rank < W ->
  Permutation (map (srcRank W rank) (seqZ W)) (seqZ W).
Proof.
  intros Hr. apply NoDup_Permutation.
  - apply Finite.Injective_map_NoDup_in; [| apply seqZ_NoDup ].
    intros a b Ha Hb E. apply seqZ_In in Ha, Hb.
    apply (srcRank_inj W rank a b); auto.
  - apply seqZ_NoDup.
  - intros s. split.
    + intros Hin. apply in_map_iff in Hin. destruct Hin as [ii [E _]].
      apply seqZ_In. rewrite <- E. apply srcRank_range. lia.
    + intros Hs. apply seqZ_In in Hs. apply in_map_iff.
      destruct (Z.eq_dec s rank) as [->|Hne].
      * exists 0. split; [ apply srcRank_0; lia | apply seqZ_In; lia ].
      * destruct (srcRank_surj W rank s Hr Hs Hne) as [ii [Hii E]].
        exists ii. split; [ exact E | apply seqZ_In; lia ].
Qed.

Lemma rotatedSum_rank_order (W rank : Z) (x : Z -> bf16) :
  (forall a b, hadd a b = hadd b a) ->
  (forall a b c, hadd (hadd a b) c = hadd a (hadd b c)) ->
  0 <= rank < W ->
  rotatedSum W rank x = fold_left hadd (map x (seqZ W)) bf16_zero.
Proof.
  intros Hc Ha Hr. unfold rotatedSum.
  change (map (fun k => x ((rank + k) mod W)) (seqZ W))
    with (map (fun k => x (srcRank W rank k)) (seqZ W)).
  rewrite <- (map_map (srcRank W rank) x).
  apply fold_left_hadd_permutation; auto.
  apply Permutation_map. now apply srcRank_permutation.
Qed.

(** *** Role tables *)

Lemma distinct_NoDup (l : list Z) : distinct l = true -> NoDup l.
Proof.
  induction l as [|a l IH]; intros H; [ constructor |].
  cbn [distinct] in H. apply andb_true_iff in H. destruct H as [H1 H2].
  constructor; [| now apply IH ].
  intros Hin. apply negb_true_iff in H1.
  assert (E : existsb (Z.eqb a) l = true).
  { apply existsb_exists. exists a. split; [ exact Hin | apply Z.eqb_refl ]. }
  congruence.
Qed.

Lemma isRoleTable_spec (W : Z) (table : Z -> Z -> Z) :
  isRoleTable W table = true ->
  forall r, 0 <= r < W ->
    (forall k, 0 <= k < 4 ->
       0 <= table r k < W /\ table (table r k) k = r) /\
    NoDup (hcmGroup table r ++ hcmGroup table (table r 3)).
Proof.
  intros H r Hr. unfold isRoleTable in H.
  rewrite forallb_forall in H. specialize (H r (proj2 (seqZ_In W r) Hr)).
  apply andb_true_iff in H. destruct H as [H1 H2]. split.
  - intros k Hk. rewrite forallb_forall in H1.
    specialize (H1 k (proj2 (seqZ_In 4 k) Hk)).
    apply andb_true_iff in H1. destruct H1 as [H1 H3].
    apply andb_true_iff in H1. destruct H1 as [H0 H1].
    apply Z.leb_le in H0. apply Z.ltb_lt in H1. apply Z.eqb_eq in H3.
    split; [ split |]; assumption.
  - now apply distinct_NoDup.
Qed.

Lemma hcmGroups_cover (W : Z) (table : Z -> Z -> Z) (r : Z) :
  W <= 8 -> isRoleTable W table = true -> 0 <= r < W ->
  Permutation (hcmGroup table r ++ hcmGroup table (table r 3)) (seqZ W).
Proof.
  intros HW H Hr. destruct (isRoleTable_spec W table H r Hr) as [T Hnd].
  apply NoDup_Permutation_bis.
  - exact Hnd.
  - rewrite seqZ_length. cbn. lia.
  - pose proof (T 3 ltac:(lia)) as [T3 _].
    destruct (isRoleTable_spec W table H (table r 3) T3) as [T' _].
    intros x Hx. apply seqZ_In. cbn in Hx.
    repeat destruct Hx as [<- | Hx];
      try (apply T; lia); try (apply T'; lia); try lia; try contradiction.
Qed.

(** On a role table and under an exact addition, the sum of the two
    partial sums is the sum of all ranks. *)
Lemma hcmSum_rank_order (W : Z) (table : Z -> Z -> Z) (r : Z)
    (x : Z -> bf16) :
  (forall a b, hadd a b = hadd b a) ->
  (forall a b c, hadd (hadd a b) c = hadd a (hadd b c)) ->
  hadd bf16_zero bf16_zero = bf16_zero ->
  W <= 8 -> isRoleTable W table = true -> 0 <= r < W ->
  hcmSum table r x = fold_left hadd (map x (seqZ W)) bf16_zero.
Proof.
  intros Hc Ha Hz HW H Hr.
  change (hcmSum table r x)
    with (hadd (fold_left hadd (map x (hcmGroup table r)) bf16_zero)
               (fold_left hadd (map x (hcmGroup table (table r 3)))
                          bf16_zero)).
  rewrite (fold_left_hadd_app _ _ _ _ Hc Ha), Hz, <- map_app.
  apply fold_left_hadd_permutation; auto.
  apply Permutation_map. now apply hcmGroups_cover.
Qed.

Lemma unaligned_numel (W N : Z) (algo : AllReduceAlgo) :
  2 <= W <= 8 -> 0 <= N < 2 ^ 31 -> N mod 256 <> 0 ->
  (alignedNumel W N algo =? N) = false.
Proof.
  intros HW HN Hmod. apply Z.eqb_neq. intros E. apply Hmod. rewrite <- E.
  assert (T : alignUp N (W * 256) mod 256 = 0).
  { destruct (alignUp_world W N HW HN) as [_ [A2 [A3 _]]].
    rewrite A2. apply Z.mod_divide in A3; [| lia ]. destruct A3 as [c ->].
    replace (W * (c * 256)) with (W * c * 256) by lia.
    apply Z.mod_mul. lia. }
  destruct algo; cbn [alignedNumel]; try exact T;
    apply (alignUp_256 N HN).
Qed.

(** C5.  For a bf16 tensor whose length [N] is not a multiple of
    [warpSize x elementsPerThread], and each of the three algorithms (the
    hybrid-cube-mesh one on a role table as NOTE [hybrid cube mesh]
    describes it): the one-shot and hybrid-cube-mesh kernels are launched
    with [kAligned = false], whose last store is element by element under
    the guard [i + ii < N]; the two-shot kernel is launched on the temporary
    output, and a copy of [N] elements back into the caller's tensor
    follows it.  The streams run to their end, barriers included.  The
    elements below [N] of every rank's tensor then hold the sum of the
    inputs of all ranks: in the kernel's order of addition, and so, for an
    exact addition, the sum in rank order.  The elements at and beyond [N]
    are what they were. *)
Theorem unaligned_allReduce_keeps_tail (kMaxIntraNodeSize W N : Z)
    (table : Z -> Z -> Z) (algo : AllReduceAlgo) (h0 : heap) :
  2 <= W <= 8 ->
  0 <= N < 2 ^ 31 ->
  N mod (kWarpSize * numelPerThread) <> 0 ->
  algo = ONE_SHOT \/ algo = TWO_SHOT \/ algo = HCM ->
  alignedNumel W N algo <= kMaxIntraNodeSize / 2 ->
  (algo = HCM -> isRoleTable W table = true) ->
  (forall r, 0 <= r < W ->
     exists blocks threads,
       snd (allReduce kMaxIntraNodeSize (bf16Tensor N r) (table r) r W
                      algo []) =
       match algo with
       | TWO_SHOT =>
           [MemcpyAsync (buffers r) (Input r, 0) (N * 2);
            Launch (TwoShotKernel W (Scratch r, 0) (alignedNumel W N algo) r)
                   blocks threads;
            MemcpyAsync (Input r, 0) (Scratch r, 0) (N * 2)]
       | HCM =>
           [MemcpyAsync (buffers r) (Input r, 0) (N * 2);
            Launch (HybridCubeMeshKernel false (Input r, 0) N
                      (alignedNumel W N algo) (table r) r)
                   blocks threads]
       | _ =>
           [MemcpyAsync (buffers r) (Input r, 0) (N * 2);
            Launch (OneShotKernel W false (Input r, 0) N
                      (alignedNumel W N algo) r)
                   blocks threads]
       end) /\
  exists h',
    runCollective kMaxIntraNodeSize
      (collectiveStreams kMaxIntraNodeSize (bf16Tensor N) table W algo)
      h0 = Some h' /\
    (forall r p, 0 <= r < W -> 0 <= p < N ->
       h' (Input r) p =
       kernelSum W N table algo r p (fun q => h0 (Input q) p)) /\
    ((forall a b, hadd a b = hadd b a) ->
     (forall a b c, hadd (hadd a b) c = hadd a (hadd b c)) ->
     hadd bf16_zero bf16_zero = bf16_zero ->
     forall r p, 0 <= r < W -> 0 <= p < N ->
       h' (Input r) p =
       fold_left hadd (map (fun q => h0 (Input q) p) (seqZ W)) bf16_zero) /\
    (forall r p, 0 <= r < W -> N <= p -> h' (Input r) p = h0 (Input r) p).
Proof.
  intros HW HN Hmod Halgo Hfit Htab.
  change (kWarpSize * numelPerThread) with 256 in Hmod.
  pose proof (unaligned_numel W N algo HW HN Hmod) as Hne.
  destruct (alignUp_256 N HN) as [HNa HNm].
  destruct (alignUp_world W N HW HN) as [A1 [A2 [A3 [A4 A5]]]].
  destruct Halgo as [-> | [-> | ->]]; cbn [alignedNumel kernelSum] in *.
  - (* one-shot *)
    split.
    + intros r Hr.
      destruct (getLaunchConfig_bf16 (alignUp N 256) ltac:(lia) HNm)
        as [blocks [threads [G _]]].
      exists blocks, threads. unfold allReduce.
      rewrite (oneShotAllReduce_stream kMaxIntraNodeSize N W r blocks
                 threads) by auto.
      unfold oneShotLaunch, stagingOp. rewrite Hne. reflexivity.
    + destruct (oneShot_collective kMaxIntraNodeSize W N table h0 HW HN Hfit)
        as [h' [E [V F]]].
      exists h'. split; [ exact E | split; [ exact V | split ] ].
      * intros Hc Ha _ r p Hr Hp. rewrite (V r p Hr Hp).
        now apply rotatedSum_rank_order.
      * intros r p Hr Hp. apply F. lia.
  - (* two-shot *)
    split.
    + intros r Hr.
      destruct (getLaunchConfig_bf16 (alignUp N (W * 256) / W) A4 A3)
        as [blocks [threads [G _]]].
      exists blocks, threads. unfold allReduce.
      rewrite (twoShotAllReduce_stream kMaxIntraNodeSize N W r blocks
                 threads) by auto.
      unfold twoShotLaunch, stagingOp, copyOp. rewrite Hne. reflexivity.
    + destruct (twoShot_collective kMaxIntraNodeSize W N table h0 HW HN Hfit)
        as [h' [E [V F]]].
      exists h'. split; [ exact E | split; [ exact V | split ] ].
      * intros Hc Ha _ r p Hr Hp. rewrite (V r p Hr Hp).
        set (Npr := alignUp N (W * 256) / W) in *.
        assert (Hpos : 0 < Npr) by (apply A5; lia).
        apply rotatedSum_rank_order; auto.
        split; [ apply Z.div_pos; lia |].
        apply Z.div_lt_upper_bound; [ lia |]. nia.
      * intros r p Hr Hp. apply F. lia.
  - (* hybrid cube mesh *)
    specialize (Htab eq_refl).
    pose proof (isRoleTable_spec W table Htab) as T.
    split.
    + intros r Hr.
      destruct (getLaunchConfig_bf16 (alignUp N 256) ltac:(lia) HNm)
        as [blocks [threads [G _]]].
      exists blocks, threads. unfold allReduce.
      rewrite (hybridCubeMeshAllReduce_stream kMaxIntraNodeSize N W r table
                 blocks threads) by (auto; lia).
      unfold hcmLaunch, stagingOp. rewrite Hne. reflexivity.
    + destruct (hcm_collective kMaxIntraNodeSize W N table h0 ltac:(lia) HN
                  Hfit)
        as [h' [E [V F]]].
      { intros r k Hr Hk. now apply (T r Hr). }
      { intros r k Hr Hk. now apply (T r Hr). }
      exists h'. split; [ exact E | split; [ exact V | split ] ].
      * intros Hc Ha Hz r p Hr Hp. rewrite (V r p Hr Hp).
        apply hcmSum_rank_order; auto; lia.
      * intros r p Hr Hp. apply F. lia.
Qed.

(** C10.  For an [algo] other than ONE_SHOT, TWO_SHOT and HCM, [allReduce]
    raises the ValueError of its [default] branch and leaves the stream as
    it found it: neither a staging copy nor a kernel is enqueued.  With
    nothing on any rank's stream, the memory of the devices (tensors and
    peer buffers) is unchanged. *)
Theorem allReduce_invalid_algo_raises (kMaxIntraNodeSize : Z)
    (input : Tensor) (topoInfo : Z -> Z) (rank worldSize : Z)
    (algo : AllReduceAlgo) (s : stream) :
  algo <> ONE_SHOT -> algo <> TWO_SHOT -> algo <> HCM ->
  allReduce kMaxIntraNodeSize input topoInfo rank worldSize algo s =
    (Throw (ValueError "IntraNodeComm: invalid algo"), s) /\
  forall (inputs : Z -> Tensor) (table : Z -> Z -> Z) (h : heap),
    runCollective kMaxIntraNodeSize
      (collectiveStreams kMaxIntraNodeSize inputs table worldSize algo) h =
    Some h.
Proof.
  intros H1 H2 H3.
  assert (E : forall inp info r s',
            allReduce kMaxIntraNodeSize inp info r worldSize algo s' =
            (Throw (ValueError "IntraNodeComm: invalid algo"), s')).
  { intros. destruct algo; try reflexivity; congruence. }
  split; [ apply E |].
  intros inputs table h. unfold runCollective, collectiveStreams.
  replace (list_max _) with 0%nat; [ reflexivity |].
  symmetry. induction (seqZ worldSize) as [|r l IH]; [ reflexivity |].
  cbn [map]. rewrite E. cbn [snd List.length].
  change (list_max (0%nat :: ?t)) with (Nat.max 0 (list_max t)).
  exact IH.
Qed.

(** * Further properties of the kernels *)

(** X10.  The two-shot collective, aligned or not: every rank's call
    returns its tensor, the streams run to completion, element [p] of every
    rank's tensor is the sum computed by the owner of the shard of [p] (the
    peers added in the order rotated by that owner's rank), and so all ranks
    end with the same values, whatever the rounding of the addition. *)
Theorem twoShot_allReduce_ranks_agree (kMaxIntraNodeSize W N : Z)
    (topoInfo : Z -> Z -> Z) (h0 : heap) :
  2 <= W <= 8 ->
  0 <= N < 2 ^ 31 ->
  alignUp N (W * 256) <= kMaxIntraNodeSize / 2 ->
  (forall r, 0 <= r < W ->
     fst (allReduce kMaxIntraNodeSize (bf16Tensor N r) (topoInfo r) r W
                    TWO_SHOT []) = Ok (bf16Tensor N r)) /\
  exists h',
    runCollective kMaxIntraNodeSize
      (collectiveStreams kMaxIntraNodeSize (bf16Tensor N) topoInfo W TWO_SHOT)
      h0 = Some h' /\
    (forall r p, 0 <= r < W -> 0 <= p < N ->
       h' (Input r) p =
       rotatedSum W (p / (alignUp N (W * 256) / W))
                  (fun q => h0 (Input q) p)) /\
    (forall r r' p, 0 <= r < W -> 0 <= r' < W -> 0 <= p < N ->
       h' (Input r) p = h' (Input r') p).
Proof.
  intros HW HN Hfit. split.
  - intros r Hr.
    destruct (alignUp_world W N HW HN) as [_ [_ [A3 [A4 _]]]].
    destruct (getLaunchConfig_bf16 (alignUp N (W * 256) / W) A4 A3)
      as [blocks [threads [G _]]].
    unfold allReduce.
    now rewrite (twoShotAllReduce_stream kMaxIntraNodeSize N W r blocks
                   threads).
  - destruct (twoShot_collective kMaxIntraNodeSize W N topoInfo h0 HW HN Hfit)
      as [h' [E [V _]]].
    exists h'. split; [ exact E | split; [ exact V |] ].
    intros r r' p Hr Hr' Hp. now rewrite (V r p Hr Hp), (V r' p Hr' Hp).
Qed.

(** X11.  The analyser and the kernel together: on eight ranks with a role
    table returned by [getHybridCubeMesh] whose neighbour columns are
    symmetric ([hcm[hcm[r][k]][k] = r] for [k < 3]), the entry barrier and
    the relay handshake of the kernel complete, the hybrid-cube-mesh
    collective runs to its end, and it leaves at every element of rank [r]
    the sum of the partial sum of [r] (its own input and those of its three
    direct neighbours) and the partial sum of its relay.  As the relay of
    the relay is [r], the relay ends with the same two partial sums added in
    the other order. *)
Theorem hcm_allReduce_on_recognized_mesh (enumerate : list Z -> list Z)
    (nvlMesh : NvlMesh) (hcm : HybridCubeMesh)
    (kMaxIntraNodeSize N : Z) (h0 : heap) :
  (forall s x, In x (enumerate s) -> In x s) ->
  getHybridCubeMesh enumerate nvlMesh = Ok (Some hcm) ->
  (forall r k, 0 <= r < kMaxDevices -> 0 <= k < 3 -> hcm (hcm r k) k = r) ->
  0 <= N < 2 ^ 31 ->
  alignUp N 256 <= kMaxIntraNodeSize / 2 ->
  exists h',
    runCollective kMaxIntraNodeSize
      (collectiveStreams kMaxIntraNodeSize (bf16Tensor N) hcm kMaxDevices HCM)
      h0 = Some h' /\
    forall r p, 0 <= r < kMaxDevices -> 0 <= p < N ->
      let partial q :=
        hcmPartialSum (hcm q) q (fun q' => h0 (Input q') p) in
      h' (Input r) p = hadd (partial r) (partial (hcm r 3)) /\
      h' (Input (hcm r 3)) p = hadd (partial (hcm r 3)) (partial r).
Proof.
  intros Hincl Hrun Hsym HN Hfit.
  destruct (getHybridCubeMesh_facts enumerate nvlMesh hcm Hincl Hrun)
    as [relay [R1 R2]].
  assert (Htab : forall r k, 0 <= r < kMaxDevices -> 0 <= k < 4 ->
                             0 <= hcm r k < kMaxDevices).
  { intros r k Hr Hk. destruct (Z.eq_dec k 3) as [->|Hne].
    - destruct (R1 r Hr) as [Rr [_ E]]. rewrite E. exact Rr.
    - now destruct (R2 r k Hr ltac:(lia)). }
  assert (Hinv : forall r, 0 <= r < kMaxDevices -> hcm (hcm r 3) 3 = r).
  { intros r Hr. destruct (R1 r Hr) as [Rr [Ri E]]. rewrite E.
    destruct (R1 (relay r) Rr) as [_ [_ E']]. now rewrite E'. }
  destruct (hcm_collective kMaxIntraNodeSize kMaxDevices N hcm h0
              ltac:(unfold kMaxDevices; lia) HN Hfit Htab)
    as [h' [E [V _]]].
  { intros r k Hr Hk. destruct (Z.eq_dec k 3) as [->|Hne].
    - now apply Hinv.
    - apply Hsym; [ exact Hr | lia ]. }
  exists h'. split; [ exact E |].
  intros r p Hr Hp partial.
  pose proof (Htab r 3 Hr ltac:(lia)) as Hrelay.
  split.
  - rewrite (V r p Hr Hp). reflexivity.
  - rewrite (V (hcm r 3) p Hrelay Hp). unfold hcmSum.
    rewrite (Hinv r Hr). reflexivity.
Qed.



(** X12.  A 128-bit store followed by a 128-bit load of the same address
    gives back the stored value.  The element-wise store guarded by
    [i + ii < N] writes what the 128-bit store writes when the eight
    elements lie below [N], and nothing when none does. *)
Theorem store128_load128_round_trip (h : heap) (p : pointer) (i : Z)
    (v : bf16x8) :
  load128 (store128 h p i v) p i = v /\
  (forall N r j, i + 8 <= N ->
     storeGuarded h p i N v r j = store128 h p i v r j) /\
  (forall N r j, N <= i -> storeGuarded h p i N v r j = h r j).
Proof.
  split; [| split ].
  - assert (E : forall k, 0 <= k < 8 ->
              loadElem (store128 h p i v) p (i + k) = lane v k).
    { intros k Hk. unfold loadElem.
      rewrite store128_hit by (auto; lia). f_equal. lia. }
    unfold load128.
    rewrite (E 0), (E 1), (E 2), (E 3), (E 4), (E 5), (E 6), (E 7) by lia.
    destruct v as [[a0 a1] [a2 a3] [a4 a5] [a6 a7]]. reflexivity.
  - intros N r j HN.
    destruct (region_eqb_spec r (fst p)) as [Hr|Hr].
    + destruct (Z_le_dec (snd p + i) j) as [H1|H1];
        [ destruct (Z_lt_dec j (snd p + i + 8)) as [H2|H2] |].
      * rewrite storeGuarded_hit, store128_hit by (auto; lia). reflexivity.
      * rewrite storeGuarded_miss, store128_miss
          by (intros C; decompose [and] C; lia). reflexivity.
      * rewrite storeGuarded_miss, store128_miss
          by (intros C; decompose [and] C; lia). reflexivity.
    + rewrite storeGuarded_miss, store128_miss
        by (intros C; decompose [and] C; contradiction). reflexivity.
  - intros N r j HN. apply storeGuarded_miss.
    intros C. decompose [and] C. lia.
Qed.


(** X13.  The rotated peer order [(rank + ii) % kWorldSize], [ii = 0 ..
    kWorldSize - 1], names every rank exactly once; so under an addition
    that is commutative and associative the rotation does not change the
    sum. *)
Theorem rotated_peers_are_a_permutation (W rank : Z) (x : Z -> bf16) :
  0 <= rank < W ->
  Permutation (map (srcRank W rank) (seqZ W)) (seqZ W) /\
  ((forall a b, hadd a b = hadd b a) ->
   (forall a b c, hadd (hadd a b) c = hadd a (hadd b c)) ->
   rotatedSum W rank x = fold_left hadd (map x (seqZ W)) bf16_zero).
Proof.
  intros Hr. split.
  - now apply srcRank_permutation.
  - intros Hc Ha. now apply rotatedSum_rank_order.
Qed.

(** ** Loops and writes of a single kernel *)

(** X14.  The launch geometry and the grid-stride loop together, for bf16
    and a length that is a multiple of the warp granularity: the loops of
    all threads of the launch [getLaunchConfig] chooses terminate, whatever
    the body, and between them they run the body once at every multiple of
    [numelPerThread] below the length and nowhere else. *)
Theorem grid_stride_loop_visits_each_chunk_once (N_aligned : Z) :
  0 <= N_aligned <= 2 ^ 31 ->
  N_aligned mod (numelPerThread * kWarpSize) = 0 ->
  exists blocks threads positions,
    getLaunchConfig N_aligned (itemsize kBFloat16) = Ok (blocks, threads) /\
    NoDup positions /\
    (forall p, In p positions <->
               0 <= p < N_aligned /\ p mod numelPerThread = 0) /\
    forall (S : Type) (body : Z -> S -> S) (s : S),
      forThreads (dim_x blocks) (dim_x threads)
        (fun blockIdx threadIdx =>
           forStride (Z.to_nat N_aligned)
             (threadOffset (dim_x threads) blockIdx threadIdx) N_aligned
             (threadStride (dim_x threads) (dim_x blocks)) body) s =
      Some (fold_left (fun s p => body p s) positions s).
Proof.
  intros HN Hmod.
  change (numelPerThread * kWarpSize) with 256 in Hmod.
  change numelPerThread with 8.
  destruct (getLaunchConfig_bf16 N_aligned HN Hmod)
    as [blocks [threads [G Hv]]].
  exists blocks, threads,
    (gridPositions (dim_x blocks) (dim_x threads) N_aligned).
  split; [ exact G |]. split; [ now apply gridPositions_NoDup |].
  split; [ intros p; now apply gridPositions_In |].
  intros S body s. now apply forThreads_positions.
Qed.

Lemma forStride_invariant {S : Type} (P : S -> Prop) (body : Z -> S -> S) :
  (forall p s, P s -> P (body p s)) ->
  forall fuel i bound stride s s',
    P s -> forStride fuel i bound stride body s = Some s' -> P s'.
Proof.
  intros Hbody fuel. induction fuel as [|fuel IH];
    intros i bound stride s s' Hs Hrun; cbn [forStride] in Hrun;
    destruct (i <? bound); try discriminate Hrun.
  - now injection Hrun as <-.
  - apply (IH _ _ _ _ _ (Hbody i s Hs) Hrun).
  - now injection Hrun as <-.
Qed.

Lemma forThreads_invariant {S : Type} (P : S -> Prop) (gridDim blockDim : Z)
    (thread : Z -> Z -> S -> option S) :
  (forall blockIdx threadIdx s s',
     P s -> thread blockIdx threadIdx s = Some s' -> P s') ->
  forall s s', P s -> forThreads gridDim blockDim thread s = Some s' -> P s'.
Proof.
  intros Hthread s s' Hs Hrun. unfold forThreads in Hrun.
  apply (foldM_invariant _ (fun _ s => P s) _ _ _ Hs) in Hrun;
    [ exact Hrun |].
  intros _ blockIdx s1 s1' _ Hs1 Hblock.
  apply (foldM_invariant _ (fun _ s => P s) _ _ _ Hs1) in Hblock;
    [ exact Hblock |].
  intros _ threadIdx s2 s2' _ Hs2 Hrun2.
  apply (Hthread blockIdx threadIdx s2 s2' Hs2 Hrun2).
Qed.




Lemma allGatherBody_frame (W : Z) (input : pointer) (Npr Ns rank i : Z)
    (h : heap) a j :
  a <> fst input ->
  twoShotAllGatherBody W input Npr Ns rank i h a j = h a j.
Proof.
  intros Ha. unfold twoShotAllGatherBody.
  apply (fold_left_invariant _ (fun h' : heap => h' a j = h a j));
    [ reflexivity |].
  intros ii h1 _ H1. cbv zeta. unfold streamStore128.
  rewrite store128_miss by (intros [E _]; contradiction). exact H1.
Qed.

(** X15.  No phase of a kernel writes into the peer buffer of another rank:
    for a kernel whose output is not a peer buffer, whatever the launch
    geometry, a phase that runs to its end leaves [buffers[q]] as it found
    it for every [q] other than the kernel's rank. *)
Theorem kernels_leave_other_ranks_buffers (kMaxIntraNodeSize : Z)
    (k : kernel) (blocks threads : dim3)
    (phase : heap -> option heap) (h h' : heap) :
  In phase (kernelPhases kMaxIntraNodeSize k blocks threads) ->
  (forall q, fst (kernelOutput k) <> Buffer q) ->
  kernelRankInWorld k ->
  phase h = Some h' ->
  forall q j, q <> kernelRank k -> h' (Buffer q) j = h (Buffer q) j.
Proof.
  intros Hin Hout Hrank Hrun q j Hq.
  set (P := fun h1 : heap => h1 (Buffer q) j = h (Buffer q) j).
  assert (Hother : Buffer q <> fst (kernelOutput k))
    by (intros E; apply (Hout q); now rewrite E).
  enough (HP : P h') by exact HP.
  destruct k as [W al input N Na rank | W input Na rank
                | al input N Na info rank];
    cbn [kernelPhases kernelRank kernelOutput kernelRankInWorld] in *.
  - destruct Hin as [<- | []]. unfold oneShotAllReduceKernel in Hrun.
    apply (forThreads_invariant P _ _ _) with (s := h) (s' := h') in Hrun;
      [ exact Hrun | | reflexivity ].
    intros b t s s' Hs Hst.
    apply (forStride_invariant P _) with (s := s) (s' := s') in Hst;
      [ exact Hst | | exact Hs ].
    intros p s1 Hs1. unfold P.
    rewrite oneShotBody_miss; [ exact Hs1 |].
    intros [E _]. contradiction.
  - destruct Hin as [<- | [<- | []]].
    + unfold twoShotReduceScatter in Hrun. cbv zeta in Hrun.
      apply (forThreads_invariant P _ _ _) with (s := h) (s' := h') in Hrun;
        [ exact Hrun | | reflexivity ].
      intros b t s s' Hs Hst.
      apply (forStride_invariant P _) with (s := s) (s' := s') in Hst;
        [ exact Hst | | exact Hs ].
      intros p s1 Hs1. unfold P, twoShotReduceScatterBody, streamStore128.
      cbv zeta.
      rewrite store128_miss by (intros [E _]; contradiction).
      rewrite (srcs_0 W rank Hrank).
      rewrite store128_miss; [ exact Hs1 |].
      cbn [buffers fst]. intros [E _]. injection E as E. contradiction.
    + unfold twoShotAllGather in Hrun. cbv zeta in Hrun.
      apply (forThreads_invariant P _ _ _) with (s := h) (s' := h') in Hrun;
        [ exact Hrun | | reflexivity ].
      intros b t s s' Hs Hst.
      apply (forStride_invariant P _) with (s := s) (s' := s') in Hst;
        [ exact Hst | | exact Hs ].
      intros p s1 Hs1. unfold P.
      rewrite allGatherBody_frame by exact Hother. exact Hs1.
  - destruct Hin as [<- | [<- | []]].
    + unfold hcmPartial in Hrun.
      apply (forThreads_invariant P _ _ _) with (s := h) (s' := h') in Hrun;
        [ exact Hrun | | reflexivity ].
      intros b t s s' Hs Hst.
      apply (forStride_invariant P _) with (s := s) (s' := s') in Hst;
        [ exact Hst | | exact Hs ].
      intros p s1 Hs1. unfold P.
      rewrite hcmPartialBody_miss; [ exact Hs1 |].
      intros [E _]. injection E as E. contradiction.
    + unfold hcmCombine in Hrun.
      apply (forThreads_invariant P _ _ _) with (s := h) (s' := h') in Hrun;
        [ exact Hrun | | reflexivity ].
      intros b t s s' Hs Hst.
      apply (forStride_invariant P _) with (s := s) (s' := s') in Hst;
        [ exact Hst | | exact Hs ].
      intros p s1 Hs1. unfold P.
      rewrite hcmCombineBody_miss; [ exact Hs1 |].
      intros [E _]. contradiction.
Qed.

(** X22.  Under an addition that is commutative and associative (which
    the rounded bf16 addition is not), the one-shot and the two-shot
    collective leave the same values: at every element of every rank, the
    sum of the ranks' inputs in rank order. *)
Theorem oneShot_and_twoShot_agree_under_exact_addition
    (kMaxIntraNodeSize W N : Z) (topoInfo : Z -> Z -> Z) (h0 : heap) :
  (forall a b, hadd a b = hadd b a) ->
  (forall a b c, hadd (hadd a b) c = hadd a (hadd b c)) ->
  2 <= W <= 8 ->
  0 <= N < 2 ^ 31 ->
  alignUp N 256 <= kMaxIntraNodeSize / 2 ->
  alignUp N (W * 256) <= kMaxIntraNodeSize / 2 ->
  exists h1 h2,
    runCollective kMaxIntraNodeSize
      (collectiveStreams kMaxIntraNodeSize (bf16Tensor N) topoInfo W ONE_SHOT)
      h0 = Some h1 /\
    runCollective kMaxIntraNodeSize
      (collectiveStreams kMaxIntraNodeSize (bf16Tensor N) topoInfo W TWO_SHOT)
      h0 = Some h2 /\
    forall r p, 0 <= r < W -> 0 <= p < N ->
      h1 (Input r) p =
        fold_left hadd (map (fun q => h0 (Input q) p) (seqZ W)) bf16_zero /\
      h2 (Input r) p = h1 (Input r) p.
Proof.
  intros Hc Ha HW HN Hfit1 Hfit2.
  destruct (oneShot_collective kMaxIntraNodeSize W N topoInfo h0 HW HN Hfit1)
    as [h1 [E1 [V1 _]]].
  destruct (twoShot_collective kMaxIntraNodeSize W N topoInfo h0 HW HN Hfit2)
    as [h2 [E2 [V2 _]]].
  exists h1, h2. split; [ exact E1 | split; [ exact E2 |] ].
  intros r p Hr Hp.
  destruct (alignUp_world W N HW HN) as [A1 [A2 [_ [A4 A5]]]].
  set (Npr := alignUp N (W * 256) / W) in *.
  assert (Hpos : 0 < Npr) by (apply A5; lia).
  assert (Hown : 0 <= p / Npr < W).
  { split; [ apply Z.div_pos; lia |].
    apply Z.div_lt_upper_bound; [ lia |]. nia. }
  rewrite (V1 r p Hr Hp), (V2 r p Hr Hp).
  rewrite !rotatedSum_rank_order by auto. split; reflexivity.
Qed.
End Device.

(** * The theorems at concrete inputs *)

Lemma insertionOrder_incl (s : list Z) (x : Z) :
  In x (insertionOrder s) -> In x s.
Proof. intros H. exact H. Qed.

Lemma reverseInsertionOrder_incl (s : list Z) (x : Z) :
  In x (reverseInsertionOrder s) -> In x s.
Proof. intros H. now apply in_rev. Qed.

(** C3.  The role tables [getHybridCubeMesh] returns are not always
    symmetric in their neighbour columns.  On [selfLinkMesh] it returns,
    in either enumeration order of the neighbour sets, a table in which
    rank 1 names rank 2 as a neighbour in a column where rank 2 names rank
    3; on [skewMesh], whose diagonal is empty, it returns in reverse
    insertion order a table with [hcm[2][2] = 5] and [hcm[5][2] = 6]. *)
Theorem role_table_columns_not_symmetric :
  (passesRecognition selfLinkMesh = true /\
   tableRows (getHybridCubeMesh insertionOrder selfLinkMesh) =
     Ok (Some [[0; 5; 6; 2]; [2; 4; 7; 6]; [3; 7; 4; 0]; [4; 6; 5; 7];
               [7; 1; 2; 5]; [6; 0; 3; 4]; [5; 3; 0; 1]; [4; 2; 1; 3]]) /\
   tableRows (getHybridCubeMesh reverseInsertionOrder selfLinkMesh) =
     Ok (Some [[6; 5; 0; 2]; [7; 4; 2; 6]; [4; 7; 3; 0]; [5; 6; 4; 7];
               [2; 1; 7; 5]; [3; 0; 6; 4]; [0; 3; 5; 1]; [1; 2; 4; 3]]) /\
   match getHybridCubeMesh insertionOrder selfLinkMesh with
   | Ok (Some hcm) => hcm 1 0 = 2 /\ hcm 2 0 = 3
   | _ => False
   end /\
   match getHybridCubeMesh reverseInsertionOrder selfLinkMesh with
   | Ok (Some hcm) => hcm 1 2 = 2 /\ hcm 2 2 = 3
   | _ => False
   end) /\
  (passesRecognition skewMesh = true /\
   tableRows (getHybridCubeMesh reverseInsertionOrder skewMesh) =
     Ok (Some [[4; 3; 1; 2]; [6; 4; 0; 7]; [7; 6; 5; 0]; [5; 0; 4; 6];
               [0; 1; 3; 5]; [3; 7; 6; 4]; [1; 2; 7; 3]; [2; 5; 6; 1]]) /\
   match getHybridCubeMesh reverseInsertionOrder skewMesh with
   | Ok (Some hcm) => hcm 2 2 = 5 /\ hcm 5 2 = 6
   | _ => False
   end).
Proof.
  split; [ split; [| split; [| split; [| split ] ] ]
         | split; [| split ] ];
    vm_compute; try reflexivity; split; reflexivity.
Qed.

(** C4.  The assertion [hcm[i][k] != -1] fails on link matrices that pass
    the recognition loop: on the hybrid cube mesh [dgx1Mesh] when the
    neighbour sets are enumerated in insertion order (in reverse insertion
    order the table is returned), and on [oneWayMesh] in either order. *)
Theorem column_assignment_assertion_fails :
  (passesRecognition dgx1Mesh = true /\
   getHybridCubeMesh insertionOrder dgx1Mesh =
     Throw (Error "hcm[i][k] != -1") /\
   tableRows (getHybridCubeMesh reverseInsertionOrder dgx1Mesh) =
     Ok (Some [[3; 2; 1; 4]; [2; 3; 0; 5]; [1; 0; 3; 6]; [0; 1; 2; 7];
               [7; 6; 5; 0]; [6; 7; 4; 1]; [5; 4; 7; 2]; [4; 5; 6; 3]])) /\
  (passesRecognition oneWayMesh = true /\
   getHybridCubeMesh insertionOrder oneWayMesh =
     Throw (Error "hcm[i][k] != -1") /\
   getHybridCubeMesh reverseInsertionOrder oneWayMesh =
     Throw (Error "hcm[i][k] != -1")).
Proof.
  split; (split; [| split ]); vm_compute; reflexivity.
Qed.


Lemma returned_table (r : result (option HybridCubeMesh)) :
  match r with Ok (Some _) => true | _ => false end = true ->
  r = Ok (Some match r with Ok (Some hcm) => hcm | _ => fun _ _ => -1 end).
Proof.
  destruct r as [[hcm|]|e]; intros H; try discriminate H; reflexivity.
Qed.

Lemma dgx1Table_returned :
  getHybridCubeMesh reverseInsertionOrder dgx1Mesh = Ok (Some dgx1Table).
Proof. apply returned_table. vm_compute. reflexivity. Qed.

(** The hypotheses of [relay_signal_column_is_free] on the table of
    [dgx1Mesh], at rank 5. *)
Lemma relay_signal_column_is_free_witness :
  (forall s x, In x (reverseInsertionOrder s) -> In x s) /\
  getHybridCubeMesh reverseInsertionOrder dgx1Mesh = Ok (Some dgx1Table) /\
  (0 <= 5 < kMaxDevices) /\
  (dgx1Table 5 3 <> dgx1Table 5 0 /\ dgx1Table 5 3 <> dgx1Table 5 1 /\
   dgx1Table 5 3 <> dgx1Table 5 2) /\
  forall blockIdx,
    ~ In (hcmRelayAcquire (dgx1Table 5) 5 blockIdx)
         (hcmBarrierAcquires (dgx1Table 5) 5 blockIdx) /\
    ~ In (hcmRelayRelease (dgx1Table 5) 5 blockIdx)
         (hcmBarrierReleases (dgx1Table 5) 5 blockIdx).
Proof.
  split; [ exact reverseInsertionOrder_incl |].
  split; [ exact dgx1Table_returned |].
  split; [ unfold kMaxDevices; lia |].
  apply (relay_signal_column_is_free reverseInsertionOrder dgx1Mesh dgx1Table
           reverseInsertionOrder_incl dgx1Table_returned 5).
  unfold kMaxDevices. lia.
Defined.

(** ** The device theorems on integers

    The element type is instantiated with [Z], zero with [0] and the rounded
    addition with [Z.add]; rank [r] starts with [100 * r + p] at element [p]
    of its tensor. *)
Local Notation "'rampHeap'" := (rampHeapOf Z 0 (fun z : Z => z)).

Lemma dgx1Table_range (r k : Z) :
  0 <= r < 8 -> 0 <= k < 4 -> 0 <= dgx1Table r k < 8.
Proof.
  intros Hr Hk.
  destruct (getHybridCubeMesh_facts reverseInsertionOrder dgx1Mesh dgx1Table
              reverseInsertionOrder_incl dgx1Table_returned)
    as [relay [R1 R2]].
  unfold kMaxDevices in *.
  destruct (Z.eq_dec k 3) as [->|Hne].
  - destruct (R1 r Hr) as [Rr [_ E]]. rewrite E. exact Rr.
  - now destruct (R2 r k Hr ltac:(lia)).
Qed.

(** The hypotheses of [oneShot_allReduce_rotated_sum] at two ranks with
    tensors of eight elements. *)
Lemma oneShot_allReduce_rotated_sum_witness :
  (2 <= 2 <= 8) /\ (0 <= 8 < 2 ^ 31) /\ alignUp 8 256 <= 1048576 / 2 /\
  (forall r, 0 <= r < 2 ->
     fst (allReduce 1048576 (bf16Tensor 8 r) (fun _ => -1) r 2 ONE_SHOT [])
     = Ok (bf16Tensor 8 r)) /\
  exists h',
    runCollective Z 0 Z.add 1048576
      (collectiveStreams 1048576 (bf16Tensor 8) (fun _ _ => -1) 2 ONE_SHOT)
      rampHeap = Some h' /\
    forall r p, 0 <= r < 2 -> 0 <= p < 8 ->
      h' (Input r) p =
      rotatedSum Z 0 Z.add 2 r (fun q => rampHeap (Input q) p).
Proof.
  assert (F : alignUp 8 256 <= 1048576 / 2)
    by (vm_compute; intros H; discriminate H).
  split; [ lia |]. split; [ lia |]. split; [ exact F |].
  apply (oneShot_allReduce_rotated_sum Z 0 Z.add 1048576 2 8
           (fun _ _ => -1) rampHeap); [ lia | lia | exact F ].
Defined.

(** The hypotheses of [twoShot_reduceScatter_publishes_own_shard] at world
    size 4, rank 3, 1024 elements, one block of 32 threads. *)
Lemma twoShot_reduceScatter_publishes_own_shard_witness :
  (2 <= 4 <= 8) /\ (0 <= 3 < 4) /\ (0 <= 1024 < 2 ^ 32) /\
  1024 mod (4 * (kWarpSize * numelPerThread)) = 0 /\
  validGrid 1 32 (1024 / 4) /\
  (forall q, fst (Input 3, 0) <> Buffer q) /\
  let N_per_rank := 1024 / 4 in
  srcs 4 3 0 = buffers 3 /\
  (exists h',
     twoShotReduceScatter Z 0 Z.add 4 (Input 3, 0) 1024 3 1 32 rampHeap
       = Some h' /\
     (forall q j,
        ~ (q = 3 /\ 3 * N_per_rank <= j < (3 + 1) * N_per_rank) ->
        h' (Buffer q) j = rampHeap (Buffer q) j) /\
     (forall j, 3 * N_per_rank <= j < (3 + 1) * N_per_rank ->
        h' (Buffer 3) j =
        rotatedSum Z 0 Z.add 4 3 (fun q => rampHeap (Buffer q) j))) /\
  (forall r r' j, 0 <= r < 4 -> 0 <= r' < 4 -> r <> r' ->
     ~ (r * N_per_rank <= j < (r + 1) * N_per_rank /\
        r' * N_per_rank <= j < (r' + 1) * N_per_rank)).
Proof.
  assert (G : validGrid 1 32 (1024 / 4)).
  { unfold validGrid. change (1024 / 4) with 256. lia. }
  assert (O : forall q, fst (Input 3, 0) <> Buffer q).
  { intros q H. discriminate H. }
  split; [ lia |]. split; [ lia |]. split; [ lia |].
  split; [ reflexivity |]. split; [ exact G |]. split; [ exact O |].
  apply (twoShot_reduceScatter_publishes_own_shard Z 0 Z.add 4 3 1024 1 32
           (Input 3, 0) rampHeap); [ lia | lia | lia | reflexivity | exact G
                                   | exact O ].
Defined.

Lemma dgx1Table_isRoleTable : isRoleTable 8 dgx1Table = true.
Proof. vm_compute. reflexivity. Qed.

Lemma dgx1Table_symmetric (r k : Z) :
  0 <= r < kMaxDevices -> 0 <= k < 3 -> dgx1Table (dgx1Table r k) k = r.
Proof.
  intros Hr Hk. unfold kMaxDevices in Hr.
  apply (isRoleTable_spec 8 dgx1Table dgx1Table_isRoleTable r Hr). lia.
Qed.

(** [unaligned_allReduce_keeps_tail] for each algorithm: one-shot on two
    ranks and ten elements, two-shot on three ranks and a thousand
    elements, hybrid cube mesh on eight ranks with the role table of
    [dgx1Mesh] and ten elements. *)
Lemma unaligned_allReduce_keeps_tail_witness :
  ((2 <= 2 <= 8) /\ (0 <= 10 < 2 ^ 31) /\
   10 mod (kWarpSize * numelPerThread) <> 0 /\
   (ONE_SHOT = ONE_SHOT \/ ONE_SHOT = TWO_SHOT \/ ONE_SHOT = HCM) /\
   alignedNumel 2 10 ONE_SHOT <= 1048576 / 2 /\
   (ONE_SHOT = HCM -> isRoleTable 2 (fun _ _ => -1) = true) /\
   (forall r, 0 <= r < 2 ->
      exists blocks threads,
        snd (allReduce 1048576 (bf16Tensor 10 r) (fun _ => -1) r 2
                       ONE_SHOT []) =
        [MemcpyAsync (buffers r) (Input r, 0) (10 * 2);
         Launch (OneShotKernel 2 false (Input r, 0) 10
                   (alignedNumel 2 10 ONE_SHOT) r)
                blocks threads]) /\
   exists h',
     runCollective Z 0 Z.add 1048576
       (collectiveStreams 1048576 (bf16Tensor 10) (fun _ _ => -1) 2 ONE_SHOT)
       rampHeap = Some h' /\
     (forall r p, 0 <= r < 2 -> 0 <= p < 10 ->
        h' (Input r) p =
        kernelSum Z 0 Z.add 2 10 (fun _ _ => -1) ONE_SHOT r p
                  (fun q => rampHeap (Input q) p)) /\
     ((forall a b, a + b = b + a) ->
      (forall a b c, a + b + c = a + (b + c)) ->
      0 + 0 = 0 ->
      forall r p, 0 <= r < 2 -> 0 <= p < 10 ->
        h' (Input r) p =
        fold_left Z.add (map (fun q => rampHeap (Input q) p) (seqZ 2)) 0) /\
     (forall r p, 0 <= r < 2 -> 10 <= p ->
        h' (Input r) p = rampHeap (Input r) p)) /\
  ((2 <= 3 <= 8) /\ (0 <= 1000 < 2 ^ 31) /\
   1000 mod (kWarpSize * numelPerThread) <> 0 /\
   (TWO_SHOT = ONE_SHOT \/ TWO_SHOT = TWO_SHOT \/ TWO_SHOT = HCM) /\
   alignedNumel 3 1000 TWO_SHOT <= 20971520 / 2 /\
   (TWO_SHOT = HCM -> isRoleTable 3 (fun _ _ => -1) = true) /\
   (forall r, 0 <= r < 3 ->
      exists blocks threads,
        snd (allReduce 20971520 (bf16Tensor 1000 r) (fun _ => -1) r 3
                       TWO_SHOT []) =
        [MemcpyAsync (buffers r) (Input r, 0) (1000 * 2);
         Launch (TwoShotKernel 3 (Scratch r, 0)
                   (alignedNumel 3 1000 TWO_SHOT) r)
                blocks threads;
         MemcpyAsync (Input r, 0) (Scratch r, 0) (1000 * 2)]) /\
   exists h',
     runCollective Z 0 Z.add 20971520
       (collectiveStreams 20971520 (bf16Tensor 1000) (fun _ _ => -1) 3
                          TWO_SHOT)
       rampHeap = Some h' /\
     (forall r p, 0 <= r < 3 -> 0 <= p < 1000 ->
        h' (Input r) p =
        kernelSum Z 0 Z.add 3 1000 (fun _ _ => -1) TWO_SHOT r p
                  (fun q => rampHeap (Input q) p)) /\
     ((forall a b, a + b = b + a) ->
      (forall a b c, a + b + c = a + (b + c)) ->
      0 + 0 = 0 ->
      forall r p, 0 <= r < 3 -> 0 <= p < 1000 ->
        h' (Input r) p =
        fold_left Z.add (map (fun q => rampHeap (Input q) p) (seqZ 3)) 0) /\
     (forall r p, 0 <= r < 3 -> 1000 <= p ->
        h' (Input r) p = rampHeap (Input r) p)) /\
  ((2 <= 8 <= 8) /\ (0 <= 10 < 2 ^ 31) /\
   10 mod (kWarpSize * numelPerThread) <> 0 /\
   (HCM = ONE_SHOT \/ HCM = TWO_SHOT \/ HCM = HCM) /\
   alignedNumel 8 10 HCM <= 1048576 / 2 /\
   (HCM = HCM -> isRoleTable 8 dgx1Table = true) /\
   (forall r, 0 <= r < 8 ->
      exists blocks threads,
        snd (allReduce 1048576 (bf16Tensor 10 r) (dgx1Table r) r 8 HCM []) =
        [MemcpyAsync (buffers r) (Input r, 0) (10 * 2);
         Launch (HybridCubeMeshKernel false (Input r, 0) 10
                   (alignedNumel 8 10 HCM) (dgx1Table r) r)
                blocks threads]) /\
   exists h',
     runCollective Z 0 Z.add 1048576
       (collectiveStreams 1048576 (bf16Tensor 10) dgx1Table 8 HCM)
       rampHeap = Some h' /\
     (forall r p, 0 <= r < 8 -> 0 <= p < 10 ->
        h' (Input r) p =
        kernelSum Z 0 Z.add 8 10 dgx1Table HCM r p
                  (fun q => rampHeap (Input q) p)) /\
     ((forall a b, a + b = b + a) ->
      (forall a b c, a + b + c = a + (b + c)) ->
      0 + 0 = 0 ->
      forall r p, 0 <= r < 8 -> 0 <= p < 10 ->
        h' (Input r) p =
        fold_left Z.add (map (fun q => rampHeap (Input q) p) (seqZ 8)) 0) /\
     (forall r p, 0 <= r < 8 -> 10 <= p ->
        h' (Input r) p = rampHeap (Input r) p)).
Proof.
  assert (M1 : 10 mod (kWarpSize * numelPerThread) <> 0)
    by (intros H; discriminate H).
  assert (M2 : 1000 mod (kWarpSize * numelPerThread) <> 0)
    by (intros H; discriminate H).
  assert (A1 : ONE_SHOT = ONE_SHOT \/ ONE_SHOT = TWO_SHOT \/ ONE_SHOT = HCM)
    by (left; reflexivity).
  assert (A2 : TWO_SHOT = ONE_SHOT \/ TWO_SHOT = TWO_SHOT \/ TWO_SHOT = HCM)
    by (right; left; reflexivity).
  assert (A3 : HCM = ONE_SHOT \/ HCM = TWO_SHOT \/ HCM = HCM)
    by (right; right; reflexivity).
  assert (F1 : alignedNumel 2 10 ONE_SHOT <= 1048576 / 2)
    by (vm_compute; intros H; discriminate H).
  assert (F2 : alignedNumel 3 1000 TWO_SHOT <= 20971520 / 2)
    by (vm_compute; intros H; discriminate H).
  assert (F3 : alignedNumel 8 10 HCM <= 1048576 / 2)
    by (vm_compute; intros H; discriminate H).
  assert (T1 : ONE_SHOT = HCM -> isRoleTable 2 (fun _ _ => -1) = true)
    by (intros H; discriminate H).
  assert (T2 : TWO_SHOT = HCM -> isRoleTable 3 (fun _ _ => -1) = true)
    by (intros H; discriminate H).
  assert (T3 : HCM = HCM -> isRoleTable 8 dgx1Table = true)
    by (intros _; exact dgx1Table_isRoleTable).
  split; [| split ].
  - split; [ lia |]. split; [ lia |]. split; [ exact M1 |].
    split; [ exact A1 |]. split; [ exact F1 |]. split; [ exact T1 |].
    apply (unaligned_allReduce_keeps_tail Z 0 Z.add 1048576 2 10
             (fun _ _ => -1) ONE_SHOT rampHeap);
      [ lia | lia | exact M1 | exact A1 | exact F1 | exact T1 ].
  - split; [ lia |]. split; [ lia |]. split; [ exact M2 |].
    split; [ exact A2 |]. split; [ exact F2 |]. split; [ exact T2 |].
    apply (unaligned_allReduce_keeps_tail Z 0 Z.add 20971520 3 1000
             (fun _ _ => -1) TWO_SHOT rampHeap);
      [ lia | lia | exact M2 | exact A2 | exact F2 | exact T2 ].
  - split; [ lia |]. split; [ lia |]. split; [ exact M1 |].
    split; [ exact A3 |]. split; [ exact F3 |]. split; [ exact T3 |].
    apply (unaligned_allReduce_keeps_tail Z 0 Z.add 1048576 8 10 dgx1Table
             HCM rampHeap);
      [ lia | lia | exact M1 | exact A3 | exact F3 | exact T3 ].
Defined.

(** The hypotheses of [allReduce_invalid_algo_raises] at
    [AllReduceAlgo::NONE]. *)
Lemma allReduce_invalid_algo_raises_witness :
  NONE <> ONE_SHOT /\ NONE <> TWO_SHOT /\ NONE <> HCM /\
  allReduce 1048576 (bf16Tensor 8 0) (fun _ => -1) 0 2 NONE [] =
    (Throw (ValueError "IntraNodeComm: invalid algo"), []) /\
  forall (inputs : Z -> Tensor) (table : Z -> Z -> Z) (h : heap Z),
    runCollective Z 0 Z.add 1048576
      (collectiveStreams 1048576 inputs table 2 NONE) h = Some h.
Proof.
  assert (D1 : NONE <> ONE_SHOT) by (intros H; discriminate H).
  assert (D2 : NONE <> TWO_SHOT) by (intros H; discriminate H).
  assert (D3 : NONE <> HCM) by (intros H; discriminate H).
  split; [ exact D1 |]. split; [ exact D2 |]. split; [ exact D3 |].
  apply (allReduce_invalid_algo_raises Z 0 Z.add 1048576 (bf16Tensor 8 0)
           (fun _ => -1) 0 2 NONE [] D1 D2 D3).
Defined.

(** * Further properties of the host code *)

(** ** divUp, alignUp, getLaunchConfig *)

(** X1.  Where the 32-bit sum of [divUp] does not wrap, [alignUp a b] is the
    least multiple of [b] that is not below [a]; an aligned [a] is returned
    as it is. *)
Theorem alignUp_least_multiple (a b : Z) :
  0 <= a -> 0 < b < 2 ^ 32 -> a + b - 1 < 2 ^ 32 ->
  a <= alignUp a b /\ alignUp a b mod b = 0 /\
  (forall m, a <= m -> m mod b = 0 -> alignUp a b <= m) /\
  (a mod b = 0 -> alignUp a b = a).
Proof.
  intros Ha Hb Hs.
  destruct (alignUp_bounds a b Ha Hb Hs) as [[L U] M].
  assert (Least : forall m, a <= m -> m mod b = 0 -> alignUp a b <= m).
  { intros m Hm Hmod.
    apply Z.mod_divide in M; [| lia ]. destruct M as [c Hc].
    apply Z.mod_divide in Hmod; [| lia ]. destruct Hmod as [c' Hc'].
    rewrite Hc, Hc' in *.
    assert (c < c' + 1) by nia. nia. }
  split; [ exact L |]. split; [ exact M |]. split; [ exact Least |].
  intros Hmod. pose proof (Least a ltac:(lia) Hmod). lia.
Qed.

Lemma alignUp_least_multiple_witness :
  0 <= 1000 /\ 0 < 256 < 2 ^ 32 /\ 1000 + 256 - 1 < 2 ^ 32 /\
  1000 <= alignUp 1000 256 /\ alignUp 1000 256 mod 256 = 0 /\
  (forall m, 1000 <= m -> m mod 256 = 0 -> alignUp 1000 256 <= m) /\
  (1000 mod 256 = 0 -> alignUp 1000 256 = 1000).
Proof.
  split; [ lia |]. split; [ lia |]. split; [ lia |].
  apply (alignUp_least_multiple 1000 256); lia.
Defined.

(** X2.  [divUp] and [alignUp] take [uint32_t]: a 64-bit argument is
    truncated, and when the sum [a + b - 1] passes [2^32] it wraps, so that
    [alignUp a b] falls below [a]. *)
Theorem alignUp_wraps_below_argument (a b : Z) :
  0 <= a < 2 ^ 32 -> 0 < b < 2 ^ 32 -> 2 ^ 32 <= a + b - 1 ->
  divUp a b = (a + b - 1 - 2 ^ 32) / b /\
  alignUp a b < a /\
  (forall k, alignUp (a + k * 2 ^ 32) b = alignUp a b).
Proof.
  intros Ha Hb Hs.
  assert (D : divUp a b = (a + b - 1 - 2 ^ 32) / b).
  { unfold divUp. cbv zeta.
    rewrite (wrap32_small a), (wrap32_small b) by lia.
    f_equal. unfold wrap32. symmetry.
    apply (Z.mod_unique _ _ 1); lia. }
  split; [ exact D |]. split.
  - unfold alignUp. rewrite D, (wrap32_small b) by lia.
    pose proof (Z.mul_div_le (a + b - 1 - 2 ^ 32) b ltac:(lia)).
    pose proof (Z.div_pos (a + b - 1 - 2 ^ 32) b ltac:(lia) ltac:(lia)).
    rewrite wrap64_small by nia. nia.
  - intros k. unfold alignUp, divUp. cbv zeta.
    replace (wrap32 (a + k * 2 ^ 32)) with (wrap32 a); [ reflexivity |].
    unfold wrap32. now rewrite Z.mod_add by lia.
Qed.

Lemma alignUp_wraps_below_argument_witness :
  0 <= 4294967295 < 2 ^ 32 /\ 0 < 256 < 2 ^ 32 /\
  2 ^ 32 <= 4294967295 + 256 - 1 /\
  divUp 4294967295 256 = (4294967295 + 256 - 1 - 2 ^ 32) / 256 /\
  alignUp 4294967295 256 < 4294967295 /\
  (forall k, alignUp (4294967295 + k * 2 ^ 32) 256 = alignUp 4294967295 256).
Proof.
  split; [ lia |]. split; [ lia |]. split; [ lia |].
  apply (alignUp_wraps_below_argument 4294967295 256); lia.
Defined.

(** X3.  Whatever [getLaunchConfig] returns on an element size of at most
    16 bytes and a positive length below [2^31] respects the launch limits:
    between 1 and [kMaxAllReduceBlocks] blocks, and a number of threads that
    is a multiple of the warp size between one warp and [kThreadsPerBlock];
    a payload smaller than a block gets exactly one thread per
    [numelPerThread] elements. *)
Theorem getLaunchConfig_within_limits (N_aligned elemSize : Z)
    (blocks threads : dim3) :
  1 <= elemSize <= 16 -> 0 < N_aligned < 2 ^ 31 ->
  getLaunchConfig N_aligned elemSize = Ok (blocks, threads) ->
  1 <= dim_x blocks <= kMaxAllReduceBlocks /\
  kWarpSize <= dim_x threads <= kThreadsPerBlock /\
  dim_x threads mod kWarpSize = 0 /\
  (N_aligned < kBytesPerThread / elemSize * kThreadsPerBlock ->
   dim_x blocks * dim_x threads * (kBytesPerThread / elemSize) = N_aligned).
Proof.
  intros He HN G.
  pose proof (numelPerThread_range elemSize He) as Hn.
  set (n := kBytesPerThread / elemSize) in *.
  assert (Hmod : N_aligned mod (n * kWarpSize) = 0).
  { unfold getLaunchConfig in G. fold n in G. cbv zeta in G.
    unfold kWarpSize in *. rewrite (wrap64_small (n * 32)) in G by lia.
    destruct (N_aligned mod n =? 0); cbn [TORCH_CHECK bind] in G;
      [| discriminate G ].
    destruct (Z.eqb_spec (N_aligned mod (n * 32)) 0) as [E|E];
      cbn [TORCH_CHECK bind] in G; [ exact E | discriminate G ]. }
  unfold kWarpSize in Hmod.
  apply Z.mod_divide in Hmod; [| lia ]. destruct Hmod as [q Hq].
  assert (Hq0 : 0 < q) by nia.
  pose proof (getLaunchConfig_multiple elemSize q He Hq0) as M.
  fold n in M. unfold kWarpSize in M. cbv zeta in M.
  replace (n * 32 * q) with N_aligned in M by lia.
  specialize (M ltac:(lia)). rewrite M in G.
  unfold kMaxAllReduceBlocks, kThreadsPerBlock, kWarpSize in *.
  destruct (q <? 32) eqn:Eq.
  - apply Z.ltb_lt in Eq. injection G as <- <-. cbn [dim_x].
    split; [ lia |]. split; [ lia |].
    split; [ apply Z.mod_mul; lia |]. intros _. lia.
  - apply Z.ltb_ge in Eq. injection G as <- <-. cbn [dim_x].
    pose proof (ceil_div_pos (q * 32) 1024 ltac:(lia) ltac:(lia)) as C1.
    set (b := Z.min (ceil_div (q * 32) 1024) 24) in *.
    assert (Hb : 1 <= b <= 24) by (unfold b; lia).
    pose proof (ceil_div_pos q b ltac:(lia) ltac:(lia)) as C2.
    split; [ lia |]. split; [ lia |]. split.
    + destruct (Z.min_spec 1024 (ceil_div q b * 32)) as [[_ ->] | [_ ->]];
        [ reflexivity | apply Z.mod_mul; lia ].
    + intros Hsmall. nia.
Qed.

Lemma getLaunchConfig_within_limits_witness :
  1 <= 2 <= 16 /\ 0 < 65536 < 2 ^ 31 /\
  getLaunchConfig 65536 2 = Ok (mkDim3 8 1 1, mkDim3 1024 1 1) /\
  1 <= dim_x (mkDim3 8 1 1) <= kMaxAllReduceBlocks /\
  kWarpSize <= dim_x (mkDim3 1024 1 1) <= kThreadsPerBlock /\
  dim_x (mkDim3 1024 1 1) mod kWarpSize = 0 /\
  (65536 < kBytesPerThread / 2 * kThreadsPerBlock ->
   dim_x (mkDim3 8 1 1) * dim_x (mkDim3 1024 1 1) * (kBytesPerThread / 2)
   = 65536).
Proof.
  split; [ lia |]. split; [ lia |]. split; [ reflexivity |].
  apply (getLaunchConfig_within_limits 65536 2); [ lia | lia | reflexivity ].
Defined.

(** X4.  [getLaunchConfig] raises an error on a length that is not a
    multiple of the warp granularity: the first failed [TORCH_CHECK] is the
    one on [numelPerThread] when that does not divide the length, and the
    one on [numelPerWarp] otherwise. *)
Theorem getLaunchConfig_rejects_unaligned (N_aligned elemSize : Z) :
  1 <= elemSize <= 16 ->
  N_aligned mod (kBytesPerThread / elemSize * kWarpSize) <> 0 ->
  getLaunchConfig N_aligned elemSize =
  Throw (Error (if (N_aligned mod (kBytesPerThread / elemSize) =? 0)%Z
                then "N_aligned % numelPerWarp == 0"
                else "N_aligned % numelPerThread == 0")).
Proof.
  intros He Hmod.
  pose proof (numelPerThread_range elemSize He) as Hn.
  unfold getLaunchConfig. cbv zeta.
  set (n := kBytesPerThread / elemSize) in *. unfold kWarpSize in *.
  rewrite (wrap64_small (n * 32)) by lia.
  destruct (N_aligned mod n =? 0); cbn [TORCH_CHECK bind]; [| reflexivity ].
  destruct (Z.eqb_spec (N_aligned mod (n * 32)) 0) as [E|E];
    cbn [TORCH_CHECK bind]; [ contradiction | reflexivity ].
Qed.

Lemma getLaunchConfig_rejects_unaligned_witness :
  1 <= 2 <= 16 /\ 1000 mod (kBytesPerThread / 2 * kWarpSize) <> 0 /\
  getLaunchConfig 1000 2 =
  Throw (Error (if (1000 mod (kBytesPerThread / 2) =? 0)%Z
                then "N_aligned % numelPerWarp == 0"
                else "N_aligned % numelPerThread == 0")).
Proof.
  assert (M : 1000 mod (kBytesPerThread / 2 * kWarpSize) <> 0)
    by (intros H; discriminate H).
  split; [ lia |]. split; [ exact M |].
  apply (getLaunchConfig_rejects_unaligned 1000 2); [ lia | exact M ].
Defined.

(** ** The host functions on any tensor *)

Lemma DISPATCH_cases (W : Z) (X : Z -> streamOp) (s : stream) :
  DISPATCH_ALL_WORLD_SIZES W X s =
  (Ok tt, s ++ (if (2 <=? W) && (W <=? 8) then [X W] else [])).
Proof.
  destruct (Z_le_dec 2 W) as [H2|H2]; [ destruct (Z_le_dec W 8) as [H8|H8] |].
  - rewrite DISPATCH_in_range by lia.
    now rewrite (proj2 (Z.leb_le 2 W) H2), (proj2 (Z.leb_le W 8) H8).
  - replace (W <=? 8) with false by (symmetry; apply Z.leb_gt; lia).
    rewrite andb_false_r, app_nil_r.
    unfold DISPATCH_ALL_WORLD_SIZES, hbind, ret. cbn [fold_left].
    repeat match goal with
           | |- context [W =? ?k] =>
               replace (W =? k) with false by (symmetry; apply Z.eqb_neq; lia)
           end.
    reflexivity.
  - replace (2 <=? W) with false by (symmetry; apply Z.leb_gt; lia).
    rewrite app_nil_r.
    unfold DISPATCH_ALL_WORLD_SIZES, hbind, ret. cbn [fold_left].
    repeat match goal with
           | |- context [W =? ?k] =>
               replace (W =? k) with false by (symmetry; apply Z.eqb_neq; lia)
           end.
    reflexivity.
Qed.




(** X5.  The size check comes before the first enqueue.  A tensor that
    passes [checkInput] and whose aligned length exceeds
    [kMaxIntraNodeSize / element_size] is refused by each of the three
    algorithms with the [c10::Error] of the check on [N_aligned], and the
    stream is as it was: neither the staging copy nor a kernel has been
    enqueued.  (For the two-shot algorithm the world size is taken where
    its divisors are not zero.) *)
Theorem allReduce_rejects_oversized_input (kMaxIntraNodeSize : Z)
    (input : Tensor) (topoInfo : Z -> Z) (rank worldSize : Z)
    (algo : AllReduceAlgo) (s : stream) :
  algo = ONE_SHOT \/ algo = TWO_SHOT \/ algo = HCM ->
  0 <= kMaxIntraNodeSize < 2 ^ 64 ->
  checkInput input rank = Ok tt ->
  (algo = TWO_SHOT -> 0 < worldSize < 2 ^ 24) ->
  kMaxIntraNodeSize / element_size input
    < alignedNumel worldSize (numel input) algo ->
  allReduce kMaxIntraNodeSize input topoInfo rank worldSize algo s =
    (Throw (Error "N_aligned <= kMaxIntraNodeSize / input.element_size()"),
     s).
Proof.
  intros Halgo _ Hin HW Hbig.
  assert (Hd : dtype input = kBFloat16).
  { unfold checkInput, TORCH_CHECK in Hin.
    destruct (dtype input); cbn [ScalarType_eqb bind] in Hin;
      try discriminate Hin. reflexivity. }
  assert (He : element_size input = 2)
    by (unfold element_size; now rewrite Hd).
  assert (Hw : wrap64 (kBytesPerThread / element_size input * kWarpSize)
               = 256) by (now rewrite He).
  destruct Halgo as [-> | [-> | ->]]; cbn [allReduce alignedNumel] in *.
  - unfold oneShotAllReduce, hbind, lift. rewrite Hin. cbv zeta.
    rewrite Hw. unfold TORCH_CHECK.
    now rewrite (proj2 (Z.leb_gt _ _) Hbig).
  - specialize (HW eq_refl).
    unfold twoShotAllReduce, hbind, lift. rewrite Hin. cbv zeta.
    rewrite Hw, (wrap64_small (worldSize * 256)) by lia.
    unfold TORCH_CHECK.
    now rewrite (proj2 (Z.leb_gt _ _) Hbig).
  - unfold hybridCubeMeshAllReduce, hbind, lift. rewrite Hin. cbv zeta.
    rewrite Hw. unfold TORCH_CHECK.
    now rewrite (proj2 (Z.leb_gt _ _) Hbig).
Qed.

(** [allReduce_rejects_oversized_input] for the two-shot algorithm on four
    ranks: three million bf16 elements and peer buffers of one MiB. *)
Lemma allReduce_rejects_oversized_input_witness :
  (TWO_SHOT = ONE_SHOT \/ TWO_SHOT = TWO_SHOT \/ TWO_SHOT = HCM) /\
  (0 <= 1048576 < 2 ^ 64) /\
  checkInput (bf16Tensor 3000000 1) 1 = Ok tt /\
  (TWO_SHOT = TWO_SHOT -> 0 < 4 < 2 ^ 24) /\
  1048576 / element_size (bf16Tensor 3000000 1)
    < alignedNumel 4 (numel (bf16Tensor 3000000 1)) TWO_SHOT /\
  allReduce 1048576 (bf16Tensor 3000000 1) (fun _ => -1) 1 4 TWO_SHOT [] =
    (Throw (Error "N_aligned <= kMaxIntraNodeSize / input.element_size()"),
     []).
Proof.
  assert (A : TWO_SHOT = ONE_SHOT \/ TWO_SHOT = TWO_SHOT \/ TWO_SHOT = HCM)
    by (right; left; reflexivity).
  assert (C : checkInput (bf16Tensor 3000000 1) 1 = Ok tt) by reflexivity.
  assert (W : TWO_SHOT = TWO_SHOT -> 0 < 4 < 2 ^ 24) by (intros _; lia).
  assert (B : 1048576 / element_size (bf16Tensor 3000000 1)
              < alignedNumel 4 (numel (bf16Tensor 3000000 1)) TWO_SHOT)
    by (vm_compute; reflexivity).
  assert (K : 0 <= 1048576 < 2 ^ 64) by lia.
  split; [ exact A |]. split; [ exact K |]. split; [ exact C |].
  split; [ exact W |]. split; [ exact B |].
  apply (allReduce_rejects_oversized_input 1048576 (bf16Tensor 3000000 1)
           (fun _ => -1) 1 4 TWO_SHOT [] A K C W B).
Defined.

Lemma checkInput_accepts (input : Tensor) (rank : Z) :
  checkInput input rank = Ok tt <->
  dtype input = kBFloat16 /\ is_non_overlapping_and_dense input = true /\
  is_cuda input = true /\ wrap64 (get_device input) = rank.
Proof.
  unfold checkInput, TORCH_CHECK.
  destruct (dtype input); cbn [ScalarType_eqb bind];
    try (split; [ intros H; discriminate H
                | intros [H _]; discriminate H ]).
  destruct (is_non_overlapping_and_dense input); cbn [bind];
    [| split; [ intros H; discriminate H
              | intros [_ [H _]]; discriminate H ] ].
  destruct (is_cuda input); cbn [bind];
    [| split; [ intros H; discriminate H
              | intros [_ [_ [H _]]]; discriminate H ] ].
  destruct (Z.eqb_spec (wrap64 (get_device input)) rank) as [E|E].
  - split; auto.
  - split; [ intros H; discriminate H | intros [_ [_ [_ H]]]; contradiction ].
Qed.

(** X6.  A tensor that is not a dense bf16 CUDA tensor on the device of the
    calling rank is refused by each of the three algorithms with the
    [c10::Error] of [checkInput], before anything is enqueued. *)
Theorem allReduce_rejects_bad_input (kMaxIntraNodeSize : Z)
    (input : Tensor) (topoInfo : Z -> Z) (rank worldSize : Z)
    (algo : AllReduceAlgo) (s : stream) :
  algo = ONE_SHOT \/ algo = TWO_SHOT \/ algo = HCM ->
  ~ (dtype input = kBFloat16 /\ is_non_overlapping_and_dense input = true /\
     is_cuda input = true /\ wrap64 (get_device input) = rank) ->
  exists what,
    checkInput input rank = Throw (Error what) /\
    allReduce kMaxIntraNodeSize input topoInfo rank worldSize algo s =
      (Throw (Error what), s).
Proof.
  intros Halgo Hbad.
  destruct (checkInput input rank) as [[]|e] eqn:E.
  - exfalso. apply Hbad. now apply checkInput_accepts.
  - assert (He : exists what, e = Error what).
    { unfold checkInput, TORCH_CHECK in E.
      destruct (ScalarType_eqb _ _); cbn [bind] in E;
        [| injection E as <-; eexists; reflexivity ].
      destruct (is_non_overlapping_and_dense input); cbn [bind] in E;
        [| injection E as <-; eexists; reflexivity ].
      destruct (is_cuda input); cbn [bind] in E;
        [| injection E as <-; eexists; reflexivity ].
      destruct (_ =? _); [ discriminate E |].
      injection E as <-. eexists. reflexivity. }
    destruct He as [what ->]. exists what. split; [ reflexivity |].
    destruct Halgo as [-> | [-> | ->]]; cbn [allReduce];
      unfold oneShotAllReduce, twoShotAllReduce, hybridCubeMeshAllReduce,
        hbind, lift; rewrite E; reflexivity.
Qed.

Lemma allReduce_rejects_bad_input_witness :
  (TWO_SHOT = ONE_SHOT \/ TWO_SHOT = TWO_SHOT \/ TWO_SHOT = HCM) /\
  ~ (dtype (mkTensor kFloat 1024 true true 0 (Input 0, 0)) = kBFloat16 /\
     is_non_overlapping_and_dense
       (mkTensor kFloat 1024 true true 0 (Input 0, 0)) = true /\
     is_cuda (mkTensor kFloat 1024 true true 0 (Input 0, 0)) = true /\
     wrap64 (get_device (mkTensor kFloat 1024 true true 0 (Input 0, 0))) = 0)
  /\
  exists what,
    checkInput (mkTensor kFloat 1024 true true 0 (Input 0, 0)) 0
      = Throw (Error what) /\
    allReduce 20971520 (mkTensor kFloat 1024 true true 0 (Input 0, 0))
              (fun _ => -1) 0 4 TWO_SHOT [] =
      (Throw (Error what), []).
Proof.
  assert (A : TWO_SHOT = ONE_SHOT \/ TWO_SHOT = TWO_SHOT \/ TWO_SHOT = HCM)
    by (right; left; reflexivity).
  assert (B : ~ (dtype (mkTensor kFloat 1024 true true 0 (Input 0, 0))
                   = kBFloat16 /\
                 is_non_overlapping_and_dense
                   (mkTensor kFloat 1024 true true 0 (Input 0, 0)) = true /\
                 is_cuda (mkTensor kFloat 1024 true true 0 (Input 0, 0))
                   = true /\
                 wrap64 (get_device
                           (mkTensor kFloat 1024 true true 0 (Input 0, 0)))
                   = 0))
    by (intros [H _]; discriminate H).
  split; [ exact A |]. split; [ exact B |].
  apply (allReduce_rejects_bad_input 20971520
           (mkTensor kFloat 1024 true true 0 (Input 0, 0)) (fun _ => -1)
           0 4 TWO_SHOT [] A B).
Defined.

(** X7.  The chain of [if (worldSize == kWorldSize)] has no [else]: for a
    world size of 1, or above 8, the one-shot and two-shot host functions
    pass every check on a good tensor and return it, having enqueued copies
    only and no kernel. *)
Theorem unsupported_world_size_launches_no_kernel (kMaxIntraNodeSize : Z)
    (input : Tensor) (topoInfo : Z -> Z) (rank worldSize : Z)
    (algo : AllReduceAlgo) (s : stream) :
  worldSize = 1 \/ 8 < worldSize ->
  algo = ONE_SHOT \/ algo = TWO_SHOT ->
  forall t, fst (allReduce kMaxIntraNodeSize input topoInfo rank worldSize
                           algo s) = Ok t ->
  exists ops,
    snd (allReduce kMaxIntraNodeSize input topoInfo rank worldSize algo s)
      = s ++ ops /\
    ops <> [] /\ forallb isMemcpy ops = true.
Proof.
  intros HW Halgo t.
  assert (D : (2 <=? worldSize) && (worldSize <=? 8) = false).
  { destruct HW as [-> | H]; [ reflexivity |].
    replace (worldSize <=? 8) with false by (symmetry; apply Z.leb_gt; lia).
    apply andb_false_r. }
  destruct Halgo as [-> | ->]; cbn [allReduce].
  - unfold oneShotAllReduce, hbind, lift, enqueue, ret.
    destruct (checkInput input rank) as [[]|e]; [| intros H; discriminate H ].
    cbv zeta.
    destruct (TORCH_CHECK _ _) as [[]|e]; [| intros H; discriminate H ].
    destruct (getLaunchConfig _ _) as [[blocks threads]|e];
      [| intros H; discriminate H ].
    destruct (_ =? _); rewrite DISPATCH_cases, D, app_nil_r; cbn [fst snd];
      intros _; eexists; (split; [ reflexivity |]);
      (split; [ discriminate | reflexivity ]).
  - unfold twoShotAllReduce, hbind, lift, enqueue, ret.
    destruct (checkInput input rank) as [[]|e]; [| intros H; discriminate H ].
    cbv zeta.
    destruct (TORCH_CHECK _ _) as [[]|e]; [| intros H; discriminate H ].
    destruct (getLaunchConfig _ _) as [[blocks threads]|e];
      [| intros H; discriminate H ].
    rewrite DISPATCH_cases, D, app_nil_r.
    destruct (negb _); cbn [fst snd]; rewrite <- ?app_assoc; cbn [app];
      intros _; eexists; (split; [ reflexivity |]);
      (split; [ discriminate | reflexivity ]).
Qed.

Lemma unsupported_world_size_launches_no_kernel_witness :
  (9 = 1 \/ 8 < 9) /\ (TWO_SHOT = ONE_SHOT \/ TWO_SHOT = TWO_SHOT) /\
  fst (allReduce 20971520 (bf16Tensor 1000 0) (fun _ => -1) 0 9
                 TWO_SHOT []) = Ok (bf16Tensor 1000 0) /\
  exists ops,
    snd (allReduce 20971520 (bf16Tensor 1000 0) (fun _ => -1) 0 9
                   TWO_SHOT [])
      = [] ++ ops /\
    ops <> [] /\ forallb isMemcpy ops = true.
Proof.
  assert (A : 9 = 1 \/ 8 < 9) by (right; lia).
  assert (B : TWO_SHOT = ONE_SHOT \/ TWO_SHOT = TWO_SHOT)
    by (right; reflexivity).
  assert (C : fst (allReduce 20971520 (bf16Tensor 1000 0) (fun _ => -1) 0 9
                             TWO_SHOT []) = Ok (bf16Tensor 1000 0))
    by (vm_compute; reflexivity).
  split; [ exact A |]. split; [ exact B |]. split; [ exact C |].
  apply (unsupported_world_size_launches_no_kernel 20971520
           (bf16Tensor 1000 0) (fun _ => -1) 0 9 TWO_SHOT [] A B
           (bf16Tensor 1000 0) C).
Defined.

(** ** The selector *)

(** X8.  When [selectAllReduceAlgo] declines or fails: a tensor that is not
    bf16, or whose bytes exceed [kMaxIntraNodeSize], gets NONE on every
    topology; a bf16 tensor that fits gets NONE on an unsupported topology;
    and on a hybrid cube mesh with a world size other than 8 the selector
    does not return but raises the error of its [TORCH_CHECK]. *)
Theorem selectAllReduceAlgo_declines (kMaxIntraNodeSize : Z)
    (input : Tensor) (topology : Topology) (worldSize : Z) :
  (dtype input <> kBFloat16 \/
   kMaxIntraNodeSize < wrap64 (numel input * element_size input) ->
   selectAllReduceAlgo kMaxIntraNodeSize input topology worldSize = Ok NONE)
  /\
  (dtype input = kBFloat16 ->
   wrap64 (numel input * element_size input) <= kMaxIntraNodeSize ->
   (topology = UNSUPPORTED ->
    selectAllReduceAlgo kMaxIntraNodeSize input topology worldSize = Ok NONE)
   /\
   (topology = HYBRID_CUBE_MESH -> worldSize <> 8 ->
    selectAllReduceAlgo kMaxIntraNodeSize input topology worldSize =
    Throw (Error "hyperCubeAllReduce only supports exactly 8 GPUs"))).
Proof.
  split.
  - intros H. unfold selectAllReduceAlgo.
    destruct H as [H | H].
    + destruct (dtype input); try reflexivity. contradiction.
    + rewrite (proj2 (Z.gtb_lt _ _) H). now rewrite orb_true_r.
  - intros Hd Hfit. unfold selectAllReduceAlgo. rewrite Hd.
    cbn [ScalarType_eqb negb orb].
    replace (_ >? _) with false
      by (symmetry; rewrite Z.gtb_ltb; apply Z.ltb_ge; exact Hfit).
    split.
    + intros ->. reflexivity.
    + intros -> HW. cbv zeta.
      rewrite (proj2 (Z.eqb_neq worldSize 8) HW). reflexivity.
Qed.


(** X9.  With peer buffers of at least twice [kTwoShotThreshBytes] (the
    selector's thresholds are applied to element counts), whatever
    algorithm the selector picks for a bf16 tensor is accepted by
    [allReduce]: the host function passes its own size check, returns the
    tensor and enqueues a kernel. *)
Theorem selected_algo_is_accepted (kMaxIntraNodeSize n rank worldSize : Z)
    (topology : Topology) (topoInfo : Z -> Z) (algo : AllReduceAlgo) :
  2 * kTwoShotThreshBytes <= kMaxIntraNodeSize < 2 ^ 32 ->
  0 <= n < 2 ^ 31 -> 2 <= worldSize <= 8 -> 0 <= rank < worldSize ->
  selectAllReduceAlgo kMaxIntraNodeSize (bf16Tensor n rank) topology
                      worldSize = Ok algo ->
  algo <> NONE ->
  fst (allReduce kMaxIntraNodeSize (bf16Tensor n rank) topoInfo rank
                 worldSize algo []) = Ok (bf16Tensor n rank) /\
  existsb isLaunch
    (snd (allReduce kMaxIntraNodeSize (bf16Tensor n rank) topoInfo rank
                    worldSize algo [])) = true.
Proof.
  intros Hcap Hn HW Hr Hsel Hne.
  unfold kTwoShotThreshBytes in Hcap.
  assert (Hhalf : 10485760 <= kMaxIntraNodeSize / 2)
    by (apply Z.div_le_lower_bound; lia).
  destruct (Z_le_dec (2 * n) kMaxIntraNodeSize) as [Hfit|Hfit].
  2: { exfalso. apply Hne.
       unfold selectAllReduceAlgo, bf16Tensor, element_size in Hsel.
       cbn [dtype numel itemsize ScalarType_eqb negb orb] in Hsel.
       rewrite (wrap64_small (n * 2)) in Hsel by lia.
       rewrite (proj2 (Z.gtb_lt _ _)) in Hsel by lia.
       now injection Hsel as <-. }
  rewrite selectAllReduceAlgo_counts_elements in Hsel by lia.
  destruct (alignUp_256 n Hn) as [HNa Hmod].
  destruct (alignUp_world worldSize n HW Hn) as [_ [_ [A3 [A4 _]]]].
  destruct topology.
  - exfalso. apply Hne. now injection Hsel as <-.
  - destruct (Z.leb_spec (ceil_div n 256 * 256) 262144) as [L|L].
    + injection Hsel as <-.
      rewrite <- (alignUp_exact n 256) in L by lia.
      destruct (getLaunchConfig_bf16 (alignUp n 256) ltac:(lia) Hmod)
        as [blocks [threads [G _]]].
      cbn [allReduce].
      rewrite (oneShotAllReduce_stream kMaxIntraNodeSize n worldSize rank
                 blocks threads) by (auto; lia).
      split; reflexivity.
    + destruct (Z.leb_spec (ceil_div n (256 * worldSize) * (256 * worldSize))
                  10485760) as [L2|L2].
      * injection Hsel as <-.
        rewrite <- (alignUp_exact n (256 * worldSize)) in L2 by lia.
        replace (256 * worldSize) with (worldSize * 256) in L2 by lia.
        destruct (getLaunchConfig_bf16 (alignUp n (worldSize * 256)
                                        / worldSize) A4 A3)
          as [blocks [threads [G _]]].
        cbn [allReduce].
        rewrite (twoShotAllReduce_stream kMaxIntraNodeSize n worldSize rank
                   blocks threads) by (auto; lia).
        split; [ reflexivity |].
        cbn [snd]. destruct (_ =? _); reflexivity.
      * exfalso. apply Hne. now injection Hsel as <-.
  - destruct (worldSize =? 8); [| discriminate Hsel ].
    destruct (Z.leb_spec (ceil_div n 256 * 256) 262144) as [L|L].
    + injection Hsel as <-.
      rewrite <- (alignUp_exact n 256) in L by lia.
      destruct (getLaunchConfig_bf16 (alignUp n 256) ltac:(lia) Hmod)
        as [blocks [threads [G _]]].
      cbn [allReduce].
      rewrite (hybridCubeMeshAllReduce_stream kMaxIntraNodeSize n worldSize
                 rank (fun _ => topoInfo) blocks threads) by (auto; lia).
      split; reflexivity.
    + exfalso. apply Hne. now injection Hsel as <-.
Qed.

Lemma selected_algo_is_accepted_witness :
  2 * kTwoShotThreshBytes <= 20971520 < 2 ^ 32 /\
  0 <= 3000000 < 2 ^ 31 /\ 2 <= 8 <= 8 /\ 0 <= 5 < 8 /\
  selectAllReduceAlgo 20971520 (bf16Tensor 3000000 5) FULLY_CONNECTED 8
    = Ok TWO_SHOT /\
  TWO_SHOT <> NONE /\
  fst (allReduce 20971520 (bf16Tensor 3000000 5) (fun _ => -1) 5 8
                 TWO_SHOT []) = Ok (bf16Tensor 3000000 5) /\
  existsb isLaunch
    (snd (allReduce 20971520 (bf16Tensor 3000000 5) (fun _ => -1) 5 8
                    TWO_SHOT [])) = true.
Proof.
  assert (C : 2 * kTwoShotThreshBytes <= 20971520 < 2 ^ 32)
    by (unfold kTwoShotThreshBytes; lia).
  assert (S : selectAllReduceAlgo 20971520 (bf16Tensor 3000000 5)
                FULLY_CONNECTED 8 = Ok TWO_SHOT) by reflexivity.
  assert (D : TWO_SHOT <> NONE) by (intros H; discriminate H).
  split; [ exact C |]. split; [ lia |]. split; [ lia |]. split; [ lia |].
  split; [ exact S |]. split; [ exact D |].
  apply (selected_algo_is_accepted 20971520 3000000 5 8 FULLY_CONNECTED
           (fun _ => -1) TWO_SHOT C); [ lia | lia | lia | exact S | exact D ].
Defined.

(** X27.  The launch a host function enqueues has an empty block exactly
    for an empty tensor.  For a bf16 tensor of [N < 2^31] elements that
    passes the size check, on 2 to 8 ranks, each algorithm enqueues one
    kernel launch, with [1 <= blocks.x <= kMaxAllReduceBlocks]; its
    [threads.x] is 0 when [N = 0], the configuration the CUDA runtime
    refuses (the error that [C10_CUDA_KERNEL_LAUNCH_CHECK] raises and the
    model does not), and at least [kWarpSize] otherwise. *)
Theorem launch_is_empty_only_for_empty_tensor
    (kMaxIntraNodeSize N W rank : Z) (topoInfo : Z -> Z)
    (algo : AllReduceAlgo) :
  2 <= W <= 8 -> 0 <= rank < W -> 0 <= N < 2 ^ 31 ->
  algo = ONE_SHOT \/ algo = TWO_SHOT \/ algo = HCM ->
  alignedNumel W N algo <= kMaxIntraNodeSize / 2 ->
  exists k blocks threads,
    filter isLaunch
      (snd (allReduce kMaxIntraNodeSize (bf16Tensor N rank) topoInfo rank W
                      algo [])) = [Launch k blocks threads] /\
    1 <= dim_x blocks <= kMaxAllReduceBlocks /\
    (N = 0 -> dim_x threads = 0) /\
    (0 < N -> kWarpSize <= dim_x threads).
Proof.
  intros HW Hr HN Halgo Hfit. unfold kMaxAllReduceBlocks, kWarpSize.
  destruct (alignUp_256 N HN) as [HNa Hmod].
  destruct (alignUp_world W N HW HN) as [A1 [A2 [A3 [A4 A5]]]].
  destruct (alignUp_bounds N 256) as [[B1 B2] _]; try lia.
  assert (E256 : N = 0 -> alignUp N 256 = 0).
  { intros H0. rewrite <- (Z.mod_small (alignUp N 256) 256) by lia.
    exact Hmod. }
  destruct Halgo as [-> | [-> | ->]]; cbn [allReduce alignedNumel] in *.
  - destruct (getLaunchConfig_bf16 (alignUp N 256) ltac:(lia) Hmod)
      as [blocks [threads [G _]]].
    destruct (getLaunchConfig_bf16_dims (alignUp N 256) blocks threads
                ltac:(lia) Hmod G)
      as [D1 [D2 D3]].
    rewrite (oneShotAllReduce_stream kMaxIntraNodeSize N W rank blocks
               threads) by auto.
    eexists _, blocks, threads. split; [ reflexivity |].
    split; [ exact D1 |].
    split; intros H; [ apply D2; now apply E256 | apply D3; lia ].
  - destruct (getLaunchConfig_bf16 (alignUp N (W * 256) / W) A4 A3)
      as [blocks [threads [G _]]].
    destruct (getLaunchConfig_bf16_dims (alignUp N (W * 256) / W) blocks
                threads A4 A3 G)
      as [D1 [D2 D3]].
    rewrite (twoShotAllReduce_stream kMaxIntraNodeSize N W rank blocks
               threads) by auto.
    assert (Z0 : N = 0 -> alignUp N (W * 256) / W = 0).
    { intros H0.
      destruct (alignUp_bounds N (W * 256)) as [[C0 C1] _]; try lia.
      set (Npr := alignUp N (W * 256) / W) in *.
      assert (Hlt : Npr < 256) by nia.
      rewrite <- (Z.mod_small Npr 256) by lia. exact A3. }
    cbn [snd]. destruct (_ =? _);
      (eexists _, blocks, threads; split; [ reflexivity |];
       split; [ exact D1 |]; split; intros H;
       [ apply D2; now apply Z0 | apply D3; apply A5; lia ]).
  - destruct (getLaunchConfig_bf16 (alignUp N 256) ltac:(lia) Hmod)
      as [blocks [threads [G _]]].
    destruct (getLaunchConfig_bf16_dims (alignUp N 256) blocks threads
                ltac:(lia) Hmod G)
      as [D1 [D2 D3]].
    rewrite (hybridCubeMeshAllReduce_stream kMaxIntraNodeSize N W rank
               (fun _ => topoInfo) blocks threads) by (auto; lia).
    eexists _, blocks, threads. split; [ reflexivity |].
    split; [ exact D1 |].
    split; intros H; [ apply D2; now apply E256 | apply D3; lia ].
Qed.

(** [launch_is_empty_only_for_empty_tensor] for the one-shot algorithm on
    an empty tensor. *)
Lemma launch_is_empty_only_for_empty_tensor_witness :
  (2 <= 2 <= 8) /\ (0 <= 0 < 2) /\ (0 <= 0 < 2 ^ 31) /\
  (ONE_SHOT = ONE_SHOT \/ ONE_SHOT = TWO_SHOT \/ ONE_SHOT = HCM) /\
  alignedNumel 2 0 ONE_SHOT <= 1048576 / 2 /\
  exists k blocks threads,
    filter isLaunch
      (snd (allReduce 1048576 (bf16Tensor 0 0) (fun _ => -1) 0 2
                      ONE_SHOT [])) = [Launch k blocks threads] /\
    1 <= dim_x blocks <= kMaxAllReduceBlocks /\
    (0 = 0 -> dim_x threads = 0) /\
    (0 < 0 -> kWarpSize <= dim_x threads).
Proof.
  assert (A : ONE_SHOT = ONE_SHOT \/ ONE_SHOT = TWO_SHOT \/ ONE_SHOT = HCM)
    by (left; reflexivity).
  assert (F : alignedNumel 2 0 ONE_SHOT <= 1048576 / 2)
    by (vm_compute; intros H; discriminate H).
  split; [ lia |]. split; [ lia |]. split; [ lia |]. split; [ exact A |].
  split; [ exact F |].
  apply (launch_is_empty_only_for_empty_tensor 1048576 0 2 0 (fun _ => -1)
           ONE_SHOT); [ lia | lia | lia | exact A | exact F ].
Defined.

(** ** The further kernel properties on integers *)

(** [twoShot_allReduce_ranks_agree] at three ranks and 1000 elements. *)
Lemma twoShot_allReduce_ranks_agree_witness :
  (2 <= 3 <= 8) /\ (0 <= 1000 < 2 ^ 31) /\
  alignUp 1000 (3 * 256) <= 20971520 / 2 /\
  (forall r, 0 <= r < 3 ->
     fst (allReduce 20971520 (bf16Tensor 1000 r) (fun _ => -1) r 3
                    TWO_SHOT []) = Ok (bf16Tensor 1000 r)) /\
  exists h',
    runCollective Z 0 Z.add 20971520
      (collectiveStreams 20971520 (bf16Tensor 1000) (fun _ _ => -1) 3
                         TWO_SHOT)
      rampHeap = Some h' /\
    (forall r p, 0 <= r < 3 -> 0 <= p < 1000 ->
       h' (Input r) p =
       rotatedSum Z 0 Z.add 3 (p / (alignUp 1000 (3 * 256) / 3))
                  (fun q => rampHeap (Input q) p)) /\
    (forall r r' p, 0 <= r < 3 -> 0 <= r' < 3 -> 0 <= p < 1000 ->
       h' (Input r) p = h' (Input r') p).
Proof.
  assert (F : alignUp 1000 (3 * 256) <= 20971520 / 2)
    by (vm_compute; intros H; discriminate H).
  split; [ lia |]. split; [ lia |]. split; [ exact F |].
  apply (twoShot_allReduce_ranks_agree Z 0 Z.add 20971520 3 1000
           (fun _ _ => -1) rampHeap); [ lia | lia | exact F ].
Defined.

(** [hcm_allReduce_on_recognized_mesh] on the table of [dgx1Mesh]. *)
Lemma hcm_allReduce_on_recognized_mesh_witness :
  (forall s x, In x (reverseInsertionOrder s) -> In x s) /\
  getHybridCubeMesh reverseInsertionOrder dgx1Mesh = Ok (Some dgx1Table) /\
  (forall r k, 0 <= r < kMaxDevices -> 0 <= k < 3 ->
     dgx1Table (dgx1Table r k) k = r) /\
  (0 <= 1000 < 2 ^ 31) /\ alignUp 1000 256 <= 20971520 / 2 /\
  exists h',
    runCollective Z 0 Z.add 20971520
      (collectiveStreams 20971520 (bf16Tensor 1000) dgx1Table kMaxDevices
                         HCM)
      rampHeap = Some h' /\
    forall r p, 0 <= r < kMaxDevices -> 0 <= p < 1000 ->
      let partial q :=
        hcmPartialSum Z 0 Z.add (dgx1Table q) q
                      (fun q' => rampHeap (Input q') p) in
      h' (Input r) p = partial r + partial (dgx1Table r 3) /\
      h' (Input (dgx1Table r 3)) p = partial (dgx1Table r 3) + partial r.
Proof.
  assert (F : alignUp 1000 256 <= 20971520 / 2)
    by (vm_compute; intros H; discriminate H).
  split; [ exact reverseInsertionOrder_incl |].
  split; [ exact dgx1Table_returned |].
  split; [ exact dgx1Table_symmetric |].
  split; [ lia |]. split; [ exact F |].
  apply (hcm_allReduce_on_recognized_mesh Z 0 Z.add reverseInsertionOrder
           dgx1Mesh dgx1Table 20971520 1000 rampHeap
           reverseInsertionOrder_incl dgx1Table_returned
           dgx1Table_symmetric);
    [ lia | exact F ].
Defined.


(** [rotated_peers_are_a_permutation] at world size 8, rank 5. *)
Lemma rotated_peers_are_a_permutation_witness :
  (0 <= 5 < 8) /\
  Permutation (map (srcRank 8 5) (seqZ 8)) (seqZ 8) /\
  ((forall a b : Z, a + b = b + a) ->
   (forall a b c : Z, a + b + c = a + (b + c)) ->
   rotatedSum Z 0 Z.add 8 5 (fun q => 100 * q) =
   fold_left Z.add (map (fun q => 100 * q) (seqZ 8)) 0).
Proof.
  split; [ lia |].
  apply (rotated_peers_are_a_permutation Z 0 Z.add 8 5 (fun q => 100 * q)).
  lia.
Defined.

(** [grid_stride_loop_visits_each_chunk_once] at 65536 elements. *)
Lemma grid_stride_loop_visits_each_chunk_once_witness :
  (0 <= 65536 <= 2 ^ 31) /\ 65536 mod (numelPerThread * kWarpSize) = 0 /\
  exists blocks threads positions,
    getLaunchConfig 65536 (itemsize kBFloat16) = Ok (blocks, threads) /\
    NoDup positions /\
    (forall p, In p positions <->
               0 <= p < 65536 /\ p mod numelPerThread = 0) /\
    forall (S : Type) (body : Z -> S -> S) (s : S),
      forThreads (dim_x blocks) (dim_x threads)
        (fun blockIdx threadIdx =>
           forStride (Z.to_nat 65536)
             (threadOffset (dim_x threads) blockIdx threadIdx) 65536
             (threadStride (dim_x threads) (dim_x blocks)) body) s =
      Some (fold_left (fun s p => body p s) positions s).
Proof.
  split; [ lia |]. split; [ reflexivity |].
  apply (grid_stride_loop_visits_each_chunk_once 65536);
    [ lia | reflexivity ].
Defined.

Lemma returned_value {A : Type} (o : option A) (d : A) :
  match o with Some _ => true | None => false end = true ->
  o = Some match o with Some a => a | None => d end.
Proof. destruct o; intros H; [ reflexivity | discriminate H ]. Qed.


Local Notation "'scatter'" := (scatterOfRank3 Z 0 Z.add).
Local Notation "'afterScatter'" :=
  (afterScatterOfRank3 Z 0 Z.add (fun z : Z => z)).

(** [kernels_leave_other_ranks_buffers] at the reduce-scatter phase of the
    two-shot kernel of rank 3 of 4. *)
Lemma kernels_leave_other_ranks_buffers_witness :
  In scatter
     (kernelPhases Z 0 Z.add 20971520 (TwoShotKernel 4 (Input 3, 0) 1024 3)
                   (mkDim3 1 1 1) (mkDim3 32 1 1)) /\
  (forall q, fst (kernelOutput (TwoShotKernel 4 (Input 3, 0) 1024 3))
             <> Buffer q) /\
  kernelRankInWorld (TwoShotKernel 4 (Input 3, 0) 1024 3) /\
  scatter rampHeap = Some afterScatter /\
  forall q j, q <> kernelRank (TwoShotKernel 4 (Input 3, 0) 1024 3) ->
    afterScatter (Buffer q) j = rampHeap (Buffer q) j.
Proof.
  assert (I : In scatter
                 (kernelPhases Z 0 Z.add 20971520
                    (TwoShotKernel 4 (Input 3, 0) 1024 3)
                    (mkDim3 1 1 1) (mkDim3 32 1 1)))
    by (left; reflexivity).
  assert (O : forall q, fst (kernelOutput
                               (TwoShotKernel 4 (Input 3, 0) 1024 3))
                        <> Buffer q)
    by (intros q H; discriminate H).
  assert (R : kernelRankInWorld (TwoShotKernel 4 (Input 3, 0) 1024 3))
    by (cbn; lia).
  assert (E : scatter rampHeap = Some afterScatter)
    by (apply returned_value; vm_compute; reflexivity).
  split; [ exact I |]. split; [ exact O |]. split; [ exact R |].
  split; [ exact E |].
  apply (kernels_leave_other_ranks_buffers Z 0 Z.add 20971520
           (TwoShotKernel 4 (Input 3, 0) 1024 3) (mkDim3 1 1 1)
           (mkDim3 32 1 1) scatter rampHeap afterScatter
           I O R E).
Defined.

(** [role_table_assigned_and_relay_involutive] on the table of [dgx1Mesh],
    at rank 6. *)
Lemma role_table_assigned_and_relay_involutive_witness :
  (forall s x, In x (reverseInsertionOrder s) -> In x s) /\
  getHybridCubeMesh reverseInsertionOrder dgx1Mesh = Ok (Some dgx1Table) /\
  (0 <= 6 < kMaxDevices) /\
  (forall k, 0 <= k < 4 ->
     dgx1Table 6 k <> -1 /\ 0 <= dgx1Table 6 k < kMaxDevices) /\
  dgx1Table (dgx1Table 6 3) 3 = 6.
Proof.
  split; [ exact reverseInsertionOrder_incl |].
  split; [ exact dgx1Table_returned |].
  split; [ unfold kMaxDevices; lia |].
  apply (role_table_assigned_and_relay_involutive reverseInsertionOrder
           dgx1Mesh dgx1Table reverseInsertionOrder_incl dgx1Table_returned
           6).
  unfold kMaxDevices. lia.
Defined.

(** [oneShot_and_twoShot_agree_under_exact_addition] on integers, at three
    ranks and 1000 elements. *)
Lemma oneShot_and_twoShot_agree_under_exact_addition_witness :
  (forall a b : Z, a + b = b + a) /\
  (forall a b c : Z, a + b + c = a + (b + c)) /\
  (2 <= 3 <= 8) /\ (0 <= 1000 < 2 ^ 31) /\
  alignUp 1000 256 <= 20971520 / 2 /\
  alignUp 1000 (3 * 256) <= 20971520 / 2 /\
  exists h1 h2,
    runCollective Z 0 Z.add 20971520
      (collectiveStreams 20971520 (bf16Tensor 1000) (fun _ _ => -1) 3
                         ONE_SHOT)
      rampHeap = Some h1 /\
    runCollective Z 0 Z.add 20971520
      (collectiveStreams 20971520 (bf16Tensor 1000) (fun _ _ => -1) 3
                         TWO_SHOT)
      rampHeap = Some h2 /\
    forall r p, 0 <= r < 3 -> 0 <= p < 1000 ->
      h1 (Input r) p =
        fold_left Z.add (map (fun q => rampHeap (Input q) p) (seqZ 3)) 0 /\
      h2 (Input r) p = h1 (Input r) p.
Proof.
  assert (F1 : alignUp 1000 256 <= 20971520 / 2)
    by (vm_compute; intros H; discriminate H).
  assert (F2 : alignUp 1000 (3 * 256) <= 20971520 / 2)
    by (vm_compute; intros H; discriminate H).
  split; [ exact Z.add_comm |].
  split; [ exact (fun a b c => eq_sym (Z.add_assoc a b c)) |].
  split; [ lia |]. split; [ lia |]. split; [ exact F1 |].
  split; [ exact F2 |].
  apply (oneShot_and_twoShot_agree_under_exact_addition Z 0 Z.add 20971520
           3 1000 (fun _ _ => -1) rampHeap Z.add_comm
           (fun a b c => eq_sym (Z.add_assoc a b c)));
    [ lia | lia | exact F1 | exact F2 ].
Defined.

(** * Signals and barriers *)


Lemma runSignals_semaphore (ops : list signalOp) (s : signalState) :
  Z.of_nat (List.length ops) < 2 ^ 32 ->
  runSignals ops initP2pState = Some s ->
  (forall c, s c = releasesOf c ops - acquiresOf c ops /\ 0 <= s c) /\
  (forall pre c post, ops = pre ++ Acquire c :: post ->
     acquiresOf c pre < releasesOf c pre /\
     exists before after, pre = before ++ Release c :: after).
Proof.
  intros Hlen Hrun.
  assert (Hb : forall l c, Z.of_nat (List.length l) < 2 ^ 32 ->
                 initP2pState c + releasesOf c l < 2 ^ 32).
  { intros l c Hl. pose proof (releasesOf_length c l).
    unfold initP2pState. lia. }
  split.
  - intros c.
    destruct (runSignals_counts ops initP2pState s Hrun
                ltac:(intros; unfold initP2pState; lia)
                ltac:(intros; now apply Hb) c) as [V P].
    unfold initP2pState in V. split; [ lia | exact P ].
  - intros pre c post ->.
    unfold runSignals in Hrun. rewrite foldM_app in Hrun.
    destruct (foldM _ pre initP2pState) as [s1|] eqn:E1;
      [| discriminate Hrun ].
    cbn [foldM] in Hrun. unfold acquireSignal in Hrun.
    destruct (Z.eqb_spec (s1 c) 0) as [Z0|Z0]; [ discriminate Hrun |].
    assert (Hpre : Z.of_nat (List.length pre) < 2 ^ 32).
    { rewrite length_app in Hlen. lia. }
    destruct (runSignals_counts pre initP2pState s1 E1
                ltac:(intros; unfold initP2pState; lia)
                ltac:(intros; now apply Hb) c) as [V P].
    unfold initP2pState in V.
    assert (Hlt : acquiresOf c pre < releasesOf c pre) by lia.
    split; [ exact Hlt |].
    assert (Hpos : 0 < releasesOf c pre).
    { unfold acquiresOf in Hlt. lia. }
    unfold releasesOf in Hpos.
    destruct (filter _ pre) as [|op l] eqn:F; [ cbn in Hpos; lia |].
    assert (Hin : In op (filter
                   (fun op => match op with
                              | Release c' => signalCell_eqb c' c
                              | Acquire _ => false
                              end) pre))
      by (rewrite F; now left).
    apply filter_In in Hin. destruct Hin as [Hin Hop].
    destruct op as [c'|c']; [| discriminate Hop ].
    apply signalCell_eqb_eq in Hop. subst c'.
    apply in_split in Hin. exact Hin.
Qed.

(** X17.  The signals are counting semaphores.  In every interleaving of
    fewer than [2^32] releases and completed acquires that starts from the
    zeroed tables of [initP2pState], every cell ends at the number of its
    releases minus the number of its acquires, and an [acquireSignal] only
    completes after more releases of its cell than earlier acquires of it:
    no acquire passes without a release of its own. *)
Theorem acquire_completes_after_its_release (ops : list signalOp)
    (s : signalState) :
  Z.of_nat (List.length ops) < 2 ^ 32 ->
  runSignals ops initP2pState = Some s ->
  (forall c, s c = releasesOf c ops - acquiresOf c ops /\ 0 <= s c) /\
  (forall pre c post, ops = pre ++ Acquire c :: post ->
     acquiresOf c pre < releasesOf c pre /\
     exists before after, pre = before ++ Release c :: after).
Proof.
  intros Hlen Hrun. now apply runSignals_semaphore.
Qed.

Lemma releasesOf_permutation (c : signalCell) (l l' : list signalOp) :
  Permutation l l' -> releasesOf c l = releasesOf c l'.
Proof.
  intros P. induction P.
  - reflexivity.
  - rewrite !releasesOf_cons. lia.
  - rewrite !releasesOf_cons. lia.
  - lia.
Qed.

Lemma acquiresOf_permutation (c : signalCell) (l l' : list signalOp) :
  Permutation l l' -> acquiresOf c l = acquiresOf c l'.
Proof.
  intros P. induction P.
  - reflexivity.
  - rewrite !acquiresOf_cons. lia.
  - rewrite !acquiresOf_cons. lia.
  - lia.
Qed.


Lemma barrierOps_cells (W blockIdx phase : Z) :
  barrierOps W blockIdx phase =
  map Release (releasedCells W blockIdx phase) ++
  map Acquire (acquiredCells W blockIdx phase).
Proof.
  unfold barrierOps, releasedCells, acquiredCells.
  f_equal; induction (seqZ W) as [|r l IH]; cbn [flat_map map];
    try reflexivity; rewrite map_app; now f_equal.
Qed.

Lemma releasedCells_In (W b ph : Z) (c : signalCell) :
  In c (releasedCells W b ph) <->
  exists rank target, 0 <= rank < W /\ 0 <= target < W /\
                      c = mkSignalCell target ph b rank.
Proof.
  unfold releasedCells, barrierReleases. rewrite in_flat_map. split.
  - intros [r [Hr H]]. apply in_map_iff in H. destruct H as [t [<- Ht]].
    apply seqZ_In in Hr, Ht. exists r, t. auto.
  - intros [r [t [Hr [Ht ->]]]]. exists r. split; [ now apply seqZ_In |].
    apply in_map_iff. exists t. split; [ reflexivity | now apply seqZ_In ].
Qed.

Lemma acquiredCells_In (W b ph : Z) (c : signalCell) :
  In c (acquiredCells W b ph) <->
  exists rank target, 0 <= rank < W /\ 0 <= target < W /\
                      c = mkSignalCell rank ph b target.
Proof.
  unfold acquiredCells, barrierAcquires. rewrite in_flat_map. split.
  - intros [r [Hr H]]. apply in_map_iff in H. destruct H as [t [<- Ht]].
    apply seqZ_In in Hr, Ht. exists r, t. auto.
  - intros [r [t [Hr [Ht ->]]]]. exists r. split; [ now apply seqZ_In |].
    apply in_map_iff. exists t. split; [ reflexivity | now apply seqZ_In ].
Qed.

Lemma releasedCells_NoDup (W b ph : Z) : NoDup (releasedCells W b ph).
Proof.
  unfold releasedCells, barrierReleases.
  apply NoDup_flat_map_keyed with (key := cell_column).
  - apply seqZ_NoDup.
  - intros r _. apply Finite.Injective_map_NoDup; [| apply seqZ_NoDup ].
    intros t t' E. now injection E.
  - intros r c _ H. apply in_map_iff in H. destruct H as [t [<- _]].
    reflexivity.
Qed.

Lemma acquiredCells_NoDup (W b ph : Z) : NoDup (acquiredCells W b ph).
Proof.
  unfold acquiredCells, barrierAcquires.
  apply NoDup_flat_map_keyed with (key := cell_owner).
  - apply seqZ_NoDup.
  - intros r _. apply Finite.Injective_map_NoDup; [| apply seqZ_NoDup ].
    intros t t' E. now injection E.
  - intros r c _ H. apply in_map_iff in H. destruct H as [t [<- _]].
    reflexivity.
Qed.

(** Every cell a barrier releases is a cell it acquires, once each. *)
Lemma barrier_cells_balanced (W b ph : Z) :
  Permutation (releasedCells W b ph) (acquiredCells W b ph).
Proof.
  apply NoDup_Permutation.
  - apply releasedCells_NoDup.
  - apply acquiredCells_NoDup.
  - intros c. rewrite releasedCells_In, acquiredCells_In. split.
    + intros [r [t [Hr [Ht ->]]]]. exists t, r. auto.
    + intros [r [t [Hr [Ht ->]]]]. exists t, r. auto.
Qed.


Lemma barrierOps_balanced (W b ph : Z) (c : signalCell) :
  releasesOf c (barrierOps W b ph) = acquiresOf c (barrierOps W b ph).
Proof.
  rewrite barrierOps_cells, releasesOf_app, acquiresOf_app.
  rewrite releasesOf_map_Release, releasesOf_map_Acquire,
    acquiresOf_map_Release, acquiresOf_map_Acquire.
  rewrite (filter_length_permutation _ _ _ (barrier_cells_balanced W b ph)).
  lia.
Qed.


Lemma runSignals_acquires (l : list signalCell) (s : signalState) :
  NoDup l -> (forall c, In c l -> s c <> 0) ->
  exists s', runSignals (map Acquire l) s = Some s'.
Proof.
  revert s. induction l as [|c l IH]; intros s Hnd Hpos.
  - now exists s.
  - inversion Hnd as [|? ? Hni Hnd']; subst.
    unfold runSignals. cbn [map foldM]. unfold acquireSignal.
    rewrite (proj2 (Z.eqb_neq _ _) (Hpos c ltac:(now left))).
    apply IH; [ exact Hnd' |].
    intros c' Hc'. unfold setSignal.
    rewrite signalCell_eqb_neq by (intros ->; contradiction).
    apply Hpos. now right.
Qed.

(** A round of releases and acquires in which every released cell is
    acquired once: it can complete, every complete interleaving of it ends
    with all signals at zero, and in none does an acquire of a cell come
    before the release of that cell. *)
Lemma balanced_round (rel acq : list signalCell) :
  NoDup acq -> Permutation rel acq ->
  Z.of_nat (List.length rel + List.length acq) < 2 ^ 32 ->
  (exists s, runSignals (map Release rel ++ map Acquire acq) initP2pState
             = Some s) /\
  forall ops s,
    Permutation ops (map Release rel ++ map Acquire acq) ->
    runSignals ops initP2pState = Some s ->
    (forall c, s c = 0) /\
    (forall c pre post, ops = pre ++ Acquire c :: post ->
                        In (Release c) pre).
Proof.
  intros Hnd Hperm Hlen. split.
  - unfold runSignals. rewrite foldM_app.
    destruct (runSignals_releases rel initP2pState) as [s1 E1].
    unfold runSignals in E1. rewrite E1.
    apply runSignals_acquires; [ exact Hnd |].
    intros c Hc.
    destruct (runSignals_counts _ initP2pState s1 E1
                ltac:(intros; unfold initP2pState; lia)) with (c := c)
      as [V _].
    { intros c'. pose proof (releasesOf_length c' (map Release rel)) as B.
      rewrite length_map in B. unfold initP2pState. lia. }
    rewrite V, acquiresOf_map_Release, releasesOf_map_Release.
    unfold initP2pState.
    apply (Permutation_in _ (Permutation_sym Hperm)) in Hc.
    destruct (filter _ _) as [|x l] eqn:F; [| cbn; lia ].
    exfalso.
    assert (Hin : In c (filter (fun c' => signalCell_eqb c' c) rel)).
    { apply filter_In. split; [ exact Hc | apply signalCell_eqb_refl ]. }
    rewrite F in Hin. exact Hin.
  - intros ops s P Hrun.
    assert (Hl : Z.of_nat (List.length ops) < 2 ^ 32).
    { rewrite (Permutation_length P), length_app, !length_map. lia. }
    destruct (runSignals_semaphore ops s Hl Hrun) as [V Hpre].
    split.
    + intros c. destruct (V c) as [Vc _]. rewrite Vc.
      rewrite (releasesOf_permutation c _ _ P),
        (acquiresOf_permutation c _ _ P).
      rewrite releasesOf_app, acquiresOf_app.
      rewrite releasesOf_map_Release, releasesOf_map_Acquire,
        acquiresOf_map_Release, acquiresOf_map_Acquire.
      rewrite (filter_length_permutation _ _ _ Hperm). lia.
    + intros c pre post E.
      destruct (Hpre pre c post E) as [_ [before [after ->]]].
      apply in_or_app. right. now left.
Qed.

(** X18.  One barrier of the fully connected kernels, for the blocks
    [blockIdx] of [W <= 8] ranks, on zeroed signal tables.  It can complete:
    the interleaving in which every rank releases before any acquires runs
    to its end.  In every interleaving of its steps that completes, rank
    [rank] gets past its acquire of [targetRank]'s signal only after
    [targetRank] has released it, that is, after [targetRank] has entered
    the kernel; and at the end every signal is zero again, so that the next
    kernel finds the tables as [initP2pState] left them. *)
Theorem barrier_waits_for_every_rank (W blockIdx phase : Z) :
  0 < W <= kMaxDevices ->
  (exists s, runSignals (barrierOps W blockIdx phase) initP2pState = Some s)
  /\
  forall ops s,
    Permutation ops (barrierOps W blockIdx phase) ->
    runSignals ops initP2pState = Some s ->
    (forall c, s c = 0) /\
    (forall rank targetRank pre post,
       ops = pre ++ Acquire (mkSignalCell rank phase blockIdx targetRank)
                 :: post ->
       In (Release (mkSignalCell rank phase blockIdx targetRank)) pre).
Proof.
  intros HW. unfold kMaxDevices in HW.
  assert (Hlen : (List.length (releasedCells W blockIdx phase) +
                  List.length (acquiredCells W blockIdx phase) <= 128)%nat).
  { assert (C : W = 1 \/ W = 2 \/ W = 3 \/ W = 4 \/
                W = 5 \/ W = 6 \/ W = 7 \/ W = 8) by lia.
    destruct C as [->|[->|[->|[->|[->|[->|[->| ->]]]]]]];
      vm_compute; lia. }
  destruct (balanced_round (releasedCells W blockIdx phase)
              (acquiredCells W blockIdx phase)
              (acquiredCells_NoDup W blockIdx phase)
              (barrier_cells_balanced W blockIdx phase) ltac:(lia))
    as [Hex Hall].
  rewrite barrierOps_cells. split; [ exact Hex |].
  intros ops s P Hrun. destruct (Hall ops s P Hrun) as [Z0 Hpre].
  split; [ exact Z0 |].
  intros rank targetRank pre post E. apply (Hpre _ pre post E).
Qed.

Lemma barrier_waits_for_every_rank_witness :
  0 < 4 <= kMaxDevices /\
  (exists s, runSignals (barrierOps 4 0 0) initP2pState = Some s) /\
  forall ops s,
    Permutation ops (barrierOps 4 0 0) ->
    runSignals ops initP2pState = Some s ->
    (forall c, s c = 0) /\
    (forall rank targetRank pre post,
       ops = pre ++ Acquire (mkSignalCell rank 0 0 targetRank) :: post ->
       In (Release (mkSignalCell rank 0 0 targetRank)) pre).
Proof.
  assert (H : 0 < 4 <= kMaxDevices) by (unfold kMaxDevices; lia).
  split; [ exact H |].
  apply (barrier_waits_for_every_rank 4 0 0 H).
Defined.

(** ** The handshakes of the hybrid-cube-mesh kernel *)




(** X21.  The relay handshake of the hybrid-cube-mesh kernel is balanced on
    every role table [getHybridCubeMesh] returns, whatever the matrix and
    the enumeration order: as the relay of the relay of a rank is the rank,
    the signal a rank acquires is the one its relay releases.  The
    handshake can complete, every complete interleaving leaves all signals
    at zero, and a rank gets past its acquire only after its relay has
    released, that is, after the relay has stored its partial sums. *)
Theorem hcm_relay_handshake_is_balanced (enumerate : list Z -> list Z)
    (nvlMesh : NvlMesh) (hcm : HybridCubeMesh) (blockIdx : Z) :
  (forall s x, In x (enumerate s) -> In x s) ->
  getHybridCubeMesh enumerate nvlMesh = Ok (Some hcm) ->
  (exists s, runSignals (hcmRelayOps hcm blockIdx) initP2pState = Some s) /\
  forall ops s,
    Permutation ops (hcmRelayOps hcm blockIdx) ->
    runSignals ops initP2pState = Some s ->
    (forall c, s c = 0) /\
    (forall rank pre post,
       0 <= rank < kMaxDevices ->
       ops = pre ++ Acquire (hcmRelayAcquire (hcm rank) rank blockIdx)
                 :: post ->
       In (Release (hcmRelayRelease (hcm (hcm rank 3)) (hcm rank 3)
                                    blockIdx)) pre).
Proof.
  intros Hincl Hrun.
  destruct (getHybridCubeMesh_facts enumerate nvlMesh hcm Hincl Hrun)
    as [relay [R1 _]].
  assert (Hrange : forall r, 0 <= r < kMaxDevices ->
                             0 <= hcm r 3 < kMaxDevices).
  { intros r Hr. destruct (R1 r Hr) as [Rr [_ E]]. now rewrite E. }
  assert (Hinv : forall r, 0 <= r < kMaxDevices -> hcm (hcm r 3) 3 = r).
  { intros r Hr. destruct (R1 r Hr) as [Rr [Ri E]]. rewrite E.
    destruct (R1 (relay r) Rr) as [_ [_ E']]. now rewrite E'. }
  set (rel := map (fun r => hcmRelayRelease (hcm r) r blockIdx)
                  (seqZ kMaxDevices)).
  set (acq := map (fun r => hcmRelayAcquire (hcm r) r blockIdx)
                  (seqZ kMaxDevices)).
  assert (Eops : hcmRelayOps hcm blockIdx =
                 map Release rel ++ map Acquire acq).
  { unfold hcmRelayOps, rel, acq. now rewrite !map_map. }
  assert (Nacq : NoDup acq).
  { unfold acq. apply Finite.Injective_map_NoDup; [| apply seqZ_NoDup ].
    intros r r' E. unfold hcmRelayAcquire in E. now injection E. }
  assert (Nrel : NoDup rel).
  { unfold rel. apply Finite.Injective_map_NoDup; [| apply seqZ_NoDup ].
    intros r r' E. unfold hcmRelayRelease in E. now injection E. }
  assert (Hperm : Permutation rel acq).
  { apply NoDup_Permutation; [ exact Nrel | exact Nacq |].
    intros c. unfold rel, acq. rewrite !in_map_iff. split.
    - intros [r [<- Hr]]. apply seqZ_In in Hr. exists (hcm r 3). split.
      + unfold hcmRelayAcquire, hcmRelayRelease. now rewrite Hinv.
      + apply seqZ_In. now apply Hrange.
    - intros [r [<- Hr]]. apply seqZ_In in Hr. exists (hcm r 3). split.
      + unfold hcmRelayAcquire, hcmRelayRelease. now rewrite Hinv.
      + apply seqZ_In. now apply Hrange. }
  assert (Hlen : Z.of_nat (List.length rel + List.length acq) < 2 ^ 32).
  { unfold rel, acq. rewrite !length_map.
    change (List.length (seqZ kMaxDevices)) with 8%nat. lia. }
  destruct (balanced_round rel acq Nacq Hperm Hlen) as [Hex Hall].
  rewrite Eops. split; [ exact Hex |].
  intros ops s P Hs. destruct (Hall ops s P Hs) as [Z0 Hpre].
  split; [ exact Z0 |].
  intros rank pre post Hrank E.
  unfold hcmRelayRelease. rewrite (Hinv rank Hrank).
  apply (Hpre _ pre post E).
Qed.


(** [acquire_completes_after_its_release] at [handOff]. *)
Lemma acquire_completes_after_its_release_witness :
  Z.of_nat (List.length handOff) < 2 ^ 32 /\
  runSignals handOff initP2pState = Some afterHandOff /\
  (forall c, afterHandOff c = releasesOf c handOff - acquiresOf c handOff /\
             0 <= afterHandOff c) /\
  (forall pre c post, handOff = pre ++ Acquire c :: post ->
     acquiresOf c pre < releasesOf c pre /\
     exists before after, pre = before ++ Release c :: after).
Proof.
  assert (L : Z.of_nat (List.length handOff) < 2 ^ 32) by (cbn; lia).
  assert (E : runSignals handOff initP2pState = Some afterHandOff)
    by (apply returned_value; vm_compute; reflexivity).
  split; [ exact L |]. split; [ exact E |].
  apply (acquire_completes_after_its_release handOff afterHandOff L E).
Defined.



(** [hcm_relay_handshake_is_balanced] on the table of [dgx1Mesh]. *)
Lemma hcm_relay_handshake_is_balanced_witness :
  (forall s x, In x (reverseInsertionOrder s) -> In x s) /\
  getHybridCubeMesh reverseInsertionOrder dgx1Mesh = Ok (Some dgx1Table) /\
  (exists s, runSignals (hcmRelayOps dgx1Table 0) initP2pState = Some s) /\
  forall ops s,
    Permutation ops (hcmRelayOps dgx1Table 0) ->
    runSignals ops initP2pState = Some s ->
    (forall c, s c = 0) /\
    (forall rank pre post,
       0 <= rank < kMaxDevices ->
       ops = pre ++ Acquire (hcmRelayAcquire (dgx1Table rank) rank 0)
                 :: post ->
       In (Release (hcmRelayRelease (dgx1Table (dgx1Table rank 3))
                                    (dgx1Table rank 3) 0)) pre).
Proof.
  split; [ exact reverseInsertionOrder_incl |].
  split; [ exact dgx1Table_returned |].
  apply (hcm_relay_handshake_is_balanced reverseInsertionOrder dgx1Mesh
           dgx1Table 0 reverseInsertionOrder_incl dgx1Table_returned).
Defined.

(** X26.  A release never waits, so the order "every release, then the
    acquires" decides a barrier.  If some interleaving of the releases
    [rel] and the acquires [acq] completes on zeroed tables, the
    interleaving that runs the releases first completes too, and ends with
    the same signals; if that one does not complete, no interleaving
    does. *)
Theorem releases_first_decides_a_barrier (rel acq : list signalCell)
    (ops : list signalOp) :
  Z.of_nat (List.length rel + List.length acq) < 2 ^ 32 ->
  Permutation ops (map Release rel ++ map Acquire acq) ->
  (forall s, runSignals ops initP2pState = Some s ->
     exists s',
       runSignals (map Release rel ++ map Acquire acq) initP2pState
       = Some s' /\
       forall c, s' c = s c) /\
  (runSignals (map Release rel ++ map Acquire acq) initP2pState = None ->
   runSignals ops initP2pState = None).
Proof.
  intros Hlen P.
  assert (G : forall s, runSignals ops initP2pState = Some s ->
            exists s',
              runSignals (map Release rel ++ map Acquire acq) initP2pState
              = Some s' /\
              forall c, s' c = s c).
  { intros s Hrun.
    assert (Hl : Z.of_nat (List.length ops) < 2 ^ 32).
    { rewrite (Permutation_length P), length_app, !length_map. lia. }
    destruct (runSignals_semaphore ops s Hl Hrun) as [V _].
    assert (C : forall c, s c = cellCount c rel - cellCount c acq /\
                          0 <= s c).
    { intros c. destruct (V c) as [Vc Vp]. split; [| exact Vp ].
      rewrite Vc, (releasesOf_permutation c _ _ P),
        (acquiresOf_permutation c _ _ P).
      rewrite releasesOf_app, acquiresOf_app, releasesOf_map_Release,
        releasesOf_map_Acquire, acquiresOf_map_Release,
        acquiresOf_map_Acquire.
      unfold cellCount. lia. }
    destruct (runSignals_release_all rel initP2pState) as [s1 [E1 V1]].
    { intros c. unfold initP2pState. lia. }
    { intros c. pose proof (cellCount_length c rel).
      unfold initP2pState. lia. }
    destruct (runSignals_acquire_all acq s1) as [s2 [E2 V2]].
    { intros c. rewrite V1. destruct (C c). unfold initP2pState. lia. }
    exists s2. split.
    - unfold runSignals in *. now rewrite foldM_app, E1.
    - intros c. rewrite V2, V1. destruct (C c) as [-> _].
      unfold initP2pState. lia. }
  split; [ exact G |].
  intros Hnone. destruct (runSignals ops initP2pState) as [s|] eqn:E;
    [| reflexivity ].
  destruct (G s eq_refl) as [s' [E' _]]. congruence.
Qed.

(** [releases_first_decides_a_barrier] at [handOff]. *)
Lemma releases_first_decides_a_barrier_witness :
  Z.of_nat (List.length [mkSignalCell 1 0 0 0] +
            List.length [mkSignalCell 1 0 0 0]) < 2 ^ 32 /\
  Permutation handOff
    (map Release [mkSignalCell 1 0 0 0] ++
     map Acquire [mkSignalCell 1 0 0 0]) /\
  (forall s, runSignals handOff initP2pState = Some s ->
     exists s',
       runSignals (map Release [mkSignalCell 1 0 0 0] ++
                   map Acquire [mkSignalCell 1 0 0 0]) initP2pState
       = Some s' /\
       forall c, s' c = s c) /\
  (runSignals (map Release [mkSignalCell 1 0 0 0] ++
               map Acquire [mkSignalCell 1 0 0 0]) initP2pState = None ->
   runSignals handOff initP2pState = None).
Proof.
  assert (L : Z.of_nat (List.length [mkSignalCell 1 0 0 0] +
                        List.length [mkSignalCell 1 0 0 0]) < 2 ^ 32)
    by (cbn; lia).
  assert (P : Permutation handOff
                (map Release [mkSignalCell 1 0 0 0] ++
                 map Acquire [mkSignalCell 1 0 0 0]))
    by apply Permutation_refl.
  split; [ exact L |]. split; [ exact P |].
  apply (releases_first_decides_a_barrier [mkSignalCell 1 0 0 0]
           [mkSignalCell 1 0 0 0] handOff L P).
Defined.

(** * The recognition loop decides the conditions on the matrix *)

Lemma buildRow_spec (nvlMesh : NvlMesh) (i : Z) (l : list Z) :
  (forall j, In j l -> 0 <= j < 64) ->
  forall (nb : Z -> list Z) (mk : Z -> Z),
    let st' :=
      fold_left
        (fun (st : (Z -> list Z) * (Z -> Z)) j =>
           let '(neighbors, neighborMasks) := st in
           if nvlMesh i j >? 0 then
             (setRow neighbors i (neighbors i ++ [j]),
              setRow neighborMasks i
                     (Z.lor (neighborMasks i) (wrap64 (Z.shiftl 1 j))))
           else st)
        l (nb, mk) in
    fst st' i = nb i ++ filter (linked nvlMesh i) l /\
    (forall t, 0 <= t ->
       Z.testbit (snd st' i) t =
       Z.testbit (mk i) t ||
       existsb (fun j => (j =? t) && linked nvlMesh i j) l) /\
    (forall i', i' <> i -> fst st' i' = nb i' /\ snd st' i' = mk i').
Proof.
  induction l as [|j l IH]; intros Hl nb mk; cbn [fold_left filter existsb].
  - cbn [fst snd]. split; [ now rewrite app_nil_r |].
    split; [ intros t _; now rewrite orb_false_r | auto ].
  - assert (Hl' : forall j', In j' l -> 0 <= j' < 64)
      by (intros j' H; apply Hl; now right).
    pose proof (Hl j ltac:(now left)) as Hj.
    change (nvlMesh i j >? 0) with (linked nvlMesh i j).
    destruct (linked nvlMesh i j) eqn:E.
    + destruct (IH Hl' (setRow nb i (nb i ++ [j]))
                  (setRow mk i (Z.lor (mk i) (wrap64 (Z.shiftl 1 j)))))
        as [A [B C]].
      split; [| split ].
      * rewrite A, setRow_same, <- app_assoc. reflexivity.
      * intros t Ht. rewrite (B t Ht), setRow_same, Z.lor_spec.
        rewrite Z.shiftl_1_l, wrap64_small.
        2: { split; [ apply Z.pow_nonneg; lia |].
             apply Z.pow_lt_mono_r; lia. }
        rewrite Z.pow2_bits_eqb by lia. rewrite andb_true_r.
        now rewrite orb_assoc.
      * intros i' Hi'. destruct (C i' Hi') as [C1 C2].
        rewrite C1, C2, !setRow_other by exact Hi'. auto.
    + destruct (IH Hl' nb mk) as [A [B C]].
      split; [ exact A | split; [| exact C ] ].
      intros t Ht. rewrite (B t Ht). now rewrite andb_false_r.
Qed.

Lemma buildRows_spec (nvlMesh : NvlMesh) (cols rows : list Z) :
  (forall j, In j cols -> 0 <= j < 64) -> NoDup rows ->
  forall (nb : Z -> list Z) (mk : Z -> Z),
    let st' :=
      fold_left
        (fun st i =>
           fold_left
             (fun (st : (Z -> list Z) * (Z -> Z)) j =>
                let '(neighbors, neighborMasks) := st in
                if nvlMesh i j >? 0 then
                  (setRow neighbors i (neighbors i ++ [j]),
                   setRow neighborMasks i
                          (Z.lor (neighborMasks i) (wrap64 (Z.shiftl 1 j))))
                else st)
             cols st)
        rows (nb, mk) in
    (forall i, In i rows ->
       fst st' i = nb i ++ filter (linked nvlMesh i) cols /\
       forall t, 0 <= t ->
         Z.testbit (snd st' i) t =
         Z.testbit (mk i) t ||
         existsb (fun j => (j =? t) && linked nvlMesh i j) cols) /\
    (forall i, ~ In i rows -> fst st' i = nb i /\ snd st' i = mk i).
Proof.
  intros Hc. induction rows as [|a rows IH]; intros Hnd nb mk;
    cbn [fold_left].
  - split; [ intros i [] | auto ].
  - inversion Hnd as [|? ? Hna Hnd']; subst.
    destruct (buildRow_spec nvlMesh a cols Hc nb mk) as [A [B C]].
    set (st1 := fold_left _ cols (nb, mk)) in *.
    destruct st1 as [nb1 mk1] eqn:E1. cbn [fst snd] in A, B, C.
    destruct (IH Hnd' nb1 mk1) as [R1 R2].
    split.
    + intros i [<- | Hi].
      * destruct (R2 a Hna) as [F S]. rewrite F, S. split; [ exact A |].
        exact B.
      * assert (Hne : i <> a) by (intros ->; contradiction).
        destruct (R1 i Hi) as [F S]. destruct (C i Hne) as [C1 C2].
        rewrite F, C1. split; [ reflexivity |].
        intros t Ht. rewrite (S t Ht), C2. reflexivity.
    + intros i Hi.
      assert (Hne : i <> a) by (intros ->; apply Hi; now left).
      destruct (R2 i ltac:(intros H; apply Hi; now right)) as [F S].
      destruct (C i Hne) as [C1 C2]. rewrite F, S. auto.
Qed.

(** What [buildNeighbors] computes: the links of every rank in ascending
    order, and a mask whose bit [t] says whether there is a link to [t]. *)
Lemma buildNeighbors_spec (nvlMesh : NvlMesh) (i : Z) :
  0 <= i < kMaxDevices ->
  fst (buildNeighbors nvlMesh) i =
    filter (linked nvlMesh i) (seqZ kMaxDevices) /\
  forall t, 0 <= t ->
    Z.testbit (snd (buildNeighbors nvlMesh) i) t =
    (t <? kMaxDevices) && linked nvlMesh i t.
Proof.
  intros Hi. unfold buildNeighbors.
  pose proof (buildRows_spec nvlMesh (seqZ kMaxDevices) (seqZ kMaxDevices))
    as R.
  assert (H1 : forall j, In j (seqZ kMaxDevices) -> 0 <= j < 64).
  { intros j Hj. apply seqZ_In in Hj. unfold kMaxDevices in Hj. lia. }
  specialize (R H1 (seqZ_NoDup _) (fun _ : Z => @nil Z) (fun _ : Z => 0)).
  cbv zeta in R. destruct R as [R _].
  destruct (R i (proj2 (seqZ_In kMaxDevices i) Hi)) as [F S].
  split; [ rewrite F; apply app_nil_l |].
  intros t Ht. rewrite (S t Ht), Z.bits_0. cbn [orb].
  destruct (Z.ltb_spec t kMaxDevices) as [L|L]; cbn [andb].
  - destruct (linked nvlMesh i t) eqn:E.
    + apply existsb_exists. exists t.
      split; [ apply seqZ_In; lia |]. now rewrite Z.eqb_refl, E.
    + apply not_true_is_false. intros H. apply existsb_exists in H.
      destruct H as [j [_ H]]. apply andb_prop in H. destruct H as [H2 H3].
      apply Z.eqb_eq in H2. subst j. congruence.
  - apply not_true_is_false. intros H. apply existsb_exists in H.
    destruct H as [j [Hj H]]. apply andb_prop in H. destruct H as [H2 _].
    apply Z.eqb_eq in H2. subst j. apply seqZ_In in Hj. lia.
Qed.

(** Two masks are disjoint exactly when the ranks share no link target. *)
Lemma masks_disjoint_iff (nvlMesh : NvlMesh) (i j : Z) :
  0 <= i < kMaxDevices -> 0 <= j < kMaxDevices ->
  (Z.land (snd (buildNeighbors nvlMesh) i) (snd (buildNeighbors nvlMesh) j)
   =? 0) = sharesNoPeer nvlMesh i j.
Proof.
  intros Hi Hj.
  destruct (buildNeighbors_spec nvlMesh i Hi) as [_ Bi].
  destruct (buildNeighbors_spec nvlMesh j Hj) as [_ Bj].
  set (mi := snd (buildNeighbors nvlMesh) i) in *.
  set (mj := snd (buildNeighbors nvlMesh) j) in *.
  unfold sharesNoPeer.
  destruct (Z.eqb_spec (Z.land mi mj) 0) as [E|E]; symmetry.
  - apply forallb_forall. intros t Ht. apply seqZ_In in Ht.
    assert (B : Z.testbit (Z.land mi mj) t = false)
      by (rewrite E; apply Z.bits_0).
    rewrite Z.land_spec, Bi, Bj in B by lia.
    rewrite (proj2 (Z.ltb_lt t kMaxDevices)) in B by lia.
    cbn [andb] in B. now rewrite B.
  - apply not_true_is_false. intros F. apply E. apply Z.bits_inj.
    intros t. rewrite Z.bits_0.
    destruct (Z_lt_dec t 0) as [N|N]; [ now apply Z.testbit_neg_r |].
    rewrite Z.land_spec, Bi, Bj by lia.
    destruct (Z.ltb_spec t kMaxDevices) as [L|L]; [| reflexivity ].
    cbn [andb].
    rewrite forallb_forall in F.
    specialize (F t ltac:(apply seqZ_In; lia)).
    now apply negb_true_iff in F.
Qed.

Lemma recognition_decides (neighborMasks : Z -> Z) (nb0 : Z -> list Z)
    (l : list Z) :
  NoDup l ->
  forall st : (Z -> list Z) * HybridCubeMesh,
    (forall i, In i l -> fst st i = nb0 i) ->
    match foldM (recognizeRow neighborMasks) l st with
    | Some _ => true
    | None => false
    end =
    forallb
      (fun i =>
         (Z.of_nat (List.length (nb0 i)) =? 4) &&
         (Z.of_nat (List.length
            (filter (fun j => Z.land (neighborMasks i) (neighborMasks j) =? 0)
                    (seqZ kMaxDevices))) =? 1))
      l.
Proof.
  induction l as [|a l IH]; intros Hnd st Hst; cbn [foldM forallb].
  - reflexivity.
  - inversion Hnd as [|? ? Hna Hnd']; subst.
    unfold recognizeRow at 1. destruct st as [nb hcm].
    cbn [fst] in Hst. rewrite (Hst a ltac:(now left)).
    destruct (Z.of_nat (List.length (nb0 a)) =? 4); cbn [negb andb];
      [| reflexivity ].
    destruct (Z.of_nat (List.length _) =? 1); cbn [negb andb];
      [| reflexivity ].
    apply IH; [ exact Hnd' |].
    intros i Hi. cbn [fst]. rewrite setRow_other.
    + apply Hst. now right.
    + intros ->. contradiction.
Qed.

Lemma forallb_agree {A : Type} (f g : A -> bool) (l : list A) :
  (forall x, In x l -> f x = g x) -> forallb f l = forallb g l.
Proof.
  induction l as [|a l IH]; intros H; cbn; [ reflexivity |].
  rewrite (H a) by now left. f_equal. apply IH.
  intros x Hx. apply H. now right.
Qed.

(** X19.  The recognition loop of [getHybridCubeMesh], with its bit masks,
    decides the conditions on the link matrix: the function returns
    [std::nullopt] exactly when some rank does not have four links or does
    not have exactly one rank that shares no link target with it; this does
    not depend on the enumeration order of the neighbour sets. *)
Theorem getHybridCubeMesh_nullopt_iff (enumerate : list Z -> list Z)
    (nvlMesh : NvlMesh) :
  passesRecognition nvlMesh = isHybridCubeMesh nvlMesh /\
  (getHybridCubeMesh enumerate nvlMesh = Ok None <->
   isHybridCubeMesh nvlMesh = false).
Proof.
  assert (P : passesRecognition nvlMesh = isHybridCubeMesh nvlMesh).
  { unfold passesRecognition, isHybridCubeMesh.
    pose proof (buildNeighbors_spec nvlMesh) as B.
    pose proof (masks_disjoint_iff nvlMesh) as M.
    destruct (buildNeighbors nvlMesh) as [nb0 mk]. cbn [fst snd] in B, M.
    cbv beta iota zeta.
    match goal with
    | |- match foldM _ ?l ?st with Some _ => _ | None => _ end = _ =>
        rewrite (recognition_decides mk nb0 l (seqZ_NoDup _) st)
          by reflexivity
    end.
    apply forallb_agree. intros i Hi. apply seqZ_In in Hi.
    destruct (B i Hi) as [F _]. rewrite F. f_equal. f_equal. f_equal.
    f_equal. apply filter_ext_in. intros j Hj. apply seqZ_In in Hj.
    now apply M. }
  split; [ exact P |].
  rewrite <- P. unfold passesRecognition, getHybridCubeMesh.
  destruct (buildNeighbors nvlMesh) as [nb0 mk]. cbv beta iota zeta.
  destruct (foldM _ _ _) as [st|].
  - split; [| intros H; discriminate H ].
    destruct (assignColumns enumerate st); cbn [bind]; intros H;
      discriminate H.
  - split; reflexivity.
Qed.

(** ** The neighbour columns and the links *)

Lemma assignColumn_links (enumerate : list Z -> list Z)
    (neighbors0 : Z -> list Z) (i k : Z)
    (st st' : (Z -> list Z) * HybridCubeMesh) :
  (forall s x, In x (enumerate s) -> In x s) ->
  0 <= k < 3 ->
  linkInv neighbors0 st -> assignColumn enumerate i k st = Ok st' ->
  linkInv neighbors0 st'.
Proof.
  intros Hincl Hk [L1 L2] Hstep. destruct st as [nb hcm].
  unfold assignColumn in Hstep. cbn [fst snd] in *.
  set (hcm1 := match find (fun j => hcm j k =? -1) (enumerate (nb i)) with
               | Some j => setEntry (setEntry hcm i k j) j k i
               | None => hcm
               end) in *.
  destruct (Z.eqb_spec (hcm1 i k) (-1)) as [|Hset]; cbn in Hstep;
    [ discriminate Hstep |].
  injection Hstep as <-. unfold linkInv. cbn [fst snd]. split.
  - intros i0 x. unfold setRow. destruct (i0 =? i) eqn:E.
    + apply Z.eqb_eq in E. subst i0. rewrite erase_In.
      intros [H _]. now apply L1.
    + apply L1.
  - intros i' k' Hk'. unfold hcm1.
    destruct (find (fun j => hcm j k =? -1) (enumerate (nb i))) as [j|] eqn:F;
      [| now apply L2 ].
    apply find_some in F. destruct F as [Hj _].
    apply Hincl in Hj. apply L1 in Hj.
    unfold setEntry.
    destruct (Z.eqb_spec i' j) as [->|Hn1], (Z.eqb_spec k' k) as [->|Hn2];
      cbn [andb].
    + right. right. exact Hj.
    + destruct (Z.eqb_spec j i); cbn [andb]; now apply L2.
    + destruct (Z.eqb_spec i' i) as [->|Hn3]; cbn [andb].
      * right. left. exact Hj.
      * now apply L2.
    + destruct (Z.eqb_spec i' i); cbn [andb]; now apply L2.
Qed.

Lemma assignColumns_links (enumerate : list Z -> list Z)
    (neighbors0 : Z -> list Z) (st st' : (Z -> list Z) * HybridCubeMesh) :
  (forall s x, In x (enumerate s) -> In x s) ->
  linkInv neighbors0 st -> assignColumns enumerate st = Ok st' ->
  linkInv neighbors0 st'.
Proof.
  intros Hincl H0 Hrun. unfold assignColumns in Hrun.
  apply (foldR_invariant _ (fun _ s => linkInv neighbors0 s) _ _ _ H0)
    in Hrun; [ exact Hrun |].
  intros _ i s1 s1' _ H1 Hrow.
  apply (foldR_invariant _ (fun _ s => linkInv neighbors0 s) _ _ _ H1)
    in Hrow; [ exact Hrow |].
  intros _ k s2 s2' Hin H2 Hcol. apply seqZ_In in Hin.
  apply (assignColumn_links enumerate neighbors0 i k s2 s2' Hincl Hin H2 Hcol).
Qed.

(** X23.  The neighbour entries of a returned role table are joined to
    their row by a link of the matrix: [hcm[i][k]], for [k < 3], is a rank
    that [i] has a link to, or that has a link to [i].  When the matrix
    reports every link in both directions, the kernel of rank [i] thus reads
    its three neighbours' buffers over links of its own. *)
Theorem role_table_neighbours_are_links (enumerate : list Z -> list Z)
    (nvlMesh : NvlMesh) (hcm : HybridCubeMesh) :
  (forall s x, In x (enumerate s) -> In x s) ->
  getHybridCubeMesh enumerate nvlMesh = Ok (Some hcm) ->
  forall i k, 0 <= i < kMaxDevices -> 0 <= k < 3 ->
    (linked nvlMesh i (hcm i k) = true \/
     linked nvlMesh (hcm i k) i = true) /\
    ((forall a b, 0 <= a < kMaxDevices -> 0 <= b < kMaxDevices ->
                  linked nvlMesh a b = linked nvlMesh b a) ->
     linked nvlMesh i (hcm i k) = true).
Proof.
  intros Hincl Hrun i k Hi Hk.
  destruct (getHybridCubeMesh_facts enumerate nvlMesh hcm Hincl Hrun)
    as [relay [_ R2]].
  destruct (R2 i k Hi Hk) as [Hrange _].
  destruct (getHybridCubeMesh_inv enumerate nvlMesh hcm Hrun)
    as [st [st' [Hrec [Hassign ->]]]].
  pose proof (recognition_facts _ _ st Hrec) as [_ [D2 D3]].
  assert (L0 : linkInv (fst (buildNeighbors nvlMesh)) st).
  { split; [ exact D3 |]. intros i0 k0 Hk0. left. apply D2. lia. }
  pose proof (assignColumns_links enumerate _ st st' Hincl L0 Hassign)
    as [_ L2].
  assert (Hne : snd st' i k <> -1) by lia.
  assert (Hl : linked nvlMesh i (snd st' i k) = true \/
               linked nvlMesh (snd st' i k) i = true).
  { destruct (L2 i k Hk) as [E | [H | H]]; [ contradiction | left | right ].
    - rewrite (proj1 (buildNeighbors_spec nvlMesh i Hi)) in H.
      apply filter_In in H. exact (proj2 H).
    - rewrite (proj1 (buildNeighbors_spec nvlMesh _ Hrange)) in H.
      apply filter_In in H. exact (proj2 H). }
  split; [ exact Hl |].
  intros Hsym. destruct Hl as [H | H]; [ exact H |].
  now rewrite (Hsym i (snd st' i k) Hi Hrange).
Qed.

(** [role_table_neighbours_are_links] on the table of [dgx1Mesh], at rank 6
    and column 1. *)
Lemma role_table_neighbours_are_links_witness :
  (forall s x, In x (reverseInsertionOrder s) -> In x s) /\
  getHybridCubeMesh reverseInsertionOrder dgx1Mesh = Ok (Some dgx1Table) /\
  0 <= 6 < kMaxDevices /\ 0 <= 1 < 3 /\
  (linked dgx1Mesh 6 (dgx1Table 6 1) = true \/
   linked dgx1Mesh (dgx1Table 6 1) 6 = true) /\
  ((forall a b, 0 <= a < kMaxDevices -> 0 <= b < kMaxDevices ->
                linked dgx1Mesh a b = linked dgx1Mesh b a) ->
   linked dgx1Mesh 6 (dgx1Table 6 1) = true).
Proof.
  assert (R : 0 <= 6 < kMaxDevices) by (unfold kMaxDevices; lia).
  split; [ exact reverseInsertionOrder_incl |].
  split; [ exact dgx1Table_returned |].
  split; [ exact R |]. split; [ lia |].
  apply (role_table_neighbours_are_links reverseInsertionOrder dgx1Mesh
           dgx1Table reverseInsertionOrder_incl dgx1Table_returned 6 1 R).
  lia.
Defined.

(** X24.  The relay column of a returned role table, read on the matrix:
    [hcm[i][3]] is the one rank that shares no link target with [i]. *)
Theorem relay_is_the_rank_sharing_no_peer (enumerate : list Z -> list Z)
    (nvlMesh : NvlMesh) (hcm : HybridCubeMesh) :
  (forall s x, In x (enumerate s) -> In x s) ->
  getHybridCubeMesh enumerate nvlMesh = Ok (Some hcm) ->
  forall i j, 0 <= i < kMaxDevices -> 0 <= j < kMaxDevices ->
    (sharesNoPeer nvlMesh i j = true <-> j = hcm i 3).
Proof.
  intros Hincl Hrun i j Hi Hj.
  destruct (getHybridCubeMesh_inv enumerate nvlMesh hcm Hrun)
    as [st [st' [Hrec [Hassign ->]]]].
  pose proof (buildNeighbors_range nvlMesh) as Hrange.
  pose proof (masks_disjoint_iff nvlMesh i j Hi Hj) as M.
  set (mk := snd (buildNeighbors nvlMesh)) in *.
  set (nb0 := fst (buildNeighbors nvlMesh)) in *.
  clearbody mk nb0.
  pose proof (recognition_facts mk nb0 st Hrec) as HR.
  pose proof (assignInv_of_recognition mk nb0 Hrange st HR) as HI.
  destruct (assignColumns_facts enumerate Hincl mk st st' HI Hassign)
    as [[A1 _] _].
  destruct (A1 i Hi) as [Rec [E _]]. rewrite E, <- M.
  unfold recognized in Rec.
  assert (F : forall x, In x (relayNeighborsOf mk i) <->
                        ((0 <= x < kMaxDevices) /\
                         ((Z.land (mk i) (mk x) =? 0) = true))).
  { intros x. unfold relayNeighborsOf. rewrite filter_In, seqZ_In.
    reflexivity. }
  split.
  - intros H.
    assert (Hin : In j (relayNeighborsOf mk i)) by (apply F; auto).
    rewrite Rec in Hin. destruct Hin as [<- | []]. reflexivity.
  - intros ->.
    assert (Hin : In (relayOf mk i) (relayNeighborsOf mk i)).
    { set (r := relayOf mk i) in *. rewrite Rec. now left. }
    apply F in Hin. exact (proj2 Hin).
Qed.

(** [relay_is_the_rank_sharing_no_peer] on the table of [dgx1Mesh], at
    ranks 6 and 2. *)
Lemma relay_is_the_rank_sharing_no_peer_witness :
  (forall s x, In x (reverseInsertionOrder s) -> In x s) /\
  getHybridCubeMesh reverseInsertionOrder dgx1Mesh = Ok (Some dgx1Table) /\
  0 <= 6 < kMaxDevices /\ 0 <= 2 < kMaxDevices /\
  (sharesNoPeer dgx1Mesh 6 2 = true <-> 2 = dgx1Table 6 3).
Proof.
  assert (R6 : 0 <= 6 < kMaxDevices) by (unfold kMaxDevices; lia).
  assert (R2 : 0 <= 2 < kMaxDevices) by (unfold kMaxDevices; lia).
  split; [ exact reverseInsertionOrder_incl |].
  split; [ exact dgx1Table_returned |].
  split; [ exact R6 |]. split; [ exact R2 |].
  apply (relay_is_the_rank_sharing_no_peer reverseInsertionOrder dgx1Mesh
           dgx1Table reverseInsertionOrder_incl dgx1Table_returned 6 2
           R6 R2).
Defined.
